(** * SCC: the comment stripper of tp_rc/scc/scc.hpp

    A shallow embedding of class [SCC] (src/tp_rc/scc/scc.hpp) and the
    properties of its scanner.

    Conventions of the embedding.
    - [char] is [ascii]; [int] is [Z].  Plain [char] is signed where the
      repository is built (g++ on x86-64 Linux, no -funsigned-char), so
      [int c = *itr] is [int_of_char], with values -128..127: the byte
      0xFF is -1, which is [EOF], and the bytes 0x80..0xFE are negative.
      An [int] passed where the source takes a [char] goes through
      [to_char].
    - [assert] is compiled in (no NDEBUG).  A function that holds an
      assertion, or calls one that does, is a computation of [Ab]: it
      gives a value, or nothing when [abort] ended the process, and the
      members as they were then.  The functions without any are state
      transformers of [M], run inside [Ab] by [lift].
    - The iterator [itr] is the index of the next character of [m_input].
    - Counters that only count loop rounds ([bs_count], [bsnl], [len],
      [idx], [count]) are [nat]; the line counters are [Z].
    - A C string is the list of its characters; the terminating NUL is the
      end of the list, and functions that walk a C string stop at a NUL
      inside the list too.
    - [printf] of a warning appends (line, text) to [console].
    - Every loop that reads the input is a [Fixpoint] on a round budget;
      the callers give [fuel], one more than the length of the input.  A
      loop that used up its budget sets [stuck]; [Step_full_scan] shows
      that no scan does, aborted or not ([SCC_never_stuck]).
    - [code_chan], [comment_chan], [n_fill] and [stuck] are observations
      of the calls made, not program state: nothing reads them. *)

From Stdlib Require Import ZArith List Ascii String Bool Arith Lia DecimalString.
Import ListNotations.
Local Open Scope Z_scope.
Local Open Scope list_scope.

(** ** Characters *)

Definition int := Z.
Definition EOF : int := -1.
Definition UCHAR_MAX : int := 255.

(** A [char] read as an [int]: sign extension of the byte. *)
Definition int_of_char (c : ascii) : int :=
  let n := Z.of_N (N_of_ascii c) in
  if n <? 128 then n else n - 256.

(** An [int] stored in a [char]: its low eight bits. *)
Definition to_char (z : int) : ascii := ascii_of_N (Z.to_N (z mod 256)).

(** A character constant of the source, as the [int] it is compared with. *)
Definition chr (c : ascii) : int := int_of_char c.

Definition NUL : ascii := "000"%char.
Definition TAB : ascii := "009"%char.
Definition NL : ascii := "010"%char.
Definition VT : ascii := "011"%char.
Definition FF : ascii := "012"%char.
Definition SPACE : ascii := " "%char.
Definition DQUOTE : ascii := "034"%char.
Definition SQUOTE : ascii := "'"%char.
Definition BSLASH : ascii := "\"%char.
Definition LPAREN : ascii := "("%char.
Definition RPAREN : ascii := ")"%char.
Definition MAX_RAW_MARKER : nat := 16.

(** <ctype.h> in the C locale; all of them are false at [EOF] and at the
    negative values of the bytes 0x80..0xFE. *)
Definition in_range (lo hi : ascii) (c : int) : bool :=
  (chr lo <=? c) && (c <=? chr hi).
Definition isdigit (c : int) : bool := in_range "0" "9" c.
Definition isxdigit (c : int) : bool :=
  isdigit c || in_range "a" "f" c || in_range "A" "F" c.
Definition isalpha (c : int) : bool := in_range "a" "z" c || in_range "A" "Z" c.
Definition isalnum (c : int) : bool := isalpha c || isdigit c.
Definition isgraph (c : int) : bool := in_range "!" "~" c.

(** [c == EOF || (c >= 0 && c <= UCHAR_MAX)], what [is_idchar],
    [is_binary] and [is_octal] assert of their argument. *)
Definition valid_int (c : int) : bool :=
  (c =? EOF) || ((0 <=? c) && (c <=? UCHAR_MAX)).

(** The C string held in a buffer: the characters before the first NUL. *)
Fixpoint c_str (buf : list ascii) : list ascii :=
  match buf with
  | [] => []
  | c :: rest => if Ascii.eqb c NUL then [] else c :: c_str rest
  end.

(** [buf[i]] of a C string buffer: the terminator at the end of the list.
    The source never defines the cells behind the terminator; they are read
    as NUL here, and are reached only when the input holds a NUL. *)
Definition char_at (buf : list ascii) (i : nat) : int :=
  int_of_char (nth i buf NUL).

(** ** Standards and features *)

Inductive Standard : Set :=
| C | C89 | C90 | C94 | C99 | C11 | C18
| CXX | CXX98 | CXX03 | CXX11 | CXX14 | CXX17.

(** The value an object of the enumeration holds; any [int] can be cast
    to it. *)
Definition Standard_value (st : Standard) : Z :=
  match st with
  | C => 0 | C89 => 1 | C90 => 2 | C94 => 3 | C99 => 4 | C11 => 5 | C18 => 6
  | CXX => 7 | CXX98 => 8 | CXX03 => 9 | CXX11 => 10 | CXX14 => 11
  | CXX17 => 12
  end.

Definition all_standards : list Standard :=
  [C; C89; C90; C94; C99; C11; C18; CXX; CXX98; CXX03; CXX11; CXX14; CXX17].

Definition Standard_of_value (v : Z) : option Standard :=
  find (fun st => Standard_value st =? v) all_standards.

Definition standardToString (standard : Z) : string :=
  match Standard_of_value standard with
  | Some C => "C" | Some CXX => "C++"
  | Some C89 => "C89" | Some C90 => "C90" | Some C94 => "C94"
  | Some C99 => "C99" | Some C11 => "C11" | Some C18 => "C18"
  | Some CXX98 => "C++98" | Some CXX03 => "C++03" | Some CXX11 => "C++11"
  | Some CXX14 => "C++14" | Some CXX17 => "C++17"
  | None => ""
  end.

Inductive Feature : Set :=
| F_HEXFLOAT | F_RAWSTRING | F_DOUBLESLASH | F_UNICODE | F_BINARY
| F_NUMPUNCT | F_UNIVERSAL.

Definition featureToNameString (feature : Feature) : string :=
  match feature with
  | F_HEXFLOAT => "Hexadecimal floating point constant"
  | F_RAWSTRING => "Raw string"
  | F_DOUBLESLASH => "Double slash comment"
  | F_UNICODE => "Unicode character or string"
  | F_BINARY => "Binary literal"
  | F_NUMPUNCT => "Numeric punctuation"
  | F_UNIVERSAL => "Universal character name"
  end.

Record Features : Set := mkFeatures {
  f_DoubleSlash : bool;
  f_RawString : bool;
  f_Unicode : bool;
  f_Binary : bool;
  f_HexFloat : bool;
  f_NumPunct : bool;
  f_Universal : bool
}.

(** The member initialisers: every feature off. *)
Definition no_features : Features := mkFeatures false false false false false false false.

Definition on_DoubleSlash (f : Features) : Features :=
  mkFeatures true (f_RawString f) (f_Unicode f) (f_Binary f) (f_HexFloat f) (f_NumPunct f) (f_Universal f).
Definition on_RawString (f : Features) : Features :=
  mkFeatures (f_DoubleSlash f) true (f_Unicode f) (f_Binary f) (f_HexFloat f) (f_NumPunct f) (f_Universal f).
Definition on_Unicode (f : Features) : Features :=
  mkFeatures (f_DoubleSlash f) (f_RawString f) true (f_Binary f) (f_HexFloat f) (f_NumPunct f) (f_Universal f).
Definition on_Binary (f : Features) : Features :=
  mkFeatures (f_DoubleSlash f) (f_RawString f) (f_Unicode f) true (f_HexFloat f) (f_NumPunct f) (f_Universal f).
Definition on_HexFloat (f : Features) : Features :=
  mkFeatures (f_DoubleSlash f) (f_RawString f) (f_Unicode f) (f_Binary f) true (f_NumPunct f) (f_Universal f).
Definition on_NumPunct (f : Features) : Features :=
  mkFeatures (f_DoubleSlash f) (f_RawString f) (f_Unicode f) (f_Binary f) (f_HexFloat f) true (f_Universal f).
Definition on_Universal (f : Features) : Features :=
  mkFeatures (f_DoubleSlash f) (f_RawString f) (f_Unicode f) (f_Binary f) (f_HexFloat f) (f_NumPunct f) true.

(** The labels of the switch of [set_features], each falling through to
    the next one of its group. *)
Definition from_C99 (f : Features) : Features :=
  on_DoubleSlash (on_Universal (on_HexFloat f)).
Definition from_C11 (f : Features) : Features := from_C99 (on_Unicode f).
Definition from_CXX98 (f : Features) : Features :=
  on_DoubleSlash (on_Universal f).
Definition from_CXX11 (f : Features) : Features :=
  from_CXX98 (on_Unicode (on_RawString f)).
Definition from_CXX14 (f : Features) : Features :=
  from_CXX11 (on_NumPunct (on_Binary f)).
Definition from_CXX17 (f : Features) : Features := from_CXX14 (on_HexFloat f).

(** [set_features]: the features of a standard, or the exception of the
    [default:] label ([inl] carries the text thrown). *)
Definition set_features (code : Z) : string + Features :=
  match Standard_of_value code with
  | Some C89 | Some C90 | Some C94 => inr no_features
  | Some C | Some C11 | Some C18 => inr (from_C11 no_features)
  | Some C99 => inr (from_C99 no_features)
  | Some CXX | Some CXX17 => inr (from_CXX17 no_features)
  | Some CXX14 => inr (from_CXX14 no_features)
  | Some CXX11 => inr (from_CXX11 no_features)
  | Some CXX98 | Some CXX03 => inr (from_CXX98 no_features)
  | None => inl "Invalid standard code"%string
  end.

(** ** The object *)

(** What the constructor fixes before the scan starts. *)
Record Env : Type := mkEnv {
  m_input : list ascii;
  standard : Z;
  printCommentsNotCode : bool;
  printEmptyCommentInsteadOfBlank : bool;
  warnAboutNestedCStyleComments : bool;
  qchar : ascii;
  schar : ascii;
  features : Features
}.

(** What the scan changes. *)
Record State : Type := mkState {
  itr : nat;
  nline : Z;
  l_nest : Z;
  l_cend : Z;
  l_comment : bool;
  m_result : list ascii;
  console : list (Z * string);
  code_chan : list ascii;
  comment_chan : list ascii;
  n_fill : nat;
  stuck : bool
}.

Definition set_itr (i : nat) (s : State) : State :=
  mkState i (nline s) (l_nest s) (l_cend s) (l_comment s) (m_result s)
    (console s) (code_chan s) (comment_chan s) (n_fill s) (stuck s).
Definition set_nline (n : Z) (s : State) : State :=
  mkState (itr s) n (l_nest s) (l_cend s) (l_comment s) (m_result s)
    (console s) (code_chan s) (comment_chan s) (n_fill s) (stuck s).
Definition set_l_nest (n : Z) (s : State) : State :=
  mkState (itr s) (nline s) n (l_cend s) (l_comment s) (m_result s)
    (console s) (code_chan s) (comment_chan s) (n_fill s) (stuck s).
Definition set_l_cend (n : Z) (s : State) : State :=
  mkState (itr s) (nline s) (l_nest s) n (l_comment s) (m_result s)
    (console s) (code_chan s) (comment_chan s) (n_fill s) (stuck s).
Definition set_l_comment (b : bool) (s : State) : State :=
  mkState (itr s) (nline s) (l_nest s) (l_cend s) b (m_result s)
    (console s) (code_chan s) (comment_chan s) (n_fill s) (stuck s).
Definition set_m_result (r : list ascii) (s : State) : State :=
  mkState (itr s) (nline s) (l_nest s) (l_cend s) (l_comment s) r
    (console s) (code_chan s) (comment_chan s) (n_fill s) (stuck s).
Definition set_console (w : list (Z * string)) (s : State) : State :=
  mkState (itr s) (nline s) (l_nest s) (l_cend s) (l_comment s) (m_result s)
    w (code_chan s) (comment_chan s) (n_fill s) (stuck s).
Definition set_code_chan (l : list ascii) (s : State) : State :=
  mkState (itr s) (nline s) (l_nest s) (l_cend s) (l_comment s) (m_result s)
    (console s) l (comment_chan s) (n_fill s) (stuck s).
Definition set_comment_chan (l : list ascii) (s : State) : State :=
  mkState (itr s) (nline s) (l_nest s) (l_cend s) (l_comment s) (m_result s)
    (console s) (code_chan s) l (n_fill s) (stuck s).
Definition set_n_fill (n : nat) (s : State) : State :=
  mkState (itr s) (nline s) (l_nest s) (l_cend s) (l_comment s) (m_result s)
    (console s) (code_chan s) (comment_chan s) n (stuck s).
Definition set_stuck (s : State) : State :=
  mkState (itr s) (nline s) (l_nest s) (l_cend s) (l_comment s) (m_result s)
    (console s) (code_chan s) (comment_chan s) (n_fill s) true.

(** The member initialisers of the class. *)
Definition initial_State : State :=
  mkState 0 0 0 0 false [] [] [] [] 0 false.

(** ** Member functions as state transformers *)

Definition M (A : Type) : Type := State -> A * State.

Definition ret {A : Type} (a : A) : M A := fun s => (a, s).
Definition bind {A B : Type} (m : M A) (f : A -> M B) : M B :=
  fun s => let r := m s in f (fst r) (snd r).
Definition gets {A : Type} (f : State -> A) : M A := fun s => (f s, s).
Definition modify (f : State -> State) : M unit := fun s => (tt, f s).

Declare Scope scc_scope.
Delimit Scope scc_scope with scc.
Notation "x <- m ;; k" := (bind m (fun x => k))
  (at level 61, m at next level, right associativity) : scc_scope.
Notation "m ;;; k" := (bind m (fun _ => k))
  (at level 61, right associativity) : scc_scope.
Local Open Scope scc_scope.

(** [when b m]: an [if] without [else]. *)
Definition when (b : bool) (m : M unit) : M unit := if b then m else ret tt.

(** A body run [n] times. *)
Fixpoint times (n : nat) (m : M unit) : M unit :=
  match n with
  | O => ret tt
  | S k => m ;;; times k m
  end.

(** The budget of a loop ran out. *)
Definition out_of_fuel {A : Type} (a : A) : M A := fun s => (a, set_stuck s).

(** ** Member functions that can abort *)

(** [None]: an assertion failed and [abort] ended the process; the state
    is the one the members were in then. *)
Definition Ab (A : Type) : Type := State -> option A * State.

Definition ret_ab {A : Type} (a : A) : Ab A := fun s => (Some a, s).
Definition bind_ab {A B : Type} (m : Ab A) (f : A -> Ab B) : Ab B :=
  fun s => let r := m s in
           match fst r with
           | Some a => f a (snd r)
           | None => (None, snd r)
           end.

(** A call of a function that holds no assertion. *)
Definition lift {A : Type} (m : M A) : Ab A :=
  fun s => let r := m s in (Some (fst r), snd r).

Definition abort {A : Type} : Ab A := fun s => (None, s).

(** [assert(b)] *)
Definition assert_ (b : bool) : Ab unit := if b then ret_ab tt else abort.

Declare Scope ab_scope.
Delimit Scope ab_scope with ab.
Bind Scope ab_scope with Ab.
Bind Scope scc_scope with M.
Notation "x <- m ;; k" := (bind_ab m (fun x => k))
  (at level 61, m at next level, right associativity) : ab_scope.
Notation "m ;;; k" := (bind_ab m (fun _ => k))
  (at level 61, right associativity) : ab_scope.
Arguments lift {A} m%_scc.

Definition when_ab (b : bool) (m : Ab unit) : Ab unit := if b then m else ret_ab tt.

(** <ctype.h> functions passed as [digit_check]. *)
Definition ctype (p : int -> bool) (c : int) : Ab bool := ret_ab (p c).

Definition is_idchar (c : int) : Ab bool :=
  (assert_ (valid_int c) ;;;
   ret_ab (isalnum c || (c =? chr "_")))%ab.

Definition is_binary (c : int) : Ab bool :=
  (assert_ (valid_int c) ;;;
   ret_ab ((c =? chr "0") || (c =? chr "1")))%ab.

Definition is_octal (c : int) : Ab bool :=
  (assert_ (valid_int c) ;;;
   ret_ab ((chr "0" <=? c) && (c <=? chr "7")))%ab.

Definition fuel (E : Env) : nat := S (List.length (m_input E)).

Inductive Comment : Set := NonComment | CComment | CppComment.

Definition Comment_eqb (a b : Comment) : bool :=
  match a, b with
  | NonComment, NonComment | CComment, CComment | CppComment, CppComment => true
  | _, _ => false
  end.

(** How a loop of [endquote] or [raw_scan_string] was left. *)
Inductive Leave (A : Type) : Type :=
| Fell_out (a : A)   (* the condition failed, or [break] *)
| Returned.          (* [return] inside the loop *)
Arguments Fell_out {A} a.
Arguments Returned {A}.

Definition str (s : string) : list ascii := list_ascii_of_string s.
Definition text (l : list ascii) : string := string_of_list_ascii l.
Definition dec (z : Z) : string := NilZero.string_of_int (Z.to_int z).

Section Scanner.

Variable E : Env.

(** *** Cursor *)

Definition putchar (c : ascii) : M unit :=
  modify (fun s => set_m_result (m_result s ++ [c]) s).

Definition getch : M int :=
  at_end <- gets (fun s => (List.length (m_input E) <=? itr s)%nat) ;;
  if at_end then ret EOF
  else
    c <- gets (fun s => int_of_char (nth (itr s) (m_input E) NUL)) ;;
    modify (fun s => set_itr (S (itr s)) s) ;;;
    when (c =? chr NL) (modify (fun s => set_nline (nline s + 1) s)) ;;;
    ret c.

Definition ungetch (c : ascii) : M unit :=
  when (int_of_char c =? chr NL) (modify (fun s => set_nline (nline s - 1) s)) ;;;
  at_begin <- gets (fun s => (itr s =? 0)%nat) ;;
  when (negb at_begin) (modify (fun s => set_itr (pred (itr s)) s)).

Definition peek : M int :=
  c <- getch ;;
  when (negb (c =? EOF)) (ungetch (to_char c)) ;;;
  ret c.

(** *** Output *)

(** Put source code character *)
Definition s_putch (c : ascii) : M unit :=
  when (negb (printCommentsNotCode E)) (putchar c) ;;;
  when (int_of_char c =? chr NL) (modify (set_l_comment false)) ;;;
  modify (fun s => set_code_chan (code_chan s ++ [c]) s).

(** Put comment (non-code) character *)
Definition c_putch (c : ascii) : M unit :=
  when (printCommentsNotCode E) (putchar c) ;;;
  modify (fun s => set_comment_chan (comment_chan s ++ [c]) s).

(** The calls of [s_putch] that write what stands in for a comment (the
    blank, or the pieces of the empty comment), counted in [n_fill]. *)
Definition s_fill (c : ascii) : M unit :=
  s_putch c ;;;
  modify (fun s => set_n_fill (S (n_fill s)) s).

(** Output string of statement characters *)
Fixpoint s_putstr (buf : list ascii) : M unit :=
  match buf with
  | [] => ret tt
  | c :: rest =>
      if Ascii.eqb c NUL then ret tt else s_putch c ;;; s_putstr rest
  end.

Definition warning (msg : string) (line : Z) : M unit :=
  modify (fun s => set_console (console s ++ [(line, msg)]) s).

Definition warning2 (s1 s2 : string) (line : Z) : M unit :=
  warning (s1 ++ " " ++ s2)%string line.

Definition feature_text (feature : Feature) : string :=
  (featureToNameString feature ++ " feature used but not supported in "
     ++ standardToString (standard E))%string.

(** [feature] is one of the enumeration, as the assertion of the source
    wants it. *)
Definition warn_feature (feature : Feature) : M unit :=
  line <- gets nline ;;
  warning (feature_text feature) line.

Definition put_quote_char (q c : ascii) : M unit :=
  if (int_of_char q =? chr SQUOTE) && negb (int_of_char (qchar E) =? 0) then
    s_putch (qchar E)
  else if (int_of_char q =? chr DQUOTE) && negb (int_of_char (schar E) =? 0) then
    s_putch (schar E)
  else
    s_putch c.

Fixpoint put_quote_str (q : ascii) (buf : list ascii) : M unit :=
  match buf with
  | [] => ret tt
  | c :: rest =>
      if Ascii.eqb c NUL then ret tt
      else put_quote_char q c ;;; put_quote_str q rest
  end.

(** *** Quoted literals *)

(** [while ((c2 = getch()) != EOF && c2 == '\\') bs_count++;] *)
Fixpoint count_backslashes (n : nat) (bs_count : nat) : M (int * nat) :=
  match n with
  | O => out_of_fuel (EOF, bs_count)
  | S k =>
      c2 <- getch ;;
      if negb (c2 =? EOF) && (c2 =? chr BSLASH)
      then count_backslashes k (S bs_count)
      else ret (c2, bs_count)
  end.

(** [for (int i = 0; i < bound; i += 2) body], by the distance [bound - i]
    still to go. *)
Fixpoint every_second (distance : nat) (body : M unit) : M unit :=
  match distance with
  | O => ret tt
  | S O => body
  | S (S d) => body ;;; every_second d body
  end.

Fixpoint endquote_loop (n : nat) (q : ascii) (msg : string) : M (Leave int) :=
  match n with
  | O => out_of_fuel Returned
  | S k =>
      c1 <- getch ;;
      if negb (negb (c1 =? EOF) && negb (c1 =? int_of_char q)) then
        ret (Fell_out c1)
      else if c1 =? chr BSLASH then
        r <- count_backslashes (fuel E) 1 ;;
        let c2 := fst r in
        let bs_count := snd r in
        if c2 =? EOF then
          (* Stream of backslashes and newline - bug in source code *)
          times bs_count (put_quote_char q (to_char c1)) ;;;
          ret (Fell_out c1)
        else if c2 =? chr NL then
          (* Echo the other backslashes and then emit backslash-newline *)
          times (bs_count - 1) (put_quote_char q (to_char c1)) ;;;
          s_putch (to_char c1) ;;;
          s_putch (to_char c2) ;;;
          endquote_loop k q msg
        else
          (* Emit pairs of backslashes - then work out what to do *)
          every_second (bs_count - 1) (put_quote_str q [BSLASH; BSLASH]) ;;;
          if (bs_count mod 2 =? 0)%nat then
            s_putch (to_char c2) ;;;
            if c2 =? int_of_char q then ret Returned
            else endquote_loop k q msg
          else
            put_quote_char q (to_char c1) ;;;
            put_quote_char q (to_char c2) ;;;
            when (((c2 =? chr "u") || (c2 =? chr "U")) && negb (f_Universal (features E)))
                 (warn_feature F_UNIVERSAL) ;;;
            endquote_loop k q msg
      else if c1 =? chr NL then
        put_quote_char q (to_char c1) ;;;
        line <- gets nline ;;
        warning2 "newline in" msg (line - 1) ;;;
        (* Heuristic recovery - assume close quote at end of line *)
        ret Returned
      else
        put_quote_char q (to_char c1) ;;;
        endquote_loop k q msg
  end.

Definition endquote (q : ascii) (msg : string) : M unit :=
  r <- endquote_loop (fuel E) q msg ;;
  match r with
  | Returned => ret tt
  | Fell_out c1 =>
      if c1 =? EOF then
        line <- gets nline ;;
        warning2 "EOF in" msg line
      else
        s_putch q
  end.

(** *** Backslash-newline pairs *)

Fixpoint read_bsnl_loop (k : nat) (n : nat) : M nat :=
  match k with
  | O => out_of_fuel n
  | S k' =>
      c <- peek ;;
      if c =? EOF then ret n
      else if negb (c =? chr BSLASH) then ret n
      else
        _ <- getch ;;              (* Read backslash *)
        c' <- peek ;;
        if negb (c' =? chr NL) then  (* Single pushback *)
          ungetch BSLASH ;;;       (* Double pushback *)
          ret n
        else
          _ <- getch ;;            (* Read newline *)
          read_bsnl_loop k' (S n)
  end.

Definition read_bsnl : M nat := read_bsnl_loop (fuel E) 0.

Definition write_bsnl (bsnl : nat) (put : ascii -> M unit) : M unit :=
  times bsnl (put BSLASH ;;; put NL).

(** *** Comments *)

Definition c_comment (c : int) : M Comment :=
  if c =? chr "*" then
    bsnl <- read_bsnl ;;
    pc <- peek ;;
    if pc =? chr "/" then
      modify (set_l_comment true) ;;;
      _ <- getch ;;
      c_putch "*" ;;;
      write_bsnl bsnl c_putch ;;;
      c_putch "/" ;;;
      s_fill " " ;;;
      when (printEmptyCommentInsteadOfBlank E) (s_fill "*" ;;; s_fill "/") ;;;
      ret NonComment
    else
      c_putch (to_char c) ;;;
      write_bsnl bsnl c_putch ;;;
      ret CComment
  else
    nested <- (if warnAboutNestedCStyleComments E && (c =? chr "/")
               then pc <- peek ;; ret (pc =? chr "*")
               else ret false) ;;
    if nested then
      line <- gets nline ;;
      last <- gets l_nest ;;
      when (negb (last =? line)) (warning "nested C-style comment" line) ;;;
      modify (set_l_nest line) ;;;
      c_putch (to_char c) ;;;
      ret CComment
    else
      c_putch (to_char c) ;;;
      ret CComment.

Definition cpp_comment (c oc : int) : M Comment :=
  if (c =? chr NL) && negb (oc =? chr BSLASH) then
    s_putch (to_char c) ;;;
    ret NonComment
  else
    c_putch (to_char c) ;;;
    ret CppComment.

(** *** Universal character names *)

(** The [for] loop of [scan_ucn]: [todo] rounds are left, [digits] is
    [str[0..i-1]], [c] the character read last.  It gives [ok], [str] and
    [c]. *)
Fixpoint scan_ucn_loop (todo : nat) (digits : list ascii) (c : int)
  : M (bool * (list ascii * int)) :=
  match todo with
  | O => ret (true, (digits, c))
  | S k =>
      c' <- getch ;;
      if c' =? EOF then ret (false, (digits, c'))
      else if negb (isxdigit c') then
        s_putch (to_char c') ;;;
        ret (false, (digits, c'))
      else
        s_putch (to_char c') ;;;
        scan_ucn_loop k (digits ++ [to_char c']) c'
  end.

(** The message is built in a buffer and printed with [%s]: what is shown
    of it ends before the first NUL. *)
Definition scan_ucn (letter : int) (nbytes : nat) : Ab unit :=
  (assert_ ((letter =? chr "u") || (letter =? chr "U")) ;;;
   assert_ ((nbytes =? 4)%nat || (nbytes =? 8)%nat) ;;;
   lift (when (negb (f_Universal (features E))) (warn_feature F_UNIVERSAL)) ;;;
   lift (s_putch BSLASH) ;;;
   c <- lift getch ;;
   assert_ (c =? letter) ;;;
   lift (s_putch (to_char c)) ;;;
   r <- lift (scan_ucn_loop nbytes [] c) ;;
   lift (when (negb (fst r))
           (line <- gets nline ;;
            warning (text (c_str (str "Invalid UCN \" ++ [to_char letter]
                                    ++ fst (snd r) ++ [to_char (snd (snd r))]
                                    ++ str " detected")))
                    line)))%ab.

(** *** Numbers *)

Definition check_punct (oc : int) (digit_check : int -> Ab bool) : Ab int :=
  (sq <- lift getch ;;
   assert_ (sq =? chr SQUOTE) ;;;
   lift (s_putch (to_char sq)) ;;;
   lift (when (negb (f_NumPunct (features E))) (warn_feature F_NUMPUNCT)) ;;;
   before <- digit_check oc ;;
   if negb before then
     lift (line <- gets nline ;;
           warning "Single quote in numeric context not preceded by a valid digit" line) ;;;
     ret_ab sq
   else
     pc <- lift peek ;;
     if pc =? EOF then
       lift (line <- gets nline ;;
             warning "Single quote in numeric context followed by EOF" line) ;;;
       ret_ab sq
     else
       after <- digit_check pc ;;
       lift (when (negb after)
               (line <- gets nline ;;
                warning "Single quote in numeric context not followed by a valid digit"
                        line)) ;;;
       ret_ab pc)%ab.

(** [while ((pc = peek()) != EOF && isdigit(pc)) { count++; s_putch(getch()); }] *)
Fixpoint exponent_digits (n : nat) (count : nat) : M nat :=
  match n with
  | O => out_of_fuel count
  | S k =>
      pc <- peek ;;
      if negb (pc =? EOF) && isdigit pc then
        c <- getch ;;
        s_putch (to_char c) ;;;
        exponent_digits k (S count)
      else ret count
  end.

Definition parse_exponent : Ab unit :=
  (* First character is known to be valid exponent (p, P, e, E) *)
  (c <- lift getch ;;
   assert_ ((c =? chr "e") || (c =? chr "E") || (c =? chr "p") || (c =? chr "P")) ;;;
   lift (s_putch (to_char c)) ;;;
   pc <- lift peek ;;
   lift (when ((pc =? chr "+") || (pc =? chr "-"))
           (sign <- getch ;; s_putch (to_char sign))) ;;;
   count <- lift (exponent_digits (fuel E) 0) ;;
   lift (when (count =? 0)%nat
           (line <- gets nline ;;
            warning ("Exponent " ++ text [to_char c]
                       ++ " not followed by (optional sign and) one or more digits")%string
                    line)))%ab.

(** The loop of [parse_hex]; it gives the [pc] that ended it and [warned]. *)
Fixpoint parse_hex_loop (n : nat) (oc : int) (warned : bool) : Ab (int * bool) :=
  match n with
  | O => lift (out_of_fuel (EOF, warned))
  | S k =>
      (pc <- lift peek ;;
       if (pc =? chr SQUOTE) || isxdigit pc || (pc =? chr ".") then
         if pc =? chr SQUOTE then
           oc' <- check_punct oc (ctype isxdigit) ;;
           parse_hex_loop k oc' warned
         else
           warned' <- lift (if (pc =? chr ".") && negb (f_HexFloat (features E)) then
                              when (negb warned) (warn_feature F_HEXFLOAT) ;;;
                              ret true
                            else ret warned) ;;
           c <- lift getch ;;
           lift (s_putch (to_char c)) ;;;
           parse_hex_loop k pc warned'
       else ret_ab (pc, warned))%ab
  end.

Definition parse_hex : Ab unit :=
  (* Hex constant - integer or float *)
  (lift (s_putch "0") ;;;
   c <- lift getch ;;
   assert_ ((c =? chr "x") || (c =? chr "X")) ;;;
   lift (s_putch (to_char c)) ;;;
   r <- parse_hex_loop (fuel E) c false ;;
   let pc := fst r in
   let warned := snd r in
   when_ab ((pc =? chr "p") || (pc =? chr "P"))
     (lift (when (negb (f_HexFloat (features E)) && negb warned)
              (warn_feature F_HEXFLOAT)) ;;;
      parse_exponent))%ab.

(** The loop shared in form by [parse_binary], [parse_octal] and
    [parse_decimal]: [while ((pc = peek()) == '\'' || digit_check(pc))];
    it gives the [pc] that ended it. *)
Fixpoint digits_loop (n : nat) (digit_check : int -> Ab bool) (oc : int) : Ab int :=
  match n with
  | O => lift (out_of_fuel EOF)
  | S k =>
      (pc <- lift peek ;;
       if pc =? chr SQUOTE then
         oc' <- check_punct oc digit_check ;;
         digits_loop k digit_check oc'
       else
         digit <- digit_check pc ;;
         if digit then
           c <- lift getch ;;
           lift (s_putch (to_char c)) ;;;
           digits_loop k digit_check pc
         else ret_ab pc)%ab
  end.

Definition parse_binary : Ab unit :=
  (* Binary constant - integer *)
  (lift (when (negb (f_Binary (features E))) (warn_feature F_BINARY)) ;;;
   lift (s_putch "0") ;;;
   c <- lift getch ;;
   assert_ ((c =? chr "b") || (c =? chr "B")) ;;;
   lift (s_putch (to_char c)) ;;;
   pc <- digits_loop (fuel E) is_binary c ;;
   lift (when (isdigit pc)
           (line <- gets nline ;;
            warning ("Non-binary digit " ++ text [to_char pc]
                       ++ " in binary constant")%string line)))%ab.

Definition parse_octal : Ab unit :=
  (* Octal constant - integer *)
  (lift (s_putch "0") ;;;
   c <- lift getch ;;
   octal <- is_octal c ;;
   assert_ (octal || (c =? chr SQUOTE)) ;;;
   lift (s_putch (to_char c)) ;;;
   pc <- digits_loop (fuel E) is_octal c ;;
   lift (when (isdigit pc)
           (line <- gets nline ;;
            warning ("Non-octal digit " ++ text [to_char pc]
                       ++ " in octal constant")%string line)))%ab.

Definition parse_decimal (c : int) : Ab unit :=
  (* Decimal integer, or decimal floating point *)
  (lift (s_putch (to_char c)) ;;;
   pc <- lift peek ;;
   when_ab (isdigit pc || (pc =? chr SQUOTE))
     (c' <- lift getch ;;
      assert_ (c' =? pc) ;;;
      lift (s_putch (to_char pc)) ;;;
      pc' <- digits_loop (fuel E) (ctype isdigit) c' ;;
      when_ab ((pc' =? chr "e") || (pc' =? chr "E")) parse_exponent))%ab.

Definition parse_number (c : int) : Ab unit :=
  (assert_ (isdigit c || (c =? chr ".")) ;;;
   pc <- lift peek ;;
   if negb (c =? chr "0") then parse_decimal c
   else if (pc =? chr "x") || (pc =? chr "X") then parse_hex
   else if (pc =? chr "b") || (pc =? chr "B") then parse_binary
   else
     octal <- is_octal pc ;;
     if octal || (pc =? chr SQUOTE) then parse_octal
     else if (pc =? chr "e") || (pc =? chr "E") || (pc =? chr ".") then
       (* Simple fractional (0.1234) or zero floating point decimal constant 0E0 *)
       parse_decimal c
     else if isdigit pc then
       (* Malformed number of some sort (09, for example). *)
       lift (s_putch (to_char c))
     else
       (* Just a zero? -- e.g. array[0] *)
       lift (s_putch (to_char c)))%ab.

(** *** Identifiers and literal prefixes *)

(** [while ((c = peek()) != EOF && is_idchar(c))] *)
Fixpoint read_remainder_of_identifier_loop (n : nat) : Ab unit :=
  match n with
  | O => lift (out_of_fuel tt)
  | S k =>
      (c <- lift peek ;;
       if c =? EOF then ret_ab tt
       else
         idchar <- is_idchar c ;;
         if idchar then
           c' <- lift getch ;;
           lift (s_putch (to_char c')) ;;;
           read_remainder_of_identifier_loop k
         else ret_ab tt)%ab
  end.

Definition read_remainder_of_identifier : Ab unit :=
  read_remainder_of_identifier_loop (fuel E).

Definition could_be_string_literal (c : ascii) : bool :=
  let c := int_of_char c in
  (c =? chr "U") || (c =? chr "u") || (c =? chr "L") || (c =? chr "R")
  || (c =? chr "8").

Definition dq_reg_prefix : list string := ["L"; "u"; "U"; "u8"]%string.
Definition dq_raw_prefix : list string := ["R"; "LR"; "uR"; "UR"; "u8R"]%string.

(** [strcmp(a, b) == 0] *)
Definition strcmp_eq (a : list ascii) (b : string) : bool :=
  String.eqb (text (c_str a)) b.

Definition valid_dq_raw_prefix (prefix : list ascii) : bool :=
  existsb (strcmp_eq prefix) dq_raw_prefix.

Definition valid_dq_reg_prefix (prefix : list ascii) : bool :=
  existsb (strcmp_eq prefix) dq_reg_prefix.

Definition valid_dq_prefix (prefix : list ascii) : bool :=
  valid_dq_reg_prefix prefix || valid_dq_raw_prefix prefix.

(** *** Raw strings *)

(** The [strchr] test of [raw_scan_marker]: double quote, right
    parenthesis, space, backslash, tab, vertical tab, form feed, newline;
    the terminator of the searched string is found too. *)
Definition invalid_mark_char (c : int) : bool :=
  existsb (Ascii.eqb (to_char c))
    [DQUOTE; RPAREN; SPACE; BSLASH; TAB; VT; FF; NL; NUL].

(** [%.*s]: at most [len] characters of a C string. *)
Definition precision (len : nat) (buf : list ascii) : string :=
  text (firstn len (c_str buf)).

(** The loop of [raw_scan_marker]; [len] is the length of [markstr].  It
    gives the value returned, [markstr] and [*marklen].  Of a marker that is
    too long the source stores the character twice, the second time with
    its terminator one cell behind the buffer. *)
Fixpoint raw_scan_marker_loop (n : nat) (markstr : list ascii) (pfx : list ascii)
  : Ab (bool * (list ascii * nat)) :=
  let len := List.length markstr in
  match n with
  | O => lift (out_of_fuel (false, (markstr, len)))
  | S k =>
      (c <- lift getch ;;
       if c =? EOF then
         lift (line <- gets nline ;;
               warning ("Unexpected EOF in raw string d-char-sequence: "
                          ++ text (c_str pfx) ++ text [DQUOTE]
                          ++ precision len markstr)%string
                       line) ;;;
         ret_ab (false, (markstr, len))
       else if c =? chr LPAREN then
         (* End of marker *)
         assert_ (len <=? MAX_RAW_MARKER)%nat ;;;
         ret_ab (true, (markstr, len))
       else if invalid_mark_char c || (MAX_RAW_MARKER <=? len)%nat then
         (* Invalid mark character or marker is too long *)
         if (MAX_RAW_MARKER <=? len)%nat then
           let markstr1 := markstr ++ [to_char c] in
           lift (line <- gets nline ;;
                 warning ("Too long a raw string d-char-sequence: "
                            ++ text (c_str pfx) ++ text [DQUOTE]
                            ++ precision (S len) markstr1)%string
                         line) ;;;
           ret_ab (false, (markstr1 ++ [to_char c], S (S len)))
         else
           let escape := if (c =? chr SQUOTE) || (c =? chr BSLASH)
                         then "\"%string else ""%string in
           let qc := if isgraph c
                     then (" '" ++ escape ++ text [to_char c] ++ "'")%string
                     else ""%string in
           lift (line <- gets nline ;;
                 warning ("Invalid mark character (code " ++ dec c ++ qc
                            ++ ") in d-char-sequence: "
                            ++ text (c_str pfx) ++ text [DQUOTE]
                            ++ precision len markstr)%string
                         line) ;;;
           ret_ab (false, (markstr ++ [to_char c], S len))
       else
         raw_scan_marker_loop k (markstr ++ [to_char c]) pfx)%ab
  end.

Definition raw_scan_marker (pfx : list ascii) : Ab (bool * (list ascii * nat)) :=
  raw_scan_marker_loop (fuel E) [] pfx.

(** The inner loop of [raw_scan_string], after a [)]; [len] is the length
    of [endstr].  [Fell_out true] is the [break], [Fell_out false] the end
    of input. *)
Fixpoint raw_scan_close (n : nat) (markstr : list ascii) (marklen : nat)
    (endstr : list ascii) : M (Leave bool) :=
  let len := List.length endstr in
  match n with
  | O => out_of_fuel (Fell_out false)
  | S k =>
      c <- getch ;;
      if c =? EOF then ret (Fell_out false)
      else if (c =? chr DQUOTE) && (len =? marklen)%nat then
        (* Got the end! *)
        s_putch RPAREN ;;;
        s_putstr markstr ;;;
        s_putch (to_char c) ;;;
        ret Returned
      else if c =? char_at markstr len then
        raw_scan_close k markstr marklen (endstr ++ [to_char c])
      else if c =? chr RPAREN then
        (* Restart scan for mark string *)
        s_putch RPAREN ;;;
        s_putstr endstr ;;;
        raw_scan_close k markstr marklen []
      else
        s_putch RPAREN ;;;
        s_putstr endstr ;;;
        s_putch (to_char c) ;;;
        ret (Fell_out true)
  end.

(** The outer loop of [raw_scan_string]. *)
Fixpoint raw_scan_string_loop (n : nat) (markstr : list ascii) (marklen : nat)
  : M (Leave unit) :=
  match n with
  | O => out_of_fuel Returned
  | S k =>
      c <- getch ;;
      if c =? EOF then ret (Fell_out tt)
      else if negb (c =? chr RPAREN) then
        s_putch (to_char c) ;;;
        raw_scan_string_loop k markstr marklen
      else
        r <- raw_scan_close (fuel E) markstr marklen [] ;;
        match r with
        | Returned => ret Returned
        | Fell_out _ => raw_scan_string_loop k markstr marklen
        end
  end.

(** Look for ) followed by markstr and double quote *)
Definition raw_scan_string (markstr : list ascii) (marklen : nat) (line1 : Z)
  : M unit :=
  r <- raw_scan_string_loop (fuel E) markstr marklen ;;
  match r with
  | Returned => ret tt
  | Fell_out _ =>
      warning "Unexpected EOF in raw string starting at this line" line1
  end.

(** [prefix] is an array of the caller, so [assert(prefix != 0)] holds. *)
Definition parse_raw_string (prefix : list ascii) : Ab unit :=
  (r <- raw_scan_marker prefix ;;
   let markstr := fst (snd r) in
   let marklen := snd (snd r) in
   if fst r then
     lift (s_putch DQUOTE) ;;;
     lift (s_putstr markstr) ;;;
     lift (s_putch LPAREN) ;;;
     line <- lift (gets nline) ;;
     lift (raw_scan_string markstr marklen line)
   else
     lift (s_putch DQUOTE) ;;;
     lift (put_quote_str DQUOTE markstr) ;;;
     lift (endquote DQUOTE "string literal"))%ab.

Definition parse_dq_string (prefix : list ascii) : Ab unit :=
  (assert_ (valid_dq_prefix prefix) ;;;
   if valid_dq_raw_prefix prefix then
     lift (when (negb (f_RawString (features E))) (warn_feature F_RAWSTRING)) ;;;
     lift (s_putstr prefix) ;;;
     parse_raw_string prefix
   else
     lift (when (negb (strcmp_eq prefix "L") && negb (f_Unicode (features E)))
             (warn_feature F_UNICODE)) ;;;
     lift (s_putstr prefix) ;;;
     lift (s_putch DQUOTE) ;;;
     lift (endquote DQUOTE "string literal"))%ab.

(** The loop of [process_poss_string_literal]; [idx] is the length of
    [prefix].  Its [c] is a [char]: what [peek] gave, stored and read back,
    is the same [int]. *)
Fixpoint process_poss_string_literal_loop (n : nat) (prefix : list ascii) : Ab unit :=
  match n with
  | O => lift (out_of_fuel tt)
  | S k =>
      (c <- lift peek ;;
       if c =? EOF then ret_ab tt
       else if c =? chr SQUOTE then
         (* process sinqle quote *)
         lift (s_putstr prefix) ;;;
         c' <- lift getch ;;
         lift (s_putch (to_char c')) ;;;
         lift (endquote (to_char c') "character constant")
       else if c =? chr DQUOTE then
         (* process double quote - possibly raw *)
         if valid_dq_prefix prefix then
           _ <- lift getch ;;
           parse_dq_string prefix
         else
           (* Invalid syntax - identifier followed by double quote *)
           lift (s_putstr prefix) ;;;
           c' <- lift getch ;;
           lift (s_putch (to_char c')) ;;;
           lift (endquote (to_char c') "character constant")
       else if could_be_string_literal (to_char c) then
         c' <- lift getch ;;
         let prefix' := prefix ++ [to_char c'] in
         if (3 <? List.length prefix')%nat then
           lift (s_putstr prefix') ;;;
           read_remainder_of_identifier
         else
           (* Only loop continuation *)
           process_poss_string_literal_loop k prefix'
       else
         lift (s_putstr prefix) ;;;
         read_remainder_of_identifier)%ab
  end.

Definition process_poss_string_literal (c : ascii) : Ab unit :=
  process_poss_string_literal_loop (fuel E) [c].

Definition parse_identifier (c : int) : Ab unit :=
  (assert_ (isalpha c || (c =? chr "_")) ;;;
   if could_be_string_literal (to_char c) then
     process_poss_string_literal (to_char c)
   else
     lift (s_putch (to_char c)) ;;;
     read_remainder_of_identifier)%ab.

(** *** The three regions *)

Definition non_comment (c : int) : Ab Comment :=
  (if c =? chr "*" then
     bsnl <- lift read_bsnl ;;
     pc <- lift peek ;;
     if pc =? chr "/" then
       _ <- lift getch ;;
       lift (s_putch "*") ;;;
       lift (write_bsnl bsnl s_putch) ;;;
       lift (s_putch "/") ;;;
       line <- lift (gets nline) ;;
       last <- lift (gets l_cend) ;;
       lift (when (negb (last =? line))
               (warning "C-style comment end marker ('*/') not in a comment" line)) ;;;
       lift (modify (set_l_cend line)) ;;;
       ret_ab NonComment
     else
       lift (s_putch (to_char c)) ;;;
       lift (write_bsnl bsnl s_putch) ;;;
       ret_ab NonComment
   else if c =? chr SQUOTE then
     lift (s_putch (to_char c)) ;;;
     lift (endquote (to_char c) "character constant") ;;;
     ret_ab NonComment
   else if c =? chr DQUOTE then
     lift (s_putch (to_char c)) ;;;
     lift (endquote (to_char c) "string literal") ;;;
     ret_ab NonComment
   else if c =? chr "/" then
     (* Potential start of comment *)
     bsnl <- lift read_bsnl ;;
     pc <- lift peek ;;
     if pc =? chr "*" then
       _ <- lift getch ;;
       lift (c_putch "/") ;;;
       lift (write_bsnl bsnl c_putch) ;;;
       lift (c_putch "*") ;;;
       lift (when (printEmptyCommentInsteadOfBlank E) (s_fill "/" ;;; s_fill "*")) ;;;
       ret_ab CComment
     else if negb (f_DoubleSlash (features E)) && (pc =? chr "/") then
       lift (warn_feature F_DOUBLESLASH) ;;;
       c' <- lift getch ;;
       lift (s_putch (to_char c')) ;;;
       lift (write_bsnl bsnl s_putch) ;;;
       lift (s_putch (to_char c')) ;;;
       ret_ab NonComment
     else if f_DoubleSlash (features E) && (pc =? chr "/") then
       c' <- lift getch ;;
       lift (c_putch (to_char c')) ;;;
       lift (write_bsnl bsnl c_putch) ;;;
       lift (c_putch (to_char c')) ;;;
       lift (when (printEmptyCommentInsteadOfBlank E) (s_fill "/" ;;; s_fill "/")) ;;;
       ret_ab CppComment
     else
       lift (s_putch (to_char c)) ;;;
       lift (write_bsnl bsnl s_putch) ;;;
       ret_ab NonComment
   else
     number <- lift (if isdigit c then ret true
                     else if c =? chr "." then pc <- peek ;; ret (isdigit pc)
                     else ret false) ;;
     if number then
       parse_number c ;;;
       ret_ab NonComment
     else if isalnum c || (c =? chr "_") then
       parse_identifier c ;;;
       ret_ab NonComment
     else
       pc <- lift (if c =? chr BSLASH then peek else ret c) ;;
       if (c =? chr BSLASH) && ((pc =? chr "u") || (pc =? chr "U")) then
         scan_ucn pc (if pc =? chr "u" then 4%nat else 8%nat) ;;;
         ret_ab NonComment
       else
         (* space, punctuation, ... *)
         lift (s_putch (to_char c)) ;;;
         ret_ab NonComment)%ab.

(** The [for] loop of [scc]. *)
Fixpoint scc_loop (n : nat) (oc : int) (status : Comment) : Ab Comment :=
  match n with
  | O => lift (out_of_fuel status)
  | S k =>
      (c <- lift getch ;;
       if c =? EOF then ret_ab status
       else
         status' <- match status with
                    | CComment => lift (c_comment c)
                    | CppComment => lift (cpp_comment c oc)
                    | NonComment => non_comment c
                    end ;;
         scc_loop k c status')%ab
  end.

Definition scc : Ab unit :=
  (lift (modify (set_l_nest 0)) ;;;   (* Last line with a nested comment warning *)
   lift (modify (set_l_cend 0)) ;;;   (* Last line with a comment end warning *)
   lift (modify (set_nline 1)) ;;;
   status <- scc_loop (fuel E) (chr NUL) NonComment ;;
   lift (when (negb (Comment_eqb status NonComment))
           (line <- gets nline ;;
            warning "unterminated C-style comment" line)))%ab.

End Scanner.

(** ** Construction *)

(** The object after its constructor: [m_ok] and the members the scan
    left. *)
Record Object : Type := mkObject {
  m_ok : bool;
  members : State
}.

Definition result (o : Object) : list ascii := m_result (members o).
Definition ok (o : Object) : bool := m_ok o.

(** The constructor.  [set_features] throws before anything is scanned;
    the handler clears [m_result].  A failed assertion is no exception:
    [abort] ends the process inside the constructor, and there is no
    object ([None]). *)
Definition SCC (input : list ascii) (standard_ : Z)
    (printCommentsNotCode_ printEmptyCommentInsteadOfBlank_
       warnAboutNestedCStyleComments_ : bool)
    (qchar_ schar_ : ascii) : option Object :=
  match set_features standard_ with
  | inr f =>
      let E := mkEnv input standard_ printCommentsNotCode_
                 printEmptyCommentInsteadOfBlank_ warnAboutNestedCStyleComments_
                 qchar_ schar_ f in
      match scc E initial_State with
      | (Some _, s) => Some (mkObject true s)
      | (None, _) => None
      end
  | inl _ =>
      Some (mkObject false (set_m_result [] initial_State))
  end.

(** The constructor with its default arguments. *)
Definition SCC_default (input : list ascii) (standard_ : Z) : option Object :=
  SCC input standard_ false false false NUL NUL.

Definition run (o : Object) : string * list (Z * string) :=
  (text (result o), console (members o)).

(** ** Vocabulary of the properties *)

Definition unterminated_text : string := "unterminated C-style comment".

(** Newlines among the first [i] characters of the input. *)
Definition newlines_before (input : list ascii) (i : nat) : Z :=
  Z.of_nat (count_occ ascii_dec (firstn i input) NL).

(** The line counter, less the newlines the cursor has passed. *)
Definition line_offset (input : list ascii) (s : State) : Z :=
  nline s - newlines_before input (itr s).

(** No warning of [w] is the one of an unterminated comment. *)
Definition quiet (w : list (Z * string)) : Prop :=
  Forall (fun d => snd d <> unterminated_text) w.

(** How often the console shows the text [msg]. *)
Definition occurrences (msg : string) (w : list (Z * string)) : nat :=
  List.length (filter (fun d => String.eqb (snd d) msg) w).

(** The number of characters of the input that went to a channel: what
    the two channels hold, less the characters that stand in for
    comments. *)
Definition routed (s : State) : Z :=
  Z.of_nat (List.length (code_chan s)) + Z.of_nat (List.length (comment_chan s))
  - Z.of_nat (n_fill s).

(** The members when the loop of [scc] starts. *)
Definition scan_start : State :=
  set_nline 1 (set_l_cend 0 (set_l_nest 0 initial_State)).

(** The environment the constructor builds for a recognised standard. *)
Definition features_of (st : Standard) : Features :=
  match set_features (Standard_value st) with
  | inr f => f
  | inl _ => no_features
  end.

Definition Env_of (input : list ascii) (st : Standard)
    (printCommentsNotCode_ printEmptyCommentInsteadOfBlank_
       warnAboutNestedCStyleComments_ : bool)
    (qchar_ schar_ : ascii) : Env :=
  mkEnv input (Standard_value st) printCommentsNotCode_
    printEmptyCommentInsteadOfBlank_ warnAboutNestedCStyleComments_
    qchar_ schar_ (features_of st).

(** The input with every backslash-newline pair taken out. *)
Fixpoint spliced (input : list ascii) : list ascii :=
  match input with
  | [] => []
  | c :: rest =>
      match rest with
      | d :: rest' =>
          if Ascii.eqb c BSLASH && Ascii.eqb d NL then spliced rest'
          else c :: spliced rest
      | [] => [c]
      end
  end.

(** The start of the warning [raw_scan_marker] prints for a marker of more
    than 16 characters. *)
Definition too_long_text : string := "Too long a raw string d-char-sequence: ".

(** No warning of [w] is the one of a marker that is too long. *)
Definition tidy (w : list (Z * string)) : bool :=
  forallb (fun d => negb (String.prefix too_long_text (snd d))) w.

(** A raw string prefix somewhere in the input: an [R] directly before a
    double quote. *)
Fixpoint has_raw (input : list ascii) : bool :=
  match input with
  | [] => false
  | a :: rest =>
      (Ascii.eqb a "R"
       && match rest with b :: _ => Ascii.eqb b DQUOTE | [] => false end)
      || has_raw rest
  end.

(** An input whose end cuts no token that holds characters back: it is
    empty, or its last character is no backslash (behind which [endquote]
    reads on), none of the characters of a literal prefix (which
    [process_poss_string_literal] collects) and, where the input holds a
    raw string prefix, no character that a closing sequence can hold (a
    right parenthesis, or a character that a marker can hold).  An input
    that ends in a newline is one. *)
Definition ends_whole (input : list ascii) : bool :=
  match input with
  | [] => true
  | _ =>
      let c := last input NUL in
      negb (Ascii.eqb c BSLASH)
      && negb (could_be_string_literal c)
      && (negb (has_raw input)
          || (negb (Ascii.eqb c RPAREN) && invalid_mark_char (int_of_char c)))
  end.

(** The characters a raw string marker is made of. *)
Definition valid_mark (m : list ascii) : Prop :=
  Forall (fun a => invalid_mark_char (int_of_char a) = false) m.

(** What closes a raw string of marker [m]. *)
Definition closing (m : list ascii) : list ascii := RPAREN :: m ++ [DQUOTE].

Fixpoint starts_with (p l : list ascii) : bool :=
  match p, l with
  | [], _ => true
  | a :: p', b :: l' => Ascii.eqb a b && starts_with p' l'
  | _ :: _, [] => false
  end.

(** None of the first [n] positions of [txt] starts [p]. *)
Definition clean (p txt : list ascii) (n : nat) : Prop :=
  forall k, (k < n)%nat -> starts_with p (skipn k txt) = false.

(** [n] backslash-newline pairs. *)
Definition pairs (n : nat) : list ascii := List.concat (repeat [BSLASH; NL] n).

(** No star of [l] is followed by a slash or by a backslash. *)
Fixpoint no_comment_end (l : list ascii) : bool :=
  match l with
  | [] => true
  | c :: t =>
      (negb (Ascii.eqb c "*")
       || match t with
          | [] => true
          | d :: _ => negb (Ascii.eqb d "/") && negb (Ascii.eqb d BSLASH)
          end)
      && no_comment_end t
  end.

(** Behind [prev], every newline of [l] has a backslash right before it. *)
Fixpoint continued (prev : ascii) (l : list ascii) : bool :=
  match l with
  | [] => true
  | c :: t => (negb (Ascii.eqb c NL) || Ascii.eqb prev BSLASH) && continued c t
  end.

(** Where one character went: a character [c] of the input written to
    the code channel as [out], a character of the input written to the
    comment channel, or a character written to the code channel in the
    place of a comment. *)
Inductive Mark : Set :=
| To_code (c out : ascii)
| To_comment (c : ascii)
| Fill (out : ascii).

Definition read_of (tr : list Mark) : list ascii :=
  flat_map (fun m => match m with
                     | To_code c _ => [c]
                     | To_comment c => [c]
                     | Fill _ => []
                     end) tr.

Definition code_of (tr : list Mark) : list ascii :=
  flat_map (fun m => match m with
                     | To_code _ out => [out]
                     | To_comment _ => []
                     | Fill out => [out]
                     end) tr.

Definition comment_of (tr : list Mark) : list ascii :=
  flat_map (fun m => match m with
                     | To_comment c => [c]
                     | _ => []
                     end) tr.

Definition fills_of (tr : list Mark) : nat :=
  List.length (flat_map (fun m => match m with
                                  | Fill out => [out]
                                  | _ => []
                                  end) tr).

(** What the loop of [endquote] read and did not write when it was left:
    the closing quote [q], when it fell out of the loop on it. *)
Definition held_by (q : ascii) (r : Leave int) : list ascii :=
  match r with
  | Fell_out c => if c =? EOF then [] else [q]
  | Returned => []
  end.

(** What may go to the channels in a state: the comment channel starts
    with a slash, and nothing stands in for a comment before it started. *)
Definition opens (m : Mark) (s : State) : Prop :=
  match m with
  | To_code _ _ => True
  | To_comment c => comment_chan s <> [] \/ c = "/"%char
  | Fill _ => comment_chan s <> []
  end.

(** The bases of the numeric literals. *)
Inductive Base : Set := Hexadecimal | Binary | Octal | Decimal.

(** The digits of a base, as the loop of its parser tests them. *)
Definition digit_of (b : Base) (c : int) : bool :=
  match b with
  | Hexadecimal => isxdigit c
  | Binary => (c =? chr "0") || (c =? chr "1")
  | Octal => (chr "0" <=? c) && (c <=? chr "7")
  | Decimal => isdigit c
  end.

(** What a literal of a base starts with, before its digits: [0x], [0b],
    the zero of an octal literal, or the first digit of a decimal one. *)
Definition heads (b : Base) (h : list ascii) : Prop :=
  match b with
  | Hexadecimal => h = str "0x" \/ h = str "0X"
  | Binary => h = str "0b" \/ h = str "0B"
  | Octal => h = str "0"
  | Decimal => exists c, h = [c] /\ isdigit (int_of_char c) = true /\ c <> "0"%char
  end.

(** Digits cut at digit separators: the digits [g0], then each further
    group behind a single quote. *)
Definition groups (g0 : list ascii) (gs : list (list ascii)) : list ascii :=
  g0 ++ List.concat (map (fun g => SQUOTE :: g) gs).

(** A group of one or more digits of a base. *)
Definition group (b : Base) (g : list ascii) : bool :=
  negb (List.length g =? 0)%nat && forallb (fun c => digit_of b (int_of_char c)) g.

(** What comes behind a literal and is no part of a number: the end of
    the input, or a character below 0x80 that is no letter, digit, single
    quote or period. *)
Definition ends_number (r : list ascii) : Prop :=
  match r with
  | [] => True
  | x :: _ => 0 <= int_of_char x /\ isalnum (int_of_char x) = false
              /\ x <> SQUOTE /\ x <> "."%char
  end.

(** The warning of a binary literal under a standard without them. *)
Definition binary_warning (E : Env) (b : Base) (line : Z) : list (Z * string) :=
  match b with
  | Binary =>
      if f_Binary (features E) then []
      else [(line, feature_text E F_BINARY)]
  | _ => []
  end.



(** A digit test that gives what the predicate [p] gives, where its
    argument passes the assertion. *)
Definition decides (digit_check : int -> Ab bool) (p : int -> bool) : Prop :=
  forall c s, valid_int c = true -> digit_check c s = (Some (p c), s).

(** What holds of the value and the members a member function ends with,
    where no assertion ended the process. *)
Definition unless_aborted {A : Type} (Q : A -> State -> Prop)
    (r : option A * State) : Prop :=
  match fst r with
  | Some a => Q a (snd r)
  | None => True
  end.

(** The byte that [getch] returns as [EOF]. *)
Definition EOF_byte : ascii := "255"%char.

(** No character of the input is read as the end of the input. *)
Class Legible (E : Env) : Prop :=
  legible : ~ In EOF_byte (m_input E).

Section Vocabulary.

Variable E : Env.

(** The cursor is at the end of the input. *)
Definition at_end (s : State) : bool := (List.length (m_input E) <=? itr s)%nat.

(** What [getch] returns: the character the cursor is at, or [EOF] at the
    end of the input. *)
Definition peekc (s : State) : int :=
  if (List.length (m_input E) <=? itr s)%nat then EOF
  else int_of_char (nth (itr s) (m_input E) NUL).

(** The state [getch] leaves when it is not at the end. *)
Definition advance (s : State) : State :=
  if peekc s =? chr NL
  then set_nline (nline s + 1) (set_itr (S (itr s)) s)
  else set_itr (S (itr s)) s.

(** The state [getch] leaves. *)
Definition next (s : State) : State := if at_end s then s else advance s.

(** The state [peek] leaves: a character that is read as [EOF] is not
    pushed back. *)
Definition peeked (s : State) : State := if peekc s =? EOF then next s else s.

(** The channel that [m_result] materialises. *)
Definition active (s : State) : list ascii :=
  if printCommentsNotCode E then comment_chan s else code_chan s.

(** What every piece of the scanner does to the members: the cursor only
    moves forward and stays inside the input, the line counter moves with
    it, the console and the output only grow, and the round budget was
    enough. *)
Record Step (s s' : State) : Prop := mkStep {
  step_itr : (itr s <= itr s')%nat;
  step_end : (itr s <= List.length (m_input E))%nat ->
             (itr s' <= List.length (m_input E))%nat;
  step_line : line_offset (m_input E) s' = line_offset (m_input E) s;
  step_console : exists w, console s' = console s ++ w /\ quiet w;
  step_result : exists d, active s' = active s ++ d
                          /\ m_result s' = m_result s ++ d;
  step_stuck : stuck s' = stuck s
}.

(** A computation all of whose runs are steps, to the state it ends in or
    aborts in. *)
Definition steps {R : Type} (m : State -> R * State) : Prop :=
  forall s, Step s (snd (m s)).

(** A computation that is a step from every position at or behind [i]. *)
Definition steps_from {R : Type} (i : nat) (m : State -> R * State) : Prop :=
  forall s, (i <= itr s)%nat -> Step s (snd (m s)).

(** A digit test as [check_punct] is given one: it leaves the members
    alone, and [EOF] is no digit. *)
Definition checker (digit_check : int -> Ab bool) : Prop :=
  forall c s, snd (digit_check c s) = s
              /\ (c = EOF -> fst (digit_check c s) = Some false).

(** The budget [n] covers what is left of the input behind position [i]. *)
Definition enough (n i : nat) : Prop := (List.length (m_input E) - i < n)%nat.

(** The state after [k] rounds of the loop of [scc], and the region it is
    in then. *)
Definition after_rounds (k : nat) : State :=
  snd (scc_loop E k (chr NUL) NonComment scan_start).

(** The region the scan ends in, when no assertion ended it. *)
Definition final_status : option Comment :=
  fst (scc_loop E (fuel E) (chr NUL) NonComment scan_start).

(** The input the cursor has not passed. *)
Definition rest_of (s : State) : list ascii := skipn (itr s) (m_input E).

(** What [put_quote_char] writes for [c] inside a literal quoted by [q]. *)
Definition quoted (q c : ascii) : ascii :=
  if (int_of_char q =? chr SQUOTE) && negb (int_of_char (qchar E) =? 0) then qchar E
  else if (int_of_char q =? chr DQUOTE) && negb (int_of_char (schar E) =? 0) then schar E
  else c.

(** From [s] to [s'] the scanner read [read], wrote [code] to the code
    channel and nothing to the comment channel, and printed [w]. *)
Record Emits (s s' : State) (read code : list ascii) (w : list (Z * string))
  : Prop := mkEmits {
  em_rest : rest_of s = read ++ rest_of s';
  em_itr : itr s' = (itr s + List.length read)%nat;
  em_nline : nline s' = nline s + Z.of_nat (count_occ ascii_dec read NL);
  em_code : code_chan s' = code_chan s ++ code;
  em_comment : comment_chan s' = comment_chan s;
  em_console : console s' = console s ++ w;
  em_result : m_result s' =
              m_result s ++ (if printCommentsNotCode E then [] else code);
  em_fill : n_fill s' = n_fill s;
  em_stuck : stuck s' = stuck s
}.



(** From [s] to [s'] the scanner read [read], wrote [code] to the code
    channel, [fills] characters of it standing in for a comment, and
    [comm] to the comment channel, and printed [w]. *)
Record Routes (s s' : State) (read code comm : list ascii) (fills : nat)
    (w : list (Z * string)) : Prop := mkRoutes {
  ro_rest : rest_of s = read ++ rest_of s';
  ro_itr : itr s' = (itr s + List.length read)%nat;
  ro_nline : nline s' = nline s + Z.of_nat (count_occ ascii_dec read NL);
  ro_code : code_chan s' = code_chan s ++ code;
  ro_comment : comment_chan s' = comment_chan s ++ comm;
  ro_fill : n_fill s' = (n_fill s + fills)%nat;
  ro_console : console s' = console s ++ w;
  ro_result : m_result s' =
              m_result s ++ (if printCommentsNotCode E then comm else code);
  ro_stuck : stuck s' = stuck s
}.

(** A character written to the code channel is the one read, or what
    [put_quote_char] puts for it. *)
Definition faithful (m : Mark) : Prop :=
  match m with
  | To_code c out => exists q, out = quoted q c
  | _ => True
  end.

(** What was read up to the cursor, less the characters [held] that were
    read last and are not written yet, went character by character, in
    the order of the input, to the channels as they stand; the comment
    channel starts with a slash, and nothing stood in for a comment before
    it started. *)
Definition Woven (held : list ascii) (s : State) : Prop :=
  exists tr,
    read_of tr ++ held = firstn (itr s) (m_input E)
    /\ code_of tr = code_chan s
    /\ comment_of tr = comment_chan s
    /\ fills_of tr = n_fill s
    /\ Forall faithful tr
    /\ (n_fill s = 0%nat \/ comment_chan s <> [])
    /\ (comment_chan s = [] \/ exists t, comment_chan s = "/"%char :: t).

(** Run from [s], [m] gives [a] and leaves [s'], having read [read],
    written [code] to the code channel and printed [w]. *)
Definition Runs {R : Type} (m : State -> R * State) (s : State) (a : R) (s' : State)
    (read code : list ascii) (w : list (Z * string)) : Prop :=
  m s = (a, s') /\ Emits s s' read code w.

(** The cursor stands right behind the character [c] of the input. *)
Definition Behind (c : ascii) (s : State) : Prop :=
  exists i, itr s = S i /\ (S i <= List.length (m_input E))%nat
            /\ nth i (m_input E) NUL = c.

End Vocabulary.

(** ** Proofs *)

Lemma int_of_char_range (a : ascii) : -128 <= int_of_char a < 128.
Proof.
  unfold int_of_char. cbv zeta. pose proof (N_ascii_bounded a).
  destruct (Z.ltb_spec (Z.of_N (N_of_ascii a)) 128); lia.
Qed.

Lemma to_char_int_of_char (a : ascii) : to_char (int_of_char a) = a.
Proof.
  unfold to_char, int_of_char. cbv zeta. pose proof (N_ascii_bounded a).
  destruct (Z.ltb_spec (Z.of_N (N_of_ascii a)) 128).
  - rewrite Z.mod_small by lia. rewrite N2Z.id. apply ascii_N_embedding.
  - replace (Z.of_N (N_of_ascii a) - 256)
      with (Z.of_N (N_of_ascii a) + (-1) * 256) by lia.
    rewrite Z.mod_add by lia. rewrite Z.mod_small by lia.
    rewrite N2Z.id. apply ascii_N_embedding.
Qed.

Lemma int_of_char_inj (a b : ascii) : int_of_char a = int_of_char b -> a = b.
Proof.
  intros H. rewrite <- (to_char_int_of_char a), <- (to_char_int_of_char b).
  now rewrite H.
Qed.

(** One byte is read as the end of the input. *)
Lemma int_of_char_EOF (a : ascii) : (int_of_char a =? EOF) = Ascii.eqb a EOF_byte.
Proof.
  destruct (Ascii.eqb_spec a EOF_byte) as [->|n].
  - reflexivity.
  - apply Z.eqb_neq. intros H. apply n, int_of_char_inj. rewrite H. reflexivity.
Qed.

Lemma int_of_char_not_EOF (a : ascii) :
  a <> EOF_byte -> (int_of_char a =? EOF) = false.
Proof.
  intros H. rewrite int_of_char_EOF. now apply Ascii.eqb_neq.
Qed.

Lemma bind_eq {A B : Type} (m : M A) (f : A -> M B) (s : State) :
  bind m f s = f (fst (m s)) (snd (m s)).
Proof. reflexivity. Qed.

Lemma bind_lift {A B : Type} (m : M A) (f : A -> Ab B) (s : State) :
  bind_ab (lift m) f s = f (fst (m s)) (snd (m s)).
Proof. reflexivity. Qed.

Lemma bind_ret_ab {A B : Type} (a : A) (f : A -> Ab B) (s : State) :
  bind_ab (ret_ab a) f s = f a s.
Proof. reflexivity. Qed.

Lemma bind_ab_eq {A B : Type} (m : Ab A) (f : A -> Ab B) (s : State) :
  bind_ab m f s =
  match fst (m s) with
  | Some a => f a (snd (m s))
  | None => (None, snd (m s))
  end.
Proof. reflexivity. Qed.

Lemma bind_ab_Some {A B : Type} (m : Ab A) (f : A -> Ab B) (s s' : State) (a : A) :
  m s = (Some a, s') -> bind_ab m f s = f a s'.
Proof. intros H. unfold bind_ab. now rewrite H. Qed.

Lemma bind_assert {B : Type} (b : bool) (f : unit -> Ab B) (s : State) :
  bind_ab (assert_ b) f s = if b then f tt s else (None, s).
Proof. destruct b; reflexivity. Qed.

(** A run that did not abort, taken apart. *)

Lemma bind_ab_inv {A B : Type} (m : Ab A) (f : A -> Ab B) (s s' : State) (b : B) :
  bind_ab m f s = (Some b, s') ->
  exists a s1, m s = (Some a, s1) /\ f a s1 = (Some b, s').
Proof.
  unfold bind_ab. destruct (m s) as [[a|] s1]; cbn [fst snd].
  - intros H. now exists a, s1.
  - discriminate.
Qed.

Lemma assert_inv {B : Type} (c : bool) (f : unit -> Ab B) (s s' : State) (b : B) :
  bind_ab (assert_ c) f s = (Some b, s') -> c = true /\ f tt s = (Some b, s').
Proof. rewrite bind_assert. destruct c; [auto | discriminate]. Qed.

Lemma ret_ab_inv {A : Type} (a b : A) (s s' : State) :
  ret_ab a s = (Some b, s') -> a = b /\ s = s'.
Proof. unfold ret_ab. intros H. inversion H. auto. Qed.

Lemma lift_inv {A : Type} (m : M A) (s s' : State) (b : A) :
  lift m s = (Some b, s') -> fst (m s) = b /\ snd (m s) = s'.
Proof. unfold lift. intros H. inversion H. auto. Qed.

Lemma is_idchar_eq (c : int) (s : State) :
  is_idchar c s =
  (if valid_int c then Some (isalnum c || (c =? chr "_")) else None, s).
Proof. unfold is_idchar. rewrite bind_assert. destruct (valid_int c); reflexivity. Qed.

Lemma is_binary_eq (c : int) (s : State) :
  is_binary c s =
  (if valid_int c then Some ((c =? chr "0") || (c =? chr "1")) else None, s).
Proof. unfold is_binary. rewrite bind_assert. destruct (valid_int c); reflexivity. Qed.

Lemma is_octal_eq (c : int) (s : State) :
  is_octal c s =
  (if valid_int c then Some ((chr "0" <=? c) && (c <=? chr "7")) else None, s).
Proof. unfold is_octal. rewrite bind_assert. destruct (valid_int c); reflexivity. Qed.

Lemma checker_ctype (p : int -> bool) : p EOF = false -> checker (ctype p).
Proof. intros H c s. split; [reflexivity|]. intros ->. cbn. now rewrite H. Qed.

Lemma checker_is_binary : checker is_binary.
Proof.
  intros c s. rewrite is_binary_eq. split; [reflexivity|]. now intros ->.
Qed.

Lemma checker_is_octal : checker is_octal.
Proof.
  intros c s. rewrite is_octal_eq. split; [reflexivity|]. now intros ->.
Qed.

Ltac break_state s :=
  let i := fresh "i" in
  destruct s as [i ? ? ? ? ? ? ? ? ? ?].

Section Cursor.

Variable E : Env.

Lemma getch_next (s : State) : getch E s = (peekc E s, next E s).
Proof.
  unfold getch, next, at_end, advance, peekc, bind, gets, modify, when, ret.
  cbn [fst snd].
  destruct (List.length (m_input E) <=? itr s)%nat eqn:L; cbn [fst snd].
  - reflexivity.
  - destruct (int_of_char (nth (itr s) (m_input E) NUL) =? chr NL); reflexivity.
Qed.

Lemma peekc_at_end (s : State) : at_end E s = true -> peekc E s = EOF.
Proof. unfold at_end, peekc. now intros ->. Qed.

Lemma peekc_not_EOF (s : State) :
  (peekc E s =? EOF) = false -> (itr s < List.length (m_input E))%nat.
Proof.
  unfold peekc. destruct (List.length (m_input E) <=? itr s)%nat eqn:L.
  - discriminate.
  - intros _. now apply Nat.leb_gt in L.
Qed.

Lemma next_ne (s : State) : (peekc E s =? EOF) = false -> next E s = advance E s.
Proof.
  intros H. apply peekc_not_EOF in H. unfold next, at_end.
  apply Nat.leb_gt in H. now rewrite H.
Qed.

Lemma peeked_ne (s : State) : (peekc E s =? EOF) = false -> peeked E s = s.
Proof. unfold peeked. now intros ->. Qed.

(** What [getch] does where the character is not read as [EOF]. *)
Lemma getch_ne (s : State) :
  (peekc E s =? EOF) = false -> getch E s = (peekc E s, advance E s).
Proof. intros H. now rewrite getch_next, next_ne. Qed.

Lemma to_char_peekc (s : State) :
  (peekc E s =? EOF) = false -> int_of_char (to_char (peekc E s)) = peekc E s.
Proof.
  unfold peekc. destruct (List.length (m_input E) <=? itr s)%nat.
  - discriminate.
  - intros _. now rewrite to_char_int_of_char.
Qed.

Lemma ungetch_advance (s : State) :
  (peekc E s =? EOF) = false ->
  ungetch (to_char (peekc E s)) (advance E s) = (tt, s).
Proof.
  intros H. unfold ungetch, advance, bind, when, gets, modify, ret.
  rewrite (to_char_peekc s H).
  destruct (peekc E s =? chr NL); break_state s; cbn.
  - unfold set_itr, set_nline; cbn. do 2 f_equal. lia.
  - reflexivity.
Qed.

Lemma peek_next (s : State) : peek E s = (peekc E s, peeked E s).
Proof.
  unfold peek, peeked. rewrite bind_eq, getch_next. cbn [fst snd].
  destruct (peekc E s =? EOF) eqn:H; cbn [negb when].
  - reflexivity.
  - rewrite bind_eq, (next_ne s H), (ungetch_advance s H). reflexivity.
Qed.

(** Where no character of the input is read as [EOF], [EOF] is the end of
    the input, and [peek] moves nothing. *)
Section Legible_input.

Context {L : Legible E}.

Lemma peekc_EOF (s : State) :
  (peekc E s =? EOF) = (List.length (m_input E) <=? itr s)%nat.
Proof.
  unfold peekc. destruct (List.length (m_input E) <=? itr s)%nat eqn:H.
  - reflexivity.
  - apply int_of_char_not_EOF. intros Q. apply L. rewrite <- Q.
    apply nth_In. now apply Nat.leb_gt in H.
Qed.

Lemma getch_eq (s : State) :
  getch E s = (peekc E s, if peekc E s =? EOF then s else advance E s).
Proof.
  rewrite getch_next. unfold next, at_end. now rewrite peekc_EOF.
Qed.

Lemma peek_eq (s : State) : peek E s = (peekc E s, s).
Proof.
  rewrite peek_next. unfold peeked, next, at_end.
  rewrite peekc_EOF. now destruct (List.length (m_input E) <=? itr s)%nat.
Qed.

End Legible_input.

End Cursor.

Lemma firstn_S_nth {A : Type} (d : A) (l : list A) (i : nat) :
  (i < List.length l)%nat -> firstn (S i) l = firstn i l ++ [nth i l d].
Proof.
  revert i. induction l as [|x l IH]; intros i H; cbn in H.
  - lia.
  - destruct i as [|i]; [reflexivity|].
    rewrite !firstn_cons. cbn [nth app]. now rewrite (IH i) by lia.
Qed.

Create HintDb steps.

Section Steps.

Variable E : Env.

Lemma Step_refl (s : State) : Step E s s.
Proof.
  constructor; auto.
  - exists []. rewrite app_nil_r. split; [reflexivity | constructor].
  - exists []. now rewrite !app_nil_r.
Qed.

Lemma Step_trans (s1 s2 s3 : State) : Step E s1 s2 -> Step E s2 s3 -> Step E s1 s3.
Proof.
  intros [i1 e1 l1 [w1 [c1 q1]] [d1 [a1 r1]] k1] [i2 e2 l2 [w2 [c2 q2]] [d2 [a2 r2]] k2].
  constructor.
  - lia.
  - auto.
  - congruence.
  - exists (w1 ++ w2). rewrite c2, c1, app_assoc. split; [reflexivity|].
    apply Forall_app; auto.
  - exists (d1 ++ d2). rewrite a2, a1, r2, r1, !app_assoc. auto.
  - congruence.
Qed.

Lemma steps_ret {A : Type} (a : A) : steps E (ret a).
Proof. intros s. apply Step_refl. Qed.

Lemma steps_gets {A : Type} (f : State -> A) : steps E (gets f).
Proof. intros s. apply Step_refl. Qed.

Lemma steps_bind {A B : Type} (m : M A) (f : A -> M B) :
  steps E m -> (forall a, steps E (f a)) -> steps E (bind m f).
Proof.
  intros Hm Hf s. rewrite bind_eq.
  eapply Step_trans; [apply Hm | apply Hf].
Qed.

Lemma steps_when (b : bool) (m : M unit) : steps E m -> steps E (when b m).
Proof. destruct b; [auto | intros _; apply steps_ret]. Qed.

Lemma steps_times (n : nat) (m : M unit) : steps E m -> steps E (times n m).
Proof.
  intros H. induction n; cbn [times].
  - apply steps_ret.
  - apply steps_bind; auto.
Qed.

Lemma steps_every_second (n : nat) (m : M unit) :
  steps E m -> steps E (every_second n m).
Proof.
  intros H. induction n as [n IH] using lt_wf_ind.
  destruct n as [|[|n]]; cbn [every_second].
  - apply steps_ret.
  - exact H.
  - apply steps_bind; auto.
Qed.

(** The pieces of [Ab]: a failed assertion leaves the members where they
    are. *)

Lemma steps_ret_ab {A : Type} (a : A) : steps E (ret_ab a).
Proof. intros s. apply Step_refl. Qed.

Lemma steps_abort {A : Type} : steps E (@abort A).
Proof. intros s. apply Step_refl. Qed.

Lemma steps_assert (b : bool) : steps E (assert_ b).
Proof. destruct b; [apply steps_ret_ab | apply steps_abort]. Qed.

Lemma steps_lift {A : Type} (m : M A) : steps E m -> steps E (lift m).
Proof. intros H s. apply H. Qed.

Lemma steps_bind_ab {A B : Type} (m : Ab A) (f : A -> Ab B) :
  steps E m -> (forall a, steps E (f a)) -> steps E (bind_ab m f).
Proof.
  intros Hm Hf s. rewrite bind_ab_eq. destruct (fst (m s)) as [a|].
  - eapply Step_trans; [apply Hm | apply Hf].
  - apply Hm.
Qed.

Lemma steps_when_ab (b : bool) (m : Ab unit) : steps E m -> steps E (when_ab b m).
Proof. destruct b; [auto | intros _; apply steps_ret_ab]. Qed.

Lemma steps_is_idchar (c : int) : steps E (is_idchar c).
Proof. intros s. rewrite is_idchar_eq. apply Step_refl. Qed.

Lemma steps_is_binary (c : int) : steps E (is_binary c).
Proof. intros s. rewrite is_binary_eq. apply Step_refl. Qed.

Lemma steps_is_octal (c : int) : steps E (is_octal c).
Proof. intros s. rewrite is_octal_eq. apply Step_refl. Qed.

Lemma steps_checker (digit_check : int -> Ab bool) (c : int) :
  checker digit_check -> steps E (digit_check c).
Proof. intros H s. rewrite (proj1 (H c s)). apply Step_refl. Qed.

Lemma newlines_before_S (i : nat) :
  (i < List.length (m_input E))%nat ->
  newlines_before (m_input E) (S i) =
  newlines_before (m_input E) i + (if int_of_char (nth i (m_input E) NUL) =? chr NL then 1 else 0).
Proof.
  intros H. unfold newlines_before. rewrite (firstn_S_nth NUL) by exact H.
  rewrite count_occ_app. cbn [count_occ].
  destruct (ascii_dec (nth i (m_input E) NUL) NL) as [e|n].
  - rewrite e. cbn. lia.
  - destruct (int_of_char (nth i (m_input E) NUL) =? chr NL) eqn:Q.
    + apply Z.eqb_eq in Q. apply int_of_char_inj in Q. contradiction.
    + lia.
Qed.

Lemma peekc_same (s s' : State) : itr s = itr s' -> peekc E s = peekc E s'.
Proof. unfold peekc. now intros ->. Qed.

Lemma Step_moved (s : State) :
  (itr s < List.length (m_input E))%nat -> Step E s (advance E s).
Proof.
  intros L.
  assert (P : peekc E s = int_of_char (nth (itr s) (m_input E) NUL)).
  { unfold peekc. apply Nat.leb_gt in L. now rewrite L. }
  unfold advance. rewrite P.
  pose proof (newlines_before_S (itr s) L) as N.
  destruct (int_of_char (nth (itr s) (m_input E) NUL) =? chr NL);
    constructor; unfold line_offset, active; cbn;
    try lia;
    try (exists []; rewrite ?app_nil_r; split; [reflexivity | constructor]);
    try (exists []; rewrite !app_nil_r; split; reflexivity);
    try reflexivity.
Qed.

Lemma Step_advance (s : State) :
  (peekc E s =? EOF) = false -> Step E s (advance E s).
Proof. intros H. apply Step_moved, (peekc_not_EOF E s H). Qed.

Lemma Step_next (s : State) : Step E s (next E s).
Proof.
  unfold next, at_end. destruct (List.length (m_input E) <=? itr s)%nat eqn:L.
  - apply Step_refl.
  - apply Step_moved. now apply Nat.leb_gt in L.
Qed.

Lemma Step_peeked (s : State) : Step E s (peeked E s).
Proof.
  unfold peeked. destruct (peekc E s =? EOF); [apply Step_next | apply Step_refl].
Qed.

Lemma itr_advance (s : State) : itr (advance E s) = S (itr s).
Proof. unfold advance. destruct (peekc E s =? chr NL); reflexivity. Qed.

Lemma steps_getch : steps E (getch E).
Proof. intros s. rewrite getch_next. apply Step_next. Qed.

Lemma steps_peek : steps E (peek E).
Proof. intros s. rewrite peek_next. apply Step_peeked. Qed.

Lemma Step_frame (s s' : State) (w : list (Z * string)) (d : list ascii) :
  itr s' = itr s -> nline s' = nline s -> stuck s' = stuck s ->
  console s' = console s ++ w -> quiet w ->
  active E s' = active E s ++ d -> m_result s' = m_result s ++ d ->
  Step E s s'.
Proof.
  intros Hi Hn Hs Hc Hq Ha Hr. constructor.
  - lia.
  - rewrite Hi. auto.
  - unfold line_offset. now rewrite Hi, Hn.
  - exists w. auto.
  - exists d. auto.
  - exact Hs.
Qed.

Lemma quiet_nil : quiet [].
Proof. constructor. Qed.

Lemma steps_s_putch (c : ascii) : steps E (s_putch E c).
Proof.
  intros s. unfold s_putch, putchar, bind, when, modify, ret.
  apply Step_frame with (w := [])
    (d := if printCommentsNotCode E then [] else [c]);
    unfold active;
    destruct (printCommentsNotCode E); destruct (int_of_char c =? chr NL);
    cbn; rewrite ?app_nil_r; auto using quiet_nil.
Qed.

Lemma steps_c_putch (c : ascii) : steps E (c_putch E c).
Proof.
  intros s. unfold c_putch, putchar, bind, when, modify, ret.
  apply Step_frame with (w := [])
    (d := if printCommentsNotCode E then [c] else []);
    unfold active;
    destruct (printCommentsNotCode E);
    cbn; rewrite ?app_nil_r; auto using quiet_nil.
Qed.

Lemma steps_modify_frame (f : State -> State) :
  (forall s, itr (f s) = itr s) -> (forall s, nline (f s) = nline s) ->
  (forall s, stuck (f s) = stuck s) -> (forall s, console (f s) = console s) ->
  (forall s, code_chan (f s) = code_chan s) ->
  (forall s, comment_chan (f s) = comment_chan s) ->
  (forall s, m_result (f s) = m_result s) ->
  steps E (modify f).
Proof.
  intros Hi Hn Hs Hc Hcode Hcomm Hr s.
  apply Step_frame with (w := []) (d := []); unfold modify, active; cbn;
    rewrite ?app_nil_r; auto using quiet_nil.
  destruct (printCommentsNotCode E); auto.
Qed.

Lemma steps_s_fill (c : ascii) : steps E (s_fill E c).
Proof.
  unfold s_fill. apply steps_bind; [apply steps_s_putch|]. intros _.
  apply steps_modify_frame; reflexivity.
Qed.

Lemma steps_warning (msg : string) (line : Z) :
  msg <> unterminated_text -> steps E (warning msg line).
Proof.
  intros H s.
  apply Step_frame with (w := [(line, msg)]) (d := []); unfold active; cbn;
    rewrite ?app_nil_r; auto.
  constructor; [exact H | constructor].
Qed.

Lemma steps_set_l_comment (b : bool) : steps E (modify (set_l_comment b)).
Proof. apply steps_modify_frame; reflexivity. Qed.

Lemma steps_set_l_nest (n : Z) : steps E (modify (set_l_nest n)).
Proof. apply steps_modify_frame; reflexivity. Qed.

Lemma steps_set_l_cend (n : Z) : steps E (modify (set_l_cend n)).
Proof. apply steps_modify_frame; reflexivity. Qed.

Lemma steps_from_steps {R : Type} (i : nat) (m : State -> R * State) :
  steps E m -> steps_from E i m.
Proof. intros H s _. apply H. Qed.

Lemma steps_from_bind {A B : Type} (i : nat) (m : M A) (f : A -> M B) :
  steps_from E i m -> (forall a, steps_from E i (f a)) -> steps_from E i (bind m f).
Proof.
  intros Hm Hf s Hs. rewrite bind_eq.
  pose proof (Hm s Hs) as H1.
  eapply Step_trans; [exact H1 | apply Hf].
  pose proof (step_itr _ _ _ H1). lia.
Qed.

Lemma steps_from_bind_ab {A B : Type} (i : nat) (m : Ab A) (f : A -> Ab B) :
  steps_from E i m -> (forall a, steps_from E i (f a)) -> steps_from E i (bind_ab m f).
Proof.
  intros Hm Hf s Hs. rewrite bind_ab_eq.
  pose proof (Hm s Hs) as H1. destruct (fst (m s)) as [a|]; [|exact H1].
  eapply Step_trans; [exact H1 | apply Hf].
  pose proof (step_itr _ _ _ H1). lia.
Qed.

Lemma steps_from_lift {A : Type} (i : nat) (m : M A) :
  steps_from E i m -> steps_from E i (lift m).
Proof. intros H s Hs. now apply H. Qed.

Lemma steps_from_le {R : Type} (i j : nat) (m : State -> R * State) :
  (i <= j)%nat -> steps_from E i m -> steps_from E j m.
Proof. intros L H s Hs. apply H. lia. Qed.

Lemma enough_fuel (i : nat) : enough E (fuel E) i.
Proof. unfold enough, fuel. lia. Qed.

Lemma steps_warn_feature (f : Feature) : steps E (warn_feature E f).
Proof.
  unfold warn_feature. apply steps_bind; [apply steps_gets|]. intros line.
  apply steps_warning. unfold feature_text, unterminated_text.
  destruct f; cbn; discriminate.
Qed.

Lemma steps_warning2 (s1 s2 : string) (line : Z) :
  (s1 ++ " " ++ s2)%string <> unterminated_text -> steps E (warning2 s1 s2 line).
Proof. intros H. unfold warning2. now apply steps_warning. Qed.

Lemma steps_put_quote_char (q c : ascii) : steps E (put_quote_char E q c).
Proof.
  unfold put_quote_char.
  repeat match goal with |- steps E (if ?b then _ else _) => destruct b end;
    apply steps_s_putch.
Qed.

Lemma steps_s_putstr (buf : list ascii) : steps E (s_putstr E buf).
Proof.
  induction buf as [|c buf IH]; cbn [s_putstr].
  - apply steps_ret.
  - destruct (Ascii.eqb c NUL); [apply steps_ret|].
    apply steps_bind; [apply steps_s_putch | intros _; exact IH].
Qed.

Lemma steps_put_quote_str (q : ascii) (buf : list ascii) :
  steps E (put_quote_str E q buf).
Proof.
  induction buf as [|c buf IH]; cbn [put_quote_str].
  - apply steps_ret.
  - destruct (Ascii.eqb c NUL); [apply steps_ret|].
    apply steps_bind; [apply steps_put_quote_char | intros _; exact IH].
Qed.

#[local] Hint Resolve steps_ret steps_gets steps_getch steps_peek steps_s_putch
  steps_c_putch steps_s_fill steps_set_l_comment steps_set_l_nest
  steps_set_l_cend steps_warn_feature steps_put_quote_char steps_s_putstr
  steps_put_quote_str steps_ret_ab steps_abort steps_assert steps_is_idchar
  steps_is_binary steps_is_octal : steps.

Ltac quiet_text :=
  unfold unterminated_text; cbn; discriminate.

(** A warning whose text is built from what was read: it differs from the
    text of an unterminated comment in its first characters. *)
Ltac other_text :=
  let H := fresh in
  unfold unterminated_text; intros H;
  apply (f_equal (fun t => String.substring 0 2 t)) in H;
  cbn in H; discriminate H.

Ltac steps_tac :=
  repeat first
    [ solve [auto with steps]
    | match goal with
      | |- steps E (bind _ _) => apply steps_bind; [ | intro ]
      | |- steps_from E _ (bind _ _) => apply steps_from_bind; [ | intro ]
      | |- steps E (bind_ab _ _) => apply steps_bind_ab; [ | intro ]
      | |- steps_from E _ (bind_ab _ _) => apply steps_from_bind_ab; [ | intro ]
      | |- steps E (lift _) => apply steps_lift
      | |- steps_from E _ (lift _) => apply steps_from_lift
      | |- steps E (when _ _) => apply steps_when
      | |- steps E (when_ab _ _) => apply steps_when_ab
      | |- steps E (times _ _) => apply steps_times
      | |- steps E (every_second _ _) => apply steps_every_second
      | |- steps E (warning _ _) => apply steps_warning; first [quiet_text | other_text]
      | |- steps E (warning2 _ _ _) => apply steps_warning2; quiet_text
      | |- steps E (if ?b then _ else _) => destruct b
      | |- steps_from E _ (if ?b then _ else _) => destruct b
      | |- steps E (match ?x with Returned => _ | Fell_out _ => _ end) => destruct x
      | |- steps_from E _ (match ?x with Returned => _ | Fell_out _ => _ end) => destruct x
      | |- steps_from E _ _ => apply steps_from_steps
      end ].

Lemma count_backslashes_step (n : nat) : forall bs_count s,
  enough E n (itr s) -> Step E s (snd (count_backslashes E n bs_count s)).
Proof.
  induction n as [|n IH]; intros bs s H.
  - unfold enough in H. lia.
  - cbn [count_backslashes]. rewrite bind_eq, getch_next. cbn [fst snd].
    destruct (peekc E s =? EOF) eqn:HE; cbn [negb andb].
    + apply Step_next.
    + rewrite (next_ne E s HE).
      destruct (peekc E s =? chr BSLASH); [|apply Step_advance, HE].
      pose proof (Step_advance s HE) as H1.
      eapply Step_trans; [exact H1|]. apply IH.
      pose proof (peekc_not_EOF E s HE).
      unfold enough in *. rewrite itr_advance. lia.
Qed.

Lemma loop_steps_from {R : Type} (n i : nat) (m : State -> R * State) :
  (forall s, enough E n (itr s) -> Step E s (snd (m s))) ->
  enough E n i -> steps_from E i m.
Proof.
  intros H L s Hs. apply H. unfold enough in *. lia.
Qed.

Lemma loop_steps {R : Type} (m : State -> R * State) :
  (forall s, enough E (fuel E) (itr s) -> Step E s (snd (m s))) -> steps E m.
Proof. intros H s. apply H, enough_fuel. Qed.

Lemma enough_advance (n : nat) (s : State) :
  (peekc E s =? EOF) = false -> enough E (S n) (itr s) ->
  enough E n (itr (advance E s)).
Proof.
  intros HE H. pose proof (peekc_not_EOF E s HE).
  unfold enough in *. rewrite itr_advance. lia.
Qed.

Ltac from_here :=
  match goal with
  | |- Step E ?a (snd (?m ?a)) =>
      apply (fun H : steps_from E (itr a) m => H a (le_n _))
  end.

Lemma steps_count_backslashes (bs_count : nat) :
  steps E (count_backslashes E (fuel E) bs_count).
Proof. apply loop_steps. intros s. apply count_backslashes_step. Qed.
#[local] Hint Resolve steps_count_backslashes : steps.

Lemma endquote_loop_step (n : nat) : forall q msg s,
  enough E n (itr s) -> Step E s (snd (endquote_loop E n q msg s)).
Proof.
  induction n as [|n IH]; intros q msg s H.
  - unfold enough in H. lia.
  - cbn [endquote_loop]. rewrite bind_eq, getch_next. cbn [fst snd].
    destruct (peekc E s =? EOF) eqn:HE.
    + cbn. apply Step_next.
    + rewrite (next_ne E s HE).
      eapply Step_trans; [apply Step_advance, HE|].
      assert (IH' : steps_from E (itr (advance E s)) (endquote_loop E n q msg)).
      { apply (loop_steps_from n); [apply IH | now apply enough_advance]. }
      revert IH'. generalize (advance E s) as s1. intros s1 IH'.
      from_here. steps_tac.
Qed.

Lemma steps_endquote (q : ascii) (msg : string) : steps E (endquote E q msg).
Proof.
  unfold endquote. apply steps_bind.
  - apply loop_steps. intros s. apply endquote_loop_step.
  - intros [c1|]; steps_tac.
Qed.
#[local] Hint Resolve steps_endquote : steps.

(** The second pushback of [read_bsnl]: behind a backslash that no newline
    follows, the cursor is back at the backslash, or behind it when the
    character that follows was read as [EOF] and not pushed back. *)
Lemma unread_backslash (s : State) :
  peekc E s = chr BSLASH ->
  snd (ungetch BSLASH (peeked E (advance E s))) =
  if (peekc E (advance E s) =? EOF) && negb (at_end E (advance E s))
  then advance E s else s.
Proof.
  intros HB.
  assert (HE : (peekc E s =? EOF) = false) by (now rewrite HB).
  assert (U : ungetch BSLASH (advance E s) = (tt, s)).
  { replace BSLASH with (to_char (peekc E s)) by (now rewrite HB).
    apply (ungetch_advance E s HE). }
  unfold peeked. destruct (peekc E (advance E s) =? EOF) eqn:H1; cbn [andb].
  - unfold next. destruct (at_end E (advance E s)) eqn:A; cbn [negb].
    + now rewrite U.
    + apply Z.eqb_eq in H1.
      assert (A1 : advance E s = set_itr (S (itr s)) s).
      { unfold advance. rewrite HB. reflexivity. }
      assert (A2 : advance E (advance E s) = set_itr (S (S (itr s))) (advance E s)).
      { unfold advance at 1. rewrite H1, itr_advance. reflexivity. }
      rewrite A2, A1. break_state s. reflexivity.
  - now rewrite U.
Qed.

(** One round of [read_bsnl], with its two pushbacks resolved. *)
Lemma read_bsnl_loop_round (k n : nat) (s : State) :
  read_bsnl_loop E (S k) n s =
  if peekc E s =? chr BSLASH then
    if peekc E (advance E s) =? chr NL
    then read_bsnl_loop E k (S n) (advance E (advance E s))
    else (n, if (peekc E (advance E s) =? EOF) && negb (at_end E (advance E s))
             then advance E s else s)
  else (n, peeked E s).
Proof.
  cbn [read_bsnl_loop]. rewrite bind_eq, peek_next. cbn [fst snd].
  destruct (peekc E s =? EOF) eqn:HE.
  - apply Z.eqb_eq in HE. rewrite HE. reflexivity.
  - rewrite (peeked_ne E s HE).
    destruct (peekc E s =? chr BSLASH) eqn:HB; cbn [negb andb]; [|reflexivity].
    rewrite bind_eq, (getch_ne E s HE). cbn [fst snd].
    rewrite bind_eq, peek_next. cbn [fst snd].
    destruct (peekc E (advance E s) =? chr NL) eqn:HN; cbn [negb].
    + assert (HE1 : (peekc E (advance E s) =? EOF) = false).
      { apply Z.eqb_eq in HN. now rewrite HN. }
      rewrite (peeked_ne E _ HE1), bind_eq, (getch_ne E _ HE1). reflexivity.
    + rewrite bind_eq. cbn [ret fst snd]. apply Z.eqb_eq in HB.
      now rewrite (unread_backslash s HB).
Qed.

Lemma read_bsnl_loop_step (k : nat) : forall n s,
  enough E k (itr s) -> Step E s (snd (read_bsnl_loop E k n s)).
Proof.
  induction k as [|k IH]; intros n s H.
  - unfold enough in H. lia.
  - rewrite read_bsnl_loop_round.
    destruct (peekc E s =? chr BSLASH) eqn:HB; [|apply Step_peeked].
    assert (HE : (peekc E s =? EOF) = false).
    { apply Z.eqb_eq in HB. now rewrite HB. }
    destruct (peekc E (advance E s) =? chr NL) eqn:HN.
    + assert (HE1 : (peekc E (advance E s) =? EOF) = false).
      { apply Z.eqb_eq in HN. now rewrite HN. }
      eapply Step_trans; [apply Step_advance, HE|].
      eapply Step_trans; [apply Step_advance, HE1|].
      apply IH. pose proof (enough_advance k s HE H) as H1.
      unfold enough in *. rewrite !itr_advance in *. lia.
    + cbn [snd]. destruct ((peekc E (advance E s) =? EOF) && _);
        [apply Step_advance, HE | apply Step_refl].
Qed.

Lemma steps_read_bsnl : steps E (read_bsnl E).
Proof. apply loop_steps. intros s. apply read_bsnl_loop_step. Qed.
#[local] Hint Resolve steps_read_bsnl : steps.

Lemma steps_write_bsnl (bsnl : nat) (put : ascii -> M unit) :
  (forall c, steps E (put c)) -> steps E (write_bsnl bsnl put).
Proof. intros H. unfold write_bsnl. steps_tac; apply H. Qed.

Lemma steps_write_bsnl_s (bsnl : nat) : steps E (write_bsnl bsnl (s_putch E)).
Proof. apply steps_write_bsnl, steps_s_putch. Qed.

Lemma steps_write_bsnl_c (bsnl : nat) : steps E (write_bsnl bsnl (c_putch E)).
Proof. apply steps_write_bsnl, steps_c_putch. Qed.
#[local] Hint Resolve steps_write_bsnl_s steps_write_bsnl_c : steps.

Lemma steps_c_comment (c : int) : steps E (c_comment E c).
Proof. unfold c_comment. steps_tac. Qed.

Lemma steps_cpp_comment (c oc : int) : steps E (cpp_comment E c oc).
Proof. unfold cpp_comment. steps_tac. Qed.

Lemma steps_scan_ucn_loop (todo : nat) : forall digits c,
  steps E (scan_ucn_loop E todo digits c).
Proof.
  induction todo as [|k IH]; intros digits c; cbn [scan_ucn_loop]; steps_tac.
Qed.
#[local] Hint Resolve steps_scan_ucn_loop : steps.

Lemma steps_scan_ucn (letter : int) (nbytes : nat) : steps E (scan_ucn E letter nbytes).
Proof. unfold scan_ucn. steps_tac. Qed.

(** [check_punct] reads the quote it was called for. *)
Lemma check_punct_step (oc : int) (digit_check : int -> Ab bool) (s : State) :
  checker digit_check ->
  (peekc E s =? EOF) = false ->
  Step E (advance E s) (snd (check_punct E oc digit_check s)).
Proof.
  intros D HE. unfold check_punct. rewrite bind_lift, (getch_ne E s HE). cbn [fst snd].
  pose proof (fun c => steps_checker digit_check c D) as HD.
  from_here. steps_tac.
Qed.

Lemma steps_check_punct (oc : int) (digit_check : int -> Ab bool) :
  checker digit_check -> steps E (check_punct E oc digit_check).
Proof.
  intros D. pose proof (fun c => steps_checker digit_check c D) as HD.
  unfold check_punct. steps_tac.
Qed.

Lemma exponent_digits_step (n : nat) : forall count s,
  enough E n (itr s) -> Step E s (snd (exponent_digits E n count s)).
Proof.
  induction n as [|n IH]; intros count s H.
  - unfold enough in H. lia.
  - cbn [exponent_digits]. rewrite bind_eq, peek_next. cbn [fst snd].
    destruct (peekc E s =? EOF) eqn:HE; cbn [negb andb]; [apply Step_peeked|].
    rewrite (peeked_ne E s HE).
    destruct (isdigit (peekc E s)); [|apply Step_refl].
    rewrite bind_eq, (getch_ne E s HE). cbn [fst snd].
    eapply Step_trans; [apply Step_advance, HE|].
    assert (IH' : forall count, steps_from E (itr (advance E s)) (exponent_digits E n count)).
    { intros c. apply (loop_steps_from n); [apply IH | now apply enough_advance]. }
    revert IH'. generalize (advance E s) as s1. intros s1 IH'.
    from_here. steps_tac.
Qed.

Lemma steps_exponent_digits (count : nat) : steps E (exponent_digits E (fuel E) count).
Proof. apply loop_steps. intros s. apply exponent_digits_step. Qed.
#[local] Hint Resolve steps_exponent_digits : steps.

Lemma steps_parse_exponent : steps E (parse_exponent E).
Proof. unfold parse_exponent. steps_tac. Qed.
#[local] Hint Resolve steps_parse_exponent : steps.

Lemma not_EOF_of (c : int) (b : bool) :
  b = true -> (c = EOF -> b = false) -> (c =? EOF) = false.
Proof.
  intros Hb H. destruct (c =? EOF) eqn:Q; [|reflexivity].
  apply Z.eqb_eq in Q. rewrite (H Q) in Hb. discriminate.
Qed.

Lemma checker_ctype_isxdigit : checker (ctype isxdigit).
Proof. now apply checker_ctype. Qed.

Lemma checker_ctype_isdigit : checker (ctype isdigit).
Proof. now apply checker_ctype. Qed.

Lemma parse_hex_loop_step (n : nat) : forall oc warned s,
  enough E n (itr s) -> Step E s (snd (parse_hex_loop E n oc warned s)).
Proof.
  induction n as [|n IH]; intros oc warned s H.
  - unfold enough in H. lia.
  - cbn [parse_hex_loop]. rewrite bind_lift, peek_next. cbn [fst snd].
    destruct ((peekc E s =? chr SQUOTE) || isxdigit (peekc E s)
              || (peekc E s =? chr ".")) eqn:C; [|apply Step_peeked].
    assert (HE : (peekc E s =? EOF) = false).
    { apply (not_EOF_of _ _ C). intros Q. now rewrite Q. }
    rewrite (peeked_ne E s HE).
    pose proof (Step_advance s HE) as H1.
    pose proof (enough_advance n s HE H) as H2.
    destruct (peekc E s =? chr SQUOTE).
    + rewrite bind_ab_eq.
      pose proof (check_punct_step oc (ctype isxdigit) s checker_ctype_isxdigit HE) as H3.
      destruct (fst (check_punct E oc (ctype isxdigit) s)) as [oc'|].
      * eapply Step_trans; [exact H1|]. eapply Step_trans; [exact H3|].
        apply IH. pose proof (step_itr _ _ _ H3). unfold enough in *. lia.
      * eapply Step_trans; [exact H1 | exact H3].
    + rewrite bind_lift.
      match goal with |- context [snd (?m s)] =>
        assert (HW : Step E s (snd (m s))) by (from_here; steps_tac);
        assert (HI : itr (snd (m s)) = itr s)
          by (unfold when;
              repeat match goal with
                     | |- context [if ?b then _ else _] => destruct b
                     end; reflexivity);
        generalize (fst (m s)); revert HW HI; generalize (snd (m s))
      end.
      intros s0 HW HI w.
      assert (HE0 : (peekc E s0 =? EOF) = false) by (now rewrite (peekc_same s0 s HI)).
      rewrite bind_lift, (getch_ne E s0 HE0). cbn [fst snd].
      eapply Step_trans; [exact HW|].
      eapply Step_trans; [apply Step_advance, HE0|].
      assert (IH' : forall oc w, steps_from E (itr (advance E s0)) (parse_hex_loop E n oc w)).
      { intros oc' w'. apply (loop_steps_from n); [apply IH|].
        unfold enough in *. rewrite itr_advance in *. lia. }
      revert IH'. generalize (advance E s0) as s1. intros s1 IH'.
      from_here. steps_tac.
Qed.

Lemma steps_parse_hex_loop (oc : int) (warned : bool) :
  steps E (parse_hex_loop E (fuel E) oc warned).
Proof. apply loop_steps. intros s. apply parse_hex_loop_step. Qed.
#[local] Hint Resolve steps_parse_hex_loop : steps.

Lemma steps_parse_hex : steps E (parse_hex E).
Proof. unfold parse_hex. steps_tac. Qed.

Lemma digits_loop_step (digit_check : int -> Ab bool) (n : nat) :
  checker digit_check ->
  forall oc s, enough E n (itr s) ->
  Step E s (snd (digits_loop E n digit_check oc s)).
Proof.
  intros D. induction n as [|n IH]; intros oc s H.
  - unfold enough in H. lia.
  - cbn [digits_loop]. rewrite bind_lift, peek_next. cbn [fst snd].
    destruct (peekc E s =? EOF) eqn:HE.
    + (* what was read as [EOF] is no quote and no digit *)
      apply Z.eqb_eq in HE. rewrite HE.
      change (EOF =? chr SQUOTE) with false. cbv iota.
      rewrite bind_ab_eq. destruct (D EOF (peeked E s)) as [D1 D2].
      rewrite D1, (D2 eq_refl). apply Step_peeked.
    + rewrite (peeked_ne E s HE).
      pose proof (Step_advance s HE) as H1.
      pose proof (enough_advance n s HE H) as H2.
      destruct (peekc E s =? chr SQUOTE).
      * rewrite bind_ab_eq.
        pose proof (check_punct_step oc digit_check s D HE) as H3.
        eapply Step_trans; [exact H1|].
        destruct (fst (check_punct E oc digit_check s)) as [oc'|]; [|exact H3].
        eapply Step_trans; [exact H3|].
        apply IH. pose proof (step_itr _ _ _ H3). unfold enough in *. lia.
      * rewrite bind_ab_eq. destruct (D (peekc E s) s) as [D1 _]. rewrite D1.
        destruct (fst (digit_check (peekc E s) s)) as [[|]|]; try apply Step_refl.
        rewrite bind_lift, (getch_ne E s HE). cbn [fst snd].
        eapply Step_trans; [exact H1|].
        assert (IH' : forall oc, steps_from E (itr (advance E s))
                                   (digits_loop E n digit_check oc)).
        { intros oc'. apply (loop_steps_from n); [apply IH | exact H2]. }
        revert IH'. generalize (advance E s) as s1. intros s1 IH'.
        from_here. steps_tac.
Qed.

Lemma steps_digits_loop (digit_check : int -> Ab bool) (oc : int) :
  checker digit_check ->
  steps E (digits_loop E (fuel E) digit_check oc).
Proof. intros D. apply loop_steps. intros s. now apply digits_loop_step. Qed.

Lemma steps_parse_binary : steps E (parse_binary E).
Proof.
  unfold parse_binary. steps_tac. apply steps_digits_loop, checker_is_binary.
Qed.

Lemma steps_parse_octal : steps E (parse_octal E).
Proof.
  unfold parse_octal. steps_tac. apply steps_digits_loop, checker_is_octal.
Qed.

Lemma steps_parse_decimal (c : int) : steps E (parse_decimal E c).
Proof.
  unfold parse_decimal. steps_tac. apply steps_digits_loop, checker_ctype_isdigit.
Qed.
#[local] Hint Resolve steps_parse_hex steps_parse_binary steps_parse_octal
  steps_parse_decimal : steps.

Lemma steps_parse_number (c : int) : steps E (parse_number E c).
Proof. unfold parse_number. steps_tac. Qed.

Lemma read_remainder_of_identifier_loop_step (n : nat) : forall s,
  enough E n (itr s) -> Step E s (snd (read_remainder_of_identifier_loop E n s)).
Proof.
  induction n as [|n IH]; intros s H.
  - unfold enough in H. lia.
  - cbn [read_remainder_of_identifier_loop]. rewrite bind_lift, peek_next. cbn [fst snd].
    destruct (peekc E s =? EOF) eqn:HE; [apply Step_peeked|].
    rewrite (peeked_ne E s HE), bind_ab_eq, is_idchar_eq. cbn [fst snd].
    destruct (valid_int (peekc E s)); [|apply Step_refl].
    destruct (isalnum (peekc E s) || (peekc E s =? chr "_")); [|apply Step_refl].
    rewrite bind_lift, (getch_ne E s HE). cbn [fst snd].
    eapply Step_trans; [apply Step_advance, HE|].
    assert (IH' : steps_from E (itr (advance E s)) (read_remainder_of_identifier_loop E n)).
    { apply (loop_steps_from n); [apply IH | now apply enough_advance]. }
    revert IH'. generalize (advance E s) as s1. intros s1 IH'.
    from_here. steps_tac.
Qed.

Lemma steps_read_remainder_of_identifier : steps E (read_remainder_of_identifier E).
Proof. apply loop_steps. intros s. apply read_remainder_of_identifier_loop_step. Qed.
#[local] Hint Resolve steps_parse_number steps_read_remainder_of_identifier : steps.

Lemma raw_scan_marker_loop_step (n : nat) : forall markstr pfx s,
  enough E n (itr s) -> Step E s (snd (raw_scan_marker_loop E n markstr pfx s)).
Proof.
  induction n as [|n IH]; intros markstr pfx s H.
  - unfold enough in H. lia.
  - cbn [raw_scan_marker_loop]. rewrite bind_lift, getch_next. cbn [fst snd].
    destruct (peekc E s =? EOF) eqn:HE.
    + eapply Step_trans; [apply Step_next|].
      generalize (next E s) as s1. intros s1. from_here. steps_tac.
    + rewrite (next_ne E s HE).
      eapply Step_trans; [apply Step_advance, HE|].
      assert (IH' : forall markstr, steps_from E (itr (advance E s))
                                      (raw_scan_marker_loop E n markstr pfx)).
      { intros m. apply (loop_steps_from n); [apply IH | now apply enough_advance]. }
      revert IH'. generalize (advance E s) as s1. intros s1 IH'.
      from_here. steps_tac.
Qed.

Lemma steps_raw_scan_marker (pfx : list ascii) : steps E (raw_scan_marker E pfx).
Proof. apply loop_steps. intros s. apply raw_scan_marker_loop_step. Qed.

Lemma raw_scan_close_step (n : nat) : forall markstr marklen endstr s,
  enough E n (itr s) ->
  Step E s (snd (raw_scan_close E n markstr marklen endstr s)).
Proof.
  induction n as [|n IH]; intros markstr marklen endstr s H.
  - unfold enough in H. lia.
  - cbn [raw_scan_close]. rewrite bind_eq, getch_next. cbn [fst snd].
    destruct (peekc E s =? EOF) eqn:HE; [apply Step_next|].
    rewrite (next_ne E s HE).
    eapply Step_trans; [apply Step_advance, HE|].
    assert (IH' : forall endstr, steps_from E (itr (advance E s))
                                   (raw_scan_close E n markstr marklen endstr)).
    { intros m. apply (loop_steps_from n); [apply IH | now apply enough_advance]. }
    revert IH'. generalize (advance E s) as s1. intros s1 IH'.
    from_here. steps_tac.
Qed.

Lemma steps_raw_scan_close (markstr : list ascii) (marklen : nat) (endstr : list ascii) :
  steps E (raw_scan_close E (fuel E) markstr marklen endstr).
Proof. apply loop_steps. intros s. apply raw_scan_close_step. Qed.
#[local] Hint Resolve steps_raw_scan_marker steps_raw_scan_close : steps.

Lemma raw_scan_string_loop_step (n : nat) : forall markstr marklen s,
  enough E n (itr s) ->
  Step E s (snd (raw_scan_string_loop E n markstr marklen s)).
Proof.
  induction n as [|n IH]; intros markstr marklen s H.
  - unfold enough in H. lia.
  - cbn [raw_scan_string_loop]. rewrite bind_eq, getch_next. cbn [fst snd].
    destruct (peekc E s =? EOF) eqn:HE; [apply Step_next|].
    rewrite (next_ne E s HE).
    eapply Step_trans; [apply Step_advance, HE|].
    assert (IH' : steps_from E (itr (advance E s))
                    (raw_scan_string_loop E n markstr marklen)).
    { apply (loop_steps_from n); [apply IH | now apply enough_advance]. }
    revert IH'. generalize (advance E s) as s1. intros s1 IH'.
    from_here. steps_tac.
Qed.

Lemma steps_raw_scan_string (markstr : list ascii) (marklen : nat) (line1 : Z) :
  steps E (raw_scan_string E markstr marklen line1).
Proof.
  unfold raw_scan_string. apply steps_bind.
  - apply loop_steps. intros s. apply raw_scan_string_loop_step.
  - intros r. steps_tac.
Qed.
#[local] Hint Resolve steps_raw_scan_string : steps.

Lemma steps_parse_raw_string (prefix : list ascii) : steps E (parse_raw_string E prefix).
Proof. unfold parse_raw_string. steps_tac. Qed.
#[local] Hint Resolve steps_parse_raw_string : steps.

Lemma steps_parse_dq_string (prefix : list ascii) : steps E (parse_dq_string E prefix).
Proof. unfold parse_dq_string. steps_tac. Qed.
#[local] Hint Resolve steps_parse_dq_string : steps.

Lemma process_poss_string_literal_loop_step (n : nat) : forall prefix s,
  enough E n (itr s) ->
  Step E s (snd (process_poss_string_literal_loop E n prefix s)).
Proof.
  induction n as [|n IH]; intros prefix s H.
  - unfold enough in H. lia.
  - cbn [process_poss_string_literal_loop]. rewrite bind_lift, peek_next. cbn [fst snd].
    destruct (peekc E s =? EOF) eqn:HE; [apply Step_peeked|].
    rewrite (peeked_ne E s HE).
    destruct (peekc E s =? chr SQUOTE); [from_here; steps_tac|].
    destruct (peekc E s =? chr DQUOTE); [from_here; steps_tac|].
    destruct (could_be_string_literal (to_char (peekc E s))); [|from_here; steps_tac].
    rewrite bind_lift, (getch_ne E s HE). cbn [fst snd].
    eapply Step_trans; [apply Step_advance, HE|].
    assert (IH' : forall prefix, steps_from E (itr (advance E s))
                                   (process_poss_string_literal_loop E n prefix)).
    { intros p. apply (loop_steps_from n); [apply IH | now apply enough_advance]. }
    revert IH'. generalize (advance E s) as s1. intros s1 IH'.
    from_here. steps_tac.
Qed.

Lemma steps_process_poss_string_literal (c : ascii) :
  steps E (process_poss_string_literal E c).
Proof. apply loop_steps. intros s. apply process_poss_string_literal_loop_step. Qed.
#[local] Hint Resolve steps_process_poss_string_literal : steps.

Lemma steps_parse_identifier (c : int) : steps E (parse_identifier E c).
Proof. unfold parse_identifier. steps_tac. Qed.
#[local] Hint Resolve steps_parse_identifier steps_scan_ucn : steps.

Lemma steps_non_comment (c : int) : steps E (non_comment E c).
Proof. unfold non_comment. steps_tac. Qed.
#[local] Hint Resolve steps_non_comment steps_c_comment steps_cpp_comment : steps.

Lemma scc_loop_step (n : nat) : forall oc status s,
  enough E n (itr s) -> Step E s (snd (scc_loop E n oc status s)).
Proof.
  induction n as [|n IH]; intros oc status s H.
  - unfold enough in H. lia.
  - cbn [scc_loop]. rewrite bind_lift, getch_next. cbn [fst snd].
    destruct (peekc E s =? EOF) eqn:HE; [apply Step_next|].
    rewrite (next_ne E s HE).
    eapply Step_trans; [apply Step_advance, HE|].
    assert (IH' : forall oc status, steps_from E (itr (advance E s))
                                      (scc_loop E n oc status)).
    { intros o st. apply (loop_steps_from n); [apply IH | now apply enough_advance]. }
    revert IH'. generalize (advance E s) as s1. intros s1 IH'.
    from_here. destruct status; steps_tac.
Qed.

End Steps.

Ltac quiet_text :=
  unfold unterminated_text; cbn; discriminate.

Ltac other_text :=
  let H := fresh in
  unfold unterminated_text; intros H;
  apply (f_equal (fun t => String.substring 0 2 t)) in H;
  cbn in H; discriminate H.

Ltac steps_tac :=
  repeat first
    [ solve [auto with steps]
    | match goal with
      | |- steps _ (bind _ _) => apply steps_bind; [ | intro ]
      | |- steps_from _ _ (bind _ _) => apply steps_from_bind; [ | intro ]
      | |- steps _ (bind_ab _ _) => apply steps_bind_ab; [ | intro ]
      | |- steps_from _ _ (bind_ab _ _) => apply steps_from_bind_ab; [ | intro ]
      | |- steps _ (lift _) => apply steps_lift
      | |- steps_from _ _ (lift _) => apply steps_from_lift
      | |- steps _ (when _ _) => apply steps_when
      | |- steps _ (when_ab _ _) => apply steps_when_ab
      | |- steps _ (times _ _) => apply steps_times
      | |- steps _ (every_second _ _) => apply steps_every_second
      | |- steps _ (warning _ _) => apply steps_warning; first [quiet_text | other_text]
      | |- steps _ (warning2 _ _ _) => apply steps_warning2; quiet_text
      | |- steps _ (if ?b then _ else _) => destruct b
      | |- steps_from _ _ (if ?b then _ else _) => destruct b
      | |- steps _ (match ?x with Returned => _ | Fell_out _ => _ end) => destruct x
      | |- steps_from _ _ (match ?x with Returned => _ | Fell_out _ => _ end) => destruct x
      | |- steps_from _ _ _ => apply steps_from_steps
      end ].

Ltac from_here :=
  match goal with
  | |- Step ?E ?a (snd (?m ?a)) =>
      apply (fun H : steps_from E (itr a) m => H a (le_n _))
  end.

#[local] Hint Resolve steps_ret steps_gets steps_getch steps_peek
  steps_s_putch steps_c_putch steps_s_fill steps_set_l_comment
  steps_set_l_nest steps_set_l_cend steps_warn_feature steps_put_quote_char
  steps_s_putstr steps_put_quote_str steps_count_backslashes steps_endquote
  steps_read_bsnl steps_write_bsnl_s steps_write_bsnl_c steps_scan_ucn_loop
  steps_exponent_digits steps_parse_exponent steps_parse_hex_loop
  steps_parse_hex steps_parse_binary steps_parse_octal steps_parse_decimal
  steps_parse_number steps_read_remainder_of_identifier steps_raw_scan_marker steps_raw_scan_close
  steps_raw_scan_string steps_parse_raw_string steps_parse_dq_string steps_process_poss_string_literal
  steps_parse_identifier steps_scan_ucn steps_non_comment steps_c_comment
  steps_cpp_comment steps_ret_ab steps_abort steps_assert steps_is_idchar
  steps_is_binary steps_is_octal : steps.

(** ** What a piece of the scanner reads and writes *)

Lemma skipn_cons_nth {A : Type} (d : A) (l : list A) (i : nat) (c : A) (r : list A) :
  skipn i l = c :: r ->
  (i < List.length l)%nat /\ nth i l d = c /\ skipn (S i) l = r.
Proof.
  revert i. induction l as [|x l IH]; intros i H.
  - destruct i; discriminate.
  - destruct i as [|i].
    + cbn in H. inversion H. subst. cbn. repeat split. lia.
    + cbn [skipn] in H. destruct (IH i H) as [L [N K]].
      cbn [List.length nth]. repeat split; [lia | exact N | exact K].
Qed.

Section Emitting.

Variable E : Env.

Lemma rest_at (s : State) (c : ascii) (r : list ascii) :
  rest_of E s = c :: r ->
  peekc E s = int_of_char c /\ at_end E s = false
  /\ rest_of E (advance E s) = r.
Proof.
  unfold rest_of. intros H.
  destruct (skipn_cons_nth NUL _ _ _ _ H) as [L [N K]].
  apply Nat.leb_gt in L. repeat split.
  - unfold peekc. now rewrite L, N.
  - exact L.
  - rewrite itr_advance. exact K.
Qed.

Lemma rest_cons_at (s : State) (c : ascii) (r : list ascii) :
  rest_of E s = c :: r -> c <> EOF_byte ->
  peekc E s = int_of_char c /\ (peekc E s =? EOF) = false
  /\ rest_of E (advance E s) = r.
Proof.
  intros H N. destruct (rest_at s c r H) as [P [_ R]].
  repeat split; [exact P | | exact R].
  rewrite P. now apply int_of_char_not_EOF.
Qed.

Lemma rest_cons {L : Legible E} (s : State) (c : ascii) (r : list ascii) :
  rest_of E s = c :: r ->
  peekc E s = int_of_char c /\ (peekc E s =? EOF) = false
  /\ rest_of E (advance E s) = r.
Proof.
  intros H. apply (rest_cons_at s c r H). intros Q. apply L.
  rewrite <- Q. unfold rest_of in H.
  destruct (skipn_cons_nth NUL _ _ _ _ H) as [Hl [Hn _]].
  rewrite <- Hn. now apply nth_In.
Qed.

Lemma rest_nil (s : State) : rest_of E s = [] -> peekc E s = EOF.
Proof.
  unfold rest_of, peekc. intros H.
  destruct (List.length (m_input E) <=? itr s)%nat eqn:L; [reflexivity|].
  apply Nat.leb_gt in L.
  assert (X : List.length (skipn (itr s) (m_input E)) = 0%nat) by now rewrite H.
  rewrite length_skipn in X. lia.
Qed.

Lemma rest_nil_end (s : State) : rest_of E s = [] -> at_end E s = true.
Proof.
  unfold rest_of, at_end. intros H. apply Nat.leb_le.
  assert (X : List.length (skipn (itr s) (m_input E)) = 0%nat) by now rewrite H.
  rewrite length_skipn in X. lia.
Qed.

(** [getch] and [peek] at a character that is not read as [EOF], and at
    the end of the input. *)
Lemma peek_ne (s : State) :
  (peekc E s =? EOF) = false -> peek E s = (peekc E s, s).
Proof. intros H. now rewrite peek_next, peeked_ne. Qed.

Lemma getch_end (s : State) : rest_of E s = [] -> getch E s = (EOF, s).
Proof.
  intros H. rewrite getch_next, (rest_nil s H). unfold next.
  now rewrite (rest_nil_end s H).
Qed.

Lemma peek_end (s : State) : rest_of E s = [] -> peek E s = (EOF, s).
Proof.
  intros H. rewrite peek_next, (rest_nil s H). unfold peeked, next.
  rewrite (rest_nil s H), (rest_nil_end s H). reflexivity.
Qed.

Lemma Emits_refl (s : State) : Emits E s s [] [] [].
Proof.
  constructor; cbn; rewrite ?app_nil_r; auto; try lia.
  destruct (printCommentsNotCode E); now rewrite app_nil_r.
Qed.

Lemma Emits_trans (s1 s2 s3 : State) (r1 r2 c1 c2 : list ascii)
    (w1 w2 : list (Z * string)) :
  Emits E s1 s2 r1 c1 w1 -> Emits E s2 s3 r2 c2 w2 ->
  Emits E s1 s3 (r1 ++ r2) (c1 ++ c2) (w1 ++ w2).
Proof.
  intros [a1 a2 a3 a4 a5 a6 a7 a8 a9] [b1 b2 b3 b4 b5 b6 b7 b8 b9].
  constructor.
  - rewrite a1, b1. now rewrite app_assoc.
  - rewrite b2, a2, length_app. lia.
  - rewrite b3, a3, count_occ_app. lia.
  - rewrite b4, a4. now rewrite app_assoc.
  - congruence.
  - rewrite b6, a6. now rewrite app_assoc.
  - rewrite b7, a7. destruct (printCommentsNotCode E); now rewrite <- ?app_assoc.
  - congruence.
  - congruence.
Qed.

Lemma Emits_eq (s s' : State) (r r' c c' : list ascii) (w w' : list (Z * string)) :
  Emits E s s' r c w -> r = r' -> c = c' -> w = w' -> Emits E s s' r' c' w'.
Proof. intros H -> -> ->. exact H. Qed.

Lemma Emits_advance (s : State) (c : ascii) (r : list ascii) :
  rest_of E s = c :: r -> Emits E s (advance E s) [c] [] [].
Proof.
  intros H. destruct (rest_at s c r H) as [P [Q R]].
  constructor; rewrite ?itr_advance; cbn [List.length app]; rewrite ?app_nil_r;
    try (unfold advance; destruct (peekc E s =? chr NL); reflexivity).
  - now rewrite R.
  - lia.
  - unfold advance. cbn [count_occ]. rewrite P.
    destruct (ascii_dec c NL) as [e|n].
    + subst c. cbn. lia.
    + destruct (int_of_char c =? chr NL) eqn:X.
      * apply Z.eqb_eq, int_of_char_inj in X. contradiction.
      * cbn. lia.
  - unfold advance. destruct (peekc E s =? chr NL); cbn;
      destruct (printCommentsNotCode E); now rewrite app_nil_r.
Qed.

Lemma Emits_frame (s s' : State) (code : list ascii) (w : list (Z * string)) :
  itr s' = itr s -> nline s' = nline s ->
  code_chan s' = code_chan s ++ code -> comment_chan s' = comment_chan s ->
  console s' = console s ++ w ->
  m_result s' = m_result s ++ (if printCommentsNotCode E then [] else code) ->
  n_fill s' = n_fill s -> stuck s' = stuck s ->
  Emits E s s' [] code w.
Proof.
  intros Hi Hn Hc Hm Hw Hr Hf Hs. constructor; auto.
  - unfold rest_of. now rewrite Hi.
  - rewrite Hi. cbn. lia.
  - rewrite Hn. cbn. lia.
Qed.

Lemma Emits_s_putch (c : ascii) (s : State) :
  Emits E s (snd (s_putch E c s)) [] [c] [].
Proof.
  unfold s_putch, putchar, bind, when, modify, ret.
  apply Emits_frame;
    destruct (printCommentsNotCode E); destruct (int_of_char c =? chr NL);
    cbn; rewrite ?app_nil_r; reflexivity.
Qed.

Lemma put_quote_char_eq (q c : ascii) :
  put_quote_char E q c = s_putch E (quoted E q c).
Proof.
  unfold put_quote_char, quoted.
  destruct ((int_of_char q =? chr SQUOTE) && negb (int_of_char (qchar E) =? 0));
    [reflexivity|].
  destruct ((int_of_char q =? chr DQUOTE) && negb (int_of_char (schar E) =? 0));
    reflexivity.
Qed.

Lemma Emits_warning (msg : string) (line : Z) (s : State) :
  Emits E s (snd (warning msg line s)) [] [] [(line, msg)].
Proof.
  apply Emits_frame; cbn; rewrite ?app_nil_r; try reflexivity.
  destruct (printCommentsNotCode E); now rewrite app_nil_r.
Qed.

Lemma Emits_warn_feature (f : Feature) (s : State) :
  Emits E s (snd (warn_feature E f s)) [] [] [(nline s, feature_text E f)].
Proof. unfold warn_feature. rewrite bind_eq. apply Emits_warning. Qed.

Lemma Emits_s_putstr (buf : list ascii) : forall s,
  ~ In NUL buf -> Emits E s (snd (s_putstr E buf s)) [] buf [].
Proof.
  induction buf as [|c buf IH]; intros s H; cbn [s_putstr].
  - apply Emits_refl.
  - destruct (Ascii.eqb_spec c NUL) as [e|n].
    + exfalso. apply H. left. now symmetry.
    + rewrite bind_eq.
      eapply Emits_eq;
        [eapply Emits_trans; [apply Emits_s_putch | apply IH] | | |]; try reflexivity.
      intros X. apply H. now right.
Qed.

Lemma Emits_times (n : nat) (m : M unit) (code : list ascii) :
  (forall s, Emits E s (snd (m s)) [] code []) ->
  forall s, Emits E s (snd (times n m s)) [] (List.concat (repeat code n)) [].
Proof.
  intros H. induction n as [|n IH]; intros s; cbn [times repeat List.concat].
  - apply Emits_refl.
  - rewrite bind_eq.
    eapply Emits_eq; [eapply Emits_trans; [apply H | apply IH] | | |]; reflexivity.
Qed.

End Emitting.

(** ** Backslashes inside a quoted literal *)

Lemma mod2_even (n : nat) : (n mod 2 =? 0)%nat = Nat.even n.
Proof.
  destruct (Nat.even n) eqn:H.
  - apply Nat.even_spec in H. destruct H as [m ->].
    apply Nat.eqb_eq. rewrite Nat.mul_comm. apply Nat.Div0.mod_mul.
  - apply Nat.eqb_neq. intros Q.
    assert (X : Nat.even n = true).
    { apply Nat.even_spec. exists (n / 2)%nat.
      pose proof (Nat.div_mod_eq n 2). lia. }
    congruence.
Qed.

Lemma int_of_char_eqb (a b : ascii) :
  (int_of_char a =? int_of_char b) = Ascii.eqb a b.
Proof.
  destruct (Ascii.eqb_spec a b) as [->|n].
  - apply Z.eqb_refl.
  - apply Z.eqb_neq. intros H. apply n, int_of_char_inj, H.
Qed.

Lemma count_occ_repeat_other (a b : ascii) (n : nat) :
  a <> b -> count_occ ascii_dec (repeat a n) b = 0%nat.
Proof.
  intros H. induction n as [|n IH]; [reflexivity|].
  cbn [repeat count_occ]. destruct (ascii_dec a b); [contradiction | exact IH].
Qed.

Section Quoting.

Variable E : Env.

Lemma count_backslashes_run (N : nat) : forall k b s c r,
  rest_of E s = repeat BSLASH N ++ c :: r -> c <> BSLASH -> c <> EOF_byte ->
  (N < k)%nat ->
  exists s',
    count_backslashes E k b s = ((int_of_char c, (b + N)%nat), s')
    /\ Emits E s s' (repeat BSLASH N ++ [c]) [] [].
Proof.
  induction N as [|N IH]; intros k b s c r H Hc Hf Hk; (destruct k as [|k]; [lia|]);
    cbn [repeat app] in H; cbn [count_backslashes];
    rewrite bind_eq.
  - destruct (rest_cons_at E s c r H Hf) as [P [Q R]].
    rewrite (getch_ne E s Q). cbn [fst snd]. rewrite Q, P.
    cbn [negb andb].
    change (chr BSLASH) with (int_of_char BSLASH). rewrite int_of_char_eqb.
    destruct (Ascii.eqb_spec c BSLASH) as [e|_]; [contradiction|].
    exists (advance E s). rewrite Nat.add_0_r. split; [reflexivity|].
    now apply Emits_advance with (r := r).
  - destruct (rest_cons_at E s BSLASH _ H) as [P [Q R]]; [discriminate|].
    rewrite (getch_ne E s Q). cbn [fst snd]. rewrite Q, P.
    cbn [negb andb].
    change (chr BSLASH) with (int_of_char BSLASH). rewrite Z.eqb_refl.
    destruct (IH k (S b) (advance E s) c r R Hc Hf) as [s' [Heq Hem]]; [lia|].
    exists s'. split.
    + rewrite Heq. replace (b + S N)%nat with (S b + N)%nat by lia. reflexivity.
    + eapply Emits_eq;
        [eapply Emits_trans; [apply (Emits_advance E s BSLASH _ H) | exact Hem] | | |];
        reflexivity.
Qed.

Lemma Emits_put_quote_char (q c : ascii) (s : State) :
  Emits E s (snd (put_quote_char E q c s)) [] [quoted E q c] [].
Proof. rewrite put_quote_char_eq. apply Emits_s_putch. Qed.

Lemma Emits_backslash_pair (q : ascii) (s : State) :
  Emits E s (snd (put_quote_str E q [BSLASH; BSLASH] s)) []
    [quoted E q BSLASH; quoted E q BSLASH] [].
Proof.
  cbn [put_quote_str]. change (Ascii.eqb BSLASH NUL) with false. cbv iota.
  rewrite bind_eq.
  eapply Emits_eq;
    [eapply Emits_trans; [apply Emits_put_quote_char|] | | |]; try reflexivity.
  rewrite bind_eq.
  eapply Emits_eq;
    [eapply Emits_trans; [apply Emits_put_quote_char | apply Emits_refl] | | |];
    reflexivity.
Qed.

Lemma Emits_every_second (q : ascii) (d : nat) : forall s,
  Emits E s (snd (every_second d (put_quote_str E q [BSLASH; BSLASH]) s)) []
    (repeat (quoted E q BSLASH) (2 * ((d + 1) / 2))) [].
Proof.
  induction d as [d IH] using lt_wf_ind. intros s.
  destruct d as [|[|d]]; cbn [every_second].
  - apply Emits_refl.
  - apply Emits_backslash_pair.
  - rewrite bind_eq.
    eapply Emits_eq;
      [eapply Emits_trans; [apply Emits_backslash_pair | apply (IH d)] | | |];
      try reflexivity; [lia|].
    replace (S (S d) + 1)%nat with (d + 1 + 1 * 2)%nat by lia.
    rewrite Nat.div_add by lia.
    replace (2 * ((d + 1) / 2 + 1))%nat with (S (S (2 * ((d + 1) / 2))))%nat by lia.
    reflexivity.
Qed.

End Quoting.
(** ** Digit separators in numeric literals *)

(** The characters of the source as numbers, and the comparisons of a goal
    decided by arithmetic. *)
Ltac char_codes :=
  repeat match goal with
         | |- context [int_of_char (Ascii ?a ?b ?c ?d ?e ?f ?g ?h)] =>
             let v := eval vm_compute in (int_of_char (Ascii a b c d e f g h)) in
             change (int_of_char (Ascii a b c d e f g h)) with v
         | H : context [int_of_char (Ascii ?a ?b ?c ?d ?e ?f ?g ?h)] |- _ =>
             let v := eval vm_compute in (int_of_char (Ascii a b c d e f g h)) in
             change (int_of_char (Ascii a b c d e f g h)) with v in H
         end.

Ltac compare_all :=
  repeat match goal with
         | |- context [?x <=? ?y] => destruct (Z.leb_spec x y)
         | |- context [?x =? ?y] => destruct (Z.eqb_spec x y)
         | H : context [?x <=? ?y] |- _ => destruct (Z.leb_spec x y)
         | H : context [?x =? ?y] |- _ => destruct (Z.eqb_spec x y)
         end.

Ltac by_codes :=
  unfold isalnum, isalpha, isxdigit, isdigit, isgraph, in_range, valid_int, chr,
    EOF, UCHAR_MAX, SQUOTE, DQUOTE, BSLASH, NL, NUL in *;
  char_codes; compare_all; cbn in *; try discriminate; try lia; auto.

Lemma digit_facts (b : Base) (c : int) :
  digit_of b c = true ->
  valid_int c = true /\ (c =? EOF) = false /\ (c =? chr SQUOTE) = false
  /\ (c =? chr ".") = false /\ isalnum c = true /\ isdigit c || isxdigit c = true.
Proof.
  intros H. destruct b; cbn [digit_of] in H; repeat split; by_codes.
Qed.

Lemma digit_char (b : Base) (c : ascii) :
  digit_of b (int_of_char c) = true -> c <> EOF_byte /\ c <> NL /\ c <> SQUOTE.
Proof.
  intros H. repeat split; intros ->; destruct b; discriminate H.
Qed.

Lemma last_cons_default {A : Type} (l : list A) : forall a d,
  last (a :: l) d = last l a.
Proof.
  induction l as [|b l IH]; intros a d; [reflexivity|].
  change (last (a :: b :: l) d) with (last (b :: l) d).
  now rewrite !IH.
Qed.

Lemma decides_ctype (p : int -> bool) : decides (ctype p) p.
Proof. intros c s _. reflexivity. Qed.

Lemma decides_is_binary : decides is_binary (digit_of Binary).
Proof. intros c s V. rewrite is_binary_eq, V. reflexivity. Qed.

Lemma decides_is_octal : decides is_octal (digit_of Octal).
Proof. intros c s V. rewrite is_octal_eq, V. reflexivity. Qed.

Lemma groups_cons (g0 g1 : list ascii) (gs : list (list ascii)) :
  groups g0 (g1 :: gs) = g0 ++ SQUOTE :: groups g1 gs.
Proof. reflexivity. Qed.

Lemma group_inv (b : Base) (g : list ascii) :
  group b g = true ->
  g <> [] /\ forallb (fun c => digit_of b (int_of_char c)) g = true.
Proof.
  unfold group. intros H. apply andb_prop in H. destruct H as [N X].
  split; [|exact X]. intros ->. discriminate.
Qed.

Lemma count_occ_digits (b : Base) (g : list ascii) :
  forallb (fun c => digit_of b (int_of_char c)) g = true ->
  count_occ ascii_dec g NL = 0%nat.
Proof.
  induction g as [|c g IH]; [reflexivity|]. cbn [forallb count_occ].
  intros X. apply andb_prop in X. destruct X as [Xc Xg].
  destruct (ascii_dec c NL) as [e|_]; [|auto].
  now destruct (digit_char b c Xc) as [_ [N _]].
Qed.

Lemma last_digit (b : Base) (g : list ascii) (oc : int) :
  forallb (fun c => digit_of b (int_of_char c)) g = true ->
  g <> [] \/ digit_of b oc = true ->
  digit_of b (last (map int_of_char g) oc) = true.
Proof.
  revert oc. induction g as [|c g IH]; intros oc X N.
  - destruct N as [N|N]; [contradiction | exact N].
  - cbn [forallb] in X. apply andb_prop in X. destruct X as [Xc Xg].
    cbn [map]. rewrite last_cons_default. apply IH; auto.
Qed.

Lemma ends_number_next (E : Env) (r : list ascii) (s : State) :
  ends_number r -> rest_of E s = r ->
  peek E s = (peekc E s, s)
  /\ valid_int (peekc E s) = true
  /\ isalnum (peekc E s) = false
  /\ (peekc E s =? chr SQUOTE) = false
  /\ (peekc E s =? chr ".") = false.
Proof.
  intros N R. destruct r as [|x r].
  - rewrite (peek_end E s R), (rest_nil E s R). repeat split.
  - destruct N as [N1 [N2 [N3 N4]]].
    destruct (rest_at E s x r R) as [P _].
    assert (Q : (peekc E s =? EOF) = false).
    { rewrite P. apply Z.eqb_neq. unfold EOF. lia. }
    rewrite (peek_ne E s Q), P. pose proof (int_of_char_range x).
    repeat split; auto.
    + unfold valid_int, EOF, UCHAR_MAX. compare_all; cbn; try lia; reflexivity.
    + change (chr SQUOTE) with (int_of_char SQUOTE). rewrite int_of_char_eqb.
      now apply Ascii.eqb_neq.
    + change (chr ".") with (int_of_char "."). rewrite int_of_char_eqb.
      now apply Ascii.eqb_neq.
Qed.

Lemma not_alnum (c : int) :
  isalnum c = false ->
  isxdigit c = false /\ isdigit c = false /\ digit_of Binary c = false
  /\ digit_of Octal c = false
  /\ (c =? chr "p") = false /\ (c =? chr "P") = false
  /\ (c =? chr "e") = false /\ (c =? chr "E") = false
  /\ (c =? chr "x") = false /\ (c =? chr "X") = false
  /\ (c =? chr "b") = false /\ (c =? chr "B") = false.
Proof. intros H. cbn [digit_of]. repeat split; by_codes. Qed.

Section Literals.

Variable E : Env.

Lemma rest_same (s s' : State) : itr s = itr s' -> rest_of E s = rest_of E s'.
Proof. unfold rest_of. now intros ->. Qed.

Lemma rest_length (s : State) :
  (List.length (rest_of E s) < fuel E)%nat.
Proof. unfold rest_of, fuel. rewrite length_skipn. lia. Qed.

Lemma Emits_rest (s s' : State) (read code t : list ascii) (w : list (Z * string)) :
  Emits E s s' read code w -> rest_of E s = read ++ t -> rest_of E s' = t.
Proof.
  intros H R. pose proof (em_rest _ _ _ _ _ _ H) as X. rewrite R in X.
  apply app_inv_head in X. now symmetry.
Qed.

Lemma getch_at (s : State) (c : ascii) (t : list ascii) :
  rest_of E s = c :: t -> c <> EOF_byte ->
  getch E s = (int_of_char c, advance E s).
Proof.
  intros H N. destruct (rest_cons_at E s c t H N) as [P [Q _]].
  rewrite (getch_ne E s Q). now rewrite P.
Qed.

Lemma peek_at (s : State) (c : ascii) (t : list ascii) :
  rest_of E s = c :: t -> c <> EOF_byte -> peek E s = (int_of_char c, s).
Proof.
  intros H N. destruct (rest_cons_at E s c t H N) as [P [Q _]].
  rewrite (peek_ne E s Q). now rewrite P.
Qed.

(** A character read and written to the code channel. *)
Lemma read_put (s : State) (c : ascii) (t : list ascii) :
  rest_of E s = c :: t ->
  rest_of E (snd (s_putch E c (advance E s))) = t
  /\ Emits E s (snd (s_putch E c (advance E s))) [c] [c] [].
Proof.
  intros H.
  pose proof (Emits_trans E _ _ _ _ _ _ _ _ _ (Emits_advance E s c t H)
                (Emits_s_putch E c (advance E s))) as X.
  split; [|exact X]. exact (Emits_rest _ _ _ _ _ _ X H).
Qed.

Lemma not_squote (c : ascii) : c <> SQUOTE -> (int_of_char c =? chr SQUOTE) = false.
Proof.
  intros N. change (chr SQUOTE) with (int_of_char SQUOTE).
  rewrite int_of_char_eqb. now apply Ascii.eqb_neq.
Qed.

(** [check_punct] between two digits. *)
Lemma check_punct_between (d : int -> Ab bool) (p : int -> bool) (oc : int)
    (s : State) (c : ascii) (t : list ascii) :
  decides d p ->
  rest_of E s = SQUOTE :: c :: t ->
  valid_int oc = true -> p oc = true ->
  c <> EOF_byte -> valid_int (int_of_char c) = true -> p (int_of_char c) = true ->
  exists s',
    check_punct E oc d s = (Some (int_of_char c), s')
    /\ rest_of E s' = c :: t
    /\ Emits E s s' [SQUOTE] [SQUOTE]
         (if f_NumPunct (features E) then []
          else [(nline s, feature_text E F_NUMPUNCT)]).
Proof.
  intros D H Vo Xo Nc Vc Xc.
  assert (NS : SQUOTE <> EOF_byte) by discriminate.
  pose proof (getch_at s SQUOTE _ H NS) as G.
  destruct (read_put s SQUOTE _ H) as [R2 E12].
  set (s2 := snd (s_putch E SQUOTE (advance E s))) in *.
  set (s3 := snd (when (negb (f_NumPunct (features E))) (warn_feature E F_NUMPUNCT) s2)).
  assert (L2 : nline s2 = nline s).
  { rewrite (em_nline _ _ _ _ _ _ E12). cbn. lia. }
  assert (E3 : Emits E s2 s3 [] []
                 (if f_NumPunct (features E) then []
                  else [(nline s, feature_text E F_NUMPUNCT)])).
  { subst s3. destruct (f_NumPunct (features E)); cbn [negb when].
    - apply Emits_refl.
    - rewrite <- L2. apply Emits_warn_feature. }
  pose proof (Emits_trans E _ _ _ _ _ _ _ _ _ E12 E3) as E13.
  assert (R3 : rest_of E s3 = c :: t).
  { rewrite <- R2. apply rest_same. rewrite (em_itr _ _ _ _ _ _ E3). cbn. lia. }
  exists s3. split; [|split].
  - unfold check_punct. rewrite bind_lift, G. cbn [fst snd].
    change (int_of_char SQUOTE =? chr SQUOTE) with true.
    rewrite bind_assert. cbv match.
    rewrite bind_lift, to_char_int_of_char. fold s2. cbn [fst snd].
    rewrite bind_lift. fold s3. cbn [fst snd].
    rewrite (bind_ab_Some _ _ _ _ _ (D oc s3 Vo)), Xo. cbn [negb].
    rewrite bind_lift, (peek_at s3 c t R3 Nc). cbn [fst snd].
    rewrite (int_of_char_not_EOF c Nc).
    rewrite (bind_ab_Some _ _ _ _ _ (D _ s3 Vc)), Xc. cbn [negb when].
    reflexivity.
  - exact R3.
  - eapply Emits_eq; [exact E13 | | |]; reflexivity.
Qed.

Lemma digits_loop_digit (d : int -> Ab bool) (p : int -> bool) (k : nat) (oc : int)
    (s : State) (c : ascii) (t : list ascii) :
  decides d p ->
  rest_of E s = c :: t -> c <> EOF_byte -> c <> SQUOTE ->
  valid_int (int_of_char c) = true -> p (int_of_char c) = true ->
  digits_loop E (S k) d oc s =
  digits_loop E k d (int_of_char c) (snd (s_putch E c (advance E s))).
Proof.
  intros D H N NS V X.
  cbn [digits_loop]. rewrite bind_lift, (peek_at s c t H N). cbn [fst snd].
  rewrite (not_squote c NS).
  rewrite (bind_ab_Some _ _ _ _ _ (D _ s V)), X.
  rewrite bind_lift, (getch_at s c t H N). cbn [fst snd].
  rewrite bind_lift, to_char_int_of_char. reflexivity.
Qed.

Lemma parse_hex_loop_digit (k : nat) (oc : int) (w : bool) (s : State)
    (c : ascii) (t : list ascii) :
  rest_of E s = c :: t -> isxdigit (int_of_char c) = true ->
  parse_hex_loop E (S k) oc w s =
  parse_hex_loop E k (int_of_char c) w (snd (s_putch E c (advance E s))).
Proof.
  intros H X.
  destruct (digit_facts Hexadecimal _ X) as [_ [_ [X1 [X2 _]]]].
  destruct (digit_char Hexadecimal c X) as [N _].
  cbn [parse_hex_loop]. rewrite bind_lift, (peek_at s c t H N). cbn [fst snd].
  rewrite X, X1, X2. cbn [orb andb].
  rewrite bind_lift. cbn [ret fst snd].
  rewrite bind_lift, (getch_at s c t H N). cbn [fst snd].
  rewrite bind_lift, to_char_int_of_char. reflexivity.
Qed.

(** One round of the loop of a base: [loop k oc w] is the loop with [k]
    rounds left, the last character [oc], and what else it carries. *)
Lemma digits_run (b : Base) (d : int -> Ab bool) (g : list ascii) :
  decides d (digit_of b) ->
  forall k oc s t,
  rest_of E s = g ++ t ->
  forallb (fun c => digit_of b (int_of_char c)) g = true ->
  exists s',
    digits_loop E (List.length g + k) d oc s =
    digits_loop E k d (last (map int_of_char g) oc) s'
    /\ rest_of E s' = t
    /\ Emits E s s' g g [].
Proof.
  intros D. induction g as [|c g IH]; intros k oc s t H X.
  - exists s. split; [reflexivity | split; [exact H | apply Emits_refl]].
  - cbn [forallb] in X. apply andb_prop in X. destruct X as [Xc Xg].
    cbn [app] in H.
    destruct (digit_facts b _ Xc) as [V _].
    destruct (digit_char b c Xc) as [N [_ NS]].
    destruct (read_put s c _ H) as [R1 E1].
    set (s1 := snd (s_putch E c (advance E s))) in *.
    destruct (IH k (int_of_char c) s1 t R1 Xg) as [s' [Heq [R' Hem]]].
    exists s'. split; [|split].
    + cbn [List.length Nat.add].
      rewrite (digits_loop_digit d _ (List.length g + k) oc s c (g ++ t) D H N NS V Xc).
      fold s1. rewrite Heq. cbn [map]. now rewrite last_cons_default.
    + exact R'.
    + eapply Emits_eq; [exact (Emits_trans E _ _ _ _ _ _ _ _ _ E1 Hem) | | |];
        reflexivity.
Qed.

Lemma hex_run (g : list ascii) : forall k oc w s t,
  rest_of E s = g ++ t ->
  forallb (fun c => digit_of Hexadecimal (int_of_char c)) g = true ->
  exists s',
    parse_hex_loop E (List.length g + k) oc w s =
    parse_hex_loop E k (last (map int_of_char g) oc) w s'
    /\ rest_of E s' = t
    /\ Emits E s s' g g [].
Proof.
  induction g as [|c g IH]; intros k oc w s t H X.
  - exists s. split; [reflexivity | split; [exact H | apply Emits_refl]].
  - cbn [forallb] in X. apply andb_prop in X. destruct X as [Xc Xg].
    cbn [app] in H.
    destruct (read_put s c _ H) as [R1 E1].
    set (s1 := snd (s_putch E c (advance E s))) in *.
    destruct (IH k (int_of_char c) w s1 t R1 Xg) as [s' [Heq [R' Hem]]].
    exists s'. split; [|split].
    + cbn [List.length Nat.add].
      rewrite (parse_hex_loop_digit (List.length g + k) oc w s c (g ++ t) H Xc).
      fold s1. rewrite Heq. cbn [map]. now rewrite last_cons_default.
    + exact R'.
    + eapply Emits_eq; [exact (Emits_trans E _ _ _ _ _ _ _ _ _ E1 Hem) | | |];
        reflexivity.
Qed.

Lemma digits_loop_separator (b : Base) (d : int -> Ab bool) (k : nat) (oc : int)
    (s : State) (c : ascii) (t : list ascii) :
  decides d (digit_of b) ->
  rest_of E s = SQUOTE :: c :: t ->
  digit_of b oc = true -> digit_of b (int_of_char c) = true ->
  exists s',
    digits_loop E (S k) d oc s = digits_loop E k d (int_of_char c) s'
    /\ rest_of E s' = c :: t
    /\ Emits E s s' [SQUOTE] [SQUOTE]
         (if f_NumPunct (features E) then []
          else [(nline s, feature_text E F_NUMPUNCT)]).
Proof.
  intros D H Xo Xc.
  destruct (digit_facts b _ Xo) as [Vo _].
  destruct (digit_facts b _ Xc) as [Vc _].
  destruct (digit_char b c Xc) as [N _].
  destruct (check_punct_between d _ oc s c t D H Vo Xo N Vc Xc) as [s' [Q [R Em]]].
  exists s'. split; [|split; assumption].
  cbn [digits_loop].
  rewrite bind_lift, (peek_at s SQUOTE _ H) by discriminate. cbn [fst snd].
  change (int_of_char SQUOTE =? chr SQUOTE) with true. cbv match.
  now rewrite (bind_ab_Some _ _ _ _ _ Q).
Qed.

Lemma parse_hex_loop_separator (k : nat) (oc : int) (w : bool) (s : State)
    (c : ascii) (t : list ascii) :
  rest_of E s = SQUOTE :: c :: t ->
  isxdigit oc = true -> isxdigit (int_of_char c) = true ->
  exists s',
    parse_hex_loop E (S k) oc w s = parse_hex_loop E k (int_of_char c) w s'
    /\ rest_of E s' = c :: t
    /\ Emits E s s' [SQUOTE] [SQUOTE]
         (if f_NumPunct (features E) then []
          else [(nline s, feature_text E F_NUMPUNCT)]).
Proof.
  intros H Xo Xc.
  destruct (digit_facts Hexadecimal _ Xo) as [Vo _].
  destruct (digit_facts Hexadecimal _ Xc) as [Vc _].
  destruct (digit_char Hexadecimal c Xc) as [N _].
  destruct (check_punct_between (ctype isxdigit) _ oc s c t (decides_ctype _)
              H Vo Xo N Vc Xc) as [s' [Q [R Em]]].
  exists s'. split; [|split; assumption].
  cbn [parse_hex_loop].
  rewrite bind_lift, (peek_at s SQUOTE _ H) by discriminate. cbn [fst snd].
  change (int_of_char SQUOTE =? chr SQUOTE) with true. cbn [orb]. cbv match.
  now rewrite (bind_ab_Some _ _ _ _ _ Q).
Qed.

Lemma not_alnum_digit (b : Base) (c : int) :
  isalnum c = false -> digit_of b c = false.
Proof.
  intros H. destruct (not_alnum c H) as [X1 [X2 [X3 [X4 _]]]].
  destruct b; assumption.
Qed.

Lemma EOF_no_digit (b : Base) : digit_of b EOF = false.
Proof. destruct b; reflexivity. Qed.

(** What stands behind a literal ends the loop of every base. *)
Lemma ends_number_stops (b : Base) (r : list ascii) (s : State) :
  ends_number r -> rest_of E s = r ->
  peek E s = (peekc E s, s)
  /\ valid_int (peekc E s) = true
  /\ digit_of b (peekc E s) = false
  /\ (peekc E s =? chr SQUOTE) = false
  /\ (peekc E s =? chr ".") = false
  /\ isdigit (peekc E s) = false
  /\ (peekc E s =? chr "p") || (peekc E s =? chr "P") = false
  /\ (peekc E s =? chr "e") || (peekc E s =? chr "E") = false.
Proof.
  intros N R. destruct (ends_number_next E r s N R) as [P [V [A [Q D]]]].
  destruct (not_alnum _ A) as [X1 [X2 [X3 [X4 [X5 [X6 [X7 [X8 _]]]]]]]].
  repeat split; auto.
  - now apply not_alnum_digit.
  - now rewrite X5, X6.
  - now rewrite X7, X8.
Qed.

Lemma digits_loop_groups (b : Base) (d : int -> Ab bool) (gs : list (list ascii)) :
  decides d (digit_of b) ->
  f_NumPunct (features E) = false ->
  forall g0 k oc s r,
  rest_of E s = groups g0 gs ++ r ->
  forallb (fun c => digit_of b (int_of_char c)) g0 = true ->
  g0 <> [] \/ digit_of b oc = true ->
  forallb (group b) gs = true -> ends_number r ->
  (List.length (groups g0 gs) < k)%nat ->
  exists s',
    digits_loop E k d oc s = (Some (peekc E s'), s')
    /\ rest_of E s' = r
    /\ Emits E s s' (groups g0 gs) (groups g0 gs)
         (repeat (nline s, feature_text E F_NUMPUNCT) (List.length gs)).
Proof.
  intros D F. induction gs as [|g1 gs IH]; intros g0 k oc s r H X0 N0 Gs Nr K.
  - unfold groups in *. cbn [map List.concat] in *.
    rewrite app_nil_r in *.
    destruct (digits_run b d g0 D (k - List.length g0) oc s r H X0)
      as [s1 [Heq [R1 Hem]]].
    replace (List.length g0 + (k - List.length g0))%nat with k in Heq by lia.
    destruct (ends_number_stops b r s1 Nr R1) as [P [V [Dg [Q _]]]].
    exists s1. split; [|split].
    + rewrite Heq. destruct (k - List.length g0)%nat as [|j] eqn:J; [lia|].
      cbn [digits_loop]. rewrite bind_lift, P. cbn [fst snd]. rewrite Q.
      rewrite (bind_ab_Some _ _ _ _ _ (D _ s1 V)), Dg. reflexivity.
    + exact R1.
    + exact Hem.
  - rewrite groups_cons in *.
    cbn [forallb] in Gs. apply andb_prop in Gs. destruct Gs as [G1 Gs].
    destruct (group_inv b g1 G1) as [N1 X1].
    rewrite length_app in K. cbn [List.length] in K.
    rewrite <- app_assoc in H. cbn [app] in H.
    destruct (digits_run b d g0 D (k - List.length g0) oc s _ H X0)
      as [s1 [Heq1 [R1 Hem1]]].
    replace (List.length g0 + (k - List.length g0))%nat with k in Heq1 by lia.
    destruct g1 as [|c g1]; [contradiction|].
    pose proof X1 as X1'.
    cbn [forallb] in X1. apply andb_prop in X1. destruct X1 as [Xc X1].
    destruct (k - List.length g0)%nat as [|k2] eqn:J; [lia|].
    unfold groups in R1. cbn [app] in R1. rewrite <- app_assoc in R1.
    cbn [app] in R1.
    destruct (digits_loop_separator b d k2 (last (map int_of_char g0) oc) s1
                c _ D R1 (last_digit b g0 oc X0 N0) Xc) as [s2 [Heq2 [R2 Hem2]]].
    rewrite F in Hem2.
    assert (R2' : rest_of E s2 = groups (c :: g1) gs ++ r).
    { rewrite R2. unfold groups. now rewrite <- app_assoc. }
    destruct (IH (c :: g1) k2 (int_of_char c) s2 r R2' X1') as [s' [Heq3 [R3 Hem3]]];
      [left; discriminate | exact Gs | exact Nr | lia |].
    assert (L1 : nline s1 = nline s).
    { rewrite (em_nline _ _ _ _ _ _ Hem1), (count_occ_digits b g0 X0). lia. }
    assert (L2 : nline s2 = nline s).
    { rewrite (em_nline _ _ _ _ _ _ Hem2), L1. cbn. lia. }
    rewrite L1 in Hem2. rewrite L2 in Hem3.
    exists s'. split; [|split].
    + now rewrite Heq1, Heq2, Heq3.
    + exact R3.
    + eapply Emits_eq;
        [exact (Emits_trans E _ _ _ _ _ _ _ _ _ Hem1
                  (Emits_trans E _ _ _ _ _ _ _ _ _ Hem2 Hem3)) | | |];
        reflexivity.
Qed.

Lemma parse_hex_loop_groups (gs : list (list ascii)) :
  f_NumPunct (features E) = false ->
  forall g0 k oc w s r,
  rest_of E s = groups g0 gs ++ r ->
  group Hexadecimal g0 = true ->
  forallb (group Hexadecimal) gs = true -> ends_number r ->
  (List.length (groups g0 gs) < k)%nat ->
  exists s',
    parse_hex_loop E k oc w s = (Some (peekc E s', w), s')
    /\ rest_of E s' = r
    /\ Emits E s s' (groups g0 gs) (groups g0 gs)
         (repeat (nline s, feature_text E F_NUMPUNCT) (List.length gs)).
Proof.
  intros F. induction gs as [|g1 gs IH]; intros g0 k oc w s r H G0 Gs Nr K;
    destruct (group_inv _ g0 G0) as [N0 X0].
  - unfold groups in *. cbn [map List.concat] in *.
    rewrite app_nil_r in *.
    destruct (hex_run g0 (k - List.length g0) oc w s r H X0)
      as [s1 [Heq [R1 Hem]]].
    replace (List.length g0 + (k - List.length g0))%nat with k in Heq by lia.
    destruct (ends_number_stops Hexadecimal r s1 Nr R1) as [P [V [Dg [Q [Q' _]]]]].
    cbn [digit_of] in Dg.
    exists s1. split; [|split].
    + rewrite Heq. destruct (k - List.length g0)%nat as [|j] eqn:J; [lia|].
      cbn [parse_hex_loop]. rewrite bind_lift, P. cbn [fst snd].
      rewrite Q, Q', Dg. reflexivity.
    + exact R1.
    + exact Hem.
  - rewrite groups_cons in *.
    cbn [forallb] in Gs. apply andb_prop in Gs. destruct Gs as [G1 Gs].
    destruct (group_inv _ g1 G1) as [N1 X1].
    rewrite length_app in K. cbn [List.length] in K.
    rewrite <- app_assoc in H. cbn [app] in H.
    destruct (hex_run g0 (k - List.length g0) oc w s _ H X0)
      as [s1 [Heq1 [R1 Hem1]]].
    replace (List.length g0 + (k - List.length g0))%nat with k in Heq1 by lia.
    destruct g1 as [|c g1]; [contradiction|].
    cbn [forallb] in X1. apply andb_prop in X1. destruct X1 as [Xc X1].
    destruct (k - List.length g0)%nat as [|k2] eqn:J; [lia|].
    unfold groups in R1. cbn [app] in R1. rewrite <- app_assoc in R1.
    cbn [app] in R1.
    destruct (parse_hex_loop_separator k2 (last (map int_of_char g0) oc) w s1
                c _ R1 (last_digit Hexadecimal g0 oc X0 (or_introl N0)) Xc)
      as [s2 [Heq2 [R2 Hem2]]].
    rewrite F in Hem2.
    assert (R2' : rest_of E s2 = groups (c :: g1) gs ++ r).
    { rewrite R2. unfold groups. now rewrite <- app_assoc. }
    destruct (IH (c :: g1) k2 (int_of_char c) w s2 r R2' G1 Gs Nr)
      as [s' [Heq3 [R3 Hem3]]]; [lia|].
    assert (L1 : nline s1 = nline s).
    { rewrite (em_nline _ _ _ _ _ _ Hem1), (count_occ_digits _ g0 X0). lia. }
    assert (L2 : nline s2 = nline s).
    { rewrite (em_nline _ _ _ _ _ _ Hem2), L1. cbn. lia. }
    rewrite L1 in Hem2. rewrite L2 in Hem3.
    exists s'. split; [|split].
    + now rewrite Heq1, Heq2, Heq3.
    + exact R3.
    + eapply Emits_eq;
        [exact (Emits_trans E _ _ _ _ _ _ _ _ _ Hem1
                  (Emits_trans E _ _ _ _ _ _ _ _ _ Hem2 Hem3)) | | |];
        reflexivity.
Qed.

Lemma Emits_when_warn (f : Feature) (flag : bool) (s : State) :
  Emits E s (snd (when (negb flag) (warn_feature E f) s)) [] []
    (if flag then [] else [(nline s, feature_text E f)]).
Proof.
  destruct flag; cbn [negb when]; [apply Emits_refl | apply Emits_warn_feature].
Qed.

Lemma Emits_same_rest (s s' : State) (code : list ascii) (w : list (Z * string)) :
  Emits E s s' [] code w -> rest_of E s' = rest_of E s /\ nline s' = nline s.
Proof.
  intros H. split.
  - apply rest_same. rewrite (em_itr _ _ _ _ _ _ H). cbn. lia.
  - rewrite (em_nline _ _ _ _ _ _ H). cbn. lia.
Qed.

Lemma parse_hex_groups (x : ascii) (g0 : list ascii) (gs : list (list ascii))
    (r : list ascii) (s : State) :
  f_NumPunct (features E) = false ->
  x = "x"%char \/ x = "X"%char ->
  rest_of E s = x :: groups g0 gs ++ r ->
  group Hexadecimal g0 = true -> forallb (group Hexadecimal) gs = true ->
  ends_number r ->
  exists s',
    parse_hex E s = (Some tt, s')
    /\ Emits E s s' (x :: groups g0 gs) ("0"%char :: x :: groups g0 gs)
         (repeat (nline s, feature_text E F_NUMPUNCT) (List.length gs)).
Proof.
  intros F Hx H G0 Gs Nr.
  assert (Nx : x <> EOF_byte /\ x <> NL) by (destruct Hx; subst x; split; discriminate).
  destruct Nx as [Nx Nl].
  pose proof (Emits_s_putch E "0" s) as E1.
  set (s1 := snd (s_putch E "0" s)) in *.
  destruct (Emits_same_rest _ _ _ _ E1) as [H1 _]. rewrite H in H1.
  destruct (read_put s1 x _ H1) as [R3 E23].
  pose proof (getch_at s1 x _ H1 Nx) as G.
  set (s3 := snd (s_putch E x (advance E s1))) in *.
  pose proof (Emits_trans E _ _ _ _ _ _ _ _ _ E1 E23) as E13.
  destruct (parse_hex_loop_groups gs F g0 (fuel E) (int_of_char x) false s3 r R3 G0 Gs Nr)
    as [s4 [Heq [R4 E4]]].
  { assert (X : (List.length (groups g0 gs ++ r) < fuel E)%nat)
      by (rewrite <- R3; apply rest_length).
    rewrite length_app in X. lia. }
  destruct (ends_number_stops Hexadecimal r s4 Nr R4) as [_ [_ [_ [_ [_ [_ [Xp _]]]]]]].
  assert (L3 : nline s3 = nline s).
  { rewrite (em_nline _ _ _ _ _ _ E13). cbn [app count_occ].
    destruct (ascii_dec x NL) as [e|_]; [contradiction | lia]. }
  rewrite L3 in E4.
  exists s4. split.
  - unfold parse_hex. rewrite bind_lift. fold s1. cbn [fst snd].
    rewrite bind_lift, G. cbn [fst snd].
    replace ((int_of_char x =? chr "x") || (int_of_char x =? chr "X")) with true
      by (destruct Hx; subst x; reflexivity).
    rewrite bind_assert. cbv match.
    rewrite bind_lift, to_char_int_of_char. fold s3. cbn [fst snd].
    rewrite (bind_ab_Some _ _ _ _ _ Heq). cbn [fst snd].
    rewrite Xp. reflexivity.
  - eapply Emits_eq; [exact (Emits_trans E _ _ _ _ _ _ _ _ _ E13 E4) | | |];
      reflexivity.
Qed.

Lemma parse_binary_groups (x : ascii) (g0 : list ascii) (gs : list (list ascii))
    (r : list ascii) (s : State) :
  f_NumPunct (features E) = false ->
  x = "b"%char \/ x = "B"%char ->
  rest_of E s = x :: groups g0 gs ++ r ->
  group Binary g0 = true -> forallb (group Binary) gs = true ->
  ends_number r ->
  exists s',
    parse_binary E s = (Some tt, s')
    /\ Emits E s s' (x :: groups g0 gs) ("0"%char :: x :: groups g0 gs)
         (binary_warning E Binary (nline s)
            ++ repeat (nline s, feature_text E F_NUMPUNCT) (List.length gs)).
Proof.
  intros F Hx H G0 Gs Nr.
  assert (Nx : x <> EOF_byte /\ x <> NL) by (destruct Hx; subst x; split; discriminate).
  destruct Nx as [Nx Nl].
  destruct (group_inv _ g0 G0) as [N0 X0].
  pose proof (Emits_when_warn F_BINARY (f_Binary (features E)) s) as E0.
  set (s0 := snd (when (negb (f_Binary (features E))) (warn_feature E F_BINARY) s)) in *.
  destruct (Emits_same_rest _ _ _ _ E0) as [H0 L0]. rewrite H in H0.
  pose proof (Emits_s_putch E "0" s0) as E1.
  set (s1 := snd (s_putch E "0" s0)) in *.
  destruct (Emits_same_rest _ _ _ _ E1) as [H1 L1]. rewrite H0 in H1.
  destruct (read_put s1 x _ H1) as [R3 E23].
  pose proof (getch_at s1 x _ H1 Nx) as G.
  set (s3 := snd (s_putch E x (advance E s1))) in *.
  pose proof (Emits_trans E _ _ _ _ _ _ _ _ _ E0
                (Emits_trans E _ _ _ _ _ _ _ _ _ E1 E23)) as E13.
  destruct (digits_loop_groups Binary is_binary gs decides_is_binary F g0 (fuel E)
              (int_of_char x) s3 r R3 X0 (or_introl N0) Gs Nr)
    as [s4 [Heq [R4 E4]]].
  { assert (X : (List.length (groups g0 gs ++ r) < fuel E)%nat)
      by (rewrite <- R3; apply rest_length).
    rewrite length_app in X. lia. }
  destruct (ends_number_stops Binary r s4 Nr R4) as [_ [_ [_ [_ [_ [Xd _]]]]]].
  assert (L3 : nline s3 = nline s).
  { rewrite (em_nline _ _ _ _ _ _ E13). cbn [app count_occ].
    destruct (ascii_dec x NL) as [e|_]; [contradiction | lia]. }
  rewrite L3 in E4.
  exists s4. split.
  - unfold parse_binary. rewrite bind_lift. fold s0. cbn [fst snd].
    rewrite bind_lift. fold s1. cbn [fst snd].
    rewrite bind_lift, G. cbn [fst snd].
    replace ((int_of_char x =? chr "b") || (int_of_char x =? chr "B")) with true
      by (destruct Hx; subst x; reflexivity).
    rewrite bind_assert. cbv match.
    rewrite bind_lift, to_char_int_of_char. fold s3. cbn [fst snd].
    rewrite (bind_ab_Some _ _ _ _ _ Heq).
    unfold lift. rewrite Xd. reflexivity.
  - eapply Emits_eq; [exact (Emits_trans E _ _ _ _ _ _ _ _ _ E13 E4) | | |];
      try reflexivity.
    cbn [binary_warning app]. now rewrite app_nil_r.
Qed.

Lemma parse_octal_groups (g0 : list ascii) (gs : list (list ascii))
    (r : list ascii) (s : State) :
  f_NumPunct (features E) = false ->
  rest_of E s = groups g0 gs ++ r ->
  group Octal g0 = true -> forallb (group Octal) gs = true ->
  ends_number r ->
  exists s',
    parse_octal E s = (Some tt, s')
    /\ Emits E s s' (groups g0 gs) ("0"%char :: groups g0 gs)
         (repeat (nline s, feature_text E F_NUMPUNCT) (List.length gs)).
Proof.
  intros F H G0 Gs Nr.
  destruct (group_inv _ g0 G0) as [N0 X0].
  destruct g0 as [|c g0]; [contradiction|].
  cbn [forallb] in X0. apply andb_prop in X0. destruct X0 as [Xc X0].
  destruct (digit_facts Octal _ Xc) as [Vc _].
  destruct (digit_char Octal c Xc) as [Nc [Nl _]].
  change (groups (c :: g0) gs) with (c :: groups g0 gs) in *. cbn [app] in H.
  pose proof (Emits_s_putch E "0" s) as E1.
  set (s1 := snd (s_putch E "0" s)) in *.
  destruct (Emits_same_rest _ _ _ _ E1) as [H1 _]. rewrite H in H1.
  destruct (read_put s1 c _ H1) as [R3 E23].
  pose proof (getch_at s1 c _ H1 Nc) as G.
  set (s3 := snd (s_putch E c (advance E s1))) in *.
  pose proof (Emits_trans E _ _ _ _ _ _ _ _ _ E1 E23) as E13.
  destruct (digits_loop_groups Octal is_octal gs decides_is_octal F g0 (fuel E)
              (int_of_char c) s3 r R3 X0 (or_intror Xc) Gs Nr)
    as [s4 [Heq [R4 E4]]].
  { assert (X : (List.length (groups g0 gs ++ r) < fuel E)%nat)
      by (rewrite <- R3; apply rest_length).
    rewrite length_app in X. lia. }
  destruct (ends_number_stops Octal r s4 Nr R4) as [_ [_ [_ [_ [_ [Xd _]]]]]].
  assert (L3 : nline s3 = nline s).
  { rewrite (em_nline _ _ _ _ _ _ E13). cbn [app count_occ].
    destruct (ascii_dec c NL) as [e|_]; [contradiction | lia]. }
  rewrite L3 in E4.
  exists s4. split.
  - unfold parse_octal. rewrite bind_lift. fold s1. cbn [fst snd].
    rewrite bind_lift, G. cbn [fst snd].
    rewrite (bind_ab_Some _ _ _ _ _ (decides_is_octal _ (advance E s1) Vc)).
    rewrite Xc. cbn [orb].
    rewrite bind_assert. cbv match.
    rewrite bind_lift, to_char_int_of_char. fold s3. cbn [fst snd].
    rewrite (bind_ab_Some _ _ _ _ _ Heq).
    unfold lift. rewrite Xd. reflexivity.
  - eapply Emits_eq; [exact (Emits_trans E _ _ _ _ _ _ _ _ _ E13 E4) | | |];
      reflexivity.
Qed.

Lemma parse_decimal_groups (c0 : ascii) (g0 : list ascii) (gs : list (list ascii))
    (r : list ascii) (s : State) :
  f_NumPunct (features E) = false ->
  rest_of E s = groups g0 gs ++ r ->
  group Decimal g0 = true -> forallb (group Decimal) gs = true ->
  ends_number r ->
  exists s',
    parse_decimal E (int_of_char c0) s = (Some tt, s')
    /\ Emits E s s' (groups g0 gs) (c0 :: groups g0 gs)
         (repeat (nline s, feature_text E F_NUMPUNCT) (List.length gs)).
Proof.
  intros F H G0 Gs Nr.
  destruct (group_inv _ g0 G0) as [N0 X0].
  destruct g0 as [|c g0]; [contradiction|].
  cbn [forallb] in X0. apply andb_prop in X0. destruct X0 as [Xc X0].
  destruct (digit_char Decimal c Xc) as [Nc [Nl _]].
  change (groups (c :: g0) gs) with (c :: groups g0 gs) in *. cbn [app] in H.
  pose proof (Emits_s_putch E c0 s) as E1.
  set (s1 := snd (s_putch E c0 s)) in *.
  destruct (Emits_same_rest _ _ _ _ E1) as [H1 _]. rewrite H in H1.
  destruct (read_put s1 c _ H1) as [R3 E23].
  pose proof (getch_at s1 c _ H1 Nc) as G.
  pose proof (peek_at s1 c _ H1 Nc) as P.
  set (s3 := snd (s_putch E c (advance E s1))) in *.
  pose proof (Emits_trans E _ _ _ _ _ _ _ _ _ E1 E23) as E13.
  destruct (digits_loop_groups Decimal (ctype isdigit) gs (decides_ctype _) F g0 (fuel E)
              (int_of_char c) s3 r R3 X0 (or_intror Xc) Gs Nr)
    as [s4 [Heq [R4 E4]]].
  { assert (X : (List.length (groups g0 gs ++ r) < fuel E)%nat)
      by (rewrite <- R3; apply rest_length).
    rewrite length_app in X. lia. }
  destruct (ends_number_stops Decimal r s4 Nr R4) as [_ [_ [_ [_ [_ [_ [_ Xe]]]]]]].
  assert (L3 : nline s3 = nline s).
  { rewrite (em_nline _ _ _ _ _ _ E13). cbn [app count_occ].
    destruct (ascii_dec c NL) as [e|_]; [contradiction | lia]. }
  rewrite L3 in E4.
  exists s4. split.
  - unfold parse_decimal. rewrite bind_lift, to_char_int_of_char. fold s1.
    cbn [fst snd].
    rewrite bind_lift, P. cbn [fst snd].
    cbn [digit_of] in Xc. rewrite Xc. cbn [orb when_ab].
    rewrite bind_lift, G. cbn [fst snd].
    rewrite Z.eqb_refl, bind_assert. cbv match.
    rewrite bind_lift, to_char_int_of_char. fold s3. cbn [fst snd].
    rewrite (bind_ab_Some _ _ _ _ _ Heq).
    rewrite Xe. reflexivity.
  - eapply Emits_eq; [exact (Emits_trans E _ _ _ _ _ _ _ _ _ E13 E4) | | |];
      reflexivity.
Qed.

Lemma parse_number_literal (b : Base) (h g0 : list ascii) (gs : list (list ascii))
    (r : list ascii) (s : State) :
  f_NumPunct (features E) = false ->
  heads b h -> group b g0 = true -> forallb (group b) gs = true ->
  ends_number r ->
  rest_of E s = tl h ++ groups g0 gs ++ r ->
  exists s',
    parse_number E (int_of_char (hd NUL h)) s = (Some tt, s')
    /\ Emits E s s' (tl h ++ groups g0 gs) (h ++ groups g0 gs)
         (binary_warning E b (nline s)
            ++ repeat (nline s, feature_text E F_NUMPUNCT) (List.length gs)).
Proof.
  intros F Hh G0 Gs Nr H. destruct b; cbn [heads] in Hh.
  - (* 0x *)
    assert (Hx : exists x, (x = "x"%char \/ x = "X"%char) /\ h = ["0"%char; x]).
    { destruct Hh as [-> | ->]; eexists; split; try reflexivity; auto. }
    destruct Hx as [x [Hx ->]]. cbn [hd tl app] in *.
    assert (Nx : x <> EOF_byte) by (destruct Hx; subst x; discriminate).
    destruct (parse_hex_groups x g0 gs r s F Hx H G0 Gs Nr) as [s' [Q Em]].
    exists s'. split; [|exact Em].
    unfold parse_number. change (isdigit (int_of_char "0") || _) with true.
    rewrite bind_assert. cbv match.
    rewrite bind_lift, (peek_at s x _ H Nx). cbn [fst snd].
    change (negb (int_of_char "0" =? chr "0")) with false. cbv match.
    replace ((int_of_char x =? chr "x") || (int_of_char x =? chr "X")) with true
      by (destruct Hx; subst x; reflexivity).
    exact Q.
  - (* 0b *)
    assert (Hx : exists x, (x = "b"%char \/ x = "B"%char) /\ h = ["0"%char; x]).
    { destruct Hh as [-> | ->]; eexists; split; try reflexivity; auto. }
    destruct Hx as [x [Hx ->]]. cbn [hd tl app] in *.
    assert (Nx : x <> EOF_byte) by (destruct Hx; subst x; discriminate).
    destruct (parse_binary_groups x g0 gs r s F Hx H G0 Gs Nr) as [s' [Q Em]].
    exists s'. split; [|exact Em].
    unfold parse_number. change (isdigit (int_of_char "0") || _) with true.
    rewrite bind_assert. cbv match.
    rewrite bind_lift, (peek_at s x _ H Nx). cbn [fst snd].
    change (negb (int_of_char "0" =? chr "0")) with false. cbv match.
    replace ((int_of_char x =? chr "x") || (int_of_char x =? chr "X")) with false
      by (destruct Hx; subst x; reflexivity).
    replace ((int_of_char x =? chr "b") || (int_of_char x =? chr "B")) with true
      by (destruct Hx; subst x; reflexivity).
    exact Q.
  - (* 0 *)
    change (h = ["0"%char]) in Hh. subst h. cbn [hd tl app] in *.
    destruct (parse_octal_groups g0 gs r s F H G0 Gs Nr) as [s' [Q Em]].
    exists s'. split; [|exact Em].
    destruct (group_inv _ g0 G0) as [N0 X0].
    destruct g0 as [|c g0]; [contradiction|].
    cbn [forallb] in X0. apply andb_prop in X0. destruct X0 as [Xc _].
    destruct (digit_facts Octal _ Xc) as [Vc _].
    destruct (digit_char Octal c Xc) as [Nc _].
    change (groups (c :: g0) gs) with (c :: groups g0 gs) in H. cbn [app] in H.
    unfold parse_number. change (isdigit (int_of_char "0") || _) with true.
    rewrite bind_assert. cbv match.
    rewrite bind_lift, (peek_at s c _ H Nc). cbn [fst snd].
    change (negb (int_of_char "0" =? chr "0")) with false. cbv match.
    assert (Y : (int_of_char c =? chr "x") || (int_of_char c =? chr "X") = false
                /\ (int_of_char c =? chr "b") || (int_of_char c =? chr "B") = false).
    { cbn [digit_of] in Xc. split; by_codes. }
    destruct Y as [Y1 Y2]. rewrite Y1, Y2. cbv match.
    rewrite (bind_ab_Some _ _ _ _ _ (decides_is_octal _ s Vc)), Xc.
    exact Q.
  - (* a digit that is not 0 *)
    destruct Hh as [c [-> [Dc Nz]]]. cbn [hd tl app] in *.
    destruct (parse_decimal_groups c g0 gs r s F H G0 Gs Nr) as [s' [Q Em]].
    exists s'. split; [|exact Em].
    destruct (group_inv _ g0 G0) as [N0 X0].
    destruct g0 as [|c1 g0]; [contradiction|].
    cbn [forallb] in X0. apply andb_prop in X0. destruct X0 as [Xc _].
    destruct (digit_char Decimal c1 Xc) as [Nc _].
    change (groups (c1 :: g0) gs) with (c1 :: groups g0 gs) in H. cbn [app] in H.
    unfold parse_number. rewrite Dc. cbn [orb].
    rewrite bind_assert. cbv match.
    rewrite bind_lift, (peek_at s c1 _ H Nc). cbn [fst snd].
    change (chr "0") with (int_of_char "0"). rewrite int_of_char_eqb.
    replace (Ascii.eqb c "0") with false by (symmetry; now apply Ascii.eqb_neq).
    cbn [negb]. exact Q.
Qed.

Lemma non_comment_digit (c : int) (s : State) :
  isdigit c = true ->
  non_comment E c s = (parse_number E c ;;; ret_ab NonComment)%ab s.
Proof.
  intros D. unfold non_comment.
  assert (X : (c =? chr "*") = false /\ (c =? chr SQUOTE) = false
              /\ (c =? chr DQUOTE) = false /\ (c =? chr "/") = false).
  { repeat split; by_codes. }
  destruct X as [X1 [X2 [X3 X4]]]. rewrite X1, X2, X3, X4, D. reflexivity.
Qed.

Lemma heads_first (b : Base) (h : list ascii) :
  heads b h ->
  h = hd NUL h :: tl h /\ isdigit (int_of_char (hd NUL h)) = true
  /\ hd NUL h <> EOF_byte /\ count_occ ascii_dec h NL = 0%nat.
Proof.
  destruct b; cbn [heads]; intros Hh.
  - destruct Hh as [-> | ->]; repeat split; discriminate.
  - destruct Hh as [-> | ->]; repeat split; discriminate.
  - change (h = ["0"%char]) in Hh. subst h. repeat split; discriminate.
  - destruct Hh as [c [-> [Dc _]]]. cbn [hd tl]. repeat split; auto.
    + now destruct (digit_char Decimal c Dc).
    + cbn [count_occ]. destruct (ascii_dec c NL) as [e|_]; [|reflexivity].
      now destruct (digit_char Decimal c Dc) as [_ [N _]].
Qed.

(** The round of the loop of [scc] that starts at a literal. *)
Lemma scc_loop_literal (b : Base) (h g0 : list ascii) (gs : list (list ascii))
    (r : list ascii) (k : nat) (oc : int) (s : State) :
  f_NumPunct (features E) = false ->
  heads b h -> group b g0 = true -> forallb (group b) gs = true ->
  ends_number r ->
  rest_of E s = h ++ groups g0 gs ++ r ->
  exists s',
    scc_loop E (S k) oc NonComment s
    = scc_loop E k (int_of_char (hd NUL h)) NonComment s'
    /\ rest_of E s' = r
    /\ Emits E s s' (h ++ groups g0 gs) (h ++ groups g0 gs)
         (binary_warning E b (nline s)
            ++ repeat (nline s, feature_text E F_NUMPUNCT) (List.length gs)).
Proof.
  intros F Hh G0 Gs Nr H.
  destruct (heads_first b h Hh) as [Eh [D [Ne Nn]]].
  destruct h as [|c t]; [discriminate Eh|]. clear Eh. cbn [hd tl app] in *.
  pose proof (getch_at s c _ H Ne) as G.
  pose proof (Emits_advance E s c _ H) as E1.
  destruct (rest_at E s c _ H) as [_ [_ R1]].
  assert (L1 : nline (advance E s) = nline s).
  { rewrite (em_nline _ _ _ _ _ _ E1). cbn [count_occ] in *.
    destruct (ascii_dec c NL); [discriminate | lia]. }
  destruct (parse_number_literal b (c :: t) g0 gs r (advance E s) F Hh G0 Gs Nr R1)
    as [s' [Q Em]].
  cbn [hd tl app] in *. rewrite L1 in Em.
  pose proof (Emits_trans E _ _ _ _ _ _ _ _ _ E1 Em) as E2.
  cbn [app] in E2.
  exists s'. split; [|split].
  - cbn [scc_loop]. rewrite bind_lift, G. cbn [fst snd].
    rewrite (int_of_char_not_EOF c Ne).
    rewrite bind_ab_eq, (non_comment_digit _ _ D).
    rewrite (bind_ab_Some _ _ _ _ _ Q). reflexivity.
  - apply (Emits_rest _ _ _ _ _ _ E2). cbn [app].
    rewrite <- app_assoc. exact H.
  - exact E2.
Qed.

End Literals.
(** ** Where the cursor stands *)

Lemma tidy_app (a b : list (Z * string)) :
  tidy (a ++ b) = tidy a && tidy b.
Proof. unfold tidy. apply forallb_app. Qed.

(** A run that was not aborted, and what a member function leaves. *)

Lemma unless_Some {A : Type} (Q : A -> State -> Prop) (r : option A * State) (a : A) :
  unless_aborted Q r -> fst r = Some a -> Q a (snd r).
Proof. unfold unless_aborted. intros H Q1. now rewrite Q1 in H. Qed.

Lemma unless_run {A : Type} (Q : A -> State -> Prop) (r : option A * State)
    (a : A) (s : State) :
  unless_aborted Q r -> r = (Some a, s) -> Q a s.
Proof. intros H ->. exact H. Qed.

Lemma unless_bind {A B : Type} (m : Ab A) (f : A -> Ab B)
    (Q : B -> State -> Prop) (s : State) :
  (forall a, fst (m s) = Some a -> unless_aborted Q (f a (snd (m s)))) ->
  unless_aborted Q (bind_ab m f s).
Proof.
  intros H. rewrite bind_ab_eq. destruct (fst (m s)) as [a|] eqn:Q1.
  - now apply H.
  - exact I.
Qed.

Lemma unless_assert {B : Type} (b : bool) (f : unit -> Ab B)
    (Q : B -> State -> Prop) (s : State) :
  (b = true -> unless_aborted Q (f tt s)) ->
  unless_aborted Q (bind_ab (assert_ b) f s).
Proof. intros H. rewrite bind_assert. destruct b; [now apply H | exact I]. Qed.

Lemma unless_ret {A : Type} (Q : A -> State -> Prop) (a : A) (s : State) :
  Q a s -> unless_aborted Q (ret_ab a s).
Proof. intros H. exact H. Qed.

Lemma unless_lift {A : Type} (Q : A -> State -> Prop) (m : M A) (s : State) :
  Q (fst (m s)) (snd (m s)) -> unless_aborted Q (lift m s).
Proof. intros H. exact H. Qed.

Lemma unless_when (Q : unit -> State -> Prop) (b : bool) (m : Ab unit)
    (s : State) :
  (b = true -> unless_aborted Q (m s)) -> (b = false -> Q tt s) ->
  unless_aborted Q (when_ab b m s).
Proof. intros H1 H2. destruct b; [now apply H1 | now apply H2]. Qed.

Lemma unless_weaken {A : Type} (P Q : A -> State -> Prop) (r : option A * State) :
  unless_aborted P r -> (forall a, P a (snd r) -> Q a (snd r)) -> unless_aborted Q r.
Proof.
  unfold unless_aborted. intros H W. destruct (fst r); [now apply W | exact I].
Qed.

Section Members.

Variable E : Env.

Lemma itr_s_putch (c : ascii) (s : State) : itr (snd (s_putch E c s)) = itr s.
Proof.
  unfold s_putch, putchar, bind, when, modify, ret.
  destruct (printCommentsNotCode E); destruct (int_of_char c =? chr NL); reflexivity.
Qed.

Lemma itr_c_putch (c : ascii) (s : State) : itr (snd (c_putch E c s)) = itr s.
Proof.
  unfold c_putch, putchar, bind, when, modify, ret.
  destruct (printCommentsNotCode E); reflexivity.
Qed.

Lemma itr_s_fill (c : ascii) (s : State) : itr (snd (s_fill E c s)) = itr s.
Proof. unfold s_fill. rewrite bind_eq. cbn. apply itr_s_putch. Qed.

Lemma itr_warning (msg : string) (line : Z) (s : State) :
  itr (snd (warning msg line s)) = itr s.
Proof. reflexivity. Qed.

Lemma itr_warning2 (s1 s2 : string) (line : Z) (s : State) :
  itr (snd (warning2 s1 s2 line s)) = itr s.
Proof. reflexivity. Qed.

Lemma itr_warn_feature (f : Feature) (s : State) :
  itr (snd (warn_feature E f s)) = itr s.
Proof. reflexivity. Qed.

Lemma itr_put_quote_char (q c : ascii) (s : State) :
  itr (snd (put_quote_char E q c s)) = itr s.
Proof. rewrite put_quote_char_eq. apply itr_s_putch. Qed.

Lemma itr_s_putstr (buf : list ascii) : forall s,
  itr (snd (s_putstr E buf s)) = itr s.
Proof.
  induction buf as [|c buf IH]; intros s; cbn [s_putstr]; [reflexivity|].
  destruct (Ascii.eqb c NUL); [reflexivity|].
  now rewrite bind_eq, IH, itr_s_putch.
Qed.

Lemma itr_put_quote_str (q : ascii) (buf : list ascii) : forall s,
  itr (snd (put_quote_str E q buf s)) = itr s.
Proof.
  induction buf as [|c buf IH]; intros s; cbn [put_quote_str]; [reflexivity|].
  destruct (Ascii.eqb c NUL); [reflexivity|].
  now rewrite bind_eq, IH, itr_put_quote_char.
Qed.

Lemma itr_times (n : nat) (m : M unit) :
  (forall s, itr (snd (m s)) = itr s) ->
  forall s, itr (snd (times n m s)) = itr s.
Proof.
  intros H. induction n as [|n IH]; intros s; cbn [times]; [reflexivity|].
  now rewrite bind_eq, IH, H.
Qed.

Lemma itr_when (b : bool) (m : M unit) (s : State) :
  itr (snd (m s)) = itr s -> itr (snd (when b m s)) = itr s.
Proof. destruct b; [auto | reflexivity]. Qed.

Lemma itr_times_put (q c : ascii) (n : nat) (s : State) :
  itr (snd (times n (put_quote_char E q c) s)) = itr s.
Proof. apply itr_times. intros s0. apply itr_put_quote_char. Qed.

Lemma itr_every_second (q : ascii) (d : nat) : forall s,
  itr (snd (every_second d (put_quote_str E q [BSLASH; BSLASH]) s)) = itr s.
Proof.
  induction d as [d IH] using lt_wf_ind. intros s.
  destruct d as [|[|d]]; cbn [every_second].
  - reflexivity.
  - apply itr_put_quote_str.
  - rewrite bind_eq, (IH d) by lia. apply itr_put_quote_str.
Qed.

Lemma peekc_itr (s s' : State) : itr s' = itr s -> peekc E s' = peekc E s.
Proof. intros H. now apply peekc_same. Qed.

Lemma enough_step (n : nat) (s s' : State) :
  (peekc E s =? EOF) = false -> enough E (S n) (itr s) ->
  (S (itr s) <= itr s')%nat -> enough E n (itr s').
Proof.
  intros HE H L. pose proof (peekc_not_EOF E s HE). unfold enough in *. lia.
Qed.

End Members.

Ltac same_itr :=
  repeat progress
    (rewrite ?itr_s_putch, ?itr_c_putch, ?itr_s_fill, ?itr_warning, ?itr_warning2,
       ?itr_warn_feature, ?itr_put_quote_char, ?itr_s_putstr, ?itr_put_quote_str,
       ?itr_advance).

Ltac sx :=
  repeat first
    [ rewrite bind_eq | rewrite bind_lift | rewrite bind_ret_ab | rewrite (peek_eq _)
    | progress cbn beta iota delta [fst snd gets modify ret] ].

(** The test for [EOF] of a character that [getch] gave as a character. *)
Ltac not_eof_test :=
  match goal with
  | |- context [int_of_char ?c =? EOF] =>
      first
        [ change (int_of_char c =? EOF) with false
        | match goal with
          | P : peekc _ ?s = int_of_char c, Q : (peekc _ ?s =? EOF) = false |- _ =>
              let X := fresh in
              assert (X : (int_of_char c =? EOF) = false) by (rewrite <- P; exact Q);
              rewrite X; clear X
          end ]
  end.

Ltac not_eof := not_eof_test; cbv beta match.

Section Rounds.

Variable E : Env.

(** A round of the loop of [scc] at a character, in each of the regions. *)

Lemma scc_loop_code (k : nat) (oc : int) (s : State) (c : ascii) (st : Comment)
    (s2 : State) :
  peekc E s = int_of_char c -> (peekc E s =? EOF) = false ->
  non_comment E (int_of_char c) (advance E s) = (Some st, s2) ->
  scc_loop E (S k) oc NonComment s = scc_loop E k (int_of_char c) st s2.
Proof.
  intros P Q H. cbn [scc_loop]. rewrite bind_lift, (getch_ne E s Q). cbn [fst snd].
  rewrite Q, P. now rewrite (bind_ab_Some _ _ _ _ _ H).
Qed.

Lemma scc_loop_block (k : nat) (oc : int) (s : State) (c : ascii) (st : Comment)
    (s2 : State) :
  peekc E s = int_of_char c -> (peekc E s =? EOF) = false ->
  c_comment E (int_of_char c) (advance E s) = (st, s2) ->
  scc_loop E (S k) oc CComment s = scc_loop E k (int_of_char c) st s2.
Proof.
  intros P Q H. cbn [scc_loop]. rewrite bind_lift, (getch_ne E s Q). cbn [fst snd].
  rewrite Q, P. rewrite bind_lift, H. reflexivity.
Qed.

Lemma scc_loop_line (k : nat) (oc : int) (s : State) (c : ascii) (st : Comment)
    (s2 : State) :
  peekc E s = int_of_char c -> (peekc E s =? EOF) = false ->
  cpp_comment E (int_of_char c) oc (advance E s) = (st, s2) ->
  scc_loop E (S k) oc CppComment s = scc_loop E k (int_of_char c) st s2.
Proof.
  intros P Q H. cbn [scc_loop]. rewrite bind_lift, (getch_ne E s Q). cbn [fst snd].
  rewrite Q, P. rewrite bind_lift, H. reflexivity.
Qed.

Lemma read_bsnl_none_at (s : State) :
  (peekc E s =? chr BSLASH) = false -> (peekc E s =? EOF) = false ->
  read_bsnl E s = (0%nat, s).
Proof.
  intros H Q. unfold read_bsnl. change (fuel E) with (S (List.length (m_input E))).
  rewrite read_bsnl_loop_round, H. now rewrite (peeked_ne E s Q).
Qed.

End Rounds.

Ltac ret_ok := first [apply unless_ret | apply unless_lift]; cbv beta.

(** ** Scanning a text *)

Lemma last_nth {A : Type} (d : A) (l : list A) :
  last l d = nth (List.length l - 1) l d.
Proof.
  induction l as [|a l IH]; [reflexivity|].
  destruct l as [|b l]; [reflexivity|].
  change (last (a :: b :: l) d) with (last (b :: l) d). rewrite IH.
  cbn [List.length Nat.sub nth]. rewrite ?Nat.sub_0_r. reflexivity.
Qed.

Lemma c_str_id (l : list ascii) : ~ In NUL l -> c_str l = l.
Proof.
  induction l as [|a l IH]; intros H; [reflexivity|].
  cbn [c_str]. destruct (Ascii.eqb a NUL) eqn:Q.
  - apply Ascii.eqb_eq in Q. exfalso. apply H. now left.
  - rewrite IH; [reflexivity|]. intros X. apply H. now right.
Qed.

Lemma prefix_app (a b : string) : String.prefix a (a ++ b) = true.
Proof.
  induction a as [|c a IH]; [now destruct b|].
  cbn. destruct (ascii_dec c c); [exact IH | congruence].
Qed.

Lemma tidy_too_long (w : list (Z * string)) (l : Z) (x : string) :
  tidy (w ++ [(l, (too_long_text ++ x)%string)]) = true -> False.
Proof.
  rewrite tidy_app. unfold tidy at 2. cbn [forallb snd].
  rewrite prefix_app. cbn. rewrite andb_false_r. discriminate.
Qed.

Lemma valid_mark_char (a : ascii) :
  invalid_mark_char (int_of_char a) = false -> a <> NUL /\ a <> NL.
Proof.
  unfold invalid_mark_char. rewrite to_char_int_of_char.
  intros H. split; intros ->; discriminate H.
Qed.

Lemma valid_mark_NUL (m : list ascii) : valid_mark m -> ~ In NUL m.
Proof.
  intros V X. unfold valid_mark in V. rewrite Forall_forall in V.
  now destruct (valid_mark_char _ (V _ X)).
Qed.

Lemma valid_mark_snoc (m : list ascii) (c : int) :
  valid_mark m -> invalid_mark_char c = false -> valid_mark (m ++ [to_char c]).
Proof.
  intros V H. apply Forall_app. split; [exact V|].
  constructor; [|constructor].
  unfold invalid_mark_char in *. now rewrite to_char_int_of_char.
Qed.

Lemma tidy_Step (E : Env) (s s' : State) :
  Step E s s' -> tidy (console s') = true -> tidy (console s) = true.
Proof.
  intros [_ _ _ [w [Hw _]] _ _] T. rewrite Hw, tidy_app in T.
  now apply andb_prop in T.
Qed.

Lemma legible_check (l : list ascii) :
  forallb (fun c => negb (Ascii.eqb c EOF_byte)) l = true -> ~ In EOF_byte l.
Proof.
  intros H X. rewrite forallb_forall in H. specialize (H _ X).
  now rewrite Ascii.eqb_refl in H.
Qed.

Lemma could_be_string_literal_char (c : ascii) :
  could_be_string_literal c = true -> c <> NUL /\ c <> NL.
Proof. intros H. split; intros ->; discriminate H. Qed.

Section Text.

Variable E : Env.
Context {legible_input : Legible E}.
Hypothesis no_NUL : ~ In NUL (m_input E).
Hypothesis whole_end : ends_whole (m_input E) = true.

Lemma Behind_advance (s : State) :
  (peekc E s =? EOF) = false -> Behind E (to_char (peekc E s)) (advance E s).
Proof.
  intros HE. pose proof (peekc_not_EOF E s HE) as L.
  exists (itr s). rewrite itr_advance. repeat split; [lia|].
  unfold peekc. apply Nat.leb_gt in L. rewrite L. now rewrite to_char_int_of_char.
Qed.

Lemma Behind_itr (c : ascii) (s s' : State) :
  itr s' = itr s -> Behind E c s -> Behind E c s'.
Proof. intros H [i [Hi R]]. exists i. now rewrite H. Qed.

(** At the end of the input the cursor is behind its last character. *)
Lemma Behind_last (c : ascii) (s : State) :
  Behind E c s -> (peekc E s =? EOF) = true ->
  m_input E <> [] /\ last (m_input E) NUL = c.
Proof.
  intros [i [Hi [L N]]] HE. rewrite (peekc_EOF E) in HE. apply Nat.leb_le in HE.
  assert (e : S i = List.length (m_input E)) by lia.
  split.
  - intros X. rewrite X in e. discriminate.
  - rewrite last_nth, <- e. replace (S i - 1)%nat with i by lia. exact N.
Qed.

Lemma whole_end_last :
  m_input E <> [] ->
  last (m_input E) NUL <> BSLASH
  /\ could_be_string_literal (last (m_input E) NUL) = false
  /\ (has_raw (m_input E) = true ->
      last (m_input E) NUL <> RPAREN
      /\ invalid_mark_char (int_of_char (last (m_input E) NUL)) = true).
Proof.
  intros N. unfold ends_whole in whole_end.
  destruct (m_input E) as [|a l] eqn:Q; [contradiction|].
  cbv zeta in whole_end.
  apply andb_prop in whole_end. destruct whole_end as [H12 H3].
  apply andb_prop in H12. destruct H12 as [H1 H2].
  split; [|split].
  - intros X. rewrite X in H1. discriminate.
  - now apply negb_true_iff.
  - intros R. rewrite R in H3. cbn [negb orb] in H3.
    apply andb_prop in H3. destruct H3 as [H3 H4]. split; [|exact H4].
    intros X. rewrite X in H3. discriminate.
Qed.

(** Behind a backslash the input goes on. *)
Lemma not_at_end_backslash (s : State) :
  Behind E BSLASH s -> (peekc E s =? EOF) = false.
Proof.
  intros B. destruct (peekc E s =? EOF) eqn:HE; [|reflexivity]. exfalso.
  destruct (Behind_last _ _ B HE) as [N L].
  destruct (whole_end_last N) as [X _]. contradiction.
Qed.

(** Behind a character of a literal prefix the input goes on. *)
Lemma not_at_end_prefix (c : ascii) (s : State) :
  Behind E c s -> could_be_string_literal c = true -> (peekc E s =? EOF) = false.
Proof.
  intros B C. destruct (peekc E s =? EOF) eqn:HE; [|reflexivity]. exfalso.
  destruct (Behind_last _ _ B HE) as [N L].
  destruct (whole_end_last N) as [_ [X _]]. rewrite L, C in X. discriminate.
Qed.

(** Behind a character of a closing sequence the input goes on. *)
Lemma not_at_end_closing (c : ascii) (s : State) :
  has_raw (m_input E) = true ->
  Behind E c s -> c = RPAREN \/ invalid_mark_char (int_of_char c) = false ->
  (peekc E s =? EOF) = false.
Proof.
  intros R B C. destruct (peekc E s =? EOF) eqn:HE; [|reflexivity]. exfalso.
  destruct (Behind_last _ _ B HE) as [N L].
  destruct (whole_end_last N) as [_ [_ X]]. destruct (X R) as [X1 X2].
  rewrite L in X1, X2. destruct C as [C|C]; [contradiction | congruence].
Qed.

Lemma input_char_not_NUL (s : State) :
  (peekc E s =? EOF) = false -> to_char (peekc E s) <> NUL.
Proof.
  intros HE. pose proof (peekc_not_EOF E s HE) as L.
  unfold peekc. pose proof L as L'. apply Nat.leb_gt in L'. rewrite L'.
  rewrite to_char_int_of_char. intros Q.
  apply no_NUL. rewrite <- Q. now apply nth_In.
Qed.

Lemma not_In_snoc (l : list ascii) (s : State) :
  ~ In NUL l -> (peekc E s =? EOF) = false -> ~ In NUL (l ++ [to_char (peekc E s)]).
Proof.
  intros N HE X. apply in_app_or in X. destruct X as [X|[X|[]]]; [now apply N|].
  now apply (input_char_not_NUL s HE).
Qed.

End Text.

Lemma has_raw_app (a b : list ascii) : has_raw a = true -> has_raw (a ++ b) = true.
Proof.
  induction a as [|x a IH]; intros H; [discriminate|].
  cbn [has_raw app] in *. apply orb_true_iff in H. apply orb_true_iff.
  destruct H as [H|H]; [left | right; now apply IH].
  destruct a as [|y a]; [now rewrite andb_false_r in H | exact H].
Qed.

Lemma has_raw_here (a b : list ascii) :
  has_raw (a ++ "R"%char :: DQUOTE :: b) = true.
Proof.
  induction a as [|x a IH]; [reflexivity|].
  cbn [has_raw app]. rewrite IH. apply orb_true_r.
Qed.

(** A raw string prefix ends in [R]. *)
Lemma raw_prefix_last (prefix : list ascii) :
  ~ In NUL prefix -> valid_dq_raw_prefix prefix = true ->
  exists p, prefix = p ++ ["R"%char].
Proof.
  intros N H. unfold valid_dq_raw_prefix, dq_raw_prefix, strcmp_eq in H.
  rewrite (c_str_id prefix N) in H. cbn [existsb] in H.
  assert (X : forall t, String.eqb (text prefix) t = true -> prefix = str t).
  { intros t Q. apply String.eqb_eq in Q. unfold str, text in *.
    rewrite <- Q. now rewrite list_ascii_of_string_of_list_ascii. }
  repeat (apply orb_true_iff in H; destruct H as [H|H]);
    try discriminate H; rewrite (X _ H).
  - now exists [].
  - now exists (str "L").
  - now exists (str "u").
  - now exists (str "U").
  - now exists (str "u8").
Qed.



(** ** A raw string that is closed is copied as it is *)

Lemma starts_with_app (p l : list ascii) : starts_with p (p ++ l) = true.
Proof.
  induction p as [|a p IH]; [reflexivity|].
  cbn [app starts_with]. now rewrite Ascii.eqb_refl, IH.
Qed.

Lemma clean_shift (p a b : list ascii) (n : nat) :
  clean p (a ++ b) (List.length a + n) -> clean p b n.
Proof.
  intros H k L. specialize (H (List.length a + k)%nat ltac:(lia)).
  rewrite skipn_app, skipn_all2 in H by lia.
  replace (List.length a + k - List.length a)%nat with k in H by lia. exact H.
Qed.

Lemma clean_eq (p t t' : list ascii) (n n' : nat) :
  clean p t n -> t = t' -> n = n' -> clean p t' n'.
Proof. now intros H <- <-. Qed.

Lemma closing_length (m : list ascii) :
  List.length (closing m) = S (S (List.length m)).
Proof. unfold closing. cbn [List.length]. rewrite length_app. cbn. lia. Qed.

Lemma clean_forallb (p txt : list ascii) (n : nat) :
  forallb (fun k => negb (starts_with p (skipn k txt))) (seq 0 n) = true ->
  clean p txt n.
Proof.
  intros H k L. rewrite forallb_forall in H.
  specialize (H k ltac:(apply in_seq; lia)). now apply negb_true_iff in H.
Qed.

Lemma unit_run (p : unit * State) : p = (tt, snd p).
Proof. now destruct p as [[] s]. Qed.

Section Running.

Variable E : Env.
Context {legible_input : Legible E}.

Lemma Runs_bind {A B : Type} (m : M A) (f : A -> M B) (s s1 s2 : State)
    (a : A) (b : B) (r1 r2 c1 c2 : list ascii) (w1 w2 : list (Z * string)) :
  Runs E m s a s1 r1 c1 w1 -> Runs E (f a) s1 b s2 r2 c2 w2 ->
  Runs E (bind m f) s b s2 (r1 ++ r2) (c1 ++ c2) (w1 ++ w2).
Proof.
  intros [H1 E1] [H2 E2]. split.
  - rewrite bind_eq, H1. exact H2.
  - exact (Emits_trans E _ _ _ _ _ _ _ _ _ E1 E2).
Qed.

Lemma Runs_eq {A : Type} (m : M A) (s s' : State) (a : A)
    (r r' c c' : list ascii) (w w' : list (Z * string)) :
  Runs E m s a s' r c w -> r = r' -> c = c' -> w = w' -> Runs E m s a s' r' c' w'.
Proof. intros H -> -> ->. exact H. Qed.

Lemma Runs_ret {A : Type} (a : A) (s : State) : Runs E (ret a) s a s [] [] [].
Proof. split; [reflexivity | apply Emits_refl]. Qed.

Lemma Runs_getch (s : State) (c : ascii) (r : list ascii) :
  rest_of E s = c :: r -> Runs E (getch E) s (int_of_char c) (advance E s) [c] [] [].
Proof.
  intros H. destruct (rest_cons E s c r H) as [P [Q _]]. split.
  - now rewrite (getch_eq E), Q, P.
  - now apply (Emits_advance E s c r).
Qed.

Lemma Runs_s_putch (c : ascii) (s : State) :
  Runs E (s_putch E c) s tt (snd (s_putch E c s)) [] [c] [].
Proof. split; [apply unit_run | apply Emits_s_putch]. Qed.

Lemma Runs_s_putstr (buf : list ascii) (s : State) :
  ~ In NUL buf -> Runs E (s_putstr E buf) s tt (snd (s_putstr E buf s)) [] buf [].
Proof. intros N. split; [apply unit_run | now apply Emits_s_putstr]. Qed.

Lemma Runs_rest {A : Type} (m : M A) (s s' : State) (a : A)
    (read code x : list ascii) (w : list (Z * string)) :
  Runs E m s a s' read code w -> rest_of E s = read ++ x -> rest_of E s' = x.
Proof.
  intros [_ H] R. rewrite (em_rest _ _ _ _ _ _ H) in R.
  now apply app_inv_head in R.
Qed.

End Running.

Section RawString.

Variable E : Env.
Context {legible_input : Legible E}.
Variable m : list ascii.
Hypothesis valid_m : valid_mark m.

Lemma char_at_mark (i : nat) (c : ascii) :
  (int_of_char c =? char_at m i) = true -> c <> NUL ->
  (i < List.length m)%nat /\ nth i m NUL = c
  /\ invalid_mark_char (int_of_char c) = false.
Proof.
  intros H N. apply Z.eqb_eq, int_of_char_inj in H.
  destruct (Nat.lt_ge_cases i (List.length m)) as [L|G].
  - repeat split; auto. unfold valid_mark in valid_m.
    rewrite Forall_forall in valid_m. rewrite H. apply valid_m. now apply nth_In.
  - rewrite nth_overflow in H by exact G. contradiction.
Qed.

Lemma prefix_nth (a b : list ascii) (c : ascii) :
  m = a ++ b -> (List.length a < List.length m)%nat ->
  nth (List.length a) m NUL = c -> exists b', m = (a ++ [c]) ++ b'.
Proof.
  intros H L N. destruct b as [|x b].
  - rewrite H, app_nil_r in L. lia.
  - exists b. rewrite H in N. rewrite nth_middle in N. subst x.
    now rewrite <- app_assoc.
Qed.

(** With the whole marker still to come, the marker scan takes it. *)
Lemma raw_scan_marker_loop_mark (pfx : list ascii) (m2 : list ascii) :
  forall m1 n s r,
  m = m1 ++ m2 -> ~ In LPAREN m2 -> (List.length m <= MAX_RAW_MARKER)%nat ->
  rest_of E s = m2 ++ LPAREN :: r -> (List.length m2 < n)%nat ->
  exists s',
    Runs E (raw_scan_marker_loop E n m1 pfx) s (Some (true, (m, List.length m))) s'
      (m2 ++ [LPAREN]) [] [].
Proof.
  induction m2 as [|c m2 IH]; intros m1 n s r Hm NP Len R F.
  - rewrite app_nil_r in Hm. subst m1. destruct n as [|n]; [cbn in F; lia|].
    cbn [app] in R. destruct (rest_cons E s _ _ R) as [P [Q _]].
    exists (advance E s). split.
    + cbn [raw_scan_marker_loop]. rewrite bind_lift, (getch_eq E), Q, P. cbn [fst snd].
      not_eof. change (chr LPAREN) with (int_of_char LPAREN).
      rewrite Z.eqb_refl, bind_assert. apply Nat.leb_le in Len. rewrite Len.
      reflexivity.
    + now apply (Emits_advance E s LPAREN r).
  - destruct n as [|n]; [cbn in F; lia|].
    cbn [app] in R. destruct (rest_cons E s _ _ R) as [P [Q R']].
    assert (V : invalid_mark_char (int_of_char c) = false).
    { unfold valid_mark in valid_m. rewrite Forall_forall in valid_m.
      apply valid_m. rewrite Hm. apply in_or_app. right. now left. }
    assert (CL : (int_of_char c =? chr LPAREN) = false).
    { change (chr LPAREN) with (int_of_char LPAREN). rewrite int_of_char_eqb.
      destruct (Ascii.eqb_spec c LPAREN) as [e|_]; [|reflexivity].
      exfalso. apply NP. now left. }
    assert (ML : (MAX_RAW_MARKER <=? List.length m1)%nat = false).
    { apply Nat.leb_gt. rewrite Hm, length_app in Len. cbn [List.length] in Len. lia. }
    destruct (IH (m1 ++ [c]) n (advance E s) r) as [s' [H1 H2]].
    + now rewrite <- app_assoc.
    + intros X. apply NP. now right.
    + exact Len.
    + exact R'.
    + cbn [List.length] in F. lia.
    + exists s'. split.
      * cbn [raw_scan_marker_loop]. rewrite bind_lift, (getch_eq E), Q, P. cbn [fst snd].
        not_eof. rewrite CL, V, ML. cbn [orb].
        rewrite to_char_int_of_char. exact H1.
      * eapply Emits_eq;
          [exact (Emits_trans E _ _ _ _ _ _ _ _ _ (Emits_advance E s c _ R) H2) | | |];
          reflexivity.
Qed.

(** With what is left of the marker and the double quote to come, the
    closing scan writes the closing sequence and returns. *)
Lemma raw_scan_close_match (m2 : list ascii) : forall m1 n s r,
  m = m1 ++ m2 -> rest_of E s = m2 ++ DQUOTE :: r -> (List.length m2 < n)%nat ->
  exists s',
    Runs E (raw_scan_close E n m (List.length m) m1) s Returned s'
      (m2 ++ [DQUOTE]) (closing m) [].
Proof.
  induction m2 as [|c m2 IH]; intros m1 n s r Hm R F.
  - rewrite app_nil_r in Hm. subst m1. destruct n as [|n]; [cbn in F; lia|].
    cbn [app] in R. exists (snd (s_putch E DQUOTE
                              (snd (s_putstr E m (snd (s_putch E RPAREN (advance E s))))))).
    cbn [raw_scan_close].
    eapply Runs_eq; [eapply Runs_bind; [exact (Runs_getch E s _ _ R)|] | | |].
    + cbv beta. not_eof.
      change (chr DQUOTE) with (int_of_char DQUOTE).
      rewrite Z.eqb_refl, Nat.eqb_refl. cbn [andb]. rewrite to_char_int_of_char.
      eapply Runs_bind; [apply Runs_s_putch|]. cbv beta.
      eapply Runs_bind; [apply Runs_s_putstr; now apply valid_mark_NUL|]. cbv beta.
      eapply Runs_bind; [apply Runs_s_putch|]. cbv beta.
      apply Runs_ret.
    + reflexivity.
    + reflexivity.
    + reflexivity.
  - destruct n as [|n]; [cbn in F; lia|].
    cbn [app] in R. destruct (rest_cons E s _ _ R) as [P [Q R']].
    assert (LL : (List.length m1 =? List.length m)%nat = false).
    { apply Nat.eqb_neq. rewrite Hm, length_app. cbn [List.length]. lia. }
    assert (CA : (int_of_char c =? char_at m (List.length m1)) = true).
    { unfold char_at. rewrite Hm, nth_middle. apply Z.eqb_refl. }
    destruct (IH (m1 ++ [c]) n (advance E s) r) as [s' [H1 H2]].
    + now rewrite <- app_assoc.
    + exact R'.
    + cbn [List.length] in F. lia.
    + exists s'. split.
      * cbn [raw_scan_close]. rewrite bind_eq, (getch_eq E), Q, P. cbn [fst snd].
        not_eof. rewrite LL, andb_false_r, CA, to_char_int_of_char.
        exact H1.
      * eapply Emits_eq;
          [exact (Emits_trans E _ _ _ _ _ _ _ _ _ (Emits_advance E s c _ R) H2) | | |];
          reflexivity.
Qed.

Lemma char_at_RPAREN (i : nat) : (int_of_char RPAREN =? char_at m i) = false.
Proof.
  destruct (int_of_char RPAREN =? char_at m i) eqn:H; [|reflexivity].
  apply char_at_mark in H; [|discriminate]. destruct H as [_ [_ H]]. discriminate H.
Qed.

Lemma prefix_NUL (a b : list ascii) : m = a ++ b -> ~ In NUL a.
Proof.
  intros H X. apply (valid_mark_NUL m valid_m). rewrite H. apply in_or_app. now left.
Qed.

(** Behind a right parenthesis and the start [endstr] of the marker, with
    [t] of the body still before the closing sequence: the closing scan
    either finds the closing sequence, with all before it written, or falls
    out inside the body, with all it read written. *)
Lemma raw_scan_close_body (r : list ascii) (t : list ascii) : forall endstr n s,
  (exists m2, m = endstr ++ m2) -> ~ In NUL t ->
  clean (closing m) (RPAREN :: endstr ++ t ++ closing m)
    (1 + List.length endstr + List.length t) ->
  rest_of E s = t ++ closing m ++ r ->
  (List.length t + List.length (closing m) < n)%nat ->
  exists res s1,
    raw_scan_close E n m (List.length m) endstr s = (res, s1)
    /\ ((res = Returned
         /\ Emits E s s1 (t ++ closing m) (RPAREN :: endstr ++ t ++ closing m) [])
        \/ (exists b t1 t2,
              res = Fell_out b /\ t = t1 ++ t2 /\ t1 <> []
              /\ Emits E s s1 t1 (RPAREN :: endstr ++ t1) []
              /\ clean (closing m) (t2 ++ closing m) (List.length t2))).
Proof.
  induction t as [|c t IH]; intros endstr n s [m2 Hm] N C R F.
  - destruct n as [|n]; [lia|].
    assert (R0 : rest_of E s = RPAREN :: m ++ DQUOTE :: r).
    { rewrite R. unfold closing. cbn [app]. now rewrite <- app_assoc. }
    destruct (rest_cons E s _ _ R0) as [P [Q R']].
    pose proof (prefix_NUL _ _ Hm) as NE.
    set (X := snd (s_putstr E endstr (snd (s_putch E RPAREN (advance E s))))).
    destruct (raw_scan_close_match m [] n X r eq_refl) as [s' [H1 H2]].
    + rewrite <- R'. apply rest_same. subst X. now same_itr.
    + rewrite closing_length in F. cbn [List.length] in F. lia.
    + exists Returned, s'. split.
      * cbn [raw_scan_close]. rewrite bind_eq, (getch_eq E), Q, P. cbn [fst snd].
        not_eof. rewrite char_at_RPAREN.
        change (int_of_char RPAREN =? chr DQUOTE) with false.
        change (int_of_char RPAREN =? chr RPAREN) with true. cbn [andb]. cbv iota.
        rewrite !bind_eq. exact H1.
      * left. split; [reflexivity|].
        eapply Emits_eq;
          [exact (Emits_trans E _ _ _ _ _ _ _ _ _ (Emits_advance E s _ _ R0)
                    (Emits_trans E _ _ _ _ _ _ _ _ _ (Emits_s_putch E RPAREN _)
                       (Emits_trans E _ _ _ _ _ _ _ _ _
                          (Emits_s_putstr E endstr _ NE) H2))) | | |];
          reflexivity.
  - destruct n as [|n]; [lia|].
    assert (R0 : rest_of E s = c :: t ++ closing m ++ r) by exact R.
    destruct (rest_cons E s _ _ R0) as [P [Q R']].
    pose proof (prefix_NUL _ _ Hm) as NE.
    assert (Nc : c <> NUL) by (intros ->; apply N; now left).
    assert (Nt : ~ In NUL t) by (intros X; apply N; now right).
    cbn [List.length] in F.
    destruct ((int_of_char c =? chr DQUOTE)
              && (List.length endstr =? List.length m)%nat) eqn:C1.
    { exfalso. apply andb_prop in C1. destruct C1 as [C1 C1'].
      apply Z.eqb_eq in C1. change (chr DQUOTE) with (int_of_char DQUOTE) in C1.
      apply int_of_char_inj in C1. subst c. apply Nat.eqb_eq in C1'.
      assert (m2 = []).
      { rewrite Hm, length_app in C1'. destruct m2; [reflexivity | cbn in C1'; lia]. }
      subst m2. rewrite app_nil_r in Hm. subst endstr.
      specialize (C 0%nat ltac:(lia)). cbn [skipn] in C.
      replace (RPAREN :: m ++ (DQUOTE :: t) ++ closing m)
        with (closing m ++ (t ++ closing m)) in C
        by (unfold closing; cbn [app]; now rewrite <- app_assoc).
      rewrite starts_with_app in C. discriminate. }
    destruct (int_of_char c =? char_at m (List.length endstr)) eqn:C2.
    { destruct (char_at_mark _ _ C2 Nc) as [L [Hn _]].
      destruct (prefix_nth _ _ _ Hm L Hn) as [b' Hb].
      destruct (IH (endstr ++ [c]) n (advance E s)) as [res [s1 [H D]]].
      - now exists b'.
      - exact Nt.
      - apply (clean_eq _ _ _ _ _ C).
        + now rewrite <- app_assoc.
        + rewrite length_app. cbn [List.length]. lia.
      - exact R'.
      - lia.
      - exists res, s1. split.
        + cbn [raw_scan_close]. rewrite bind_eq, (getch_eq E), Q, P. cbn [fst snd].
          not_eof. rewrite C1, C2, to_char_int_of_char. exact H.
        + destruct D as [[D1 D2]|[b [t1 [t2 [D1 [D2 [D3 [D4 D5]]]]]]]].
          * left. split; [exact D1|].
            eapply Emits_eq;
              [exact (Emits_trans E _ _ _ _ _ _ _ _ _ (Emits_advance E s _ _ R0) D2) | | |];
              rewrite <- ?app_assoc; cbn [app]; rewrite ?app_nil_r; reflexivity.
          * right. exists b, (c :: t1), t2.
            refine (conj D1 (conj _ (conj _ (conj _ D5)))).
            -- now rewrite D2.
            -- discriminate.
            -- eapply Emits_eq;
                 [exact (Emits_trans E _ _ _ _ _ _ _ _ _ (Emits_advance E s _ _ R0) D4)
                 | | |];
              rewrite <- ?app_assoc; cbn [app]; rewrite ?app_nil_r; reflexivity. }
    destruct (int_of_char c =? chr RPAREN) eqn:C3.
    { apply Z.eqb_eq in C3. change (chr RPAREN) with (int_of_char RPAREN) in C3.
      apply int_of_char_inj in C3. subst c.
      set (X := snd (s_putstr E endstr (snd (s_putch E RPAREN (advance E s))))).
      destruct (IH [] n X) as [res [s1 [H D]]].
      - now exists m.
      - exact Nt.
      - apply (clean_shift _ (RPAREN :: endstr)).
        apply (clean_eq _ _ _ _ _ C); [reflexivity|]. cbn [List.length]. lia.
      - rewrite <- R'. apply rest_same. subst X. now same_itr.
      - lia.
      - exists res, s1. split.
        + cbn [raw_scan_close]. rewrite bind_eq, (getch_eq E), Q, P. cbn [fst snd].
          not_eof. rewrite C1, C2.
          change (int_of_char RPAREN =? chr RPAREN) with true. cbv iota.
          rewrite !bind_eq. exact H.
        + pose proof (Emits_trans E _ _ _ _ _ _ _ _ _ (Emits_advance E s _ _ R0)
                        (Emits_trans E _ _ _ _ _ _ _ _ _ (Emits_s_putch E RPAREN _)
                           (Emits_s_putstr E endstr _ NE))) as E3.
          fold X in E3.
          destruct D as [[D1 D2]|[b [t1 [t2 [D1 [D2 [D3 [D4 D5]]]]]]]].
          * left. split; [exact D1|].
            eapply Emits_eq; [exact (Emits_trans E _ _ _ _ _ _ _ _ _ E3 D2) | | |];
              rewrite <- ?app_assoc; cbn [app]; rewrite ?app_nil_r; reflexivity.
          * right. exists b, (RPAREN :: t1), t2.
            refine (conj D1 (conj _ (conj _ (conj _ D5)))).
            -- now rewrite D2.
            -- discriminate.
            -- eapply Emits_eq; [exact (Emits_trans E _ _ _ _ _ _ _ _ _ E3 D4) | | |];
              rewrite <- ?app_assoc; cbn [app]; rewrite ?app_nil_r; reflexivity. }
    exists (Fell_out true),
      (snd (s_putch E c (snd (s_putstr E endstr (snd (s_putch E RPAREN (advance E s))))))).
    split.
    + cbn [raw_scan_close]. rewrite bind_eq, (getch_eq E), Q, P. cbn [fst snd].
      not_eof. rewrite C1, C2, C3, to_char_int_of_char. cbv iota.
      rewrite !bind_eq. reflexivity.
    + right. exists true, [c], t.
      refine (conj eq_refl (conj eq_refl (conj _ (conj _ _)))).
      * discriminate.
      * eapply Emits_eq;
          [exact (Emits_trans E _ _ _ _ _ _ _ _ _ (Emits_advance E s _ _ R0)
                    (Emits_trans E _ _ _ _ _ _ _ _ _ (Emits_s_putch E RPAREN _)
                       (Emits_trans E _ _ _ _ _ _ _ _ _
                          (Emits_s_putstr E endstr _ NE) (Emits_s_putch E c _)))) | | |];
              rewrite <- ?app_assoc; cbn [app]; rewrite ?app_nil_r; reflexivity.
      * apply (clean_shift _ (RPAREN :: endstr ++ [c])).
        apply (clean_eq _ _ _ _ _ C).
        -- cbn [app]. now rewrite <- app_assoc.
        -- cbn [List.length]. rewrite length_app. cbn [List.length]. lia.
Qed.

Lemma raw_scan_string_loop_close (r : list ascii) (n : nat) (s : State) :
  rest_of E s = closing m ++ r -> (List.length (closing m) < n)%nat ->
  exists s',
    raw_scan_string_loop E n m (List.length m) s = (Returned, s')
    /\ Emits E s s' (closing m) (closing m) [].
Proof.
  intros R F. destruct n as [|n]; [lia|].
  assert (R0 : rest_of E s = RPAREN :: m ++ DQUOTE :: r).
  { rewrite R. unfold closing. cbn [app]. now rewrite <- app_assoc. }
  destruct (rest_cons E s _ _ R0) as [P [Q R']].
  destruct (raw_scan_close_match m [] (fuel E) (advance E s) r eq_refl R')
    as [s' [H1 H2]].
  { pose proof (rest_length E (advance E s)) as L. rewrite R', length_app in L. lia. }
  exists s'. split.
  - cbn [raw_scan_string_loop]. rewrite bind_eq, (getch_eq E), Q, P. cbn [fst snd].
    not_eof.
    change (int_of_char RPAREN =? chr RPAREN) with true. cbn [negb]. cbv iota.
    rewrite bind_eq, H1. reflexivity.
  - eapply Emits_eq;
      [exact (Emits_trans E _ _ _ _ _ _ _ _ _ (Emits_advance E s _ _ R0) H2) | | |];
      reflexivity.
Qed.

(** The body of a raw string, up to the first closing sequence, and the
    closing sequence are written as they are read. *)
Lemma raw_scan_string_loop_body (r : list ascii) (N : nat) : forall body n s,
  (List.length body <= N)%nat -> ~ In NUL body ->
  clean (closing m) (body ++ closing m) (List.length body) ->
  rest_of E s = body ++ closing m ++ r ->
  (List.length body + List.length (closing m) < n)%nat ->
  exists s',
    raw_scan_string_loop E n m (List.length m) s = (Returned, s')
    /\ Emits E s s' (body ++ closing m) (body ++ closing m) [].
Proof.
  induction N as [|N IH]; intros body n s LN NB C R F.
  - destruct body; [|cbn in LN; lia]. now apply (raw_scan_string_loop_close r).
  - destruct body as [|c b]; [now apply (raw_scan_string_loop_close r)|].
    destruct n as [|n]; [lia|]. cbn [List.length] in LN, F.
    assert (R0 : rest_of E s = c :: b ++ closing m ++ r) by exact R.
    destruct (rest_cons E s _ _ R0) as [P [Q R']].
    assert (Nb : ~ In NUL b) by (intros X; apply NB; now right).
    destruct (int_of_char c =? chr RPAREN) eqn:CR.
    + apply Z.eqb_eq in CR. change (chr RPAREN) with (int_of_char RPAREN) in CR.
      apply int_of_char_inj in CR. subst c.
      destruct (raw_scan_close_body r b [] (fuel E) (advance E s))
        as [res [s1 [H D]]].
      * now exists m.
      * exact Nb.
      * exact C.
      * exact R'.
      * pose proof (rest_length E (advance E s)) as L.
        rewrite R', !length_app in L. lia.
      * destruct D as [[D1 D2]|[b0 [t1 [t2 [D1 [D2 [D3 [D4 D5]]]]]]]].
        -- subst res. exists s1. split.
           ++ cbn [raw_scan_string_loop]. rewrite bind_eq, (getch_eq E), Q, P. cbn [fst snd].
              not_eof.
              change (int_of_char RPAREN =? chr RPAREN) with true. cbn [negb]. cbv iota.
              rewrite bind_eq, H. reflexivity.
           ++ eapply Emits_eq;
                [exact (Emits_trans E _ _ _ _ _ _ _ _ _ (Emits_advance E s _ _ R0) D2)
                | | |]; reflexivity.
        -- subst res.
           assert (R1 : rest_of E s1 = t2 ++ closing m ++ r).
           { apply (Emits_rest E _ _ _ _ _ _ D4). rewrite R', D2.
             now rewrite <- app_assoc. }
           assert (L1 : (0 < List.length t1)%nat).
           { destruct t1; [contradiction | cbn; lia]. }
           assert (LB : List.length b = (List.length t1 + List.length t2)%nat).
           { now rewrite D2, length_app. }
           destruct (IH t2 n s1) as [s' [H1 H2]].
           ++ lia.
           ++ intros X. apply Nb. rewrite D2. apply in_or_app. now right.
           ++ exact D5.
           ++ exact R1.
           ++ lia.
           ++ exists s'. split.
              ** cbn [raw_scan_string_loop]. rewrite bind_eq, (getch_eq E), Q, P.
                 cbn [fst snd]. not_eof.
                 change (int_of_char RPAREN =? chr RPAREN) with true.
                 cbn [negb]. cbv iota. rewrite bind_eq, H. exact H1.
              ** eapply Emits_eq;
                   [exact (Emits_trans E _ _ _ _ _ _ _ _ _ (Emits_advance E s _ _ R0)
                             (Emits_trans E _ _ _ _ _ _ _ _ _ D4 H2)) | | |];
                   rewrite ?D2; cbn [app]; rewrite <- ?app_assoc; cbn [app];
                   rewrite ?app_nil_r; reflexivity.
    + set (X := snd (s_putch E c (advance E s))).
      destruct (IH b n X) as [s' [H1 H2]].
      * lia.
      * exact Nb.
      * apply (clean_shift _ [c]). exact C.
      * rewrite <- R'. apply rest_same. subst X. now same_itr.
      * lia.
      * exists s'. split.
        -- cbn [raw_scan_string_loop]. rewrite bind_eq, (getch_eq E), Q, P. cbn [fst snd].
           not_eof. rewrite CR, to_char_int_of_char. cbn [negb]. cbv iota.
           rewrite bind_eq. exact H1.
        -- eapply Emits_eq;
             [exact (Emits_trans E _ _ _ _ _ _ _ _ _ (Emits_advance E s _ _ R0)
                       (Emits_trans E _ _ _ _ _ _ _ _ _ (Emits_s_putch E c _) H2)) | | |];
             reflexivity.
Qed.

(** Behind the double quote that opens it, a raw string with a marker of
    at most 16 characters that is closed is written to the code channel
    as it is, and nothing is printed. *)
Lemma parse_raw_string_closed (pfx body r : list ascii) (s : State) :
  ~ In LPAREN m -> (List.length m <= MAX_RAW_MARKER)%nat -> ~ In NUL body ->
  clean (closing m) (body ++ closing m) (List.length body) ->
  rest_of E s = m ++ LPAREN :: body ++ closing m ++ r ->
  exists s',
    parse_raw_string E pfx s = (Some tt, s')
    /\ Emits E s s' (m ++ LPAREN :: body ++ closing m)
         (DQUOTE :: m ++ LPAREN :: body ++ closing m) [].
Proof.
  intros NP Len NB C R.
  destruct (raw_scan_marker_loop_mark pfx m [] (fuel E) s (body ++ closing m ++ r)
              eq_refl NP Len R) as [s1 [H1 E1]].
  { pose proof (rest_length E s) as L. rewrite R, length_app in L. lia. }
  assert (R1 : rest_of E s1 = body ++ closing m ++ r).
  { apply (Emits_rest E _ _ _ _ _ _ E1). rewrite R, <- app_assoc. reflexivity. }
  set (X := snd (s_putch E LPAREN (snd (s_putstr E m (snd (s_putch E DQUOTE s1)))))).
  destruct (raw_scan_string_loop_body r (List.length body) body (fuel E) X)
    as [s' [H2 E2]]; auto.
  { rewrite <- R1. apply rest_same. subst X. now same_itr. }
  { pose proof (rest_length E s1) as L. rewrite R1, !length_app in L. lia. }
  exists s'. split.
  - unfold parse_raw_string, raw_scan_marker.
    rewrite (bind_ab_Some _ _ _ _ _ H1). cbn [fst snd].
    rewrite !bind_lift. cbn [gets fst snd]. unfold lift, raw_scan_string.
    rewrite bind_eq. fold X. rewrite H2. reflexivity.
  - eapply Emits_eq;
      [exact (Emits_trans E _ _ _ _ _ _ _ _ _ E1
                (Emits_trans E _ _ _ _ _ _ _ _ _ (Emits_s_putch E DQUOTE _)
                   (Emits_trans E _ _ _ _ _ _ _ _ _
                      (Emits_s_putstr E m _ (valid_mark_NUL m valid_m))
                      (Emits_trans E _ _ _ _ _ _ _ _ _ (Emits_s_putch E LPAREN _) E2))))
      | | |];
      rewrite <- ?app_assoc; cbn [app]; rewrite ?app_nil_r; reflexivity.
Qed.

End RawString.

Section WholeRawString.

Variable E : Env.
Context {legible_input : Legible E}.

Lemma non_comment_R (s : State) :
  non_comment E (int_of_char "R") s =
  (process_poss_string_literal E "R" ;;; ret_ab NonComment)%ab s.
Proof.
  unfold non_comment, parse_identifier.
  replace (int_of_char "R" =? chr "*") with false by reflexivity.
  replace (int_of_char "R" =? chr SQUOTE) with false by reflexivity.
  replace (int_of_char "R" =? chr DQUOTE) with false by reflexivity.
  replace (int_of_char "R" =? chr "/") with false by reflexivity.
  replace (isdigit (int_of_char "R")) with false by reflexivity.
  replace (int_of_char "R" =? chr ".") with false by reflexivity.
  replace (isalnum (int_of_char "R")) with true by reflexivity.
  replace (could_be_string_literal (to_char (int_of_char "R"))) with true by reflexivity.
  cbv iota. rewrite bind_lift. cbn [ret fst snd orb]. cbv iota.
  replace (isalpha (int_of_char "R") || (int_of_char "R" =? chr "_")) with true
    by reflexivity.
  reflexivity.
Qed.

Lemma process_poss_string_literal_R (s s' : State) (r : list ascii) :
  rest_of E s = DQUOTE :: r ->
  parse_raw_string E ["R"%char]
    (snd (s_putstr E ["R"%char]
            (snd (when (negb (f_RawString (features E))) (warn_feature E F_RAWSTRING)
                    (advance E s))))) = (Some tt, s') ->
  process_poss_string_literal E "R" s = (Some tt, s').
Proof.
  intros R H. destruct (rest_cons E s _ _ R) as [P [Q _]].
  unfold process_poss_string_literal. change (fuel E) with (S (List.length (m_input E))).
  cbn [process_poss_string_literal_loop]. rewrite bind_lift, (peek_eq E). cbn [fst snd].
  rewrite P. not_eof.
  replace (int_of_char DQUOTE =? chr SQUOTE) with false by reflexivity.
  replace (int_of_char DQUOTE =? chr DQUOTE) with true by reflexivity.
  replace (valid_dq_prefix ["R"%char]) with true by reflexivity.
  cbv iota. rewrite bind_lift, (getch_eq E), Q. cbn [fst snd].
  unfold parse_dq_string.
  replace (valid_dq_prefix ["R"%char]) with true by reflexivity.
  rewrite (bind_assert true).
  replace (valid_dq_raw_prefix ["R"%char]) with true by reflexivity.
  cbv iota. rewrite !bind_lift. exact H.
Qed.

(** A raw string [R] that is closed, as the whole input. *)
Lemma scan_raw_string (m body : list ascii) :
  valid_mark m -> ~ In LPAREN m -> (List.length m <= MAX_RAW_MARKER)%nat ->
  ~ In NUL body -> clean (closing m) (body ++ closing m) (List.length body) ->
  m_input E = "R"%char :: DQUOTE :: m ++ LPAREN :: body ++ closing m ->
  exists s',
    scc_loop E (fuel E) (chr NUL) NonComment scan_start = (Some NonComment, s')
    /\ Emits E scan_start s' (m_input E) (m_input E)
         (if f_RawString (features E) then []
          else [(1, feature_text E F_RAWSTRING)]).
Proof.
  intros V NP Len NB C HI.
  assert (H0 : rest_of E scan_start
               = "R"%char :: DQUOTE :: m ++ LPAREN :: body ++ closing m).
  { unfold rest_of. cbn [itr scan_start set_nline skipn]. exact HI. }
  destruct (rest_cons E scan_start _ _ H0) as [P [Q R1]].
  pose proof (Emits_advance E scan_start _ _ H0) as E1.
  set (s1 := advance E scan_start) in *.
  destruct (rest_cons E s1 _ _ R1) as [P1 [Q1 R2]].
  pose proof (Emits_advance E s1 _ _ R1) as E2.
  set (s2 := advance E s1) in *.
  assert (L2 : nline s2 = 1).
  { rewrite (em_nline _ _ _ _ _ _ E2), (em_nline _ _ _ _ _ _ E1). reflexivity. }
  set (s3 := snd (when (negb (f_RawString (features E))) (warn_feature E F_RAWSTRING) s2)).
  assert (E3 : Emits E s2 s3 [] [] (if f_RawString (features E) then []
                                    else [(1, feature_text E F_RAWSTRING)])).
  { subst s3. destruct (f_RawString (features E)); cbn [negb when].
    - apply Emits_refl.
    - rewrite <- L2. apply Emits_warn_feature. }
  pose proof (Emits_s_putstr E ["R"%char] s3 ltac:(intros [X|[]]; discriminate X)) as E4.
  set (s4 := snd (s_putstr E ["R"%char] s3)) in *.
  assert (R4 : rest_of E s4 = m ++ LPAREN :: body ++ closing m ++ []).
  { rewrite app_nil_r, <- R2. apply rest_same.
    rewrite (em_itr _ _ _ _ _ _ E4), (em_itr _ _ _ _ _ _ E3). cbn. lia. }
  destruct (parse_raw_string_closed E m V ["R"%char] body [] s4 NP Len NB C R4)
    as [s5 [H5 E5]].
  assert (R5 : rest_of E s5 = []).
  { apply (Emits_rest E _ _ _ _ _ _ E5). rewrite R4, <- !app_assoc.
    cbn [app]. rewrite <- !app_assoc. now rewrite !app_nil_r. }
  exists s5. split.
  - unfold fuel. rewrite HI. cbn [List.length].
    cbn [scc_loop]. rewrite bind_lift, (getch_eq E), Q, P. cbn [fst snd]. fold s1.
    not_eof. rewrite bind_ab_eq, non_comment_R.
    rewrite (bind_ab_Some _ _ _ _ _ (process_poss_string_literal_R s1 s5 _ R1 H5)).
    cbn [ret_ab fst snd].
    rewrite bind_lift, (getch_eq E), (rest_nil E s5 R5). reflexivity.
  - rewrite HI.
    eapply Emits_eq;
      [exact (Emits_trans E _ _ _ _ _ _ _ _ _ E1
                (Emits_trans E _ _ _ _ _ _ _ _ _ E2
                   (Emits_trans E _ _ _ _ _ _ _ _ _ E3
                      (Emits_trans E _ _ _ _ _ _ _ _ _ E4 E5)))) | | |];
      cbn [app]; rewrite ?app_nil_r; reflexivity.
Qed.

End WholeRawString.

(** ** Both channels *)

Lemma skipn_nth_cons {A : Type} (d : A) (l : list A) : forall i,
  (i < List.length l)%nat -> skipn i l = nth i l d :: skipn (S i) l.
Proof.
  induction l as [|x l IH]; intros i L; [cbn in L; lia|].
  destruct i as [|i]; [reflexivity|].
  cbn [skipn nth]. rewrite (IH i) by (cbn in L; lia). reflexivity.
Qed.

Lemma pairs_S (n : nat) : pairs (S n) = BSLASH :: NL :: pairs n.
Proof. reflexivity. Qed.

Section Routing.

Variable E : Env.
Context {legible_input : Legible E}.

Lemma Routes_refl (s : State) : Routes E s s [] [] [] 0 [].
Proof.
  constructor; cbn; rewrite ?app_nil_r; auto; try lia.
  destruct (printCommentsNotCode E); now rewrite app_nil_r.
Qed.

Lemma Routes_trans (s1 s2 s3 : State) (r1 r2 c1 c2 m1 m2 : list ascii)
    (f1 f2 : nat) (w1 w2 : list (Z * string)) :
  Routes E s1 s2 r1 c1 m1 f1 w1 -> Routes E s2 s3 r2 c2 m2 f2 w2 ->
  Routes E s1 s3 (r1 ++ r2) (c1 ++ c2) (m1 ++ m2) (f1 + f2) (w1 ++ w2).
Proof.
  intros [a1 a2 a3 a4 a5 a6 a7 a8 a9] [b1 b2 b3 b4 b5 b6 b7 b8 b9].
  constructor.
  - rewrite a1, b1. now rewrite app_assoc.
  - rewrite b2, a2, length_app. lia.
  - rewrite b3, a3, count_occ_app. lia.
  - rewrite b4, a4. now rewrite app_assoc.
  - rewrite b5, a5. now rewrite app_assoc.
  - rewrite b6, a6. lia.
  - rewrite b7, a7. now rewrite app_assoc.
  - rewrite b8, a8. destruct (printCommentsNotCode E); now rewrite <- app_assoc.
  - congruence.
Qed.

Lemma Routes_eq (s s' : State) (r r' c c' m m' : list ascii) (f f' : nat)
    (w w' : list (Z * string)) :
  Routes E s s' r c m f w -> r = r' -> c = c' -> m = m' -> f = f' -> w = w' ->
  Routes E s s' r' c' m' f' w'.
Proof. intros H -> -> -> -> ->. exact H. Qed.

Lemma Emits_Routes (s s' : State) (r c : list ascii) (w : list (Z * string)) :
  Emits E s s' r c w -> Routes E s s' r c [] 0 w.
Proof.
  intros [a1 a2 a3 a4 a5 a6 a7 a8 a9].
  constructor; rewrite ?app_nil_r, ?Nat.add_0_r; auto.
Qed.

Lemma Routes_c_putch (c : ascii) (s : State) :
  Routes E s (snd (c_putch E c s)) [] [] [c] 0 [].
Proof.
  unfold c_putch, putchar, bind, when, modify, ret.
  constructor; destruct (printCommentsNotCode E); cbn; rewrite ?app_nil_r;
    try reflexivity; lia.
Qed.

Lemma Routes_s_fill (c : ascii) (s : State) :
  Routes E s (snd (s_fill E c s)) [] [c] [] 1 [].
Proof.
  unfold s_fill, s_putch, putchar, bind, when, modify, ret.
  constructor; destruct (printCommentsNotCode E); destruct (int_of_char c =? chr NL);
    cbn; rewrite ?app_nil_r; try reflexivity; lia.
Qed.

Lemma Routes_times (n : nat) (m : M unit) (code comm : list ascii) :
  (forall s, Routes E s (snd (m s)) [] code comm 0 []) ->
  forall s, Routes E s (snd (times n m s)) []
              (List.concat (repeat code n)) (List.concat (repeat comm n)) 0 [].
Proof.
  intros H. induction n as [|n IH]; intros s; cbn [times repeat List.concat].
  - apply Routes_refl.
  - rewrite bind_eq.
    eapply Routes_eq; [eapply Routes_trans; [apply H | apply IH] | | | | |];
      reflexivity.
Qed.

Lemma rest_peekc (s : State) :
  (peekc E s =? EOF) = false ->
  rest_of E s = to_char (peekc E s) :: rest_of E (advance E s).
Proof.
  intros HE. pose proof (peekc_not_EOF E s HE) as L.
  unfold rest_of. rewrite itr_advance.
  rewrite (skipn_nth_cons NUL) by exact L.
  unfold peekc. apply Nat.leb_gt in L. rewrite L. now rewrite to_char_int_of_char.
Qed.

(** One round of [read_bsnl] where no character is read as [EOF]. *)
Lemma read_bsnl_loop_eq (k n : nat) (s : State) :
  read_bsnl_loop E (S k) n s =
  if (peekc E s =? chr BSLASH) && (peekc E (advance E s) =? chr NL)
  then read_bsnl_loop E k (S n) (advance E (advance E s))
  else (n, s).
Proof.
  rewrite read_bsnl_loop_round.
  destruct (peekc E s =? chr BSLASH) eqn:HB; cbn [andb].
  - destruct (peekc E (advance E s) =? chr NL); [reflexivity|].
    rewrite (peekc_EOF E). unfold at_end. now rewrite andb_negb_r.
  - unfold peeked, next, at_end. rewrite (peekc_EOF E).
    now destruct (List.length (m_input E) <=? itr s)%nat.
Qed.

Lemma read_bsnl_loop_pairs (k : nat) : forall n0 s,
  enough E k (itr s) ->
  exists d s1,
    read_bsnl_loop E k n0 s = ((n0 + d)%nat, s1)
    /\ Emits E s s1 (pairs d) [] []
    /\ starts_with [BSLASH; NL] (rest_of E s1) = false.
Proof.
  induction k as [|k IH]; intros n0 s H.
  - unfold enough in H. lia.
  - rewrite read_bsnl_loop_eq.
    destruct ((peekc E s =? chr BSLASH) && (peekc E (advance E s) =? chr NL)) eqn:C.
    + apply andb_prop in C. destruct C as [HB HN].
      apply Z.eqb_eq in HB, HN.
      assert (HE : (peekc E s =? EOF) = false) by now rewrite HB.
      assert (HE1 : (peekc E (advance E s) =? EOF) = false) by now rewrite HN.
      pose proof (rest_peekc s HE) as R1. pose proof (rest_peekc _ HE1) as R2.
      rewrite HB in R1. rewrite HN in R2.
      change (to_char (chr BSLASH)) with BSLASH in R1.
      change (to_char (chr NL)) with NL in R2.
      destruct (IH (S n0) (advance E (advance E s))) as [d [s1 [Q [Em N]]]].
      { pose proof (enough_advance E k s HE H) as H1.
        pose proof (peekc_not_EOF E _ HE1). unfold enough in *.
        rewrite !itr_advance in *. lia. }
      exists (S d), s1. split; [|split].
      * replace (n0 + S d)%nat with (S n0 + d)%nat by lia. exact Q.
      * eapply Emits_eq;
          [exact (Emits_trans E _ _ _ _ _ _ _ _ _ (Emits_advance E s _ _ R1)
                    (Emits_trans E _ _ _ _ _ _ _ _ _ (Emits_advance E _ _ _ R2) Em))
          | | |]; reflexivity.
      * exact N.
    + exists 0%nat, s. rewrite Nat.add_0_r. split; [reflexivity|].
      split; [apply Emits_refl|].
      destruct (rest_of E s) as [|a [|b t]] eqn:R; try reflexivity.
      * cbn. now rewrite andb_false_r.
      * destruct (rest_cons E s _ _ R) as [P [_ R']].
        destruct (rest_cons E _ _ _ R') as [P' _].
        rewrite P, P' in C.
        change (chr BSLASH) with (int_of_char BSLASH) in C.
        change (chr NL) with (int_of_char NL) in C.
        rewrite !int_of_char_eqb in C. cbn [starts_with].
        rewrite andb_true_r. rewrite (Ascii.eqb_sym BSLASH), (Ascii.eqb_sym NL).
        exact C.
Qed.

End Routing.

(** X1: where no byte of the input is the one [getch] gives as [EOF]
    (0xFF), [read_bsnl] passes exactly the backslash-newline pairs the
    cursor stands at, counts them and the lines with them, and writes
    nothing;
    [write_bsnl] of a count writes that many pairs to the channel it is
    given. *)
Theorem read_bsnl_counts_what_write_bsnl_writes (E : Env) (s : State) :
  ~ In EOF_byte (m_input E) ->
  Emits E s (snd (read_bsnl E s)) (pairs (fst (read_bsnl E s))) [] []
  /\ starts_with [BSLASH; NL] (rest_of E (snd (read_bsnl E s))) = false
  /\ (forall n s2,
        Routes E s2 (snd (write_bsnl n (s_putch E) s2)) [] (pairs n) [] 0 [])
  /\ (forall n s2,
        Routes E s2 (snd (write_bsnl n (c_putch E) s2)) [] [] (pairs n) 0 []).
Proof.
  intros legible_input. change (Legible E) in legible_input.
  split; [|split; [|split]].
  - destruct (read_bsnl_loop_pairs E (fuel E) 0 s (enough_fuel E _))
      as [d [s1 [Q [Em _]]]].
    unfold read_bsnl. rewrite Q. exact Em.
  - destruct (read_bsnl_loop_pairs E (fuel E) 0 s (enough_fuel E _))
      as [d [s1 [Q [_ N]]]].
    unfold read_bsnl. rewrite Q. exact N.
  - intros n s2. unfold write_bsnl.
    eapply Routes_eq;
      [apply (Routes_times E n _ [BSLASH; NL] []) | | | | |]; try reflexivity.
    + intros s0. rewrite bind_eq.
      eapply Routes_eq;
        [exact (Routes_trans E _ _ _ _ _ _ _ _ _ _ _ _ _
                  (Emits_Routes E _ _ _ _ _ (Emits_s_putch E BSLASH s0))
                  (Emits_Routes E _ _ _ _ _ (Emits_s_putch E NL _))) | | | | |];
        reflexivity.
    + induction n as [|n IH]; [reflexivity | exact IH].
  - intros n s2. unfold write_bsnl.
    eapply Routes_eq;
      [apply (Routes_times E n _ [] [BSLASH; NL]) | | | | |]; try reflexivity.
    + intros s0. rewrite bind_eq.
      eapply Routes_eq;
        [exact (Routes_trans E _ _ _ _ _ _ _ _ _ _ _ _ _
                  (Routes_c_putch E BSLASH s0) (Routes_c_putch E NL _)) | | | | |];
        reflexivity.
    + induction n as [|n IH]; [reflexivity | exact IH].
Qed.

Lemma read_bsnl_counts_what_write_bsnl_writes_witness :
  Emits (Env_of ([BSLASH; NL; BSLASH; NL] ++ str "x") C18 false false false NUL NUL)
    scan_start
    (snd (read_bsnl (Env_of ([BSLASH; NL; BSLASH; NL] ++ str "x") C18
                       false false false NUL NUL) scan_start))
    [BSLASH; NL; BSLASH; NL] [] [].
Proof.
  refine (proj1 (read_bsnl_counts_what_write_bsnl_writes
                   (Env_of ([BSLASH; NL; BSLASH; NL] ++ str "x") C18
                      false false false NUL NUL) scan_start _)).
  apply legible_check. reflexivity.
Defined.

(** ** Quoted literals without backslashes *)

Section PlainLiteral.

Variable E : Env.
Context {legible_input : Legible E}.
Variable q : ascii.
Variable msg : string.

Lemma count_occ_plain (body : list ascii) :
  Forall (fun c => c <> q /\ c <> BSLASH /\ c <> NL) body ->
  count_occ ascii_dec body NL = 0%nat.
Proof.
  induction 1 as [|c b [_ [_ H]] _ IH]; [reflexivity|].
  cbn [count_occ]. destruct (ascii_dec c NL); [contradiction | exact IH].
Qed.

Lemma endquote_loop_plain (body : list ascii) : forall k s r,
  Forall (fun c => c <> q /\ c <> BSLASH /\ c <> NL) body ->
  rest_of E s = body ++ r ->
  exists s1,
    endquote_loop E (List.length body + k) q msg s = endquote_loop E k q msg s1
    /\ Emits E s s1 body (map (quoted E q) body) [].
Proof.
  induction body as [|c b IH]; intros k s r F R.
  - exists s. split; [reflexivity | apply Emits_refl].
  - inversion F as [|? ? [C1 [C2 C3]] F']; subst.
    cbn [app] in R. destruct (rest_cons E s _ _ R) as [P [Q R']].
    pose proof (Emits_put_quote_char E q c (advance E s)) as E2.
    set (s2 := snd (put_quote_char E q c (advance E s))) in *.
    destruct (IH k s2 r F') as [s1 [H1 E3]].
    { rewrite <- R'. apply rest_same. rewrite (em_itr _ _ _ _ _ _ E2). cbn. lia. }
    exists s1. split.
    + cbn [List.length Nat.add endquote_loop].
      rewrite bind_eq, (getch_eq E), Q, P. cbn [fst snd].
      not_eof. rewrite int_of_char_eqb.
      change (chr BSLASH) with (int_of_char BSLASH).
      change (chr NL) with (int_of_char NL). rewrite !int_of_char_eqb.
      destruct (Ascii.eqb_spec c q) as [e|_]; [contradiction|].
      destruct (Ascii.eqb_spec c BSLASH) as [e|_]; [contradiction|].
      destruct (Ascii.eqb_spec c NL) as [e|_]; [contradiction|].
      cbn [negb andb]. rewrite to_char_int_of_char, bind_eq. fold s2. exact H1.
    + eapply Emits_eq;
        [exact (Emits_trans E _ _ _ _ _ _ _ _ _ (Emits_advance E s _ _ R)
                  (Emits_trans E _ _ _ _ _ _ _ _ _ E2 E3)) | | |];
        reflexivity.
Qed.

Lemma fuel_split (s : State) (body tail : list ascii) :
  rest_of E s = body ++ tail ->
  exists k, fuel E = (List.length body + S k)%nat.
Proof.
  intros R. pose proof (rest_length E s) as L. rewrite R, length_app in L.
  exists (fuel E - List.length body - 1)%nat. lia.
Qed.

End PlainLiteral.

(** X2: in an input without the byte 0xFF, which [getch] gives as
    [EOF]: behind the quote that opens it, a literal whose body holds no
    backslash and no newline and that is closed by its quote is written
    with every character of the body put through the replacement of its
    kind of literal ([qchar] for a character constant, [schar] for a
    string, the character itself when none is set), then the closing quote
    as it is; nothing is printed, whatever the body holds. *)
Theorem endquote_writes_a_closed_literal (E : Env) (q : ascii) (msg : string)
    (body r : list ascii) (s : State) :
  ~ In EOF_byte (m_input E) ->
  Forall (fun c => c <> q /\ c <> BSLASH /\ c <> NL) body ->
  rest_of E s = body ++ q :: r ->
  exists s',
    endquote E q msg s = (tt, s')
    /\ Emits E s s' (body ++ [q]) (map (quoted E q) body ++ [q]) [].
Proof.
  intros legible_input. change (Legible E) in legible_input.
  intros F R. destruct (fuel_split E s _ _ R) as [k Hk].
  destruct (endquote_loop_plain E q msg body (S k) s _ F R) as [s1 [H1 E1]].
  pose proof (Emits_rest E _ _ _ _ _ _ E1 R) as R1.
  destruct (rest_cons E s1 _ _ R1) as [P [Q _]].
  exists (snd (s_putch E q (advance E s1))). split.
  - unfold endquote. rewrite bind_eq, Hk, H1. cbn [endquote_loop].
    rewrite bind_eq, (getch_eq E), Q, P. cbn [fst snd].
    not_eof. rewrite Z.eqb_refl. cbn [negb andb ret fst snd].
    not_eof. apply unit_run.
  - eapply Emits_eq;
      [exact (Emits_trans E _ _ _ _ _ _ _ _ _ E1
                (Emits_trans E _ _ _ _ _ _ _ _ _ (Emits_advance E s1 _ _ R1)
                   (Emits_s_putch E q _))) | | |];
      rewrite ?app_nil_r; reflexivity.
Qed.

Lemma endquote_writes_a_closed_literal_witness :
  exists s',
    endquote (Env_of (str "a /* b */ c';") C18 false false false "X" NUL)
      SQUOTE "character constant" scan_start = (tt, s')
    /\ code_chan s' = str "XXXXXXXXXXX'".
Proof.
  destruct (endquote_writes_a_closed_literal
              (Env_of (str "a /* b */ c';") C18 false false false "X" NUL)
              SQUOTE "character constant" (str "a /* b */ c") (str ";") scan_start)
    as [s' [H1 H2]].
  - apply legible_check. reflexivity.
  - repeat constructor; discriminate.
  - reflexivity.
  - exists s'. split; [exact H1 | exact (em_code _ _ _ _ _ _ H2)].
Defined.

(** X3: in an input without the byte 0xFF, which [getch] gives as
    [EOF]: a newline inside such a literal ends it: the newline goes through
    the same replacement as the body, no closing quote is written, and the
    warning of a newline in the literal is printed with the line the
    literal is on. *)
Theorem endquote_stops_at_a_newline (E : Env) (q : ascii) (msg : string)
    (body r : list ascii) (s : State) :
  ~ In EOF_byte (m_input E) ->
  q <> NL ->
  Forall (fun c => c <> q /\ c <> BSLASH /\ c <> NL) body ->
  rest_of E s = body ++ NL :: r ->
  exists s',
    endquote E q msg s = (tt, s')
    /\ Emits E s s' (body ++ [NL]) (map (quoted E q) (body ++ [NL]))
         [(nline s, ("newline in " ++ msg)%string)].
Proof.
  intros legible_input. change (Legible E) in legible_input.
  intros Hq F R. destruct (fuel_split E s _ _ R) as [k Hk].
  destruct (endquote_loop_plain E q msg body (S k) s _ F R) as [s1 [H1 E1]].
  pose proof (Emits_rest E _ _ _ _ _ _ E1 R) as R1.
  destruct (rest_cons E s1 _ _ R1) as [P [Q _]].
  pose proof (Emits_advance E s1 _ _ R1) as E2.
  pose proof (Emits_put_quote_char E q NL (advance E s1)) as E3.
  set (s3 := snd (put_quote_char E q NL (advance E s1))) in *.
  assert (L3 : nline s3 - 1 = nline s).
  { rewrite (em_nline _ _ _ _ _ _ E3), (em_nline _ _ _ _ _ _ E2),
      (em_nline _ _ _ _ _ _ E1), (count_occ_plain q body F). cbn. lia. }
  exists (snd (warning2 "newline in" msg (nline s3 - 1) s3)). split.
  - unfold endquote. rewrite bind_eq, Hk, H1. cbn [endquote_loop].
    rewrite bind_eq, (getch_eq E), Q, P. cbn [fst snd].
    not_eof.
    change (chr BSLASH) with (int_of_char BSLASH).
    change (chr NL) with (int_of_char NL). rewrite !int_of_char_eqb.
    destruct (Ascii.eqb_spec NL q) as [e|_]; [now symmetry in e|].
    change (Ascii.eqb NL BSLASH) with false. change (Ascii.eqb NL NL) with true.
    cbn [negb andb]. cbv iota. rewrite to_char_int_of_char, !bind_eq. fold s3.
    cbn [gets fst snd ret]. reflexivity.
  - rewrite L3. unfold warning2.
    eapply Emits_eq;
      [exact (Emits_trans E _ _ _ _ _ _ _ _ _ E1
                (Emits_trans E _ _ _ _ _ _ _ _ _ E2
                   (Emits_trans E _ _ _ _ _ _ _ _ _ E3
                      (Emits_warning E _ (nline s) s3)))) | | |];
      rewrite ?app_nil_r, ?map_app; reflexivity.
Qed.

Lemma endquote_stops_at_a_newline_witness :
  exists s',
    endquote (Env_of (str "abc" ++ [NL] ++ str "d") C18 false false false NUL NUL)
      DQUOTE "string literal" scan_start = (tt, s')
    /\ code_chan s' = str "abc" ++ [NL]
    /\ console s' = [(1, "newline in string literal"%string)].
Proof.
  destruct (endquote_stops_at_a_newline
              (Env_of (str "abc" ++ [NL] ++ str "d") C18 false false false NUL NUL)
              DQUOTE "string literal" (str "abc") (str "d") scan_start)
    as [s' [H1 H2]].
  - apply legible_check. reflexivity.
  - discriminate.
  - repeat constructor; discriminate.
  - reflexivity.
  - exists s'. split; [exact H1|].
    split; [exact (em_code _ _ _ _ _ _ H2) | exact (em_console _ _ _ _ _ _ H2)].
Defined.

(** X4: in an input without the byte 0xFF, which [getch] gives as
    [EOF]: the end of the input inside such a literal ends it too: the body
    is written, no closing quote is, and the warning of an end of file in
    the literal is printed with the line the literal is on. *)
Theorem endquote_stops_at_the_end_of_input (E : Env) (q : ascii) (msg : string)
    (body : list ascii) (s : State) :
  ~ In EOF_byte (m_input E) ->
  Forall (fun c => c <> q /\ c <> BSLASH /\ c <> NL) body ->
  rest_of E s = body ->
  exists s',
    endquote E q msg s = (tt, s')
    /\ Emits E s s' body (map (quoted E q) body)
         [(nline s, ("EOF in " ++ msg)%string)].
Proof.
  intros legible_input. change (Legible E) in legible_input.
  intros F R. rewrite <- (app_nil_r body) in R.
  destruct (fuel_split E s _ _ R) as [k Hk].
  destruct (endquote_loop_plain E q msg body (S k) s _ F R) as [s1 [H1 E1]].
  pose proof (Emits_rest E _ _ _ _ _ _ E1 R) as R1.
  assert (L1 : nline s1 = nline s).
  { rewrite (em_nline _ _ _ _ _ _ E1), (count_occ_plain q body F). lia. }
  exists (snd (warning2 "EOF in" msg (nline s1) s1)). split.
  - unfold endquote. rewrite bind_eq, Hk, H1. cbn [endquote_loop].
    rewrite bind_eq, (getch_eq E), (rest_nil E s1 R1). cbn [fst snd].
    change (EOF =? EOF) with true. cbn [negb andb ret fst snd].
    change (EOF =? EOF) with true. cbv iota.
    rewrite bind_eq. cbn [gets fst snd]. apply unit_run.
  - rewrite L1. unfold warning2.
    eapply Emits_eq;
      [exact (Emits_trans E _ _ _ _ _ _ _ _ _ E1 (Emits_warning E _ (nline s) s1))
      | | |]; rewrite ?app_nil_r; reflexivity.
Qed.

Lemma endquote_stops_at_the_end_of_input_witness :
  exists s',
    endquote (Env_of (str "abc") C18 false false false NUL NUL)
      DQUOTE "string literal" scan_start = (tt, s')
    /\ code_chan s' = str "abc"
    /\ console s' = [(1, "EOF in string literal"%string)].
Proof.
  destruct (endquote_stops_at_the_end_of_input
              (Env_of (str "abc") C18 false false false NUL NUL)
              DQUOTE "string literal" (str "abc") scan_start)
    as [s' [H1 H2]].
  - apply legible_check. reflexivity.
  - repeat constructor; discriminate.
  - reflexivity.
  - exists s'. split; [exact H1|].
    split; [exact (em_code _ _ _ _ _ _ H2) | exact (em_console _ _ _ _ _ _ H2)].
Defined.

(** ** Comments *)

Section Comments.

Variable E : Env.
Context {legible_input : Legible E}.

Lemma Routes_frame (s s' : State) :
  itr s' = itr s -> nline s' = nline s -> code_chan s' = code_chan s ->
  comment_chan s' = comment_chan s -> n_fill s' = n_fill s ->
  console s' = console s -> m_result s' = m_result s -> stuck s' = stuck s ->
  Routes E s s' [] [] [] 0 [].
Proof.
  intros H1 H2 H3 H4 H5 H6 H7 H8.
  constructor; rewrite ?app_nil_r, ?Nat.add_0_r; auto.
  all: try (unfold rest_of; now rewrite H1).
  all: try (cbn; lia).
  rewrite H7. destruct (printCommentsNotCode E); now rewrite app_nil_r.
Qed.

Lemma Routes_advance (s : State) (c : ascii) (r : list ascii) :
  rest_of E s = c :: r -> Routes E s (advance E s) [c] [] [] 0 [].
Proof. intros H. apply Emits_Routes. now apply (Emits_advance E s c r). Qed.

Lemma Routes_rest (s s' : State) (read code comm x : list ascii) (f : nat)
    (w : list (Z * string)) :
  Routes E s s' read code comm f w -> rest_of E s = read ++ x -> rest_of E s' = x.
Proof.
  intros H R. rewrite (ro_rest _ _ _ _ _ _ _ _ H) in R. now apply app_inv_head in R.
Qed.

Lemma read_bsnl_none (s : State) :
  (peekc E s =? chr BSLASH) = false -> read_bsnl E s = (0%nat, s).
Proof.
  intros H. unfold read_bsnl. change (fuel E) with (S (List.length (m_input E))).
  rewrite (read_bsnl_loop_eq E), H. reflexivity.
Qed.

(** The fills of [printEmptyCommentInsteadOfBlank]. *)
Lemma Routes_fills (a b : ascii) (s : State) :
  Routes E s
    (snd (when (printEmptyCommentInsteadOfBlank E) (s_fill E a;;; s_fill E b) s))
    [] (if printEmptyCommentInsteadOfBlank E then [a; b] else []) []
    (if printEmptyCommentInsteadOfBlank E then 2 else 0) [].
Proof.
  destruct (printEmptyCommentInsteadOfBlank E); cbn [when].
  - rewrite bind_eq.
    eapply Routes_eq;
      [exact (Routes_trans E _ _ _ _ _ _ _ _ _ _ _ _ _
                (Routes_s_fill E a s) (Routes_s_fill E b _)) | | | | |];
      reflexivity.
  - apply Routes_refl.
Qed.

(** One character of the body of a block comment. *)
Lemma c_comment_body (c : ascii) (s : State) :
  warnAboutNestedCStyleComments E = false ->
  (c <> "*"%char
   \/ ((peekc E s =? chr BSLASH) = false /\ (peekc E s =? chr "/") = false)) ->
  c_comment E (int_of_char c) s = (CComment, snd (c_putch E c s)).
Proof.
  intros W H. unfold c_comment.
  change (chr "*") with (int_of_char "*"). rewrite int_of_char_eqb.
  destruct (Ascii.eqb_spec c "*") as [e|n].
  - destruct H as [H|[H1 H2]]; [contradiction|].
    rewrite bind_eq, (read_bsnl_none s H1). cbn [fst snd].
    rewrite bind_eq, (peek_eq E). cbn [fst snd]. rewrite H2.
    rewrite to_char_int_of_char, !bind_eq. reflexivity.
  - rewrite W. cbn [andb]. rewrite bind_eq. cbn [ret fst snd].
    rewrite to_char_int_of_char, bind_eq. reflexivity.
Qed.

Lemma scc_loop_comment_body (body : list ascii) : forall k s oc t,
  warnAboutNestedCStyleComments E = false ->
  no_comment_end (body ++ ["*"%char]) = true ->
  rest_of E s = body ++ "*"%char :: t ->
  exists s1 oc1,
    scc_loop E (List.length body + k) oc CComment s = scc_loop E k oc1 CComment s1
    /\ Routes E s s1 body [] body 0 [].
Proof.
  induction body as [|c b IH]; intros k s oc t W N R.
  - exists s, oc. split; [reflexivity | apply Routes_refl].
  - cbn [app] in R, N. destruct (rest_cons E s _ _ R) as [P [Q R']].
    cbn [no_comment_end] in N. apply andb_prop in N. destruct N as [N1 N2].
    assert (C : c_comment E (int_of_char c) (advance E s)
                = (CComment, snd (c_putch E c (advance E s)))).
    { apply c_comment_body; [exact W|].
      destruct (Ascii.eqb_spec c "*") as [e|n]; [right | now left].
      cbn [negb orb] in N1.
      destruct (b ++ ["*"%char]) as [|d u] eqn:D.
      { destruct b; discriminate D. }
      assert (R2 : rest_of E (advance E s) = d :: (match u with [] => t | _ => u ++ t end)
                   \/ exists u', rest_of E (advance E s) = d :: u').
      { right. destruct b as [|x b']; cbn [app] in D, R'.
        - inversion D. subst. now exists t.
        - inversion D. subst. now exists (b' ++ "*"%char :: t). }
      destruct R2 as [R2|[u' R2]]; destruct (rest_cons E _ _ _ R2) as [P2 _];
        rewrite P2; change (chr BSLASH) with (int_of_char BSLASH);
        change (chr "/") with (int_of_char "/"); rewrite !int_of_char_eqb;
        apply andb_prop in N1; destruct N1 as [A B];
        apply negb_true_iff in A, B; now rewrite A, B. }
    pose proof (Routes_c_putch E c (advance E s)) as E2.
    set (s2 := snd (c_putch E c (advance E s))) in *.
    destruct (IH k s2 (int_of_char c) t W N2) as [s1 [oc1 [H1 E3]]].
    { rewrite <- R'. apply rest_same. rewrite (ro_itr _ _ _ _ _ _ _ _ E2). cbn. lia. }
    exists s1, oc1. split.
    + cbn [List.length Nat.add].
      rewrite (scc_loop_block E _ oc s c _ _ P Q C). exact H1.
    + eapply Routes_eq;
        [exact (Routes_trans E _ _ _ _ _ _ _ _ _ _ _ _ _ (Routes_advance s _ _ R)
                  (Routes_trans E _ _ _ _ _ _ _ _ _ _ _ _ _ E2 E3)) | | | | |];
        reflexivity.
Qed.

Lemma scc_loop_comment_close (k : nat) (s : State) (oc : int) (r : list ascii) :
  rest_of E s = "*"%char :: "/"%char :: r ->
  exists s',
    scc_loop E (S k) oc CComment s = scc_loop E k (chr "*") NonComment s'
    /\ Routes E s s' (str "*/")
         (" "%char :: (if printEmptyCommentInsteadOfBlank E then str "*/" else []))
         (str "*/")
         (if printEmptyCommentInsteadOfBlank E then 3 else 1) [].
Proof.
  intros R. destruct (rest_cons E s _ _ R) as [P [Q R1]].
  destruct (rest_cons E _ _ _ R1) as [P1 [Q1 _]].
  pose proof (Routes_advance s _ _ R) as E1.
  set (s1 := advance E s) in *.
  assert (E2 : Routes E s1 (set_l_comment true s1) [] [] [] 0 [])
    by (apply Routes_frame; reflexivity).
  assert (R2 : rest_of E (set_l_comment true s1) = "/"%char :: r) by exact R1.
  pose proof (Routes_advance _ _ _ R2) as E3.
  set (s3 := advance E (set_l_comment true s1)) in *.
  pose proof (Routes_c_putch E "*" s3) as E4.
  set (s4 := snd (c_putch E "*" s3)) in *.
  pose proof (Routes_c_putch E "/" s4) as E5.
  set (s5 := snd (c_putch E "/" s4)) in *.
  pose proof (Routes_s_fill E " " s5) as E6.
  set (s6 := snd (s_fill E " " s5)) in *.
  pose proof (Routes_fills "*" "/" s6) as E7.
  set (s7 := snd (when (printEmptyCommentInsteadOfBlank E)
                    (s_fill E "*";;; s_fill E "/") s6)) in *.
  exists s7. split.
  - assert (C : c_comment E (int_of_char "*") s1 = (NonComment, s7)).
    { unfold c_comment. replace (int_of_char "*" =? chr "*") with true by reflexivity.
      cbv iota. rewrite bind_eq, read_bsnl_none by (rewrite P1; reflexivity).
      cbn [fst snd]. rewrite bind_eq, (peek_eq E). cbn [fst snd]. rewrite P1.
      replace (int_of_char "/" =? chr "/") with true by reflexivity. cbv iota.
      rewrite bind_eq. cbn [modify fst snd].
      assert (Q3 : (peekc E (set_l_comment true s1) =? EOF) = false) by exact Q1.
      rewrite bind_eq, (getch_eq E), Q3. cbn [fst snd]. fold s3.
      rewrite bind_eq. fold s4. rewrite bind_eq. cbn [write_bsnl times ret fst snd].
      rewrite bind_eq. fold s5. rewrite bind_eq. fold s6. rewrite bind_eq. fold s7.
      reflexivity. }
    exact (scc_loop_block E k oc s "*" _ _ P Q C).
  - eapply Routes_eq;
      [exact (Routes_trans E _ _ _ _ _ _ _ _ _ _ _ _ _ E1
                (Routes_trans E _ _ _ _ _ _ _ _ _ _ _ _ _ E2
                   (Routes_trans E _ _ _ _ _ _ _ _ _ _ _ _ _ E3
                      (Routes_trans E _ _ _ _ _ _ _ _ _ _ _ _ _ E4
                         (Routes_trans E _ _ _ _ _ _ _ _ _ _ _ _ _ E5
                            (Routes_trans E _ _ _ _ _ _ _ _ _ _ _ _ _ E6 E7))))))
      | | | | |]; try reflexivity;
      destruct (printEmptyCommentInsteadOfBlank E); reflexivity.
Qed.

Lemma non_comment_slash (s : State) :
  non_comment E (int_of_char "/") s =
  (bsnl <- lift (read_bsnl E) ;;
   pc <- lift (peek E) ;;
   if pc =? chr "*" then
     _ <- lift (getch E) ;;
     lift (c_putch E "/") ;;;
     lift (write_bsnl bsnl (c_putch E)) ;;;
     lift (c_putch E "*") ;;;
     lift (when (printEmptyCommentInsteadOfBlank E) (s_fill E "/" ;;; s_fill E "*")) ;;;
     ret_ab CComment
   else if negb (f_DoubleSlash (features E)) && (pc =? chr "/") then
     lift (warn_feature E F_DOUBLESLASH) ;;;
     c' <- lift (getch E) ;;
     lift (s_putch E (to_char c')) ;;;
     lift (write_bsnl bsnl (s_putch E)) ;;;
     lift (s_putch E (to_char c')) ;;;
     ret_ab NonComment
   else if f_DoubleSlash (features E) && (pc =? chr "/") then
     c' <- lift (getch E) ;;
     lift (c_putch E (to_char c')) ;;;
     lift (write_bsnl bsnl (c_putch E)) ;;;
     lift (c_putch E (to_char c')) ;;;
     lift (when (printEmptyCommentInsteadOfBlank E) (s_fill E "/" ;;; s_fill E "/")) ;;;
     ret_ab CppComment
   else
     lift (s_putch E (to_char (int_of_char "/"))) ;;;
     lift (write_bsnl bsnl (s_putch E)) ;;;
     ret_ab NonComment)%ab s.
Proof. reflexivity. Qed.

Lemma scc_loop_comment_open (k : nat) (s : State) (oc : int) (r : list ascii) :
  rest_of E s = "/"%char :: "*"%char :: r ->
  exists s',
    scc_loop E (S k) oc NonComment s = scc_loop E k (chr "/") CComment s'
    /\ Routes E s s' (str "/*")
         (if printEmptyCommentInsteadOfBlank E then str "/*" else [])
         (str "/*")
         (if printEmptyCommentInsteadOfBlank E then 2 else 0) [].
Proof.
  intros R. destruct (rest_cons E s _ _ R) as [P [Q R1]].
  destruct (rest_cons E _ _ _ R1) as [P1 [Q1 _]].
  pose proof (Routes_advance s _ _ R) as E1.
  set (s1 := advance E s) in *.
  pose proof (Routes_advance s1 _ _ R1) as E2.
  set (s2 := advance E s1) in *.
  pose proof (Routes_c_putch E "/" s2) as E3.
  set (s3 := snd (c_putch E "/" s2)) in *.
  pose proof (Routes_c_putch E "*" s3) as E4.
  set (s4 := snd (c_putch E "*" s3)) in *.
  pose proof (Routes_fills "/" "*" s4) as E5.
  set (s5 := snd (when (printEmptyCommentInsteadOfBlank E)
                    (s_fill E "/";;; s_fill E "*") s4)) in *.
  exists s5. split.
  - apply (scc_loop_code E k oc s "/" _ _ P Q). fold s1.
    rewrite non_comment_slash.
    rewrite bind_lift, read_bsnl_none by (rewrite P1; reflexivity).
    cbn [fst snd]. rewrite bind_lift, (peek_eq E). cbn [fst snd]. rewrite P1.
    replace (int_of_char "*" =? chr "*") with true by reflexivity. cbv iota.
    rewrite bind_lift, (getch_eq E), Q1. cbn [fst snd]. fold s2.
    rewrite bind_lift. fold s3. rewrite bind_lift. cbn [write_bsnl times ret fst snd].
    rewrite bind_lift. fold s4. rewrite bind_lift. fold s5. reflexivity.
  - eapply Routes_eq;
      [exact (Routes_trans E _ _ _ _ _ _ _ _ _ _ _ _ _ E1
                (Routes_trans E _ _ _ _ _ _ _ _ _ _ _ _ _ E2
                   (Routes_trans E _ _ _ _ _ _ _ _ _ _ _ _ _ E3
                      (Routes_trans E _ _ _ _ _ _ _ _ _ _ _ _ _ E4 E5))))
      | | | | |]; try reflexivity;
      destruct (printEmptyCommentInsteadOfBlank E); reflexivity.
Qed.

Lemma scc_loop_line_open (k : nat) (s : State) (oc : int) (r : list ascii) :
  f_DoubleSlash (features E) = true ->
  rest_of E s = "/"%char :: "/"%char :: r ->
  exists s',
    scc_loop E (S k) oc NonComment s = scc_loop E k (chr "/") CppComment s'
    /\ Routes E s s' (str "//")
         (if printEmptyCommentInsteadOfBlank E then str "//" else [])
         (str "//")
         (if printEmptyCommentInsteadOfBlank E then 2 else 0) [].
Proof.
  intros F R. destruct (rest_cons E s _ _ R) as [P [Q R1]].
  destruct (rest_cons E _ _ _ R1) as [P1 [Q1 _]].
  pose proof (Routes_advance s _ _ R) as E1.
  set (s1 := advance E s) in *.
  pose proof (Routes_advance s1 _ _ R1) as E2.
  set (s2 := advance E s1) in *.
  pose proof (Routes_c_putch E "/" s2) as E3.
  set (s3 := snd (c_putch E "/" s2)) in *.
  pose proof (Routes_c_putch E "/" s3) as E4.
  set (s4 := snd (c_putch E "/" s3)) in *.
  pose proof (Routes_fills "/" "/" s4) as E5.
  set (s5 := snd (when (printEmptyCommentInsteadOfBlank E)
                    (s_fill E "/";;; s_fill E "/") s4)) in *.
  exists s5. split.
  - apply (scc_loop_code E k oc s "/" _ _ P Q). fold s1.
    rewrite non_comment_slash.
    rewrite bind_lift, read_bsnl_none by (rewrite P1; reflexivity).
    cbn [fst snd]. rewrite bind_lift, (peek_eq E). cbn [fst snd]. rewrite P1, F.
    replace (int_of_char "/" =? chr "*") with false by reflexivity.
    replace (int_of_char "/" =? chr "/") with true by reflexivity.
    cbn [negb andb]. cbv iota.
    rewrite bind_lift, (getch_eq E), Q1, P1. cbn [fst snd]. fold s2.
    rewrite to_char_int_of_char.
    rewrite bind_lift. fold s3. rewrite bind_lift. cbn [write_bsnl times ret fst snd].
    rewrite bind_lift. fold s4. rewrite bind_lift. fold s5. reflexivity.
  - eapply Routes_eq;
      [exact (Routes_trans E _ _ _ _ _ _ _ _ _ _ _ _ _ E1
                (Routes_trans E _ _ _ _ _ _ _ _ _ _ _ _ _ E2
                   (Routes_trans E _ _ _ _ _ _ _ _ _ _ _ _ _ E3
                      (Routes_trans E _ _ _ _ _ _ _ _ _ _ _ _ _ E4 E5))))
      | | | | |]; try reflexivity;
      destruct (printEmptyCommentInsteadOfBlank E); reflexivity.
Qed.

Lemma scc_loop_line_body (body : list ascii) : forall k s prev t,
  continued prev body = true ->
  rest_of E s = body ++ t ->
  exists s1,
    scc_loop E (List.length body + k) (int_of_char prev) CppComment s
    = scc_loop E k (int_of_char (last body prev)) CppComment s1
    /\ Routes E s s1 body [] body 0 [].
Proof.
  induction body as [|c b IH]; intros k s prev t C R.
  - exists s. split; [reflexivity | apply Routes_refl].
  - cbn [app] in R. destruct (rest_cons E s _ _ R) as [P [Q R']].
    cbn [continued] in C. apply andb_prop in C. destruct C as [C1 C2].
    pose proof (Routes_c_putch E c (advance E s)) as E2.
    set (s2 := snd (c_putch E c (advance E s))) in *.
    destruct (IH k s2 c t C2) as [s1 [H1 E3]].
    { rewrite <- R'. apply rest_same. rewrite (ro_itr _ _ _ _ _ _ _ _ E2). cbn. lia. }
    exists s1. split.
    + cbn [List.length Nat.add].
      rewrite (scc_loop_line E _ _ s c CppComment s2 P Q).
      * rewrite last_cons_default. exact H1.
      * unfold cpp_comment. change (chr NL) with (int_of_char NL).
        change (chr BSLASH) with (int_of_char BSLASH). rewrite !int_of_char_eqb.
        replace (Ascii.eqb c NL && negb (Ascii.eqb prev BSLASH)) with false.
        -- rewrite to_char_int_of_char, bind_eq. fold s2. reflexivity.
        -- destruct (Ascii.eqb c NL); [|reflexivity].
           cbn [negb orb] in C1. now rewrite C1.
    + eapply Routes_eq;
        [exact (Routes_trans E _ _ _ _ _ _ _ _ _ _ _ _ _ (Routes_advance s _ _ R)
                  (Routes_trans E _ _ _ _ _ _ _ _ _ _ _ _ _ E2 E3)) | | | | |];
        reflexivity.
Qed.

Lemma scc_loop_line_close (k : nat) (s : State) (prev : ascii) (r : list ascii) :
  prev <> BSLASH -> rest_of E s = NL :: r ->
  exists s',
    scc_loop E (S k) (int_of_char prev) CppComment s
    = scc_loop E k (chr NL) NonComment s'
    /\ Routes E s s' [NL] [NL] [] 0 [].
Proof.
  intros N R. destruct (rest_cons E s _ _ R) as [P [Q _]].
  exists (snd (s_putch E NL (advance E s))). split.
  - apply (scc_loop_line E k _ s NL _ _ P Q). unfold cpp_comment.
    change (chr NL) with (int_of_char NL).
    change (chr BSLASH) with (int_of_char BSLASH). rewrite !int_of_char_eqb.
    destruct (Ascii.eqb_spec prev BSLASH) as [e|_]; [contradiction|].
    change (Ascii.eqb NL NL) with true. cbn [negb andb].
    rewrite to_char_int_of_char, bind_eq. reflexivity.
  - eapply Routes_eq;
      [exact (Routes_trans E _ _ _ _ _ _ _ _ _ _ _ _ _ (Routes_advance s _ _ R)
                (Emits_Routes E _ _ _ _ _ (Emits_s_putch E NL _))) | | | | |];
      reflexivity.
Qed.

End Comments.

(** X5: in an input without the byte 0xFF, which [getch] gives as
    [EOF]: in plain code, the rounds of the scan over a block comment, from
    its slash and star to the first star with a slash behind it (the body
    holding no star with a slash or a backslash behind it, and nested
    comments not looked for), put the whole comment, delimiters and all,
    and whatever the body holds, into the comment channel and one blank
    into the code channel, or the five characters of an empty comment if
    [printEmptyCommentInsteadOfBlank] is set; nothing is printed, and the
    scan goes on in plain code. *)
Theorem block_comment_is_replaced (E : Env) (body r : list ascii)
    (k : nat) (oc : int) (s : State) :
  ~ In EOF_byte (m_input E) ->
  warnAboutNestedCStyleComments E = false ->
  no_comment_end (body ++ ["*"%char]) = true ->
  rest_of E s = str "/*" ++ body ++ str "*/" ++ r ->
  exists s',
    scc_loop E (S (List.length body + S k)) oc NonComment s
    = scc_loop E k (chr "*") NonComment s'
    /\ Routes E s s' (str "/*" ++ body ++ str "*/")
         (if printEmptyCommentInsteadOfBlank E then str "/* */" else str " ")
         (str "/*" ++ body ++ str "*/")
         (if printEmptyCommentInsteadOfBlank E then 5 else 1) [].
Proof.
  intros legible_input. change (Legible E) in legible_input.
  intros W N R.
  destruct (scc_loop_comment_open E (List.length body + S k) s oc
              (body ++ str "*/" ++ r) R) as [s1 [H1 E1]].
  pose proof (Routes_rest E _ _ _ _ _ _ _ _ E1 R) as R1.
  destruct (scc_loop_comment_body E body (S k) s1 (chr "/") ("/"%char :: r) W N R1)
    as [s2 [oc2 [H2 E2]]].
  assert (R2 : rest_of E s2 = "*"%char :: "/"%char :: r).
  { exact (Routes_rest E _ _ _ _ _ _ _ _ E2 R1). }
  destruct (scc_loop_comment_close E k s2 oc2 r R2) as [s3 [H3 E3]].
  exists s3. split.
  - now rewrite H1, H2, H3.
  - eapply Routes_eq;
      [exact (Routes_trans E _ _ _ _ _ _ _ _ _ _ _ _ _ E1
                (Routes_trans E _ _ _ _ _ _ _ _ _ _ _ _ _ E2 E3)) | | | | |];
      try reflexivity.
    all: try (destruct (printEmptyCommentInsteadOfBlank E); reflexivity).
    all: cbn [str list_ascii_of_string app]; rewrite <- ?app_assoc; reflexivity.
Qed.

Lemma block_comment_is_replaced_witness :
  exists s',
    scc_loop (Env_of (str "/* a * b // c */d") C18 false true false NUL NUL)
      14 (chr NUL) NonComment scan_start
    = scc_loop (Env_of (str "/* a * b // c */d") C18 false true false NUL NUL)
        0 (chr "*") NonComment s'
    /\ code_chan s' = str "/* */"
    /\ comment_chan s' = str "/* a * b // c */".
Proof.
  destruct (block_comment_is_replaced
              (Env_of (str "/* a * b // c */d") C18 false true false NUL NUL)
              (str " a * b // c ") (str "d") 0 (chr NUL) scan_start)
    as [s' [H1 H2]].
  - apply legible_check. reflexivity.
  - reflexivity.
  - reflexivity.
  - reflexivity.
  - exists s'. split; [exact H1|].
    split; [exact (ro_code _ _ _ _ _ _ _ _ H2) | exact (ro_comment _ _ _ _ _ _ _ _ H2)].
Defined.

(** X6: in an input without the byte 0xFF, which [getch] gives as
    [EOF]: under a standard with double slash comments, in plain code, the
    rounds of the scan over a line comment end at the first newline that
    has no backslash right before it: the two slashes and all up to that
    newline, newlines behind a backslash among them, go to the comment
    channel, the newline that ends the comment goes to the code channel
    (behind the two slashes of an empty comment if
    [printEmptyCommentInsteadOfBlank] is set), nothing is printed, and
    the scan goes on in plain code. *)
Theorem line_comment_ends_at_its_newline (E : Env) (body r : list ascii)
    (k : nat) (oc : int) (s : State) :
  ~ In EOF_byte (m_input E) ->
  f_DoubleSlash (features E) = true ->
  continued "/" body = true ->
  last body "/"%char <> BSLASH ->
  rest_of E s = str "//" ++ body ++ NL :: r ->
  exists s',
    scc_loop E (S (List.length body + S k)) oc NonComment s
    = scc_loop E k (chr NL) NonComment s'
    /\ Routes E s s' (str "//" ++ body ++ [NL])
         ((if printEmptyCommentInsteadOfBlank E then str "//" else []) ++ [NL])
         (str "//" ++ body)
         (if printEmptyCommentInsteadOfBlank E then 2 else 0) [].
Proof.
  intros legible_input. change (Legible E) in legible_input.
  intros F C L R.
  destruct (scc_loop_line_open E (List.length body + S k) s oc (body ++ NL :: r) F R)
    as [s1 [H1 E1]].
  pose proof (Routes_rest E _ _ _ _ _ _ _ _ E1 R) as R1.
  destruct (scc_loop_line_body E body (S k) s1 "/" (NL :: r) C R1) as [s2 [H2 E2]].
  pose proof (Routes_rest E _ _ _ _ _ _ _ _ E2 R1) as R2.
  destruct (scc_loop_line_close E k s2 (last body "/"%char) r L R2) as [s3 [H3 E3]].
  exists s3. split.
  - rewrite H1. change (chr "/") with (int_of_char "/"). now rewrite H2, H3.
  - eapply Routes_eq;
      [exact (Routes_trans E _ _ _ _ _ _ _ _ _ _ _ _ _ E1
                (Routes_trans E _ _ _ _ _ _ _ _ _ _ _ _ _ E2 E3)) | | | | |];
      try reflexivity.
    all: try (destruct (printEmptyCommentInsteadOfBlank E); reflexivity).
    all: cbn [str list_ascii_of_string app]; rewrite <- ?app_assoc, ?app_nil_r;
      reflexivity.
Qed.

Lemma line_comment_ends_at_its_newline_witness :
  exists s',
    scc_loop (Env_of (str "// a \" ++ [NL] ++ str "b /* c" ++ [NL] ++ str "d")
                CXX17 false false false NUL NUL)
      13 (chr NUL) NonComment scan_start
    = scc_loop (Env_of (str "// a \" ++ [NL] ++ str "b /* c" ++ [NL] ++ str "d")
                  CXX17 false false false NUL NUL)
        0 (chr NL) NonComment s'
    /\ code_chan s' = [NL]
    /\ comment_chan s' = str "// a \" ++ [NL] ++ str "b /* c".
Proof.
  destruct (line_comment_ends_at_its_newline
              (Env_of (str "// a \" ++ [NL] ++ str "b /* c" ++ [NL] ++ str "d")
                 CXX17 false false false NUL NUL)
              (str " a \" ++ [NL] ++ str "b /* c") (str "d") 0 (chr NUL) scan_start)
    as [s' [H1 H2]].
  - apply legible_check. reflexivity.
  - reflexivity.
  - reflexivity.
  - discriminate.
  - reflexivity.
  - exists s'. split; [exact H1|].
    split; [exact (ro_code _ _ _ _ _ _ _ _ H2) | exact (ro_comment _ _ _ _ _ _ _ _ H2)].
Defined.

(** X7: a star and a slash met in plain code are kept in the code as they
    are; the warning that a comment end marker is not in a comment is
    printed for the first of a line only, [l_cend] holding the line it was
    printed for last. *)
Theorem stray_comment_end_is_kept_and_warned_once_a_line (E : Env) (r : list ascii)
    (k : nat) (oc : int) (s : State) :
  rest_of E s = "*"%char :: "/"%char :: r ->
  exists s',
    scc_loop E (S k) oc NonComment s = scc_loop E k (chr "*") NonComment s'
    /\ Emits E s s' (str "*/") (str "*/")
         (if l_cend s =? nline s then []
          else [(nline s, "C-style comment end marker ('*/') not in a comment"%string)])
    /\ l_cend s' = nline s'.
Proof.
  intros R. destruct (rest_cons_at E s _ _ R ltac:(discriminate)) as [P [Q R1]].
  destruct (rest_cons_at E _ _ _ R1 ltac:(discriminate)) as [P1 [Q1 _]].
  pose proof (Emits_advance E s _ _ R) as E1.
  set (s1 := advance E s) in *.
  pose proof (Emits_advance E s1 _ _ R1) as E2.
  set (s2 := advance E s1) in *.
  pose proof (Emits_s_putch E "*" s2) as E3.
  set (s3 := snd (s_putch E "*" s2)) in *.
  pose proof (Emits_s_putch E "/" s3) as E4.
  set (s4 := snd (s_putch E "/" s3)) in *.
  pose proof (Emits_trans E _ _ _ _ _ _ _ _ _ E1
                (Emits_trans E _ _ _ _ _ _ _ _ _ E2
                   (Emits_trans E _ _ _ _ _ _ _ _ _ E3 E4))) as E14.
  assert (L4 : nline s4 = nline s).
  { rewrite (em_nline _ _ _ _ _ _ E14). cbn. lia. }
  assert (C4 : l_cend s4 = l_cend s).
  { subst s4 s3 s2 s1. unfold s_putch, putchar, bind, when, modify, ret, advance.
    destruct (printCommentsNotCode E); destruct (peekc E s =? chr NL);
      destruct (peekc E _ =? chr NL); reflexivity. }
  set (s5 := snd (when (negb (l_cend s4 =? nline s4))
                    (warning "C-style comment end marker ('*/') not in a comment"
                       (nline s4)) s4)).
  assert (E5 : Emits E s4 s5 [] []
                 (if l_cend s =? nline s then []
                  else [(nline s, "C-style comment end marker ('*/') not in a comment"%string)])).
  { subst s5. rewrite C4, L4. destruct (l_cend s =? nline s); cbn [negb when].
    - apply Emits_refl.
    - apply Emits_warning. }
  assert (E6 : Emits E s5 (set_l_cend (nline s4) s5) [] [] []).
  { apply Emits_frame; cbn; rewrite ?app_nil_r; try reflexivity.
    destruct (printCommentsNotCode E); now rewrite app_nil_r. }
  exists (set_l_cend (nline s4) s5). split; [|split].
  - apply (scc_loop_code E k oc s "*" _ _ P Q). fold s1.
    unfold non_comment. replace (int_of_char "*" =? chr "*") with true by reflexivity.
    cbv iota.
    rewrite bind_lift, (read_bsnl_none_at E s1) by (try exact Q1; rewrite P1; reflexivity).
    cbn [fst snd]. rewrite bind_lift, (peek_ne E s1 Q1). cbn [fst snd]. rewrite P1.
    replace (int_of_char "/" =? chr "/") with true by reflexivity. cbv iota.
    rewrite bind_lift, (getch_ne E s1 Q1). cbn [fst snd]. fold s2.
    rewrite bind_lift. fold s3. rewrite bind_lift. cbn [write_bsnl times ret fst snd].
    rewrite bind_lift. fold s4. rewrite !bind_lift. cbn [gets fst snd].
    fold s5. reflexivity.
  - eapply Emits_eq;
      [exact (Emits_trans E _ _ _ _ _ _ _ _ _ E14
                (Emits_trans E _ _ _ _ _ _ _ _ _ E5 E6)) | | |];
      rewrite ?app_nil_r; reflexivity.
  - cbn [l_cend set_l_cend nline]. subst s5.
    destruct (negb (l_cend s4 =? nline s4)); reflexivity.
Qed.

Lemma stray_comment_end_is_kept_and_warned_once_a_line_witness :
  exists s',
    scc_loop (Env_of (str "*/ */") C18 false false false NUL NUL) 1 (chr NUL)
      NonComment scan_start
    = scc_loop (Env_of (str "*/ */") C18 false false false NUL NUL) 0 (chr "*")
        NonComment s'
    /\ console s'
       = [(1, "C-style comment end marker ('*/') not in a comment"%string)]
    /\ l_cend s' = 1.
Proof.
  destruct (stray_comment_end_is_kept_and_warned_once_a_line
              (Env_of (str "*/ */") C18 false false false NUL NUL)
              (str " */") 0 (chr NUL) scan_start eq_refl)
    as [s' [H1 [H2 H3]]].
  exists s'. split; [exact H1|]. split.
  - exact (em_console _ _ _ _ _ _ H2).
  - rewrite H3, (em_nline _ _ _ _ _ _ H2). reflexivity.
Defined.

(** X8: with the warning of nested comments switched on, a slash and a
    star met inside a block comment go to the comment like the rest of
    its body, and the comment does not nest; the warning is printed for
    the first of a line only, [l_nest] holding the line it was printed
    for last. *)
Theorem nested_comment_start_is_warned_once_a_line (E : Env) (r : list ascii)
    (k : nat) (oc : int) (s : State) :
  warnAboutNestedCStyleComments E = true ->
  rest_of E s = "/"%char :: "*"%char :: r ->
  exists s',
    scc_loop E (S k) oc CComment s = scc_loop E k (chr "/") CComment s'
    /\ Routes E s s' (str "/") [] (str "/") 0
         (if l_nest s =? nline s then []
          else [(nline s, "nested C-style comment"%string)])
    /\ rest_of E s' = "*"%char :: r
    /\ l_nest s' = nline s'.
Proof.
  intros W R. destruct (rest_cons_at E s _ _ R ltac:(discriminate)) as [P [Q R1]].
  destruct (rest_cons_at E _ _ _ R1 ltac:(discriminate)) as [P1 [Q1 _]].
  pose proof (Routes_advance E s _ _ R) as E1.
  set (s1 := advance E s) in *.
  assert (L1 : nline s1 = nline s).
  { rewrite (ro_nline _ _ _ _ _ _ _ _ E1). cbn. lia. }
  assert (C1 : l_nest s1 = l_nest s).
  { subst s1. unfold advance. destruct (peekc E s =? chr NL); reflexivity. }
  set (s2 := snd (when (negb (l_nest s1 =? nline s1))
                    (warning "nested C-style comment" (nline s1)) s1)).
  assert (E2 : Routes E s1 s2 [] [] [] 0
                 (if l_nest s =? nline s then []
                  else [(nline s, "nested C-style comment"%string)])).
  { subst s2. rewrite C1, L1. destruct (l_nest s =? nline s); cbn [negb when].
    - apply Routes_refl.
    - apply Emits_Routes, Emits_warning. }
  assert (E3 : Routes E s2 (set_l_nest (nline s1) s2) [] [] [] 0 []).
  { apply Routes_frame; reflexivity. }
  pose proof (Routes_c_putch E "/" (set_l_nest (nline s1) s2)) as E4.
  set (s4 := snd (c_putch E "/" (set_l_nest (nline s1) s2))) in *.
  pose proof (Routes_trans E _ _ _ _ _ _ _ _ _ _ _ _ _ E1
                (Routes_trans E _ _ _ _ _ _ _ _ _ _ _ _ _ E2
                   (Routes_trans E _ _ _ _ _ _ _ _ _ _ _ _ _ E3 E4))) as E14.
  exists s4. split; [|split; [|split]].
  - apply (scc_loop_block E k oc s "/" _ _ P Q). fold s1.
    unfold c_comment. replace (int_of_char "/" =? chr "*") with false by reflexivity.
    cbv iota. rewrite W.
    replace (int_of_char "/" =? chr "/") with true by reflexivity.
    cbn [andb]. rewrite !bind_eq, (peek_ne E s1 Q1). cbn [fst snd ret]. rewrite P1.
    replace (int_of_char "*" =? chr "*") with true by reflexivity. cbv iota.
    rewrite !bind_eq. cbn [gets fst snd]. fold s2.
    rewrite to_char_int_of_char. reflexivity.
  - eapply Routes_eq; [exact E14 | | | | |]; rewrite ?app_nil_r; reflexivity.
  - eapply (Routes_rest E); [exact E14|]. rewrite R. reflexivity.
  - subst s4. unfold c_putch, putchar, bind, when, modify, ret.
    destruct (printCommentsNotCode E); cbn; subst s2;
      destruct (negb (l_nest s1 =? nline s1)); reflexivity.
Qed.

Lemma nested_comment_start_is_warned_once_a_line_witness :
  exists s',
    scc_loop (Env_of (str "/* /* */") C18 false false true NUL NUL) 1 (chr " ")
      CComment (snd (scc_loop (Env_of (str "/* /* */") C18 false false true NUL NUL)
                       2 (chr NUL) NonComment scan_start))
    = scc_loop (Env_of (str "/* /* */") C18 false false true NUL NUL) 0 (chr "/")
        CComment s'
    /\ console s' = [(1, "nested C-style comment"%string)]
    /\ comment_chan s' = str "/* /"
    /\ l_nest s' = 1.
Proof.
  destruct (nested_comment_start_is_warned_once_a_line
              (Env_of (str "/* /* */") C18 false false true NUL NUL)
              (str " */") 0 (chr " ")
              (snd (scc_loop (Env_of (str "/* /* */") C18 false false true NUL NUL)
                      2 (chr NUL) NonComment scan_start))
              eq_refl eq_refl)
    as [s' [H1 [H2 [_ H3]]]].
  exists s'. split; [exact H1|]. split; [|split].
  - exact (ro_console _ _ _ _ _ _ _ _ H2).
  - exact (ro_comment _ _ _ _ _ _ _ _ H2).
  - rewrite H3, (ro_nline _ _ _ _ _ _ _ _ H2). reflexivity.
Defined.
(** ** The run as a whole *)

Lemma set_features_recognised (st : Standard) :
  set_features (Standard_value st) = inr (features_of st).
Proof. destruct st; reflexivity. Qed.

Lemma SCC_recognised (input : list ascii) (st : Standard)
    (pc pe wn : bool) (qc sc : ascii) :
  SCC input (Standard_value st) pc pe wn qc sc =
  match scc (Env_of input st pc pe wn qc sc) initial_State with
  | (Some _, s) => Some (mkObject true s)
  | (None, _) => None
  end.
Proof.
  unfold SCC, Env_of. rewrite set_features_recognised. reflexivity.
Qed.

(** [scc] by the rounds of its loop: it aborts where they do, and ends
    with the warning of an unterminated comment or without it. *)
Lemma scc_eq (E : Env) :
  scc E initial_State =
  match final_status E with
  | Some status =>
      (Some tt,
       if negb (Comment_eqb status NonComment)
       then snd (warning unterminated_text (nline (after_rounds E (fuel E)))
                   (after_rounds E (fuel E)))
       else after_rounds E (fuel E))
  | None => (None, after_rounds E (fuel E))
  end.
Proof.
  unfold scc, final_status, after_rounds.
  rewrite !bind_lift. cbn [modify fst snd].
  change (set_nline 1 (set_l_cend 0 (set_l_nest 0 initial_State))) with scan_start.
  rewrite bind_ab_eq.
  destruct (fst (scc_loop E (fuel E) (chr NUL) NonComment scan_start)) as [status|];
    [|reflexivity].
  destruct (negb (Comment_eqb status NonComment)); reflexivity.
Qed.

(** The object there is when the scan ended in [status]. *)
Lemma SCC_built (input : list ascii) (st : Standard)
    (pc pe wn : bool) (qc sc : ascii) (status : Comment) :
  final_status (Env_of input st pc pe wn qc sc) = Some status ->
  SCC input (Standard_value st) pc pe wn qc sc =
  Some (mkObject true
          (if negb (Comment_eqb status NonComment)
           then snd (warning unterminated_text
                       (nline (after_rounds (Env_of input st pc pe wn qc sc)
                                 (fuel (Env_of input st pc pe wn qc sc))))
                       (after_rounds (Env_of input st pc pe wn qc sc)
                          (fuel (Env_of input st pc pe wn qc sc))))
           else after_rounds (Env_of input st pc pe wn qc sc)
                  (fuel (Env_of input st pc pe wn qc sc)))).
Proof. intros H. now rewrite SCC_recognised, scc_eq, H. Qed.

Lemma SCC_aborted (input : list ascii) (st : Standard)
    (pc pe wn : bool) (qc sc : ascii) :
  final_status (Env_of input st pc pe wn qc sc) = None ->
  SCC input (Standard_value st) pc pe wn qc sc = None.
Proof. intros H. now rewrite SCC_recognised, scc_eq, H. Qed.

(** An object was built: the scan ended in some region. *)
Lemma SCC_Some (input : list ascii) (st : Standard)
    (pc pe wn : bool) (qc sc : ascii) (o : Object) :
  SCC input (Standard_value st) pc pe wn qc sc = Some o ->
  exists status, final_status (Env_of input st pc pe wn qc sc) = Some status.
Proof.
  rewrite SCC_recognised, scc_eq.
  destruct (final_status (Env_of input st pc pe wn qc sc)) as [status|];
    [now exists status | discriminate].
Qed.

Lemma Step_full_scan (E : Env) : Step E scan_start (after_rounds E (fuel E)).
Proof. apply scc_loop_step, enough_fuel. Qed.

(** The round budget is never used up. *)
Lemma SCC_never_stuck (input : list ascii) (st : Standard)
    (pc pe wn : bool) (qc sc : ascii) (o : Object) :
  SCC input (Standard_value st) pc pe wn qc sc = Some o ->
  stuck (members o) = false.
Proof.
  intros H. destruct (SCC_Some _ _ _ _ _ _ _ _ H) as [status F].
  rewrite (SCC_built _ _ _ _ _ _ _ _ F) in H. inversion H. cbn [members].
  pose proof (step_stuck _ _ _ (Step_full_scan (Env_of input st pc pe wn qc sc))) as K.
  destruct (negb _); cbn; rewrite K; reflexivity.
Qed.

Lemma occurrences_app (msg : string) (a b : list (Z * string)) :
  occurrences msg (a ++ b) = (occurrences msg a + occurrences msg b)%nat.
Proof. unfold occurrences. now rewrite filter_app, length_app. Qed.

Lemma occurrences_quiet (w : list (Z * string)) :
  quiet w -> occurrences unterminated_text w = 0%nat.
Proof.
  unfold occurrences. induction 1 as [|d w Hd _ IH]; [reflexivity|].
  cbn [filter]. destruct (String.eqb_spec (snd d) unterminated_text); [contradiction|].
  exact IH.
Qed.

Lemma Standard_of_value_Some (v : Z) (st : Standard) :
  Standard_of_value v = Some st -> v = Standard_value st.
Proof.
  unfold Standard_of_value. intros H. apply find_some in H.
  destruct H as [_ H]. apply Z.eqb_eq in H. now symmetry.
Qed.

Lemma line_offset_rounds (E : Env) (k : nat) : forall oc status s,
  line_offset (m_input E) (snd (scc_loop E k oc status s)) = line_offset (m_input E) s.
Proof.
  induction k as [|k IH]; intros oc status s.
  - reflexivity.
  - cbn [scc_loop]. rewrite bind_lift.
    pose proof (step_line _ _ _ (steps_getch E s)) as H1.
    destruct (fst (getch E s) =? EOF); [exact H1|].
    rewrite bind_ab_eq.
    match goal with |- context [fst (?m (snd (getch E s)))] =>
      assert (Hm : steps E m) by (destruct status; steps_tac);
      pose proof (step_line _ _ _ (Hm (snd (getch E s)))) as H2;
      destruct (fst (m (snd (getch E s))))
    end.
    + now rewrite IH, H2.
    + cbn [snd]. now rewrite H2.
Qed.

(** ** Every character goes to one channel, in the order of the input *)

Lemma read_of_app (a b : list Mark) : read_of (a ++ b) = read_of a ++ read_of b.
Proof. apply flat_map_app. Qed.

Lemma code_of_app (a b : list Mark) : code_of (a ++ b) = code_of a ++ code_of b.
Proof. apply flat_map_app. Qed.

Lemma comment_of_app (a b : list Mark) :
  comment_of (a ++ b) = comment_of a ++ comment_of b.
Proof. apply flat_map_app. Qed.

Lemma fills_of_app (a b : list Mark) : fills_of (a ++ b) = (fills_of a + fills_of b)%nat.
Proof. unfold fills_of. now rewrite flat_map_app, length_app. Qed.

Lemma firstn_plus {A : Type} (l : list A) : forall i n,
  firstn (i + n) l = firstn i l ++ firstn n (skipn i l).
Proof.
  induction l as [|x l IH]; intros i n.
  - now rewrite !firstn_nil, skipn_nil, firstn_nil.
  - destruct i as [|i]; [reflexivity|].
    cbn [Nat.add firstn skipn app]. now rewrite IH.
Qed.

Lemma firstn_exact {A : Type} (a b : list A) : firstn (List.length a) (a ++ b) = a.
Proof. induction a as [|x a IH]; [reflexivity|]. cbn. now rewrite IH. Qed.

Section Weaving.

Variable E : Env.
Context {legible_input : Legible E}.

Lemma Woven_mark (m : Mark) (h h' : list ascii) (s s' : State) :
  Woven E h s -> itr s' = itr s ->
  code_chan s' = code_chan s ++ code_of [m] ->
  comment_chan s' = comment_chan s ++ comment_of [m] ->
  n_fill s' = (n_fill s + fills_of [m])%nat ->
  faithful E m -> opens m s -> h = read_of [m] ++ h' ->
  Woven E h' s'.
Proof.
  intros [tr [R [C [M [F [Fa [I1 I2]]]]]]] Hi Hc Hm Hf Hfa Ho Hh.
  exists (tr ++ [m]). rewrite read_of_app, code_of_app, comment_of_app, fills_of_app.
  rewrite Hi, Hc, Hm, Hf, C, M, F. subst h.
  repeat split; auto.
  - now rewrite <- app_assoc.
  - apply Forall_app. split; [exact Fa | now constructor].
  - destruct m; cbn in *; rewrite ?app_nil_r, ?Nat.add_0_r; auto.
    + right. intros X. now apply app_eq_nil in X.
  - destruct m; cbn in *; rewrite ?app_nil_r; auto.
    destruct I2 as [I2|[t I2]].
    + rewrite I2. destruct Ho as [Ho|Ho]; [contradiction|]. subst c.
      right. now exists [].
    + rewrite I2. right. now exists (t ++ [c]).
Qed.

Lemma Woven_same (h : list ascii) (s s' : State) :
  Woven E h s -> itr s' = itr s -> code_chan s' = code_chan s ->
  comment_chan s' = comment_chan s -> n_fill s' = n_fill s ->
  Woven E h s'.
Proof.
  intros [tr H] Hi Hc Hm Hf. exists tr. now rewrite Hi, Hc, Hm, Hf.
Qed.

Lemma Woven_advance (h h' : list ascii) (s : State) :
  Woven E h s -> (peekc E s =? EOF) = false ->
  h' = h ++ [to_char (peekc E s)] ->
  Woven E h' (advance E s).
Proof.
  intros [tr [R H]] HE ->. pose proof (peekc_not_EOF E s HE) as L.
  exists tr. rewrite itr_advance, (firstn_S_nth NUL) by exact L.
  rewrite app_assoc, R.
  split.
  - f_equal. f_equal. unfold peekc. apply Nat.leb_gt in L. rewrite L.
    apply to_char_int_of_char.
  - unfold advance. destruct (peekc E s =? chr NL); exact H.
Qed.

Lemma Woven_s_putch (c : ascii) (h h' : list ascii) (s : State) :
  Woven E h s -> h = c :: h' -> Woven E h' (snd (s_putch E c s)).
Proof.
  intros W Hh. pose proof (Emits_s_putch E c s) as Em.
  apply (Woven_mark (To_code c c) h h' s); auto.
  - rewrite (em_itr _ _ _ _ _ _ Em). cbn. lia.
  - exact (em_code _ _ _ _ _ _ Em).
  - rewrite (em_comment _ _ _ _ _ _ Em). cbn. now rewrite app_nil_r.
  - rewrite (em_fill _ _ _ _ _ _ Em). cbn. lia.
  - exists NUL. unfold quoted. reflexivity.
  - exact I.
Qed.

Lemma Woven_put_quote_char (q c : ascii) (h h' : list ascii) (s : State) :
  Woven E h s -> h = c :: h' -> Woven E h' (snd (put_quote_char E q c s)).
Proof.
  intros W Hh. pose proof (Emits_put_quote_char E q c s) as Em.
  apply (Woven_mark (To_code c (quoted E q c)) h h' s); auto.
  - rewrite (em_itr _ _ _ _ _ _ Em). cbn. lia.
  - exact (em_code _ _ _ _ _ _ Em).
  - rewrite (em_comment _ _ _ _ _ _ Em). cbn. now rewrite app_nil_r.
  - rewrite (em_fill _ _ _ _ _ _ Em). cbn. lia.
  - now exists q.
  - exact I.
Qed.

Lemma Woven_c_putch (c : ascii) (h h' : list ascii) (s : State) :
  Woven E h s -> comment_chan s <> [] \/ c = "/"%char -> h = c :: h' ->
  Woven E h' (snd (c_putch E c s)).
Proof.
  intros W Ho Hh. pose proof (Routes_c_putch E c s) as Em.
  apply (Woven_mark (To_comment c) h h' s); auto.
  - rewrite (ro_itr _ _ _ _ _ _ _ _ Em). cbn. lia.
  - rewrite (ro_code _ _ _ _ _ _ _ _ Em). reflexivity.
  - exact (ro_comment _ _ _ _ _ _ _ _ Em).
  - rewrite (ro_fill _ _ _ _ _ _ _ _ Em). reflexivity.
  - exact I.
Qed.

Lemma Woven_s_fill (c : ascii) (h : list ascii) (s : State) :
  Woven E h s -> comment_chan s <> [] -> Woven E h (snd (s_fill E c s)).
Proof.
  intros W Ho. pose proof (Routes_s_fill E c s) as Em.
  apply (Woven_mark (Fill c) h h s); auto.
  - rewrite (ro_itr _ _ _ _ _ _ _ _ Em). cbn. lia.
  - exact (ro_code _ _ _ _ _ _ _ _ Em).
  - rewrite (ro_comment _ _ _ _ _ _ _ _ Em). cbn. now rewrite app_nil_r.
  - exact (ro_fill _ _ _ _ _ _ _ _ Em).
  - exact I.
Qed.

Lemma comment_chan_c_putch (c : ascii) (s : State) :
  comment_chan (snd (c_putch E c s)) <> [].
Proof.
  rewrite (ro_comment _ _ _ _ _ _ _ _ (Routes_c_putch E c s)).
  intros X. now apply app_eq_nil in X.
Qed.

Lemma comment_chan_s_fill (c : ascii) (s : State) :
  comment_chan (snd (s_fill E c s)) = comment_chan s.
Proof.
  rewrite (ro_comment _ _ _ _ _ _ _ _ (Routes_s_fill E c s)). apply app_nil_r.
Qed.

Lemma Woven_s_putstr (buf : list ascii) : forall h h' s,
  Woven E h s -> ~ In NUL buf -> h = buf ++ h' ->
  Woven E h' (snd (s_putstr E buf s)).
Proof.
  induction buf as [|c buf IH]; intros h h' s W N Hh; cbn [s_putstr].
  - now subst h.
  - destruct (Ascii.eqb_spec c NUL) as [e|n].
    + exfalso. apply N. left. now symmetry.
    + rewrite bind_eq. apply (IH (buf ++ h')); auto.
      * apply (Woven_s_putch c h); auto.
      * intros X. apply N. now right.
Qed.

Lemma Woven_put_quote_str (q : ascii) (buf : list ascii) : forall h h' s,
  Woven E h s -> ~ In NUL buf -> h = buf ++ h' ->
  Woven E h' (snd (put_quote_str E q buf s)).
Proof.
  induction buf as [|c buf IH]; intros h h' s W N Hh; cbn [put_quote_str].
  - now subst h.
  - destruct (Ascii.eqb_spec c NUL) as [e|n].
    + exfalso. apply N. left. now symmetry.
    + rewrite bind_eq. apply (IH (buf ++ h')); auto.
      * apply (Woven_put_quote_char q c h); auto.
      * intros X. apply N. now right.
Qed.

Lemma Woven_times_put (q c : ascii) (n : nat) : forall h h' s,
  Woven E h s -> h = repeat c n ++ h' ->
  Woven E h' (snd (times n (put_quote_char E q c) s)).
Proof.
  induction n as [|n IH]; intros h h' s W Hh; cbn [times].
  - now subst h.
  - rewrite bind_eq. apply (IH (repeat c n ++ h')); auto.
    apply (Woven_put_quote_char q c h); auto.
Qed.

Lemma Woven_write_bsnl_s (n : nat) : forall h h' s,
  Woven E h s -> h = pairs n ++ h' ->
  Woven E h' (snd (write_bsnl n (s_putch E) s)).
Proof.
  unfold write_bsnl.
  induction n as [|n IH]; intros h h' s W Hh; cbn [times].
  - now subst h.
  - rewrite bind_eq. apply (IH (pairs n ++ h')); auto.
    rewrite bind_eq. apply (Woven_s_putch NL (NL :: pairs n ++ h')); auto.
    apply (Woven_s_putch BSLASH h); auto.
Qed.

Lemma Woven_write_bsnl_c (n : nat) : forall h h' s,
  Woven E h s -> comment_chan s <> [] -> h = pairs n ++ h' ->
  Woven E h' (snd (write_bsnl n (c_putch E) s))
  /\ comment_chan (snd (write_bsnl n (c_putch E) s)) <> [].
Proof.
  unfold write_bsnl.
  induction n as [|n IH]; intros h h' s W Ho Hh; cbn [times].
  - subst h. now split.
  - rewrite bind_eq. apply (IH (pairs n ++ h')); auto.
    + rewrite bind_eq. apply (Woven_c_putch NL (NL :: pairs n ++ h')); auto.
      * apply (Woven_c_putch BSLASH h); auto.
      * left. apply comment_chan_c_putch.
    + rewrite bind_eq. apply comment_chan_c_putch.
Qed.

(** What only moves the cursor leaves the channels as they are. *)
Lemma Woven_read (h : list ascii) (s s' : State) (read : list ascii) :
  Woven E h s -> Emits E s s' read [] [] -> Woven E (h ++ read) s'.
Proof.
  intros [tr [R [C [M [F H]]]]] Em. exists tr.
  rewrite (em_code _ _ _ _ _ _ Em), app_nil_r.
  rewrite (em_comment _ _ _ _ _ _ Em), (em_fill _ _ _ _ _ _ Em).
  repeat split; try tauto.
  rewrite app_assoc, R, (em_itr _ _ _ _ _ _ Em), firstn_plus.
  pose proof (em_rest _ _ _ _ _ _ Em) as Rs. unfold rest_of in Rs.
  now rewrite Rs, firstn_exact.
Qed.

Lemma Woven_eq (h h' : list ascii) (s : State) :
  Woven E h s -> h = h' -> Woven E h' s.
Proof. now intros W <-. Qed.

Lemma Woven_warning (msg : string) (line : Z) (h : list ascii) (s : State) :
  Woven E h s -> Woven E h (snd (warning msg line s)).
Proof. intros W. apply (Woven_same h s); auto. Qed.

Lemma Woven_warning2 (s1 s2 : string) (line : Z) (h : list ascii) (s : State) :
  Woven E h s -> Woven E h (snd (warning2 s1 s2 line s)).
Proof. intros W. apply (Woven_same h s); auto. Qed.

Lemma Woven_warn_feature (f : Feature) (h : list ascii) (s : State) :
  Woven E h s -> Woven E h (snd (warn_feature E f s)).
Proof. intros W. apply (Woven_same h s); auto. Qed.

Lemma Woven_set_l_cend (n : Z) (h : list ascii) (s : State) :
  Woven E h s -> Woven E h (set_l_cend n s).
Proof. intros W. apply (Woven_same h s); auto. Qed.

Lemma Woven_set_l_nest (n : Z) (h : list ascii) (s : State) :
  Woven E h s -> Woven E h (set_l_nest n s).
Proof. intros W. apply (Woven_same h s); auto. Qed.

Lemma Woven_set_l_comment (b : bool) (h : list ascii) (s : State) :
  Woven E h s -> Woven E h (set_l_comment b s).
Proof. intros W. apply (Woven_same h s); auto. Qed.

Lemma Woven_when (b : bool) (m : M unit) (h : list ascii) (s : State) :
  Woven E h s -> (Woven E h s -> Woven E h (snd (m s))) ->
  Woven E h (snd (when b m s)).
Proof. intros W H. destruct b; [now apply H | exact W]. Qed.

Lemma Woven_every_second (q : ascii) (d : nat) : forall h h' s,
  Woven E h s -> h = repeat BSLASH (2 * ((d + 1) / 2)) ++ h' ->
  Woven E h' (snd (every_second d (put_quote_str E q [BSLASH; BSLASH]) s)).
Proof.
  assert (P : forall h h' s, Woven E h s -> h = BSLASH :: BSLASH :: h' ->
                Woven E h' (snd (put_quote_str E q [BSLASH; BSLASH] s))).
  { intros h h' s W Hh. apply (Woven_put_quote_str q [BSLASH; BSLASH] h); auto.
    intros [X|[X|[]]]; discriminate X. }
  induction d as [d IH] using lt_wf_ind. intros h h' s W Hh.
  destruct d as [|[|d]]; cbn [every_second].
  - now subst h.
  - now apply (P h).
  - rewrite bind_eq. apply (IH d ltac:(lia) (repeat BSLASH (2 * ((d + 1) / 2)) ++ h'));
      [|reflexivity].
    apply (P h); auto. rewrite Hh.
    replace (S (S d) + 1)%nat with (d + 1 + 1 * 2)%nat by lia.
    rewrite Nat.div_add by lia.
    replace (2 * ((d + 1) / 2 + 1))%nat with (S (S (2 * ((d + 1) / 2))))%nat by lia.
    reflexivity.
Qed.

End Weaving.

Ltac wv :=
  first [ eassumption |
  lazymatch goal with
  | |- Woven _ _ (snd (s_putch _ _ _)) => eapply Woven_s_putch; [wv | ]
  | |- Woven _ _ (snd (put_quote_char _ _ _ _)) => eapply Woven_put_quote_char; [wv | ]
  | |- Woven _ _ (snd (c_putch _ _ _)) => eapply Woven_c_putch; [wv | | ]
  | |- Woven _ _ (snd (s_fill _ _ _)) => eapply Woven_s_fill; [wv | ]
  | |- Woven _ _ (snd (s_putstr _ _ _)) => eapply Woven_s_putstr; [wv | | ]
  | |- Woven _ _ (snd (put_quote_str _ _ _ _)) => eapply Woven_put_quote_str; [wv | | ]
  | |- Woven _ _ (snd (write_bsnl _ (s_putch _) _)) => eapply Woven_write_bsnl_s; [wv | ]
  | |- Woven _ _ (snd (times _ (put_quote_char _ _ _) _)) =>
      eapply Woven_times_put; [wv | ]
  | |- Woven _ _ (snd (every_second _ _ _)) => eapply Woven_every_second; [wv | ]
  | |- Woven _ _ (advance _ _) => eapply Woven_advance; [wv | try eassumption | ]
  | |- Woven _ _ (snd (when _ _ _)) =>
      eapply Woven_when; [wv | let X := fresh "W" in intros X; sx; wv]
  | |- Woven _ _ (snd (warning _ _ _)) => apply Woven_warning; wv
  | |- Woven _ _ (snd (warning2 _ _ _ _)) => apply Woven_warning2; wv
  | |- Woven _ _ (snd (warn_feature _ _ _)) => apply Woven_warn_feature; wv
  | |- Woven _ _ (set_l_cend _ _) => apply Woven_set_l_cend; wv
  | |- Woven _ _ (set_l_nest _ _) => apply Woven_set_l_nest; wv
  | |- Woven _ _ (set_l_comment _ _) => apply Woven_set_l_comment; wv
  | |- Woven _ _ _ => idtac
  end ].

Section WovenText.

Variable E : Env.
Context {legible_input : Legible E}.
Hypothesis no_NUL : ~ In NUL (m_input E).
Hypothesis whole_end : ends_whole (m_input E) = true.

Lemma to_char_chr (s : State) (a : ascii) :
  (peekc E s =? chr a) = true -> to_char (peekc E s) = a.
Proof. intros H. apply Z.eqb_eq in H. rewrite H. apply to_char_int_of_char. Qed.

Lemma Woven_count_backslashes (n : nat) : forall b s h,
  Behind E BSLASH s -> enough E n (itr s) -> Woven E h s ->
  (fst (fst (count_backslashes E n b s)) =? EOF) = false
  /\ (b <= snd (fst (count_backslashes E n b s)))%nat
  /\ Woven E (h ++ repeat BSLASH (snd (fst (count_backslashes E n b s)) - b)
                ++ [to_char (fst (fst (count_backslashes E n b s)))])
       (snd (count_backslashes E n b s)).
Proof.
  induction n as [|n IH]; intros b s h B H W.
  - unfold enough in H. lia.
  - assert (HE : (peekc E s =? EOF) = false)
      by (exact (not_at_end_backslash E no_NUL whole_end s B)).
    cbn [count_backslashes]. rewrite bind_eq, (getch_eq E). cbn [fst snd].
    rewrite !HE. cbn [negb andb].
    destruct (peekc E s =? chr BSLASH) eqn:HB; cbv iota.
    + destruct (IH (S b) (advance E s) (h ++ [BSLASH])) as [I1 [I2 I3]].
      * rewrite <- (to_char_chr s BSLASH HB). now apply Behind_advance.
      * now apply enough_advance.
      * eapply Woven_advance; [exact W | exact HE |].
        now rewrite (to_char_chr s BSLASH HB).
      * split; [exact I1|]. split; [lia|].
        eapply Woven_eq; [exact I3|].
        set (bs := snd (fst (count_backslashes E n (S b) (advance E s)))) in *.
        replace (bs - b)%nat with (S (bs - S b)) by lia.
        cbn [repeat]. now rewrite <- app_assoc.
    + cbn [ret fst snd]. rewrite HE. split; [reflexivity|]. split; [lia|].
      rewrite Nat.sub_diag. cbn [repeat app].
      eapply Woven_advance; [exact W | exact HE | reflexivity].
Qed.

Lemma repeat_split_even (a : ascii) (bs : nat) :
  (bs mod 2)%nat = 0%nat -> repeat a bs = repeat a (2 * (bs / 2)).
Proof.
  intros H. pose proof (Nat.div_mod_eq bs 2) as D. rewrite H in D.
  now replace (2 * (bs / 2))%nat with bs by lia.
Qed.

Lemma repeat_split_odd (a : ascii) (bs : nat) :
  (bs mod 2)%nat <> 0%nat -> repeat a bs = repeat a (2 * (bs / 2)) ++ [a].
Proof.
  intros H. pose proof (Nat.div_mod_eq bs 2) as D.
  pose proof (Nat.mod_upper_bound bs 2 ltac:(lia)) as U.
  replace bs with (2 * (bs / 2) + 1)%nat at 1 by lia.
  now rewrite repeat_app.
Qed.

Lemma Woven_endquote_loop (n : nat) : forall q msg s,
  enough E n (itr s) -> Woven E [] s ->
  Woven E (held_by q (fst (endquote_loop E n q msg s)))
    (snd (endquote_loop E n q msg s)).
Proof.
  induction n as [|n IH]; intros q msg s H W.
  - unfold enough in H. lia.
  - cbn [endquote_loop]. rewrite bind_eq, (getch_eq E). cbn [fst snd].
    destruct (peekc E s =? EOF) eqn:HE; cbn [negb andb].
    { cbn [ret fst snd held_by]. now rewrite HE. }
    destruct (peekc E s =? int_of_char q) eqn:HQ; cbn [negb].
    { cbn [ret fst snd held_by]. rewrite HE.
      eapply Woven_advance; [exact W | exact HE |].
      apply Z.eqb_eq in HQ. now rewrite HQ, to_char_int_of_char. }
    assert (REC : forall X, (S (itr s) <= itr X)%nat -> Woven E [] X ->
              Woven E (held_by q (fst (endquote_loop E n q msg X)))
                (snd (endquote_loop E n q msg X))).
    { intros X L WX. apply IH; [|exact WX]. now apply (enough_step E n s). }
    assert (W1 : Woven E [to_char (peekc E s)] (advance E s)).
    { eapply Woven_advance; [exact W | exact HE | reflexivity]. }
    destruct (peekc E s =? chr BSLASH) eqn:HB.
    + rewrite (to_char_chr s BSLASH HB) in *.
      assert (B : Behind E BSLASH (advance E s)).
      { rewrite <- (to_char_chr s BSLASH HB). now apply Behind_advance. }
      destruct (Woven_count_backslashes (fuel E) 1 (advance E s) [BSLASH] B
                  (enough_fuel E _) W1) as [F1 [F2 F3]].
      pose proof (step_itr _ _ _ (steps_count_backslashes E 1 (advance E s))) as L.
      rewrite itr_advance in L.
      rewrite bind_eq.
      revert F1 F2 F3 L.
      generalize (count_backslashes E (fuel E) 1 (advance E s)).
      intros [[c2 bs] s2]. cbn [fst snd]. intros F1 F2 F3 L.
      rewrite F1.
      assert (F4 : Woven E (repeat BSLASH bs ++ [to_char c2]) s2).
      { eapply Woven_eq; [exact F3|].
        replace bs with (S (bs - 1)) at 2 by lia. reflexivity. }
      destruct (c2 =? chr NL).
      * sx. apply REC.
        -- rewrite !itr_s_putch, itr_times_put. exact L.
        -- wv.
           ++ replace bs with (bs - 1 + 1)%nat at 1 by lia.
              rewrite repeat_app, <- app_assoc. reflexivity.
           ++ reflexivity.
           ++ reflexivity.
      * rewrite bind_eq.
        set (s3 := snd (every_second (bs - 1) (put_quote_str E q [BSLASH; BSLASH]) s2)).
        assert (I3 : itr s3 = itr s2) by apply itr_every_second.
        destruct (bs mod 2 =? 0)%nat eqn:EV.
        -- apply Nat.eqb_eq in EV.
           assert (W3 : Woven E [to_char c2] s3).
           { subst s3. wv. replace (bs - 1 + 1)%nat with bs by lia.
             now rewrite <- (repeat_split_even BSLASH bs EV). }
           sx. destruct (c2 =? int_of_char q).
           ++ cbn [ret fst snd held_by]. wv. reflexivity.
           ++ apply REC.
              ** rewrite itr_s_putch, I3. exact L.
              ** wv. reflexivity.
        -- apply Nat.eqb_neq in EV.
           assert (W3 : Woven E [BSLASH; to_char c2] s3).
           { subst s3. wv. replace (bs - 1 + 1)%nat with bs by lia.
             rewrite (repeat_split_odd BSLASH bs EV), <- app_assoc. reflexivity. }
           sx. apply REC.
           ++ rewrite itr_when; [|reflexivity].
              rewrite !itr_put_quote_char, I3. exact L.
           ++ apply Woven_when; [|intros X; now apply Woven_warn_feature].
              wv; reflexivity.
    + destruct (peekc E s =? chr NL).
      * sx. cbn [held_by]. wv. reflexivity.
      * sx. apply REC; [same_itr; lia|]. wv. reflexivity.
Qed.

Lemma Woven_endquote (q : ascii) (msg : string) (s : State) :
  Woven E [] s -> Woven E [] (snd (endquote E q msg s)).
Proof.
  intros W. unfold endquote. rewrite bind_eq.
  pose proof (Woven_endquote_loop (fuel E) q msg s (enough_fuel E _) W) as H.
  revert H. generalize (endquote_loop E (fuel E) q msg s). intros [[c1|] s1];
    cbn [fst snd held_by]; intros H.
  - destruct (c1 =? EOF); sx; wv. reflexivity.
  - exact H.
Qed.

Lemma Woven_read_bsnl (h : list ascii) (s : State) :
  Woven E h s ->
  Woven E (h ++ pairs (fst (read_bsnl E s))) (snd (read_bsnl E s)).
Proof.
  intros W.
  destruct (read_bsnl_loop_pairs E (fuel E) 0 s (enough_fuel E _)) as [d [s1 [Q [Em _]]]].
  unfold read_bsnl. rewrite Q. cbn [fst snd Nat.add]. now apply (Woven_read E h s).
Qed.

(** *** Loops that cannot abort *)

Lemma Woven_exponent_digits (n : nat) : forall count s,
  enough E n (itr s) -> Woven E [] s ->
  Woven E [] (snd (exponent_digits E n count s)).
Proof.
  induction n as [|n IH]; intros count s H W.
  - unfold enough in H. lia.
  - cbn [exponent_digits]. sx.
    destruct (peekc E s =? EOF) eqn:HE; cbn [negb andb]; [exact W|].
    destruct (isdigit (peekc E s)); [|exact W].
    sx. rewrite (getch_eq E), HE. sx.
    apply IH; [apply (enough_step E n s); auto; same_itr; lia|].
    wv; reflexivity.
Qed.

Lemma Woven_scan_ucn_loop (todo : nat) : forall digits c s,
  Woven E [] s -> Woven E [] (snd (scan_ucn_loop E todo digits c s)).
Proof.
  induction todo as [|k IH]; intros digits c s W; cbn [scan_ucn_loop]; [exact W|].
  sx. rewrite (getch_eq E). cbn [fst snd].
  destruct (peekc E s =? EOF) eqn:HE; [exact W|].
  destruct (negb (isxdigit (peekc E s))); sx; [wv; reflexivity|].
  apply IH. wv; reflexivity.
Qed.

(** *** Comments *)

Lemma to_char_eqb (c : int) (a : ascii) : (c =? chr a) = true -> to_char c = a.
Proof. intros H. apply Z.eqb_eq in H. rewrite H. apply to_char_int_of_char. Qed.

Lemma Woven_c_comment (c : int) (s : State) :
  Woven E [to_char c] s -> comment_chan s <> [] ->
  Woven E [] (snd (c_comment E c s))
  /\ comment_chan (snd (c_comment E c s)) <> [].
Proof.
  intros W Ho. unfold c_comment. destruct (c =? chr "*") eqn:CS.
  - rewrite (to_char_eqb c "*" CS) in *. rewrite bind_eq.
    pose proof (Woven_read_bsnl _ s W) as W1.
    assert (Ho1 : comment_chan (snd (read_bsnl E s)) <> []).
    { destruct (read_bsnl_loop_pairs E (fuel E) 0 s (enough_fuel E _))
        as [d [s1 [Q [Em _]]]].
      unfold read_bsnl. rewrite Q. cbn [snd].
      now rewrite (em_comment _ _ _ _ _ _ Em). }
    revert W1 Ho1. generalize (read_bsnl E s). intros [n s1]. cbn [fst snd].
    intros W1 Ho1. sx.
    destruct (peekc E s1 =? chr "/") eqn:HP.
    + assert (HE : (peekc E s1 =? EOF) = false).
      { apply Z.eqb_eq in HP. now rewrite HP. }
      sx. cbn [modify fst snd]. rewrite (getch_eq E).
      rewrite (peekc_itr E s1 (set_l_comment true s1) eq_refl), HE. sx.
      set (X0 := advance E (set_l_comment true s1)).
      assert (W0 : Woven E ("*"%char :: pairs n ++ ["/"%char]) X0).
      { subst X0. eapply Woven_advance; [apply Woven_set_l_comment; exact W1 | |].
        - now rewrite (peekc_itr E s1 (set_l_comment true s1) eq_refl).
        - rewrite (peekc_itr E s1 (set_l_comment true s1) eq_refl),
            (to_char_chr s1 "/" HP).
          reflexivity. }
      assert (H0 : comment_chan X0 <> []).
      { subst X0. unfold advance. destruct (peekc E _ =? chr NL); exact Ho1. }
      set (X1 := snd (c_putch E "*" X0)).
      assert (WX1 : Woven E (pairs n ++ ["/"%char]) X1).
      { subst X1. eapply Woven_c_putch; [exact W0 | now left | reflexivity]. }
      destruct (Woven_write_bsnl_c E n _ ["/"%char] X1 WX1
                  (comment_chan_c_putch E _ _) eq_refl) as [WX2 H2].
      set (X2 := snd (write_bsnl n (c_putch E) X1)) in *.
      set (X3 := snd (c_putch E "/" X2)).
      assert (WX3 : Woven E [] X3).
      { subst X3. eapply Woven_c_putch; [exact WX2 | now left | reflexivity]. }
      assert (H3 : comment_chan X3 <> []) by apply comment_chan_c_putch.
      set (X4 := snd (s_fill E " " X3)).
      assert (WX4 : Woven E [] X4) by (subst X4; now apply Woven_s_fill).
      assert (H4 : comment_chan X4 <> []).
      { subst X4. now rewrite comment_chan_s_fill. }
      destruct (printEmptyCommentInsteadOfBlank E); cbn [when]; [|now split].
      rewrite bind_eq. split.
      * apply Woven_s_fill; [now apply Woven_s_fill|].
        now rewrite comment_chan_s_fill.
      * now rewrite !comment_chan_s_fill.
    + sx.
      set (X1 := snd (c_putch E "*" s1)).
      assert (WX1 : Woven E (pairs n) X1).
      { subst X1. eapply Woven_c_putch; [exact W1 | now left | reflexivity]. }
      apply (Woven_write_bsnl_c E n (pairs n) [] X1 WX1 (comment_chan_c_putch E _ _)).
      now rewrite app_nil_r.
  - rewrite bind_eq.
    set (r := (if warnAboutNestedCStyleComments E && (c =? chr "/")
               then pc <- peek E;; ret (pc =? chr "*") else ret false) s).
    assert (R : snd r = s).
    { subst r. destruct (warnAboutNestedCStyleComments E && (c =? chr "/"));
        [sx|]; reflexivity. }
    rewrite R. destruct (fst r); sx.
    + split; [|apply comment_chan_c_putch].
      eapply Woven_c_putch; [| |reflexivity].
      * apply Woven_set_l_nest.
        destruct (negb (l_nest s =? nline s)); cbn [when]; exact W.
      * left. destruct (negb (l_nest s =? nline s)); exact Ho.
    + split; [|apply comment_chan_c_putch].
      eapply Woven_c_putch; [exact W | now left | reflexivity].
Qed.

Lemma Woven_cpp_comment (c oc : int) (s : State) :
  Woven E [to_char c] s -> comment_chan s <> [] ->
  Woven E [] (snd (cpp_comment E c oc s))
  /\ comment_chan (snd (cpp_comment E c oc s)) <> [].
Proof.
  intros W Ho. unfold cpp_comment.
  destruct ((c =? chr NL) && negb (oc =? chr BSLASH)); sx.
  - split; [wv; reflexivity|].
    now rewrite (em_comment _ _ _ _ _ _ (Emits_s_putch E (to_char c) s)).
  - split; [|apply comment_chan_c_putch].
    eapply Woven_c_putch; [exact W | now left | reflexivity].
Qed.

(** *** Raw strings *)

Lemma Woven_raw_scan_close (n : nat) : forall markstr marklen endstr c0 s,
  valid_mark markstr -> marklen = List.length markstr ->
  has_raw (m_input E) = true ->
  (exists m2, markstr = endstr ++ m2) ->
  Behind E c0 s -> c0 = RPAREN \/ invalid_mark_char (int_of_char c0) = false ->
  enough E n (itr s) ->
  Woven E (RPAREN :: endstr) s ->
  Woven E [] (snd (raw_scan_close E n markstr marklen endstr s)).
Proof.
  induction n as [|n IH]; intros markstr marklen endstr c0 s V L HR0 [m2 Hm] B C H W.
  - unfold enough in H. lia.
  - pose proof (not_at_end_closing E no_NUL whole_end c0 s HR0 B C) as HE.
    pose proof (prefix_NUL markstr V _ _ Hm) as N.
    assert (W1 : Woven E (RPAREN :: endstr ++ [to_char (peekc E s)]) (advance E s)).
    { eapply Woven_advance; [exact W | exact HE | reflexivity]. }
    cbn [raw_scan_close]. rewrite bind_eq, (getch_eq E). cbn [fst snd]. rewrite !HE.
    destruct ((peekc E s =? chr DQUOTE) && (List.length endstr =? marklen)%nat) eqn:HD.
    { apply andb_prop in HD. destruct HD as [HD1 HD2]. apply Nat.eqb_eq in HD2.
      assert (endstr = markstr).
      { rewrite L in HD2. rewrite Hm in HD2 at 1. rewrite length_app in HD2.
        destruct m2; [now rewrite app_nil_r in Hm | cbn in HD2; lia]. }
      subst endstr. sx. wv; try reflexivity. now apply valid_mark_NUL. }
    destruct (peekc E s =? char_at markstr (List.length endstr)) eqn:HM.
    { rewrite <- (to_char_peekc E s HE) in HM.
      destruct (char_at_mark markstr V _ _ HM (input_char_not_NUL E no_NUL s HE))
        as [Lt [Hn Hv]].
      apply (IH markstr marklen _ (to_char (peekc E s))); auto.
      - now apply (prefix_nth markstr endstr m2).
      - now apply Behind_advance.
      - now apply enough_advance. }
    destruct (peekc E s =? chr RPAREN) eqn:HR.
    { rewrite (to_char_chr s RPAREN HR) in W1.
      sx. apply (IH markstr marklen [] RPAREN); auto.
      - now exists markstr.
      - apply (Behind_itr E _ (advance E s)); [now same_itr|].
        rewrite <- (to_char_chr s RPAREN HR). now apply Behind_advance.
      - apply (enough_step E n s); auto. same_itr. lia.
      - wv; try reflexivity. exact N. }
    sx. wv; try reflexivity. exact N.
Qed.

Lemma Woven_raw_scan_string_loop (n : nat) : forall markstr marklen s,
  valid_mark markstr -> marklen = List.length markstr ->
  has_raw (m_input E) = true -> enough E n (itr s) ->
  Woven E [] s ->
  Woven E [] (snd (raw_scan_string_loop E n markstr marklen s)).
Proof.
  induction n as [|n IH]; intros markstr marklen s V L HR0 H W.
  - unfold enough in H. lia.
  - cbn [raw_scan_string_loop]. rewrite bind_eq, (getch_eq E). cbn [fst snd].
    destruct (peekc E s =? EOF) eqn:HE; [exact W|].
    destruct (peekc E s =? chr RPAREN) eqn:HR; cbn [negb].
    + rewrite bind_eq.
      assert (B : Behind E RPAREN (advance E s)).
      { rewrite <- (to_char_chr s RPAREN HR). now apply Behind_advance. }
      assert (W1 : Woven E [RPAREN] (advance E s)).
      { eapply Woven_advance; [exact W | exact HE |].
        now rewrite (to_char_chr s RPAREN HR). }
      pose proof (Woven_raw_scan_close (fuel E) markstr marklen [] RPAREN (advance E s)
                    V L HR0 (ex_intro _ markstr eq_refl) B (or_introl eq_refl)
                    (enough_fuel E _) W1) as P.
      pose proof (step_itr _ _ _ (steps_raw_scan_close E markstr marklen [] (advance E s))) as I.
      rewrite itr_advance in I.
      revert P I. generalize (raw_scan_close E (fuel E) markstr marklen [] (advance E s)).
      intros [[b|] s2]; cbn [fst snd]; intros P I.
      * apply IH; auto. now apply (enough_step E n s).
      * exact P.
    + sx. apply IH; auto; [apply (enough_step E n s); auto; same_itr; lia|].
      wv; reflexivity.
Qed.

Lemma Woven_raw_scan_string (markstr : list ascii) (marklen : nat) (line1 : Z)
    (s : State) :
  valid_mark markstr -> marklen = List.length markstr ->
  has_raw (m_input E) = true -> Woven E [] s ->
  Woven E [] (snd (raw_scan_string E markstr marklen line1 s)).
Proof.
  intros V L HR0 W. unfold raw_scan_string. rewrite bind_eq.
  pose proof (Woven_raw_scan_string_loop (fuel E) markstr marklen s V L HR0
                (enough_fuel E _) W) as P.
  revert P. generalize (raw_scan_string_loop E (fuel E) markstr marklen s).
  intros [[u|] s2]; cbn [fst snd]; intros P; exact P.
Qed.

(** *** Numbers *)

Lemma Woven_check_punct (oc : int) (d : int -> Ab bool) (s : State) :
  checker d ->
  (peekc E s =? EOF) = false -> Woven E [] s ->
  unless_aborted (fun _ s' => Woven E [] s') (check_punct E oc d s).
Proof.
  intros D HE W. unfold check_punct. sx. rewrite (getch_eq E), HE. sx.
  apply unless_assert. intros _. sx.
  set (s2 := snd (when (negb (f_NumPunct (features E))) (warn_feature E F_NUMPUNCT) _)).
  assert (W2 : Woven E [] s2) by (subst s2; wv; reflexivity).
  apply unless_bind. intros before _. rewrite (proj1 (D oc s2)).
  destruct (negb before).
  - sx. ret_ok. wv.
  - sx. destruct (peekc E s2 =? EOF).
    + sx. ret_ok. wv.
    + apply unless_bind. intros after _. rewrite (proj1 (D _ s2)). sx. ret_ok. wv.
Qed.

Lemma Woven_parse_exponent (s : State) :
  (peekc E s =? EOF) = false -> Woven E [] s ->
  unless_aborted (fun _ s' => Woven E [] s') (parse_exponent E s).
Proof.
  intros HE W. unfold parse_exponent. sx. rewrite (getch_eq E), HE. sx.
  apply unless_assert. intros _. sx.
  set (s1 := snd (s_putch E (to_char (peekc E s)) (advance E s))).
  assert (W1 : Woven E [] s1) by (subst s1; wv; reflexivity).
  set (b := (peekc E s1 =? chr "+") || (peekc E s1 =? chr "-")).
  set (s2 := snd (when b _ s1)).
  assert (W2 : Woven E [] s2).
  { subst s2. destruct b eqn:B; cbn [when]; [|exact W1].
    assert (HE1 : (peekc E s1 =? EOF) = false).
    { apply (not_EOF_of _ _ B). intros Q. subst b. now rewrite Q. }
    sx. rewrite (getch_eq E), HE1. sx. wv; reflexivity. }
  ret_ok.
  apply Woven_when; [|intros X; sx; wv].
  apply Woven_exponent_digits; [apply enough_fuel | exact W2].
Qed.

Lemma Woven_parse_hex_loop (n : nat) : forall oc warned s,
  enough E n (itr s) -> Woven E [] s ->
  unless_aborted (fun r s' => Woven E [] s' /\ fst r = peekc E s')
    (parse_hex_loop E n oc warned s).
Proof.
  induction n as [|n IH]; intros oc warned s H W.
  - unfold enough in H. lia.
  - cbn [parse_hex_loop]. sx.
    destruct ((peekc E s =? chr SQUOTE) || isxdigit (peekc E s)
              || (peekc E s =? chr ".")) eqn:C; [|ret_ok; now split].
    assert (HE : (peekc E s =? EOF) = false).
    { apply (not_EOF_of _ _ C). intros Q. now rewrite Q. }
    destruct (peekc E s =? chr SQUOTE).
    + apply unless_bind. intros oc' Hoc.
      pose proof (check_punct_step E oc (ctype isxdigit) s checker_ctype_isxdigit HE)
        as H3.
      pose proof (step_itr _ _ _ H3) as L. rewrite itr_advance in L.
      apply IH; [now apply (enough_step E n s)|].
      exact (unless_Some _ _ _
               (Woven_check_punct oc _ s checker_ctype_isxdigit HE W) Hoc).
    + sx.
      set (s0 := snd ((if (peekc E s =? chr ".") && negb (f_HexFloat (features E))
                       then when (negb warned) (warn_feature E F_HEXFLOAT);;; ret true
                       else ret warned) s)).
      assert (I0 : itr s0 = itr s /\ Woven E [] s0).
      { subst s0. destruct ((peekc E s =? chr ".") && negb (f_HexFloat (features E)));
          [destruct (negb warned)|]; split; try reflexivity; exact W. }
      destruct I0 as [I0 W0].
      assert (HE0 : (peekc E s0 =? EOF) = false) by (now rewrite (peekc_itr E s s0 I0)).
      rewrite (getch_eq E), HE0. sx.
      apply IH; [apply (enough_step E n s); auto; same_itr; lia|].
      wv; reflexivity.
Qed.

Lemma Woven_parse_hex (s : State) :
  (peekc E s =? EOF) = false -> Woven E ["0"%char] s ->
  unless_aborted (fun _ s' => Woven E [] s') (parse_hex E s).
Proof.
  intros HE W. unfold parse_hex. sx.
  set (s1 := snd (s_putch E "0" s)).
  assert (W1 : Woven E [] s1) by (subst s1; wv; reflexivity).
  assert (HE1 : (peekc E s1 =? EOF) = false).
  { subst s1. rewrite (peekc_itr E s); [exact HE | now same_itr]. }
  rewrite (getch_eq E), HE1. sx.
  apply unless_assert. intros _. sx.
  apply unless_bind. intros r Hr.
  match type of Hr with fst (parse_hex_loop E (fuel E) ?a ?b ?c) = _ =>
    destruct (unless_Some _ _ _
                (Woven_parse_hex_loop (fuel E) a b c (enough_fuel E _)
                   ltac:(wv; reflexivity)) Hr) as [Wr L2];
    set (sr := snd (parse_hex_loop E (fuel E) a b c)) in *
  end.
  cbv zeta. apply unless_when; [|intros _; exact Wr].
  intros C.
  assert (HEr : (peekc E sr =? EOF) = false).
  { rewrite <- L2. apply (not_EOF_of _ _ C). intros Q. now rewrite Q. }
  sx.
  set (s3 := snd (when _ _ sr)).
  assert (I3 : itr s3 = itr sr /\ Woven E [] s3).
  { subst s3. destruct (negb (f_HexFloat (features E)) && negb (snd r));
      split; try reflexivity; exact Wr. }
  destruct I3 as [I3 W3].
  apply Woven_parse_exponent; [|exact W3].
  now rewrite (peekc_itr E sr s3 I3).
Qed.

Lemma Woven_digits_loop (d : int -> Ab bool) (n : nat) :
  checker d ->
  forall oc s, enough E n (itr s) -> Woven E [] s ->
  unless_aborted (fun pc s' => Woven E [] s' /\ pc = peekc E s')
    (digits_loop E n d oc s).
Proof.
  intros D. induction n as [|n IH]; intros oc s H W.
  - unfold enough in H. lia.
  - cbn [digits_loop]. sx.
    destruct (peekc E s =? chr SQUOTE) eqn:SQ.
    + assert (HE : (peekc E s =? EOF) = false).
      { apply Z.eqb_eq in SQ. now rewrite SQ. }
      apply unless_bind. intros oc' Hoc.
      pose proof (check_punct_step E oc d s D HE) as H3.
      pose proof (step_itr _ _ _ H3) as L. rewrite itr_advance in L.
      apply IH; [now apply (enough_step E n s)|].
      exact (unless_Some _ _ _ (Woven_check_punct oc d s D HE W) Hoc).
    + apply unless_bind. intros digit Hd. rewrite (proj1 (D _ s)).
      destruct digit; [|ret_ok; now split].
      assert (HE : (peekc E s =? EOF) = false).
      { destruct (peekc E s =? EOF) eqn:Q; [|reflexivity].
        apply Z.eqb_eq in Q. rewrite (proj2 (D _ s) Q) in Hd. discriminate. }
      sx. rewrite (getch_eq E), HE. sx.
      apply IH; [apply (enough_step E n s); auto; same_itr; lia|].
      wv; reflexivity.
Qed.

Lemma Woven_parse_binary (s : State) :
  (peekc E s =? EOF) = false -> Woven E ["0"%char] s ->
  unless_aborted (fun _ s' => Woven E [] s') (parse_binary E s).
Proof.
  intros HE W. unfold parse_binary. rewrite bind_lift.
  set (s0 := snd (when _ _ s)).
  assert (I0 : itr s0 = itr s /\ Woven E ["0"%char] s0).
  { subst s0. destruct (negb (f_Binary (features E))); split; try reflexivity;
      exact W. }
  destruct I0 as [I0 W0]. sx.
  set (s1 := snd (s_putch E "0" s0)).
  assert (W1 : Woven E [] s1) by (subst s1; wv; reflexivity).
  assert (HE1 : (peekc E s1 =? EOF) = false).
  { subst s1. rewrite (peekc_itr E s0); [now rewrite (peekc_itr E s s0 I0) | now same_itr]. }
  rewrite (getch_eq E), HE1. sx.
  apply unless_assert. intros _. sx.
  apply unless_bind. intros pc Hpc.
  match type of Hpc with fst (digits_loop E (fuel E) ?d ?a ?c) = _ =>
    destruct (unless_Some _ _ _
                (Woven_digits_loop d (fuel E) checker_is_binary a c (enough_fuel E _)
                   ltac:(wv; reflexivity)) Hpc) as [Wr _]
  end.
  ret_ok. apply Woven_when; [exact Wr|]. intros X. sx. now apply Woven_warning.
Qed.

Lemma Woven_parse_octal (s : State) :
  (peekc E s =? EOF) = false -> Woven E ["0"%char] s ->
  unless_aborted (fun _ s' => Woven E [] s') (parse_octal E s).
Proof.
  intros HE W. unfold parse_octal. sx.
  set (s1 := snd (s_putch E "0" s)).
  assert (W1 : Woven E [] s1) by (subst s1; wv; reflexivity).
  assert (HE1 : (peekc E s1 =? EOF) = false).
  { subst s1. rewrite (peekc_itr E s); [exact HE | now same_itr]. }
  rewrite (getch_eq E), HE1. sx.
  apply unless_bind. intros octal _. rewrite (proj1 (checker_is_octal _ _)).
  apply unless_assert. intros _. sx.
  apply unless_bind. intros pc Hpc.
  match type of Hpc with fst (digits_loop E (fuel E) ?d ?a ?c) = _ =>
    destruct (unless_Some _ _ _
                (Woven_digits_loop d (fuel E) checker_is_octal a c (enough_fuel E _)
                   ltac:(wv; reflexivity)) Hpc) as [Wr _]
  end.
  ret_ok. apply Woven_when; [exact Wr|]. intros X. sx. now apply Woven_warning.
Qed.




Lemma Woven_parse_decimal (c : int) (s : State) :
  Woven E [to_char c] s ->
  unless_aborted (fun _ s' => Woven E [] s') (parse_decimal E c s).
Proof.
  intros W. unfold parse_decimal. sx.
  set (s1 := snd (s_putch E (to_char c) s)).
  assert (W1 : Woven E [] s1) by (subst s1; wv; reflexivity).
  apply unless_when; [|intros _; exact W1]. intros C.
  assert (HE1 : (peekc E s1 =? EOF) = false).
  { apply (not_EOF_of _ _ C). intros Q. now rewrite Q. }
  sx. rewrite (getch_eq E), HE1. sx.
  apply unless_assert. intros _. sx.
  apply unless_bind. intros pc Hpc.
  match type of Hpc with fst (digits_loop E (fuel E) ?d ?a ?c) = _ =>
    destruct (unless_Some _ _ _
                (Woven_digits_loop d (fuel E) checker_ctype_isdigit a c (enough_fuel E _)
                   ltac:(wv; reflexivity)) Hpc) as [Wr L2];
    set (sr := snd (digits_loop E (fuel E) d a c)) in *
  end.
  apply unless_when; [|intros _; exact Wr]. intros C2.
  apply Woven_parse_exponent; [|exact Wr].
  rewrite <- L2. apply (not_EOF_of _ _ C2). intros Q. now rewrite Q.
Qed.

Lemma Woven_parse_number (c : int) (s : State) :
  Woven E [to_char c] s ->
  unless_aborted (fun _ s' => Woven E [] s') (parse_number E c s).
Proof.
  intros W. unfold parse_number. apply unless_assert. intros _. sx.
  destruct (negb (c =? chr "0")) eqn:Z0; [now apply Woven_parse_decimal|].
  assert (W0 : Woven E ["0"%char] s).
  { apply negb_false_iff, Z.eqb_eq in Z0. now rewrite Z0 in W. }
  destruct ((peekc E s =? chr "x") || (peekc E s =? chr "X")) eqn:C1.
  { apply Woven_parse_hex; [|exact W0].
    apply (not_EOF_of _ _ C1). intros Q. now rewrite Q. }
  destruct ((peekc E s =? chr "b") || (peekc E s =? chr "B")) eqn:C2.
  { apply Woven_parse_binary; [|exact W0].
    apply (not_EOF_of _ _ C2). intros Q. now rewrite Q. }
  apply unless_bind. intros octal Ho. rewrite is_octal_eq in *. cbn [fst snd] in *.
  destruct (octal || (peekc E s =? chr SQUOTE)) eqn:C3.
  { apply Woven_parse_octal; [|exact W0].
    apply (not_EOF_of _ _ C3). intros Q. rewrite Q in Ho. cbn in Ho.
    inversion Ho. subst octal. now rewrite Q. }
  destruct ((peekc E s =? chr "e") || (peekc E s =? chr "E") || (peekc E s =? chr "."));
    [now apply Woven_parse_decimal|].
  clear W0. destruct (isdigit (peekc E s)); ret_ok; wv; reflexivity.
Qed.

(** *** Identifiers and universal character names *)

Lemma Woven_read_remainder_loop (n : nat) : forall s,
  enough E n (itr s) -> Woven E [] s ->
  unless_aborted (fun _ s' => Woven E [] s')
    (read_remainder_of_identifier_loop E n s).
Proof.
  induction n as [|n IH]; intros s H W.
  - unfold enough in H. lia.
  - cbn [read_remainder_of_identifier_loop]. sx.
    destruct (peekc E s =? EOF) eqn:HE; [ret_ok; exact W|].
    apply unless_bind. intros idchar _. rewrite is_idchar_eq. cbn [snd].
    destruct idchar; [|ret_ok; exact W].
    sx. rewrite (getch_eq E), HE. sx.
    apply IH; [apply (enough_step E n s); auto; same_itr; lia|].
    wv; reflexivity.
Qed.

Lemma Woven_read_remainder (s : State) :
  Woven E [] s ->
  unless_aborted (fun _ s' => Woven E [] s') (read_remainder_of_identifier E s).
Proof. apply Woven_read_remainder_loop, enough_fuel. Qed.

Lemma Woven_scan_ucn (letter : int) (nbytes : nat) (s : State) :
  (peekc E s =? EOF) = false -> Woven E [BSLASH] s ->
  unless_aborted (fun _ s' => Woven E [] s') (scan_ucn E letter nbytes s).
Proof.
  intros HE W. unfold scan_ucn.
  apply unless_assert. intros _. apply unless_assert. intros _. rewrite bind_lift.
  set (s0 := snd (when _ _ s)).
  assert (I0 : itr s0 = itr s /\ Woven E [BSLASH] s0).
  { subst s0. destruct (negb (f_Universal (features E))); split; try reflexivity;
      exact W. }
  destruct I0 as [I0 W0]. sx.
  set (s1 := snd (s_putch E BSLASH s0)).
  assert (W1 : Woven E [] s1) by (subst s1; wv; reflexivity).
  assert (HE1 : (peekc E s1 =? EOF) = false).
  { subst s1. rewrite (peekc_itr E s0); [now rewrite (peekc_itr E s s0 I0) | now same_itr]. }
  rewrite (getch_eq E), HE1. sx.
  apply unless_assert. intros _. sx. ret_ok.
  apply Woven_when; [|intros X; sx; wv].
  apply Woven_scan_ucn_loop. wv; reflexivity.
Qed.

(** *** Raw strings and prefixed literals *)

Lemma unless_tidy {A : Type} (m : Ab A) (a : State) (Q : A -> State -> Prop) :
  Step E a (snd (m a)) ->
  (tidy (console a) = true ->
   unless_aborted (fun r s' => tidy (console s') = true -> Q r s') (m a)) ->
  unless_aborted (fun r s' => tidy (console s') = true -> Q r s') (m a).
Proof.
  intros St H. unfold unless_aborted in *.
  destruct (fst (m a)) as [r|]; [|exact I].
  intros T. exact (H (tidy_Step E _ _ St T) T).
Qed.

Lemma Woven_raw_scan_marker_loop (n : nat) : forall markstr pfx s h,
  valid_mark markstr -> enough E n (itr s) ->
  Woven E (h ++ markstr) s ->
  unless_aborted
    (fun r s' =>
       tidy (console s') = true ->
       snd (snd r) = List.length (fst (snd r))
       /\ ~ In NUL (fst (snd r))
       /\ (fst r = true -> valid_mark (fst (snd r)))
       /\ Woven E (h ++ fst (snd r) ++ (if fst r then [LPAREN] else [])) s')
    (raw_scan_marker_loop E n markstr pfx s).
Proof.
  induction n as [|n IH]; intros markstr pfx s h V H W.
  - unfold enough in H. lia.
  - cbn [raw_scan_marker_loop]. sx. rewrite (getch_eq E). cbn [fst snd].
    destruct (peekc E s =? EOF) eqn:HE.
    { sx. ret_ok. intros _. cbn [fst snd]. rewrite app_nil_r.
      repeat split; [now apply valid_mark_NUL | discriminate | now apply Woven_warning]. }
    destruct (peekc E s =? chr LPAREN) eqn:HL.
    { apply unless_assert. intros _. ret_ok. intros _. cbn [fst snd].
      repeat split; [now apply valid_mark_NUL | auto |].
      eapply Woven_advance; [exact W | exact HE |].
      now rewrite (to_char_chr s LPAREN HL), app_assoc. }
    destruct (MAX_RAW_MARKER <=? List.length markstr)%nat.
    { rewrite orb_true_r. sx. ret_ok.
      unfold warning, modify. cbn [fst snd console set_console].
      intros T. exfalso. revert T. apply tidy_too_long. }
    rewrite orb_false_r.
    destruct (invalid_mark_char (peekc E s)) eqn:HI.
    { sx. ret_ok. intros _. cbn [fst snd]. rewrite app_nil_r, length_app.
      cbn [List.length]. repeat split; [lia | | discriminate |].
      - apply (not_In_snoc E no_NUL); [now apply valid_mark_NUL | exact HE].
      - apply Woven_warning.
        eapply Woven_advance; [exact W | exact HE |]. now rewrite app_assoc. }
    apply (IH (markstr ++ [to_char (peekc E s)]) pfx (advance E s) h
             (valid_mark_snoc _ _ V HI) (enough_advance E n s HE H)).
    eapply Woven_advance; [exact W | exact HE |]. now rewrite app_assoc.
Qed.

Lemma Woven_parse_raw_string (prefix : list ascii) (s : State) :
  has_raw (m_input E) = true ->
  Woven E [DQUOTE] s ->
  unless_aborted (fun _ s' => tidy (console s') = true -> Woven E [] s')
    (parse_raw_string E prefix s).
Proof.
  intros HR0 W. unfold parse_raw_string, raw_scan_marker.
  apply unless_bind. intros r Hr.
  pose proof (unless_Some _ _ _
                (Woven_raw_scan_marker_loop (fuel E) [] prefix s [DQUOTE]
                   (Forall_nil _) (enough_fuel E _) W) Hr) as P.
  cbn [app] in P. cbv zeta.
  apply unless_tidy; [from_here; steps_tac|]. intros T1.
  destruct (P T1) as [L [N [V Wm]]].
  destruct (fst r).
  - sx. ret_ok. intros _. apply Woven_raw_scan_string; auto.
    wv; try reflexivity. exact N.
  - sx. ret_ok. intros _. apply Woven_endquote. wv; try reflexivity. exact N.
Qed.

Lemma Woven_parse_dq_string (prefix : list ascii) (s : State) :
  ~ In NUL prefix ->
  Woven E (prefix ++ [DQUOTE]) s ->
  unless_aborted (fun _ s' => tidy (console s') = true -> Woven E [] s')
    (parse_dq_string E prefix s).
Proof.
  intros N W. unfold parse_dq_string. apply unless_assert. intros _.
  destruct (valid_dq_raw_prefix prefix) eqn:VR.
  - sx. apply Woven_parse_raw_string.
    { destruct (raw_prefix_last prefix N VR) as [p Hp].
      destruct W as [tr [R _]].
      rewrite <- (firstn_skipn (itr s) (m_input E)), <- R, Hp.
      apply has_raw_app. rewrite <- app_assoc. cbn [app].
      rewrite app_assoc. apply has_raw_here. }
    eapply Woven_s_putstr; [| exact N | reflexivity].
    apply Woven_when; [exact W | intros X; now apply Woven_warn_feature].
  - sx. ret_ok. intros _. apply Woven_endquote.
    eapply Woven_s_putch; [|reflexivity].
    eapply Woven_s_putstr; [| exact N | reflexivity].
    apply Woven_when; [exact W | intros X; now apply Woven_warn_feature].
Qed.

Lemma Woven_process_poss_string_literal_loop (n : nat) : forall prefix c0 s,
  ~ In NUL prefix -> Behind E c0 s -> could_be_string_literal c0 = true ->
  enough E n (itr s) ->
  Woven E prefix s ->
  unless_aborted (fun _ s' => tidy (console s') = true -> Woven E [] s')
    (process_poss_string_literal_loop E n prefix s).
Proof.
  induction n as [|n IH]; intros prefix c0 s N B C H W.
  - unfold enough in H. lia.
  - pose proof (not_at_end_prefix E no_NUL whole_end c0 s B C) as HE.
    cbn [process_poss_string_literal_loop]. sx. rewrite HE.
    assert (Q : forall s0, itr s0 = itr s ->
                  s0 = snd (s_putstr E prefix s) ->
                  Woven E [] (snd (endquote E (to_char (peekc E s0)) "character constant"
                                     (snd (s_putch E (to_char (peekc E s0))
                                             (advance E s0)))))).
    { intros s0 I ->. apply Woven_endquote.
      assert (HE1 : (peekc E (snd (s_putstr E prefix s)) =? EOF) = false).
      { rewrite (peekc_itr E s); [exact HE | exact I]. }
      pose proof (Woven_s_putstr E prefix prefix [] s W N (eq_sym (app_nil_r _))) as W2.
      wv; reflexivity. }
    destruct (peekc E s =? chr SQUOTE).
    { sx.
      assert (HE1 : (peekc E (snd (s_putstr E prefix s)) =? EOF) = false).
      { rewrite (peekc_itr E s); [exact HE | now same_itr]. }
      rewrite (getch_eq E), HE1. sx. ret_ok. intros _. apply Q; auto. now same_itr. }
    destruct (peekc E s =? chr DQUOTE) eqn:HD.
    { destruct (valid_dq_prefix prefix).
      - sx. rewrite (getch_eq E), HE. cbn [fst snd].
        apply Woven_parse_dq_string; [exact N|].
        eapply Woven_advance; [exact W | exact HE |].
        now rewrite (to_char_chr s DQUOTE HD).
      - sx.
        assert (HE1 : (peekc E (snd (s_putstr E prefix s)) =? EOF) = false).
        { rewrite (peekc_itr E s); [exact HE | now same_itr]. }
        rewrite (getch_eq E), HE1. sx. ret_ok. intros _. apply Q; auto. now same_itr. }
    destruct (could_be_string_literal (to_char (peekc E s))) eqn:CB.
    { sx. rewrite (getch_eq E), HE. cbn [fst snd].
      pose proof (not_In_snoc E no_NUL prefix s N HE) as N'.
      destruct (3 <? List.length (prefix ++ [to_char (peekc E s)]))%nat.
      - sx. eapply unless_weaken; [apply Woven_read_remainder | auto].
        eapply Woven_s_putstr; [| exact N' |].
        + eapply Woven_advance; [exact W | exact HE | reflexivity].
        + now rewrite app_nil_r.
      - apply (IH _ (to_char (peekc E s))); auto.
        + now apply Behind_advance.
        + now apply enough_advance.
        + eapply Woven_advance; [exact W | exact HE | reflexivity]. }
    sx. eapply unless_weaken; [apply Woven_read_remainder | auto].
    eapply Woven_s_putstr; [exact W | exact N |]. now rewrite app_nil_r.
Qed.

Lemma Woven_parse_identifier (c : int) (s : State) :
  Behind E (to_char c) s ->
  Woven E [to_char c] s ->
  unless_aborted (fun _ s' => tidy (console s') = true -> Woven E [] s')
    (parse_identifier E c s).
Proof.
  intros B W. unfold parse_identifier. apply unless_assert. intros _.
  destruct (could_be_string_literal (to_char c)) eqn:CB.
  - destruct (could_be_string_literal_char _ CB) as [C1 C2].
    apply (Woven_process_poss_string_literal_loop (fuel E) [to_char c] (to_char c));
      auto using enough_fuel.
    intros [X|[]]. now apply C1.
  - sx. eapply unless_weaken; [apply Woven_read_remainder | auto]. wv; reflexivity.
Qed.

(** *** The scan *)

Lemma comment_chan_when_fills (a b : ascii) (s : State) :
  comment_chan (snd (when (printEmptyCommentInsteadOfBlank E)
                       (s_fill E a;;; s_fill E b) s)) = comment_chan s.
Proof.
  destruct (printEmptyCommentInsteadOfBlank E); cbn [when]; [|reflexivity].
  rewrite bind_eq. now rewrite !comment_chan_s_fill.
Qed.

Lemma Woven_when_fills (a b : ascii) (s : State) :
  Woven E [] s -> comment_chan s <> [] ->
  Woven E [] (snd (when (printEmptyCommentInsteadOfBlank E)
                     (s_fill E a;;; s_fill E b) s)).
Proof.
  intros W H. destruct (printEmptyCommentInsteadOfBlank E); cbn [when]; [|exact W].
  rewrite bind_eq. apply Woven_s_fill; [now apply Woven_s_fill|].
  now rewrite comment_chan_s_fill.
Qed.

Lemma Woven_non_comment (c : int) (s : State) :
  Behind E (to_char c) s ->
  Woven E [to_char c] s ->
  unless_aborted
    (fun st s' => tidy (console s') = true ->
                  Woven E [] s' /\ (st <> NonComment -> comment_chan s' <> []))
    (non_comment E c s).
Proof.
  intros B W. unfold non_comment.
  destruct (c =? chr "*") eqn:CS.
  { rewrite (to_char_eqb c "*" CS) in *. rewrite bind_lift.
    pose proof (Woven_read_bsnl _ s W) as W1. revert W1.
    generalize (read_bsnl E s). intros [b s1]. cbn [fst snd]. intros W1. sx.
    destruct (peekc E s1 =? chr "/") eqn:HP.
    - assert (HE : (peekc E s1 =? EOF) = false).
      { apply Z.eqb_eq in HP. now rewrite HP. }
      sx. rewrite (getch_eq E), HE. sx. ret_ok. intros _.
      split; [|intros X; now contradiction X].
      apply Woven_set_l_cend. apply Woven_when; [|intros X; sx; wv].
      eapply Woven_s_putch; [|reflexivity].
      eapply Woven_write_bsnl_s; [|reflexivity].
      eapply Woven_s_putch; [|reflexivity].
      eapply Woven_advance; [exact W1 | exact HE |].
      now rewrite (to_char_chr s1 "/" HP).
    - sx. ret_ok. intros _. split; [|intros X; now contradiction X].
      eapply Woven_write_bsnl_s; [|now rewrite app_nil_r].
      eapply Woven_s_putch; [exact W1 | reflexivity]. }
  destruct (c =? chr SQUOTE).
  { sx. ret_ok. intros _. split; [|intros X; now contradiction X].
    apply Woven_endquote. wv; reflexivity. }
  destruct (c =? chr DQUOTE).
  { sx. ret_ok. intros _. split; [|intros X; now contradiction X].
    apply Woven_endquote. wv; reflexivity. }
  destruct (c =? chr "/") eqn:CL.
  { rewrite (to_char_eqb c "/" CL) in *. rewrite bind_lift.
    pose proof (Woven_read_bsnl _ s W) as W1. revert W1.
    generalize (read_bsnl E s). intros [b s1]. cbn [fst snd]. intros W1. sx.
    destruct (peekc E s1 =? chr "*") eqn:HP.
    { assert (HE : (peekc E s1 =? EOF) = false).
      { apply Z.eqb_eq in HP. now rewrite HP. }
      sx. rewrite (getch_eq E), HE. sx.
      set (X1 := snd (c_putch E "/" (advance E s1))).
      assert (WX1 : Woven E (pairs b ++ ["*"%char]) X1).
      { subst X1. eapply Woven_c_putch; [| now right | reflexivity].
        eapply Woven_advance; [exact W1 | exact HE |].
        rewrite (to_char_chr s1 "*" HP). reflexivity. }
      destruct (Woven_write_bsnl_c E b _ ["*"%char] X1 WX1
                  (comment_chan_c_putch E _ _) eq_refl) as [WX2 H2].
      set (X2 := snd (write_bsnl b (c_putch E) X1)) in *.
      assert (WX3 : Woven E [] (snd (c_putch E "*" X2))).
      { eapply Woven_c_putch; [exact WX2 | now left | reflexivity]. }
      ret_ok. intros _. split.
      - apply Woven_when_fills; [exact WX3 | apply comment_chan_c_putch].
      - intros _. rewrite comment_chan_when_fills. apply comment_chan_c_putch. }
    destruct (peekc E s1 =? chr "/") eqn:HQ.
    - assert (HE : (peekc E s1 =? EOF) = false).
      { apply Z.eqb_eq in HQ. now rewrite HQ. }
      rewrite !andb_true_r. destruct (f_DoubleSlash (features E)); cbn [negb].
      + sx. rewrite (getch_eq E), HE. sx. rewrite (to_char_chr s1 "/" HQ).
        set (X1 := snd (c_putch E "/" (advance E s1))).
        assert (WX1 : Woven E (pairs b ++ ["/"%char]) X1).
        { subst X1. eapply Woven_c_putch; [| now right | reflexivity].
          eapply Woven_advance; [exact W1 | exact HE |].
          rewrite (to_char_chr s1 "/" HQ). reflexivity. }
        destruct (Woven_write_bsnl_c E b _ ["/"%char] X1 WX1
                    (comment_chan_c_putch E _ _) eq_refl) as [WX2 H2].
        set (X2 := snd (write_bsnl b (c_putch E) X1)) in *.
        assert (WX3 : Woven E [] (snd (c_putch E "/" X2))).
        { eapply Woven_c_putch; [exact WX2 | now left | reflexivity]. }
        ret_ok. intros _. split.
        * apply Woven_when_fills; [exact WX3 | apply comment_chan_c_putch].
        * intros _. rewrite comment_chan_when_fills. apply comment_chan_c_putch.
      + sx.
        assert (HE' : (peekc E (snd (warn_feature E F_DOUBLESLASH s1)) =? EOF) = false).
        { rewrite (peekc_itr E s1); [exact HE | reflexivity]. }
        rewrite (getch_eq E), HE'. sx.
        rewrite (peekc_itr E s1 (snd (warn_feature E F_DOUBLESLASH s1)) eq_refl).
        rewrite (to_char_chr s1 "/" HQ). ret_ok. intros _.
        split; [|intros X; now contradiction X].
        eapply Woven_s_putch; [|reflexivity].
        eapply Woven_write_bsnl_s; [|reflexivity].
        eapply Woven_s_putch; [|reflexivity].
        eapply Woven_advance; [apply Woven_warn_feature; exact W1 | exact HE' |].
        rewrite (peekc_itr E s1 (snd (warn_feature E F_DOUBLESLASH s1)) eq_refl).
        now rewrite (to_char_chr s1 "/" HQ).
    - rewrite !andb_false_r. sx. ret_ok. intros _.
      split; [|intros X; now contradiction X].
      change (to_char (int_of_char "/")) with "/"%char.
      eapply Woven_write_bsnl_s; [|now rewrite app_nil_r].
      eapply Woven_s_putch; [exact W1 | reflexivity]. }
  rewrite bind_lift.
  set (r := (if isdigit c then ret true
             else if c =? chr "." then pc <- peek E;; ret (isdigit pc)
             else ret false) s).
  assert (R : snd r = s).
  { subst r. destruct (isdigit c); [reflexivity|].
    destruct (c =? chr "."); [sx|]; reflexivity. }
  rewrite R. destruct (fst r).
  { apply unless_bind. intros u Hu.
    pose proof (unless_Some _ _ _ (Woven_parse_number c s W) Hu) as Wn.
    ret_ok. intros _. split; [exact Wn | intros X; now contradiction X]. }
  destruct (isalnum c || (c =? chr "_")).
  { apply unless_bind. intros u Hu.
    pose proof (unless_Some _ _ _ (Woven_parse_identifier c s B W) Hu) as Wn.
    ret_ok. intros T. split; [exact (Wn T) | intros X; now contradiction X]. }
  rewrite bind_lift.
  set (r2 := (if c =? chr BSLASH then peek E else ret c) s).
  assert (R2 : snd r2 = s /\ ((c =? chr BSLASH) = true -> fst r2 = peekc E s)).
  { subst r2. destruct (c =? chr BSLASH); [rewrite (peek_eq E)|]; split; auto;
      discriminate. }
  destruct R2 as [R2 R3]. rewrite R2.
  destruct ((c =? chr BSLASH) && ((fst r2 =? chr "u") || (fst r2 =? chr "U"))) eqn:U.
  - apply andb_prop in U. destruct U as [U1 U2]. rewrite (R3 U1) in *.
    apply unless_bind. intros u Hu.
    assert (Wu : Woven E [] (snd (scan_ucn E (peekc E s)
                                    (if peekc E s =? chr "u" then 4%nat else 8%nat) s))).
    { refine (unless_Some _ _ _ (Woven_scan_ucn _ _ s _ _) Hu).
      - apply (not_EOF_of _ _ U2). intros Q. now rewrite Q.
      - now rewrite (to_char_eqb c BSLASH U1) in W. }
    ret_ok. intros _. split; [exact Wu | intros X; now contradiction X].
  - sx. ret_ok. intros _. split; [|intros X; now contradiction X]. wv; reflexivity.
Qed.

Lemma Woven_scc_loop (n : nat) : forall oc status s,
  enough E n (itr s) ->
  (status <> NonComment -> comment_chan s <> []) ->
  Woven E [] s ->
  unless_aborted
    (fun _ s' => tidy (console s') = true ->
                 Woven E [] s' /\ (List.length (m_input E) <= itr s')%nat)
    (scc_loop E n oc status s).
Proof.
  induction n as [|n IH]; intros oc status s H Ho W.
  - unfold enough in H. lia.
  - cbn [scc_loop]. rewrite bind_lift, (getch_eq E). cbn [fst snd].
    destruct (peekc E s =? EOF) eqn:HE.
    { ret_ok. intros _. split; [exact W|].
      rewrite (peekc_EOF E) in HE. now apply Nat.leb_le. }
    set (m := match status with
              | NonComment => non_comment E (peekc E s)
              | CComment => lift (c_comment E (peekc E s))
              | CppComment => lift (cpp_comment E (peekc E s) oc)
              end).
    apply unless_bind. intros st Hst.
    assert (St : Step E (advance E s) (snd (m (advance E s)))).
    { subst m. from_here. destruct status; steps_tac. }
    pose proof (step_itr _ _ _ St) as I. rewrite itr_advance in I.
    assert (H2 : enough E n (itr (snd (m (advance E s))))).
    { now apply (enough_step E n s). }
    apply unless_tidy; [now apply scc_loop_step|]. intros T1.
    assert (W1 : Woven E [to_char (peekc E s)] (advance E s)).
    { eapply Woven_advance; [exact W | exact HE | reflexivity]. }
    assert (Ho1 : comment_chan (advance E s) = comment_chan s).
    { unfold advance. destruct (peekc E s =? chr NL); reflexivity. }
    assert (R : Woven E [] (snd (m (advance E s)))
                /\ (st <> NonComment -> comment_chan (snd (m (advance E s))) <> [])).
    { subst m. destruct status.
      - refine (unless_Some _ _ _ (Woven_non_comment _ _ _ W1) Hst T1).
        now apply Behind_advance.
      - destruct (Woven_c_comment (peekc E s) (advance E s) W1) as [A B'].
        + rewrite Ho1. apply Ho. discriminate.
        + split; [exact A | intros _; exact B'].
      - destruct (Woven_cpp_comment (peekc E s) oc (advance E s) W1) as [A B'].
        + rewrite Ho1. apply Ho. discriminate.
        + split; [exact A | intros _; exact B']. }
    destruct R as [R1 R2]. now apply IH.
Qed.

End WovenText.

(** ** The whole scan of a text *)

Lemma members_built (input : list ascii) (st : Standard)
    (pc pe wn : bool) (qc sc : ascii) (o : Object) :
  SCC input (Standard_value st) pc pe wn qc sc = Some o ->
  exists status,
    final_status (Env_of input st pc pe wn qc sc) = Some status
    /\ itr (members o)
       = itr (after_rounds (Env_of input st pc pe wn qc sc) (S (List.length input)))
    /\ code_chan (members o)
       = code_chan (after_rounds (Env_of input st pc pe wn qc sc) (S (List.length input)))
    /\ comment_chan (members o)
       = comment_chan (after_rounds (Env_of input st pc pe wn qc sc)
                         (S (List.length input)))
    /\ n_fill (members o)
       = n_fill (after_rounds (Env_of input st pc pe wn qc sc) (S (List.length input)))
    /\ m_result (members o)
       = m_result (after_rounds (Env_of input st pc pe wn qc sc) (S (List.length input)))
    /\ console (members o)
       = console (after_rounds (Env_of input st pc pe wn qc sc) (S (List.length input)))
         ++ (if negb (Comment_eqb status NonComment)
             then [(nline (after_rounds (Env_of input st pc pe wn qc sc)
                             (S (List.length input))), unterminated_text)]
             else []).
Proof.
  intros H. destruct (SCC_Some _ _ _ _ _ _ _ _ H) as [status F].
  exists status. split; [exact F|].
  rewrite (SCC_built _ _ _ _ _ _ _ _ F) in H. inversion H. cbn [members].
  change (fuel (Env_of input st pc pe wn qc sc)) with (S (List.length input)).
  destruct (negb (Comment_eqb status NonComment)); cbn; rewrite ?app_nil_r;
    repeat split.
Qed.

Lemma trace_lengths (tr : list Mark) :
  (List.length (code_of tr) + List.length (comment_of tr)
   = List.length (read_of tr) + fills_of tr)%nat.
Proof.
  induction tr as [|m tr IH]; [reflexivity|].
  change (m :: tr) with ([m] ++ tr).
  rewrite code_of_app, comment_of_app, read_of_app, fills_of_app, !length_app.
  destruct m; cbn; lia.
Qed.

Lemma comment_of_read_of (tr : list Mark) (c : ascii) :
  In c (comment_of tr) -> In c (read_of tr).
Proof.
  induction tr as [|m tr IH]; [auto|].
  destruct m; cbn; intros H.
  - right. now apply IH.
  - destruct H as [H|H]; [now left | right; now apply IH].
  - now apply IH.
Qed.

Lemma code_of_read_of (E : Env) (tr : list Mark) :
  (forall q c, quoted E q c = c) ->
  comment_of tr = [] -> fills_of tr = 0%nat -> Forall (faithful E) tr ->
  code_of tr = read_of tr.
Proof.
  intros Q. induction tr as [|m tr IH]; [reflexivity|].
  intros C F Fa. inversion Fa as [|? ? Fm Ft]; subst.
  destruct m; cbn in *.
  - destruct Fm as [q ->]. rewrite Q. f_equal. now apply IH.
  - discriminate.
  - discriminate.
Qed.

(** Of a text without the byte 0xFF whose scan was not aborted and met no
    marker that is too long, all was read and all that was read is in the
    channels. *)
Lemma scan_woven (input : list ascii) (st : Standard)
    (pc pe wn : bool) (qc sc : ascii) (o : Object) :
  ~ In NUL input -> ends_whole input = true -> ~ In EOF_byte input ->
  SCC input (Standard_value st) pc pe wn qc sc = Some o ->
  tidy (console (members o)) = true ->
  exists tr,
    read_of tr = input
    /\ code_of tr = code_chan (members o)
    /\ comment_of tr = comment_chan (members o)
    /\ fills_of tr = n_fill (members o)
    /\ Forall (faithful (Env_of input st pc pe wn qc sc)) tr
    /\ (n_fill (members o) = 0%nat \/ comment_chan (members o) <> [])
    /\ (comment_chan (members o) = []
        \/ exists t, comment_chan (members o) = "/"%char :: t).
Proof.
  intros Nn Wh Lg H T.
  destruct (members_built _ _ _ _ _ _ _ _ H) as [status [F [M1 [M2 [M3 [M4 [_ M6]]]]]]].
  set (E := Env_of input st pc pe wn qc sc) in *.
  assert (legible_input : Legible E) by exact Lg.
  assert (T' : tidy (console (after_rounds E (fuel E))) = true).
  { rewrite M6, tidy_app in T. now apply andb_prop in T. }
  assert (W0 : Woven E [] scan_start) by (exists []; repeat split; auto).
  pose proof (unless_Some _ _ _
                (Woven_scc_loop E Nn Wh (fuel E) (chr NUL) NonComment scan_start
                   (enough_fuel E _) (fun X => False_ind _ (X eq_refl)) W0) F T')
    as [[tr [R [C [M [Fi [Fa [I1 I2]]]]]]] I].
  pose proof (step_end _ _ _ (Step_full_scan E) (Nat.le_0_l _)) as U.
  fold (after_rounds E (fuel E)) in R, C, M, Fi, I1, I2, I.
  change (fuel E) with (S (List.length input)) in *.
  change (m_input E) with input in *.
  exists tr. rewrite M2, M3, M4. repeat split; auto.
  rewrite app_nil_r in R. rewrite R. apply firstn_all2. exact I.
Qed.

(** ** The warnings of digit separators *)



Section Tallies.

Variable E : Env.
Context {legible_input : Legible E}.
Hypothesis no_punct : f_NumPunct (features E) = false.


























End Tallies.

(** ** Properties of the scan *)

(** C1: ["a/*b*/c"] with the default arguments, under every standard,
    gives exactly ["a c"]: the comment with both its delimiters goes to the
    comment channel, and one blank stands for it in the code. *)
Theorem block_comment_becomes_one_space (st : Standard) :
  exists o,
    SCC_default (str "a/*b*/c") (Standard_value st) = Some o
    /\ ok o = true
    /\ text (result o) = "a c"%string
    /\ text (code_chan (members o)) = "a c"%string
    /\ text (comment_chan (members o)) = "/*b*/"%string
    /\ n_fill (members o) = 1%nat
    /\ console (members o) = [].
Proof. destruct st; vm_compute; eexists; (split; [reflexivity|]); repeat split. Qed.

(** X16: with a value that is none of the enumeration, construction
    gives an object whose flag is false and whose text is empty, whatever
    the input holds and whatever the switches are: [set_features] throws
    before anything is scanned. *)
Lemma unknown_standard_fails
    (input : list ascii) (v : Z) (pc pe wn : bool) (qc sc : ascii) :
  Standard_of_value v = None ->
  exists o, SCC input v pc pe wn qc sc = Some o /\ ok o = false /\ result o = [].
Proof.
  intros H. unfold SCC, set_features. rewrite H.
  eexists. split; [reflexivity|]. split; reflexivity.
Qed.

Lemma unknown_standard_fails_witness :
  exists o,
    SCC (str "a/*b*/c") 99 false false false NUL NUL = Some o
    /\ ok o = false /\ result o = [].
Proof.
  apply (unknown_standard_fails (str "a/*b*/c") 99 false false false NUL NUL).
  reflexivity.
Defined.

(** X15: with a value of the enumeration the flag of the object is never
    false: there is an object with the flag true and the round budget of
    the loops not used up, or an assertion ended the process inside the
    constructor and there is none. *)
Lemma known_standard_never_fails
    (input : list ascii) (st : Standard) (pc pe wn : bool) (qc sc : ascii) :
  match SCC input (Standard_value st) pc pe wn qc sc with
  | Some o => ok o = true /\ stuck (members o) = false
  | None => final_status (Env_of input st pc pe wn qc sc) = None
  end.
Proof.
  destruct (SCC input (Standard_value st) pc pe wn qc sc) as [o|] eqn:H.
  - split; [|exact (SCC_never_stuck _ _ _ _ _ _ _ _ H)].
    destruct (SCC_Some _ _ _ _ _ _ _ _ H) as [status F].
    rewrite (SCC_built _ _ _ _ _ _ _ _ F) in H. now inversion H.
  - rewrite SCC_recognised, scc_eq in H.
    destruct (final_status (Env_of input st pc pe wn qc sc)); [discriminate | reflexivity].
Qed.

(** C7 fails where the input holds a byte of 0x80 or more behind an
    identifier character: of ["a"] and the byte 0xE9 (a Latin-1 e acute),
    under every standard, [getch] returns the byte as a negative [int],
    the assertion of [is_idchar] fails, and the process is aborted inside
    the constructor: there is no object and no flag.  The byte alone, or
    inside a comment, is read and written like any other character. *)
Theorem construction_aborts_on_a_byte_over_127 (st : Standard) :
  SCC_default (str "a" ++ ["233"%char]) (Standard_value st) = None
  /\ fst (is_idchar (int_of_char "233") initial_State) = None
  /\ (exists o, SCC_default ["233"%char] (Standard_value st) = Some o
                /\ ok o = true /\ result o = ["233"%char])
  /\ (exists o, SCC_default (str "a/*" ++ ["233"%char] ++ str "*/") (Standard_value st)
                = Some o
                /\ ok o = true /\ result o = str "a ").
Proof.
  destruct st; vm_compute; (split; [reflexivity|]); (split; [reflexivity|]);
    split; eexists; (split; [reflexivity|]); split; reflexivity.
Qed.

(** C8: when the input ends inside a block comment or a line comment, the
    console shows the warning of an unterminated comment exactly once, as
    its last line; the text is what was accumulated when the input ended,
    which is all that went to the channel put out; and the flag is true. *)
Theorem unterminated_comment_warned_once
    (input : list ascii) (st : Standard) (pc pe wn : bool) (qc sc : ascii)
    (status : Comment) :
  final_status (Env_of input st pc pe wn qc sc) = Some status ->
  status <> NonComment ->
  exists o,
    SCC input (Standard_value st) pc pe wn qc sc = Some o
    /\ occurrences unterminated_text (console (members o)) = 1%nat
    /\ (exists w, console (members o) = w ++ [(nline (members o), unterminated_text)])
    /\ result o =
       m_result (after_rounds (Env_of input st pc pe wn qc sc)
                   (fuel (Env_of input st pc pe wn qc sc)))
    /\ result o = (if pc then comment_chan (members o) else code_chan (members o))
    /\ ok o = true.
Proof.
  intros F H. rewrite (SCC_built _ _ _ _ _ _ _ _ F).
  set (E := Env_of input st pc pe wn qc sc) in *.
  assert (Q : negb (Comment_eqb status NonComment) = true).
  { destruct status; [contradiction | reflexivity | reflexivity]. }
  rewrite Q. eexists. split; [reflexivity|].
  unfold result, ok. cbn [members m_ok].
  destruct (Step_full_scan E) as [_ _ _ [w [Hw Hq]] [d [Ha Hr]] _].
  cbn in Hw, Hr. unfold active in Ha. cbn in Ha.
  cbn -[occurrences]. rewrite Hw.
  repeat split.
  - rewrite occurrences_app, (occurrences_quiet w Hq). reflexivity.
  - exists w. reflexivity.
  - rewrite Hr. destruct pc; cbn in Ha; exact (eq_sym Ha).
Qed.

Lemma unterminated_comment_warned_once_witness :
  exists o,
    SCC (str "a/*b") (Standard_value C18) true false false NUL NUL = Some o
    /\ occurrences unterminated_text (console (members o)) = 1%nat.
Proof.
  destruct (unterminated_comment_warned_once
              (str "a/*b") C18 true false false NUL NUL CComment eq_refl)
    as [o [H1 [H2 _]]].
  - discriminate.
  - exists o. split; [exact H1 | exact H2].
Defined.

Lemma line_offset_peeked (E : Env) (s : State) :
  line_offset (m_input E) (peeked E s) = line_offset (m_input E) s.
Proof. apply step_line, Step_peeked. Qed.

(** C9, as the code has it: the line counter is one more than the number
    of newlines the cursor has passed.  [getch] moves it with the newline
    it consumes, [ungetch] of a newline takes one off again, and [peek],
    [read_bsnl] and the three region handlers keep the difference; so it
    is 1 after any number of rounds of the scan, and when the scan is
    over or was ended by an assertion. *)
Theorem line_counter_is_one_more_than_newlines_passed (E : Env) :
  (forall s, line_offset (m_input E) (snd (getch E s)) = line_offset (m_input E) s)
  /\ (forall c s,
        nline (snd (ungetch c s)) =
        nline s - (if int_of_char c =? chr NL then 1 else 0)
        /\ itr (snd (ungetch c s)) = pred (itr s))
  /\ (forall s, line_offset (m_input E) (snd (peek E s)) = line_offset (m_input E) s)
  /\ (forall s, line_offset (m_input E) (snd (read_bsnl E s)) = line_offset (m_input E) s)
  /\ (forall c s, line_offset (m_input E) (snd (c_comment E c s)) = line_offset (m_input E) s)
  /\ (forall c oc s,
        line_offset (m_input E) (snd (cpp_comment E c oc s)) = line_offset (m_input E) s)
  /\ (forall c s, line_offset (m_input E) (snd (non_comment E c s)) = line_offset (m_input E) s)
  /\ (forall k,
        nline (after_rounds E k) =
        1 + newlines_before (m_input E) (itr (after_rounds E k)))
  /\ nline (snd (scc E initial_State)) =
     1 + newlines_before (m_input E) (itr (snd (scc E initial_State))).
Proof.
  assert (R : forall k, nline (after_rounds E k) =
                        1 + newlines_before (m_input E) (itr (after_rounds E k))).
  { intros k. pose proof (line_offset_rounds E k (chr NUL) NonComment scan_start) as H.
    assert (H0 : line_offset (m_input E) scan_start = 1) by reflexivity.
    rewrite H0 in H. unfold after_rounds. unfold line_offset in H. lia. }
  repeat split.
  - intros s. apply step_line, steps_getch.
  - unfold ungetch, bind, when, gets, modify, ret.
    destruct (int_of_char c =? chr NL); cbn; destruct (itr s =? 0)%nat; cbn; lia.
  - unfold ungetch, bind, when, gets, modify, ret.
    destruct (int_of_char c =? chr NL); cbn; destruct (itr s =? 0)%nat eqn:Z0; cbn;
      try reflexivity; apply Nat.eqb_eq in Z0; now rewrite Z0.
  - intros s. apply step_line, steps_peek.
  - intros s. apply step_line, steps_read_bsnl.
  - intros c s. apply step_line, steps_c_comment.
  - intros c oc s. apply step_line, steps_cpp_comment.
  - intros c s. apply step_line, steps_non_comment.
  - exact R.
  - rewrite scc_eq. destruct (final_status E) as [status|]; cbn [snd]; [|apply R].
    destruct (negb _); [cbn|]; apply R.
Qed.

(** C9 as the claim has it fails: scanning ["a"] passes no newline, and the
    line counter is 1. *)
Lemma line_counter_is_not_newlines_passed :
  exists o,
    SCC_default (str "a") (Standard_value C18) = Some o
    /\ nline (members o) <> newlines_before (str "a") (itr (members o)).
Proof. vm_compute. eexists. split; [reflexivity | discriminate]. Qed.

(** X14: where the cursor is not at the byte 0xFF, and at the end of the
    input too, [peek] gives what the next [getch] gives and leaves every
    member as it was, cursor and line counter among them. *)
Lemma peek_is_getch_without_moving (E : Env) (s : State) :
  nth (itr s) (m_input E) NUL <> EOF_byte ->
  peek E s = (fst (getch E s), s).
Proof.
  intros H. rewrite peek_next, getch_next. cbn [fst]. f_equal.
  unfold peeked, next, at_end, peekc.
  destruct (List.length (m_input E) <=? itr s)%nat; [reflexivity|].
  now rewrite int_of_char_not_EOF.
Qed.

Lemma peek_is_getch_without_moving_witness :
  peek (Env_of (str "ab") C18 false false false NUL NUL) scan_start
  = (chr "a", scan_start).
Proof.
  refine (peek_is_getch_without_moving
            (Env_of (str "ab") C18 false false false NUL NUL) scan_start _).
  discriminate.
Defined.

(** C10 fails at the byte 0xFF: [getch] returns it as -1, which is [EOF],
    after it has moved the cursor, and [peek] pushes back nothing that
    compares equal to [EOF].  With the byte 0xFF and ["a"] for input,
    [peek] at the start returns [EOF] and leaves the cursor at 1, and the
    [getch] that follows returns ["a"], not what [peek] returned. *)
Theorem peek_moves_the_cursor_at_byte_255 :
  let E := Env_of ["255"%char; "a"%char] C18 false false false NUL NUL in
  fst (peek E scan_start) = EOF
  /\ itr scan_start = 0%nat
  /\ itr (snd (peek E scan_start)) = 1%nat
  /\ fst (getch E (snd (peek E scan_start))) = chr "a"
  /\ peek E scan_start <> (fst (getch E scan_start), scan_start).
Proof. vm_compute. repeat split. discriminate. Qed.

(** C3, as the code has it: of ["a//b", newline, "c"] a standard with
    double slash comments leaves ["a"], the newline and ["c"]: the comment
    goes and nothing stands for it.  A standard without them keeps the
    text as it is and warns once that the feature is not supported. *)
Theorem line_comment_leaves_no_blank (st : Standard) :
  exists o,
    SCC_default (str "a//b" ++ [NL] ++ str "c") (Standard_value st) = Some o
    /\ if f_DoubleSlash (features_of st) then
         result o = str "a" ++ [NL] ++ str "c"
         /\ comment_chan (members o) = str "//b"
         /\ console (members o) = []
       else
         result o = str "a//b" ++ [NL] ++ str "c"
         /\ comment_chan (members o) = []
         /\ console (members o) =
            [(1, ("Double slash comment feature used but not supported in "
                    ++ standardToString (Standard_value st))%string)].
Proof. destruct st; vm_compute; eexists; (split; [reflexivity|]); repeat split. Qed.

(** C3 as the claim has it fails: under C99 the code put out does not
    start with ["a c"]. *)
Lemma line_comment_output_is_not_a_blank_c :
  exists o,
    SCC_default (str "a//b" ++ [NL] ++ str "c") (Standard_value C99) = Some o
    /\ ~ exists rest, result o = str "a c" ++ rest.
Proof.
  vm_compute. eexists. split; [reflexivity|]. intros [rest H]. discriminate.
Qed.

(** X13: inside a literal quoted by [q], a run of [N] backslashes followed
    by a character [c] that is no newline, and not the byte 0xFF that is
    read as the end of the input, is written as [N / 2] pairs of
    backslashes and, when [N] is odd, one more backslash with [c] as the
    escaped character, each through [put_quote_char]; when [N] is even [c]
    follows as it is.  The loop of [endquote] returns there, with the
    literal closed, exactly when [N] is even and [c] is the quote; in every
    other case, an odd run before the quote among them, it goes on with
    what follows [c]. *)
Lemma backslash_run_parity (E : Env) (q : ascii) (msg : string)
    (N : nat) (c : ascii) (r : list ascii) (n : nat) (s : State) :
  q = SQUOTE \/ q = DQUOTE ->
  (0 < N)%nat ->
  rest_of E s = repeat BSLASH N ++ c :: r ->
  c <> BSLASH -> c <> NL -> c <> EOF_byte ->
  exists s',
    Emits E s s' (repeat BSLASH N ++ [c])
      (repeat (quoted E q BSLASH) (2 * (N / 2))
         ++ (if Nat.even N then [c] else [quoted E q BSLASH; quoted E q c]))
      (if negb (Nat.even N)
          && ((int_of_char c =? chr "u") || (int_of_char c =? chr "U"))
          && negb (f_Universal (features E))
       then [(nline s, feature_text E F_UNIVERSAL)] else [])
    /\ endquote_loop E (S n) q msg s =
       (if Nat.even N && Ascii.eqb c q then (Returned, s')
        else endquote_loop E n q msg s')
    /\ (Nat.even N && Ascii.eqb c q = true -> endquote E q msg s = (tt, s')).
Proof.
  intros Hq HN H Hc Hnl Hf.
  destruct N as [|N]; [lia|]. cbn [repeat app] in H.
  destruct (rest_cons_at E s BSLASH _ H) as [P [Q R]]; [discriminate|].
  assert (Qc : (int_of_char c =? EOF) = false) by (now apply int_of_char_not_EOF).
  assert (HF : (N < fuel E)%nat).
  { unfold fuel. unfold rest_of in H.
    assert (X : List.length (skipn (itr s) (m_input E)) =
                List.length (BSLASH :: repeat BSLASH N ++ c :: r)) by now rewrite H.
    rewrite length_skipn in X. cbn [List.length] in X.
    rewrite length_app, repeat_length in X. lia. }
  destruct (count_backslashes_run E N (fuel E) 1 (advance E s) c r R Hc Hf HF)
    as [s2 [Hcb E2]].
  pose proof (Emits_advance E s BSLASH _ H) as E1.
  pose proof (Emits_every_second E q N s2) as E3.
  set (s3 := snd (every_second N (put_quote_str E q [BSLASH; BSLASH]) s2)) in *.
  assert (Hloop : forall k, endquote_loop E (S k) q msg s =
    (every_second N (put_quote_str E q [BSLASH; BSLASH]);;;
     (if (S N mod 2 =? 0)%nat
      then s_putch E c;;;
           (if int_of_char c =? int_of_char q then ret Returned
            else endquote_loop E k q msg)
      else put_quote_char E q BSLASH;;;
           put_quote_char E q c;;;
           when (((int_of_char c =? chr "u") || (int_of_char c =? chr "U"))
                 && negb (f_Universal (features E)))
             (warn_feature E F_UNIVERSAL);;;
           endquote_loop E k q msg)) s2).
  { intros k. cbn [endquote_loop]. rewrite bind_eq, (getch_ne E s Q). cbn [fst snd].
    rewrite P. change (chr BSLASH) with (int_of_char BSLASH).
    change (int_of_char BSLASH =? EOF) with false.
    rewrite int_of_char_eqb, Z.eqb_refl.
    assert (X : Ascii.eqb BSLASH q = false) by (destruct Hq; subst q; reflexivity).
    rewrite X. cbn [negb andb].
    rewrite bind_eq, Hcb. cbn [fst snd].
    rewrite Qc.
    change (chr NL) with (int_of_char NL). rewrite int_of_char_eqb.
    destruct (Ascii.eqb_spec c NL) as [e|_]; [contradiction|].
    rewrite !to_char_int_of_char.
    replace (1 + N - 1)%nat with N by lia. reflexivity. }
  assert (Z0 : Z.of_nat (count_occ ascii_dec (repeat BSLASH N ++ [c]) NL) = 0).
  { rewrite count_occ_app, count_occ_repeat_other by discriminate.
    cbn [count_occ]. destruct (ascii_dec c NL); [contradiction | reflexivity]. }
  assert (D : (2 * (S N / 2) = 2 * ((N + 1) / 2))%nat) by (now rewrite Nat.add_1_r).
  rewrite mod2_even in Hloop.
  destruct (Nat.even (S N)) eqn:Ev; cbn [negb andb].
  - (* an even run: [c] follows as it is *)
    pose proof (Emits_s_putch E c s3) as E4.
    exists (snd (s_putch E c s3)). split; [|split].
    + eapply Emits_eq;
        [exact (Emits_trans E _ _ _ _ _ _ _ _ _ E1
                  (Emits_trans E _ _ _ _ _ _ _ _ _ E2
                     (Emits_trans E _ _ _ _ _ _ _ _ _ E3 E4))) | | |].
      * cbn [app]. now rewrite !app_nil_r.
      * cbn [app]. now rewrite D.
      * reflexivity.
    + rewrite Hloop, bind_eq. fold s3. rewrite bind_eq, int_of_char_eqb.
      destruct (Ascii.eqb c q); reflexivity.
    + intros Hcq. unfold endquote.
      change (fuel E) with (S (List.length (m_input E))).
      rewrite bind_eq, Hloop, bind_eq. fold s3.
      rewrite bind_eq, int_of_char_eqb, Hcq. reflexivity.
  - (* an odd run: the last backslash escapes [c] *)
    pose proof (Emits_put_quote_char E q BSLASH s3) as E4.
    set (s4 := snd (put_quote_char E q BSLASH s3)) in *.
    pose proof (Emits_put_quote_char E q c s4) as E5.
    set (s5 := snd (put_quote_char E q c s4)) in *.
    pose proof (Emits_trans E _ _ _ _ _ _ _ _ _ E1
                  (Emits_trans E _ _ _ _ _ _ _ _ _ E2
                     (Emits_trans E _ _ _ _ _ _ _ _ _ E3
                        (Emits_trans E _ _ _ _ _ _ _ _ _ E4 E5)))) as E15.
    assert (L5 : nline s5 = nline s).
    { rewrite (em_nline _ _ _ _ _ _ E15). cbn [app]. rewrite !app_nil_r.
      cbn [count_occ]. destruct (ascii_dec BSLASH NL); [discriminate|]. lia. }
    set (u := ((int_of_char c =? chr "u") || (int_of_char c =? chr "U"))
              && negb (f_Universal (features E))) in *.
    exists (snd (when u (warn_feature E F_UNIVERSAL) s5)). split; [|split].
    + assert (E6 : Emits E s5 (snd (when u (warn_feature E F_UNIVERSAL) s5)) [] []
                     (if u then [(nline s, feature_text E F_UNIVERSAL)] else [])).
      { destruct u; cbn [when].
        - rewrite <- L5. apply Emits_warn_feature.
        - apply Emits_refl. }
      eapply Emits_eq; [exact (Emits_trans E _ _ _ _ _ _ _ _ _ E15 E6) | | |].
      * cbn [app]. now rewrite !app_nil_r.
      * cbn [app]. rewrite D, !app_nil_r. reflexivity.
      * reflexivity.
    + rewrite Hloop, bind_eq. fold s3. rewrite bind_eq. fold s4.
      rewrite bind_eq. fold s5. rewrite bind_eq. reflexivity.
    + discriminate.
Qed.

Lemma backslash_run_parity_witness :
  exists s',
    endquote_loop (Env_of [BSLASH; DQUOTE; "x"%char] C18 false false false NUL NUL)
      1 DQUOTE "string literal" scan_start =
    endquote_loop (Env_of [BSLASH; DQUOTE; "x"%char] C18 false false false NUL NUL)
      0 DQUOTE "string literal" s'
    /\ code_chan s' = [BSLASH; DQUOTE].
Proof.
  destruct (backslash_run_parity
              (Env_of [BSLASH; DQUOTE; "x"%char] C18 false false false NUL NUL)
              DQUOTE "string literal" 1 DQUOTE ["x"%char] 0 scan_start)
    as [s' [He [Hl _]]].
  - right. reflexivity.
  - lia.
  - reflexivity.
  - discriminate.
  - discriminate.
  - discriminate.
  - exists s'. split; [exact Hl|]. exact (em_code _ _ _ _ _ _ He).
Defined.

(** C6 fails where the character behind the run is the byte 0xFF: of a
    double quote, a backslash, the byte 0xFF and a double quote, the one
    backslash is odd, so the byte is escaped and the second quote closes
    the literal; but [getch] returns the byte as [EOF], [endquote] writes
    the backslash, leaves its loop and writes a closing quote, the byte is
    lost, and the quote that follows opens a literal that the end of the
    input cuts.  With a run of two the byte ends the literal in the same
    way.  With ["a"] in the place of the byte the text is put out as it
    is. *)
Theorem backslash_before_byte_255_ends_the_literal :
  exists odd even sibling,
    SCC_default [DQUOTE; BSLASH; "255"%char; DQUOTE] (Standard_value C18) = Some odd
    /\ result odd = [DQUOTE; BSLASH; DQUOTE; DQUOTE]
    /\ console (members odd) = [(1, "EOF in string literal"%string)]
    /\ SCC_default [DQUOTE; BSLASH; BSLASH; "255"%char; DQUOTE] (Standard_value C18)
       = Some even
    /\ result even = [DQUOTE; BSLASH; BSLASH; DQUOTE; DQUOTE]
    /\ console (members even) = [(1, "EOF in string literal"%string)]
    /\ SCC_default [DQUOTE; BSLASH; "a"%char; DQUOTE] (Standard_value C18) = Some sibling
    /\ result sibling = [DQUOTE; BSLASH; "a"%char; DQUOTE]
    /\ console (members sibling) = [].
Proof.
  vm_compute. do 3 eexists.
  repeat (split; [reflexivity|]). reflexivity.
Qed.
(** X17: in plain code, at any place of any input and under a standard
    without digit separators, the round of the scan that starts at a
    well-formed literal reads the whole literal, writes it to the code
    channel unchanged and prints the warning that numeric punctuation is
    not supported once for every digit separator of the literal, each with
    the line of the literal, and nothing else.  The literal is
    hexadecimal, binary, octal or decimal: what it starts with ([0x], [0b],
    [0], a digit that is not [0]), then groups of one or more digits of its
    base with a single quote between each two; behind it the input ends,
    or a character below 0x80 follows that is no letter, digit, single
    quote or period.  A binary literal gets the warning of binary literals
    first, where the standard has none.  The scan goes on right behind the
    literal, still in plain code. *)
Theorem separated_literal_warnings
    (E : Env) (b : Base) (h g0 : list ascii) (gs : list (list ascii))
    (r : list ascii) (k : nat) (oc : int) (s : State) :
  f_NumPunct (features E) = false ->
  heads b h -> group b g0 = true -> forallb (group b) gs = true ->
  ends_number r ->
  rest_of E s = h ++ groups g0 gs ++ r ->
  exists s',
    scc_loop E (S k) oc NonComment s
    = scc_loop E k (int_of_char (hd NUL h)) NonComment s'
    /\ rest_of E s' = r
    /\ Emits E s s' (h ++ groups g0 gs) (h ++ groups g0 gs)
         (binary_warning E b (nline s)
            ++ repeat (nline s, feature_text E F_NUMPUNCT) (List.length gs)).
Proof. exact (scc_loop_literal E b h g0 gs r k oc s). Qed.

Lemma separated_literal_warnings_witness :
  exists s',
    scc_loop (Env_of (str "n = 12'345'678;") CXX11 false false false NUL NUL)
      8 (chr " ") NonComment
      (set_itr 4 scan_start)
    = scc_loop (Env_of (str "n = 12'345'678;") CXX11 false false false NUL NUL)
        7 (chr "1") NonComment s'
    /\ rest_of (Env_of (str "n = 12'345'678;") CXX11 false false false NUL NUL) s'
       = str ";"
    /\ Emits (Env_of (str "n = 12'345'678;") CXX11 false false false NUL NUL)
         (set_itr 4 scan_start) s' (str "12'345'678") (str "12'345'678")
         [(1, "Numeric punctuation feature used but not supported in C++11"%string);
          (1, "Numeric punctuation feature used but not supported in C++11"%string)].
Proof.
  apply (separated_literal_warnings
           (Env_of (str "n = 12'345'678;") CXX11 false false false NUL NUL)
           Decimal (str "1") (str "2") [str "345"; str "678"] (str ";")
           7 (chr " ") (set_itr 4 scan_start)).
  - reflexivity.
  - exists "1"%char. repeat split; discriminate.
  - reflexivity.
  - reflexivity.
  - repeat split; discriminate.
  - reflexivity.
Defined.



(** C5, as the code has it: the scan of an input that holds no NUL and no
    byte 0xFF and whose end cuts no token ([ends_whole]: the input is
    empty, or its last character is no backslash, none of [u], [U], [L],
    [R] and [8], and, where the input holds an [R] directly before a
    double quote, a double quote, a blank, a tab, a vertical tab, a form
    feed or a newline; an input that ends in a newline is such), that is
    not ended by an assertion and meets no raw string marker of more than
    16 characters, writes to the code channel and the comment channel
    together, what stands in for comments not counted, exactly as many
    characters as the input holds.  A backslash with its newline is
    written like any other character, so the count is that of the input
    as it is, not of the input with these pairs taken out. *)
Theorem every_character_read_is_routed
    (input : list ascii) (st : Standard) (pc pe wn : bool) (qc sc : ascii)
    (o : Object) :
  ~ In NUL input -> ends_whole input = true -> ~ In EOF_byte input ->
  SCC input (Standard_value st) pc pe wn qc sc = Some o ->
  tidy (console (members o)) = true ->
  routed (members o) = Z.of_nat (List.length input).
Proof.
  intros Nn Wh Lg H T.
  destruct (scan_woven input st pc pe wn qc sc o Nn Wh Lg H T) as [tr [R [C [M [F _]]]]].
  pose proof (trace_lengths tr) as X. unfold routed.
  rewrite <- C, <- M, <- F, <- R. lia.
Qed.

Lemma every_character_read_is_routed_witness :
  exists o,
    SCC_default (str "x = 'c' + L" ++ [DQUOTE] ++ str "s" ++ [BSLASH; BSLASH; DQUOTE]
                   ++ str "; /* k */ 0x1'2 // d" ++ [BSLASH; NL] ++ str "e")
      (Standard_value CXX11) = Some o
    /\ routed (members o) = 39.
Proof.
  eexists. split.
  - vm_compute. reflexivity.
  - refine (every_character_read_is_routed
              (str "x = 'c' + L" ++ [DQUOTE] ++ str "s" ++ [BSLASH; BSLASH; DQUOTE]
                 ++ str "; /* k */ 0x1'2 // d" ++ [BSLASH; NL] ++ str "e")
              CXX11 false false false NUL NUL _ _ _ _ _ _).
    + intros H. repeat (destruct H as [H|H]; [discriminate H|]). exact H.
    + reflexivity.
    + apply legible_check. reflexivity.
    + vm_compute. reflexivity.
    + vm_compute. reflexivity.
Defined.

(** C5 as the claim has it fails.  Of ["/"], backslash, newline, ["* x */"],
    newline, all ten characters go to a channel, the backslash and its
    newline between the two of the comment start among them; with the pair
    taken out the input has eight.  And characters are lost or doubled
    where the input is not what the theorem asks for: of ["x = R"] the [R]
    at the end is read as a literal prefix and never written; a raw string
    that the end of the input cuts inside its closing sequence loses what
    was read of that; a literal that the end of the input cuts behind a
    backslash gets a closing quote that was not read; of [R], a double
    quote, NUL, a double quote, newline, the NUL is not written; a raw
    string marker of 17 characters has its last character written twice;
    of ["a"], the byte 0xFF, ["b"], newline, the byte is not written; and
    with the byte 0xE9 behind ["a"] there is no object. *)
Lemma spliced_pairs_are_routed_too :
  (exists o,
     SCC_default (str "/" ++ [BSLASH; NL] ++ str "* x */" ++ [NL])
       (Standard_value CXX17) = Some o
     /\ routed (members o) = 10
     /\ Z.of_nat (List.length (spliced (str "/" ++ [BSLASH; NL] ++ str "* x */" ++ [NL])))
        = 8
     /\ comment_chan (members o) = str "/" ++ [BSLASH; NL] ++ str "* x */")
  /\ (exists o,
        SCC_default (str "x = R") (Standard_value C18) = Some o
        /\ routed (members o) = 4 /\ result o = str "x = ")
  /\ (exists o,
        SCC_default (str "R" ++ [DQUOTE] ++ str "x(abc)x") (Standard_value CXX11)
        = Some o
        /\ routed (members o) = 7 /\ result o = str "R" ++ [DQUOTE] ++ str "x(abc")
  /\ (exists o,
        SCC_default [DQUOTE; BSLASH] (Standard_value C18) = Some o
        /\ routed (members o) = 3 /\ result o = [DQUOTE; BSLASH; DQUOTE])
  /\ (exists o,
        SCC_default (str "R" ++ [DQUOTE; NUL; DQUOTE; NL]) (Standard_value CXX11)
        = Some o
        /\ routed (members o) = 4 /\ result o = str "R" ++ [DQUOTE; DQUOTE; NL])
  /\ (exists o,
        SCC_default (str "R" ++ [DQUOTE] ++ str "12345678901234567(x)12345678901234567"
                       ++ [DQUOTE; NL]) (Standard_value CXX11) = Some o
        /\ routed (members o) = 42
        /\ result o = str "R" ++ [DQUOTE] ++ str "123456789012345677(x)12345678901234567"
                        ++ [DQUOTE; NL]
        /\ tidy (console (members o)) = false)
  /\ (exists o,
        SCC_default (str "a" ++ ["255"%char] ++ str "b" ++ [NL]) (Standard_value C18)
        = Some o
        /\ routed (members o) = 3 /\ result o = str "ab" ++ [NL])
  /\ SCC_default (str "a" ++ ["233"%char] ++ [NL]) (Standard_value C18) = None.
Proof.
  repeat split; try (eexists; vm_compute; repeat split).
Qed.

(** X10: with an input that holds no NUL and no byte 0xFF and whose end
    cuts no token ([ends_whole]; an input that ends in a newline is such),
    a scan that no assertion ended and no raw string marker of more than
    16 characters met, the characters of the input went, one by one and in the order of the input, each to
    exactly one of the two channels: there is a list of marks, one for
    every character of the input and one for every character that stands
    in for a comment, of which the characters read are the input, the
    characters written to the code channel are the code channel, those
    written to the comment channel are the comment channel; a character of
    the code channel is the character read or the replacement
    [put_quote_char] put for it. *)
Theorem channels_interleave_to_the_input
    (input : list ascii) (st : Standard) (pc pe wn : bool) (qc sc : ascii)
    (o : Object) :
  ~ In NUL input -> ends_whole input = true -> ~ In EOF_byte input ->
  SCC input (Standard_value st) pc pe wn qc sc = Some o ->
  tidy (console (members o)) = true ->
  exists tr,
    read_of tr = input
    /\ code_of tr = code_chan (members o)
    /\ comment_of tr = comment_chan (members o)
    /\ fills_of tr = n_fill (members o)
    /\ Forall (faithful (Env_of input st pc pe wn qc sc)) tr.
Proof.
  intros Nn Wh Lg H T.
  destruct (scan_woven input st pc pe wn qc sc o Nn Wh Lg H T)
    as [tr [R [C [M [F [Fa _]]]]]].
  exists tr. repeat split; assumption.
Qed.

Lemma channels_interleave_to_the_input_witness :
  exists tr,
    read_of tr = str "a /* b */ 'c' // d" ++ [NL]
    /\ code_of tr = str "a   'X' " ++ [NL]
    /\ comment_of tr = str "/* b */// d".
Proof.
  destruct (channels_interleave_to_the_input
              (str "a /* b */ 'c' // d" ++ [NL]) CXX17 false false false "X" NUL
              (mkObject true
                 (snd (scc (Env_of (str "a /* b */ 'c' // d" ++ [NL]) CXX17
                              false false false "X" NUL) initial_State))))
    as [tr [H1 [H2 [H3 _]]]].
  - intros H. repeat (destruct H as [H|H]; [discriminate H|]). exact H.
  - reflexivity.
  - apply legible_check. reflexivity.
  - vm_compute. reflexivity.
  - vm_compute. reflexivity.
  - exists tr. split; [exact H1|]. split; [exact H2 | exact H3].
Defined.

(** X11: an input without any slash, NUL and byte 0xFF, whose end cuts no
    token ([ends_whole]; an input that ends in a newline is such), with no
    replacement characters set, a scan that no assertion ended and no raw
    string marker of more than 16 characters met, is put out as it is when
    the code is put out: the result is the input, and nothing went to the
    comment channel or stood in for a comment. *)
Theorem text_without_a_slash_is_unchanged
    (input : list ascii) (st : Standard) (pe wn : bool) (o : Object) :
  ~ In NUL input -> ends_whole input = true -> ~ In EOF_byte input ->
  ~ In "/"%char input ->
  SCC input (Standard_value st) false pe wn NUL NUL = Some o ->
  tidy (console (members o)) = true ->
  result o = input
  /\ comment_chan (members o) = []
  /\ n_fill (members o) = 0%nat.
Proof.
  intros Nn Wh Lg Ns H T.
  destruct (scan_woven input st false pe wn NUL NUL o Nn Wh Lg H T)
    as [tr [R [C [M [F [Fa [I1 I2]]]]]]].
  destruct (members_built _ _ _ _ _ _ _ _ H) as [status [_ [_ [M2 [_ [_ [M5 _]]]]]]].
  set (E := Env_of input st false pe wn NUL NUL) in *.
  assert (M0 : comment_chan (members o) = []).
  { destruct I2 as [I2|[t I2]]; [exact I2|]. exfalso. apply Ns.
    assert (X : In "/"%char (read_of tr)).
    { apply comment_of_read_of. rewrite M, I2. now left. }
    rewrite R in X. exact X. }
  assert (F0 : n_fill (members o) = 0%nat).
  { destruct I1 as [I1|I1]; [exact I1 | contradiction]. }
  split; [|split; assumption].
  unfold result. rewrite M5.
  destruct (Step_full_scan E) as [_ _ _ _ [d [Ha Hr]] _].
  change (fuel E) with (S (List.length input)) in Ha, Hr.
  unfold active in Ha. cbn in Ha, Hr. rewrite Hr, <- Ha, <- M2, <- C.
  transitivity (read_of tr); [|exact R].
  apply (code_of_read_of E); auto.
  - intros q c. unfold quoted.
    change (int_of_char (qchar E) =? 0) with true.
    change (int_of_char (schar E) =? 0) with true.
    cbn [negb]. now rewrite !andb_false_r.
  - now rewrite M.
  - now rewrite F.
Qed.

Lemma text_without_a_slash_is_unchanged_witness :
  exists o,
    SCC (str "u8R" ++ [DQUOTE] ++ str "x(a)y)x" ++ [DQUOTE] ++ str " = 'c' + L"
           ++ [DQUOTE] ++ str "s" ++ [BSLASH; BSLASH; DQUOTE]
           ++ str "; 0x1'2 * 3.5e-2 " ++ [NL] ++ str "  + 0b101;" ++ [NL])
      (Standard_value C99) false false false NUL NUL = Some o
    /\ result o
       = str "u8R" ++ [DQUOTE] ++ str "x(a)y)x" ++ [DQUOTE] ++ str " = 'c' + L"
           ++ [DQUOTE] ++ str "s" ++ [BSLASH; BSLASH; DQUOTE]
           ++ str "; 0x1'2 * 3.5e-2 " ++ [NL] ++ str "  + 0b101;" ++ [NL].
Proof.
  eexists. split.
  - vm_compute. reflexivity.
  - refine (proj1 (text_without_a_slash_is_unchanged
                     (str "u8R" ++ [DQUOTE] ++ str "x(a)y)x" ++ [DQUOTE]
                        ++ str " = 'c' + L" ++ [DQUOTE] ++ str "s"
                        ++ [BSLASH; BSLASH; DQUOTE]
                        ++ str "; 0x1'2 * 3.5e-2 " ++ [NL] ++ str "  + 0b101;" ++ [NL])
                     C99 false false _ _ _ _ _ _ _)).
    + intros H. repeat (destruct H as [H|H]; [discriminate H|]). exact H.
    + reflexivity.
    + apply legible_check. reflexivity.
    + intros H. repeat (destruct H as [H|H]; [discriminate H|]). exact H.
    + vm_compute. reflexivity.
    + vm_compute. reflexivity.
Defined.

(** ** The end of the scan *)

Lemma scc_loop_end (E : Env) (n : nat) :
  ~ In EOF_byte (m_input E) ->
  forall oc status s,
  enough E n (itr s) ->
  unless_aborted (fun _ s' => (List.length (m_input E) <= itr s')%nat)
    (scc_loop E n oc status s).
Proof.
  intros Lg. assert (legible_input : Legible E) by exact Lg.
  induction n as [|n IH]; intros oc status s H.
  - unfold enough in H. lia.
  - cbn [scc_loop]. rewrite bind_lift, (getch_eq E). cbn [fst snd].
    destruct (peekc E s =? EOF) eqn:HE.
    + ret_ok. rewrite (peekc_EOF E) in HE. now apply Nat.leb_le.
    + apply unless_bind. intros st _. apply IH.
      set (m := match status with
                | NonComment => non_comment E (peekc E s)
                | CComment => lift (c_comment E (peekc E s))
                | CppComment => lift (cpp_comment E (peekc E s) oc)
                end).
      assert (St : Step E (advance E s) (snd (m (advance E s)))).
      { subst m. from_here. destruct status; steps_tac. }
      pose proof (step_itr _ _ _ St) as I. rewrite itr_advance in I.
      now apply (enough_step E n s).
Qed.

(** X12: where the input holds no byte 0xFF and no assertion ended the
    scan, under every standard of the enumeration and every setting of the
    switches, the scan stops only at the end of the input; the text it
    leaves is the channel that was chosen, the comment channel if
    [printCommentsNotCode] is set and the code channel if not; and when it
    ends in plain code, the warning of an unterminated comment is not
    printed. *)
Theorem scan_stops_at_the_end_of_the_input
    (input : list ascii) (st : Standard) (pc pe wn : bool) (qc sc : ascii)
    (o : Object) :
  ~ In EOF_byte input ->
  SCC input (Standard_value st) pc pe wn qc sc = Some o ->
  itr (members o) = List.length input
  /\ result o = (if pc then comment_chan (members o) else code_chan (members o))
  /\ (final_status (Env_of input st pc pe wn qc sc) = Some NonComment ->
      occurrences unterminated_text (console (members o)) = 0%nat).
Proof.
  intros Lg H.
  destruct (members_built _ _ _ _ _ _ _ _ H)
    as [status [F [M1 [M2 [M3 [_ [M5 M6]]]]]]].
  set (E := Env_of input st pc pe wn qc sc) in *.
  pose proof (unless_Some _ _ _
                (scc_loop_end E (fuel E) Lg (chr NUL) NonComment scan_start
                   (enough_fuel E _)) F) as L.
  cbv beta in L. fold (after_rounds E (fuel E)) in L.
  destruct (Step_full_scan E) as [_ U _ [w [Hw Hq]] [d [Ha Hr]] _].
  specialize (U (Nat.le_0_l _)).
  change (fuel E) with (S (List.length input)) in *.
  change (m_input E) with input in *.
  unfold result. rewrite M1, M2, M3, M5.
  split; [|split].
  - lia.
  - unfold active in Ha. cbn in Ha, Hr. rewrite Hr.
    destruct pc; cbn in Ha; now rewrite Ha.
  - intros F'. rewrite F' in F. inversion F. subst status.
    rewrite M6. cbn [Comment_eqb negb]. rewrite app_nil_r, Hw.
    cbn [scan_start console set_nline set_l_cend set_l_nest initial_State app].
    now apply occurrences_quiet.
Qed.

Lemma scan_stops_at_the_end_of_the_input_witness :
  exists o,
    SCC_default (str "int a; /* b */ // c") (Standard_value CXX11) = Some o
    /\ itr (members o) = 19%nat
    /\ result o = code_chan (members o).
Proof.
  eexists. split.
  - vm_compute. reflexivity.
  - match goal with
    | |- itr (members ?o) = _ /\ _ =>
        destruct (scan_stops_at_the_end_of_the_input (str "int a; /* b */ // c")
                    CXX11 false false false NUL NUL o) as [X1 [X2 _]]
    end.
    + apply legible_check. reflexivity.
    + vm_compute. reflexivity.
    + split; [exact X1 | exact X2].
Defined.

(** X9: a raw string [R] with a marker of at most 16 characters, closed by
    the first closing sequence behind its body, with no byte 0xFF in
    marker and body, scanned as the whole input: the scan is not ended by
    an assertion, the code channel gets the input as it is, whatever the
    body holds, comment delimiters and right parentheses that do not close
    it among them; nothing goes to the comment channel, the scan ends in
    plain code, and the only warning possible is that of a standard
    without raw strings. *)
Theorem closed_raw_string_is_copied (st : Standard) (m body : list ascii) :
  valid_mark m -> ~ In LPAREN m -> (List.length m <= MAX_RAW_MARKER)%nat ->
  ~ In NUL body -> clean (closing m) (body ++ closing m) (List.length body) ->
  ~ In EOF_byte m -> ~ In EOF_byte body ->
  exists o,
    SCC_default ("R"%char :: DQUOTE :: m ++ LPAREN :: body ++ closing m)
      (Standard_value st) = Some o
    /\ code_chan (members o) = "R"%char :: DQUOTE :: m ++ LPAREN :: body ++ closing m
    /\ comment_chan (members o) = []
    /\ result o = "R"%char :: DQUOTE :: m ++ LPAREN :: body ++ closing m
    /\ console (members o) =
       (if f_RawString (features_of st) then []
        else [(1, feature_text
                    (Env_of ("R"%char :: DQUOTE :: m ++ LPAREN :: body ++ closing m)
                       st false false false NUL NUL) F_RAWSTRING)])
    /\ final_status (Env_of ("R"%char :: DQUOTE :: m ++ LPAREN :: body ++ closing m)
                       st false false false NUL NUL) = Some NonComment.
Proof.
  intros V NP Len NB C Lm Lb.
  set (input := "R"%char :: DQUOTE :: m ++ LPAREN :: body ++ closing m).
  set (E := Env_of input st false false false NUL NUL).
  assert (legible_input : Legible E).
  { intros X. change (In EOF_byte input) in X. subst input.
    destruct X as [X|[X|X]]; try discriminate X.
    apply in_app_or in X. destruct X as [X|[X|X]]; [now apply Lm | discriminate X |].
    apply in_app_or in X. destruct X as [X|[X|X]]; [now apply Lb | discriminate X |].
    apply in_app_or in X. destruct X as [X|[X|[]]]; [now apply Lm | discriminate X]. }
  destruct (scan_raw_string E m body V NP Len NB C eq_refl) as [s' [Heq Hem]].
  assert (F : final_status E = Some NonComment).
  { unfold final_status. now rewrite Heq. }
  exists (mkObject true s'). split.
  - unfold SCC_default. rewrite (SCC_built _ _ _ _ _ _ _ _ F).
    cbn [Comment_eqb negb]. unfold after_rounds. fold E. now rewrite Heq.
  - unfold result. cbn [members]. repeat split.
    + exact (em_code _ _ _ _ _ _ Hem).
    + exact (em_comment _ _ _ _ _ _ Hem).
    + rewrite (em_result _ _ _ _ _ _ Hem). reflexivity.
    + exact (em_console _ _ _ _ _ _ Hem).
    + exact F.
Qed.

Lemma closed_raw_string_is_copied_witness :
  exists o,
    SCC_default ("R"%char :: DQUOTE :: LPAREN :: str "contains /* not a comment */"
                   ++ [RPAREN; DQUOTE]) (Standard_value CXX11) = Some o
    /\ result o = "R"%char :: DQUOTE :: LPAREN :: str "contains /* not a comment */"
                    ++ [RPAREN; DQUOTE]
    /\ console (members o) = [] /\ comment_chan (members o) = [].
Proof.
  destruct (closed_raw_string_is_copied CXX11 [] (str "contains /* not a comment */"))
    as [o [H1 [_ [H2 [H3 [H4 _]]]]]].
  - constructor.
  - intros [].
  - cbn. lia.
  - intros H. repeat (destruct H as [H|H]; [discriminate H|]). exact H.
  - apply clean_forallb. reflexivity.
  - intros [].
  - apply legible_check. reflexivity.
  - exists o. split; [exact H1|]. split; [exact H3 | split; [exact H4 | exact H2]].
Defined.

(** C2 fails where the input ends inside the closing sequence: of the raw
    string [R], double quote, [x(abc)x] with nothing behind it, the right
    parenthesis and the [x] that were held back are not written, although
    they are when any character follows that does not go on with the
    closing sequence, as in [R], double quote, [x(abc)xy)x], double
    quote. *)
Theorem raw_string_cut_in_closing_sequence_loses_text :
  exists cut whole,
    SCC_default (str "R" ++ [DQUOTE] ++ str "x(abc)x") (Standard_value CXX11) = Some cut
    /\ SCC_default (str "R" ++ [DQUOTE] ++ str "x(abc)xy)x" ++ [DQUOTE])
         (Standard_value CXX11) = Some whole
    /\ code_chan (members cut) = str "R" ++ [DQUOTE] ++ str "x(abc"
    /\ comment_chan (members cut) = []
    /\ console (members cut)
       = [(1, "Unexpected EOF in raw string starting at this line"%string)]
    /\ code_chan (members whole) = str "R" ++ [DQUOTE] ++ str "x(abc)xy)x" ++ [DQUOTE]
    /\ console (members whole) = [].
Proof. eexists. eexists. vm_compute. repeat split. Qed.
